(** * pkappa2: stream manager and converter cache

    A shallow embedding of two parts of the pkappa2 server core:

    - [ConverterCache]: the per-converter cache file
      ([internal/index/converters], type [cacheFile]): the on-disk record
      layout, [readVarInt], [Data], [DataForSearch] and [SetData] with its
      cleanup pass;
    - [Manager]: the single-writer stream manager ([internal/index/manager]):
      tags and their uncertainty, the merge scheduler, the index release
      pool and the read view;
    - [Filters]: the cache file of a filter ([internal/index/filters]), its
      writer and its reader.

    Conventions.  Go's [uint64] stream ids are [N]; sizes, offsets and
    counters are [Z], with the 64-bit wrap-around written where the source
    computes on values it has read from a file.  A byte is a [Z] in
    [0, 256).  A [LongBitmask] is the finite set of its set bits. *)

From Stdlib Require Import ZArith Lia Ascii Sorted.
From stdpp Require Import gmap strings list fin_maps pretty.

Local Open Scope Z_scope.

(** ** Results of fallible operations *)

Inductive error : Type :=
| EOF                (* io.EOF *)
| ErrUnexpectedEOF   (* io.ErrUnexpectedEOF *)
| ErrNegative        (* a negative offset or count handed to the os *)
| ErrMsg (msg : string)
| ErrWrap (msg : string) (cause : error).   (* fmt.Errorf("...: %w", err) *)

Inductive result (A : Type) : Type :=
| Ok (a : A)
| Err (e : error).
Arguments Ok {A} a.
Arguments Err {A} e.

Definition wrap64 (z : Z) : Z := z mod 2 ^ 64.

(** [%q] of a name in which nothing has to be escaped. *)
Definition quoted (s : string) : string :=
  String "034"%char (s +:+ String "034"%char EmptyString).

Module ConverterCache.

(** *** index.Direction and index.Data *)

Inductive Direction : Type :=
| DirectionClientToServer
| DirectionServerToClient.

#[global] Instance Direction_eq_dec : EqDecision Direction.
Proof. solve_decision. Defined.

Definition Reverse (d : Direction) : Direction :=
  match d with
  | DirectionClientToServer => DirectionServerToClient
  | DirectionServerToClient => DirectionClientToServer
  end.

Record IndexData : Type := mkData { Dir : Direction; Content : list Z }.

#[global] Instance IndexData_eq_dec : EqDecision IndexData.
Proof. solve_decision. Defined.

(** *** The file underneath: contents and the descriptor's position *)

Record osFile : Type := mkFile { contents : list Z; position : Z }.

Definition zeros (n : Z) : list Z := repeat 0 (Z.to_nat n).

(** [write(2)] at the current position: overwrites, extends, and fills a
    gap past the end with zero bytes. *)
Definition fileWrite (f : osFile) (p : list Z) : osFile :=
  let pos := Z.to_nat (position f) in
  let c := contents f in
  {| contents := take pos c ++ zeros (position f - Z.of_nat (length c))
                   ++ p ++ drop (pos + length p)%nat c;
     position := position f + Z.of_nat (length p) |}.

Definition fileTruncate (f : osFile) (n : Z) : result osFile :=
  if n <? 0 then Err ErrNegative
  else Ok {| contents := take (Z.to_nat n) (contents f)
                           ++ zeros (n - Z.of_nat (length (contents f)));
             position := position f |}.

Definition fileSeekStart (f : osFile) (off : Z) : result osFile :=
  if off <? 0 then Err ErrNegative
  else Ok {| contents := contents f; position := off |}.

(** [bufio.NewReader(io.NewSectionReader(file, off, n))]: the bytes of
    [file] in [off, off+n); reads use [ReadAt] and leave the position. *)
Definition sectionReader (f : osFile) (off n : Z) : list Z :=
  take (Z.to_nat n) (drop (Z.to_nat off) (contents f)).

(** [io.ReadFull] of [n] bytes. *)
Definition readFull (r : list Z) (n : Z) : result (list Z * list Z) :=
  if n <=? 0 then Ok ([], r)
  else if Z.of_nat (length r) <? n
       then Err (match r with [] => EOF | _ => ErrUnexpectedEOF end)
       else Ok (take (Z.to_nat n) r, drop (Z.to_nat n) r).

(** [bufio.Reader.Discard]. *)
Definition discard (r : list Z) (n : Z) : result (list Z) :=
  if n <? 0 then Err ErrNegative
  else if Z.of_nat (length r) <? n then Err EOF
  else Ok (drop (Z.to_nat n) r).

(** Little-endian [uint64], as [binary.Write]/[binary.Read] lay out
    [converterStreamSection]. *)
Definition le64 (v : N) : list Z :=
  map (fun i => Z.land (Z.shiftr (Z.of_N v) (8 * Z.of_nat i)) 255) (seq 0 8).

Definition headerSize : Z := 8.
Definition cleanupMinFreeSize : Z := 16 * 1024 * 1024.

(** *** readVarInt

    Big-endian groups of seven bits; a byte below 0x80 ends the number.
    The accumulator is a [uint64]: the shift wraps. *)

Fixpoint readVarInt_loop (r : list Z) (bytes res : Z)
  : result (Z * Z * list Z) :=
  match r with
  | [] => Err EOF
  | b :: r' =>
      let bytes := bytes + 1 in
      let res := Z.lor (wrap64 (Z.shiftl res 7)) (Z.land b 127) in
      if b <? 128 then Ok (res, bytes, r')
      else readVarInt_loop r' bytes res
  end.

Definition readVarInt (r : list Z) : result (Z * Z * list Z) :=
  readVarInt_loop r 0 0.

(** *** cacheFile *)

Record streamInfo : Type := mkInfo { offset : Z; size : Z }.

Record cacheFile : Type := mkCache {
  file : osFile;
  fileSize : Z;
  freeSize : Z;
  freeStart : Z;
  streamInfos : gmap N streamInfo
}.

(** [NewCacheFile] on a path that does not exist yet: [O_CREATE] makes an
    empty file, the header loop ends at once on [io.EOF]. *)
Definition NewCacheFile_empty : cacheFile :=
  {| file := {| contents := []; position := 0 |};
     fileSize := 0; freeSize := 0; freeStart := 0; streamInfos := ∅ |}.

Definition Contains (cf : cacheFile) (streamID : N) : bool :=
  bool_decide (is_Some (streamInfos cf !! streamID)).

(** [uint64] to [int]. *)
Definition toInt (z : Z) : Z := (z + 2 ^ 63) mod 2 ^ 64 - 2 ^ 63.

Record sizeAndDirection : Type := mkSD { Size : Z; Direction_ : Direction }.

(** The loop of [Data] that reads the chunk sizes.  Every round consumes
    a byte of [buffer], so [S (length buffer)] rounds of fuel are never
    used up ([readSizes_fuel]). *)
Fixpoint readSizes (fuel : nat) (buffer : list Z)
    (dataSizes : list sizeAndDirection) (prevWasZero : bool)
    (direction : Direction) (bytesC bytesS : Z)
  : option (result (list sizeAndDirection * Z * Z * list Z)) :=
  match fuel with
  | O => None
  | S fuel =>
      match readVarInt buffer with
      | Err e => Some (Err e)
      | Ok (sz, _, buffer) =>
          if (sz =? 0) && prevWasZero
          then Some (Ok (dataSizes, bytesC, bytesS, buffer))
          else
            let dataSizes :=
              dataSizes ++ [{| Size := sz; Direction_ := direction |}] in
            match direction with
            | DirectionClientToServer =>
                readSizes fuel buffer dataSizes (sz =? 0)
                  (Reverse direction) (wrap64 (bytesC + sz)) bytesS
            | DirectionServerToClient =>
                readSizes fuel buffer dataSizes (sz =? 0)
                  (Reverse direction) bytesC (wrap64 (bytesS + sz))
            end
      end
  end.

(** The loop of [Data] that cuts the two blocks back into chunks. *)
Fixpoint splitChunks (dataSizes : list sizeAndDirection)
    (clientData serverData : list Z) (data : list IndexData)
  : list IndexData :=
  match dataSizes with
  | [] => data
  | ds :: rest =>
      if Size ds =? 0 then splitChunks rest clientData serverData data
      else
        let n := Z.to_nat (Size ds) in
        match Direction_ ds with
        | DirectionClientToServer =>
            splitChunks rest (drop n clientData) serverData
              (data ++ [{| Dir := Direction_ ds; Content := take n clientData |}])
        | DirectionServerToClient =>
            splitChunks rest clientData (drop n serverData)
              (data ++ [{| Dir := Direction_ ds; Content := take n serverData |}])
        end
  end.

Definition outOfFuel : error := ErrMsg "out of fuel".

Definition newSectionReader (f : osFile) (off n : Z) : result (list Z) :=
  if off <? 0 then Err ErrNegative else Ok (sectionReader f off n).

(** [cacheFile.Data]: [None] is Go's nil slice of an unknown stream. *)
Definition Data (cf : cacheFile) (streamID : N)
  : result (option (list IndexData) * Z * Z) :=
  match streamInfos cf !! streamID with
  | None => Ok (None, 0, 0)
  | Some info =>
      match newSectionReader (file cf) (offset info) (size info) with
      | Err e => Err e
      | Ok buffer =>
          match readSizes (S (length buffer)) buffer []
                  false DirectionClientToServer 0 0 with
          | None => Err outOfFuel
          | Some (Err e) => Err e
          | Some (Ok (dataSizes, bytesC, bytesS, buffer)) =>
              match readFull buffer bytesC with
              | Err e => Err e
              | Ok (clientData, buffer) =>
                  match readFull buffer bytesS with
                  | Err e => Err e
                  | Ok (serverData, _) =>
                      Ok (Some (splitChunks dataSizes clientData serverData []),
                          bytesC, bytesS)
                  end
              end
          end
      end
  end.

(** The loop of [DataForSearch]: cumulative offsets per direction. *)
Fixpoint searchSizes (fuel : nat) (buffer : list Z)
    (dataSizes : list (Z * Z)) (prevWasZero : bool)
    (direction : Direction) (clientBytes serverBytes : Z)
  : option (result (list (Z * Z) * Z * Z * list Z)) :=
  match fuel with
  | O => None
  | S fuel =>
      let last := List.last dataSizes (0, 0) in
      match readVarInt buffer with
      | Err e => Some (Err e)
      | Ok (sz, _, buffer) =>
          if sz =? 0 then
            if prevWasZero
            then Some (Ok (dataSizes, clientBytes, serverBytes, buffer))
            else searchSizes fuel buffer dataSizes true (Reverse direction)
                   clientBytes serverBytes
          else
            match direction with
            | DirectionClientToServer =>
                searchSizes fuel buffer
                  (dataSizes ++ [(toInt (fst last + toInt sz), snd last)])
                  false (Reverse direction)
                  (wrap64 (clientBytes + sz)) serverBytes
            | DirectionServerToClient =>
                searchSizes fuel buffer
                  (dataSizes ++ [(fst last, toInt (snd last + toInt sz))])
                  false (Reverse direction)
                  clientBytes (wrap64 (serverBytes + sz))
            end
      end
  end.

(** [cacheFile.DataForSearch]: the two blocks, the offsets, the totals. *)
Definition DataForSearch (cf : cacheFile) (streamID : N)
  : result (list Z * list Z * list (Z * Z) * Z * Z) :=
  match streamInfos cf !! streamID with
  | None => Ok ([], [], [], 0, 0)
  | Some info =>
      match newSectionReader (file cf) (offset info) (size info) with
      | Err e => Err e
      | Ok buffer =>
          match searchSizes (S (length buffer)) buffer [(0, 0)]
                  false DirectionClientToServer 0 0 with
          | None => Err outOfFuel
          | Some (Err e) => Err e
          | Some (Ok (dataSizes, clientBytes, serverBytes, buffer)) =>
              match readFull buffer clientBytes with
              | Err e => Err e
              | Ok (clientData, buffer) =>
                  match readFull buffer serverBytes with
                  | Err e => Err e
                  | Ok (serverData, _) =>
                      Ok (clientData, serverData, dataSizes,
                          clientBytes, serverBytes)
                  end
              end
          end
      end
  end.

(** *** SetData *)

Definition with_file (cf : cacheFile) (f : osFile) : cacheFile :=
  {| file := f; fileSize := fileSize cf; freeSize := freeSize cf;
     freeStart := freeStart cf; streamInfos := streamInfos cf |}.

Definition with_free (cf : cacheFile) (sz start : Z) : cacheFile :=
  {| file := file cf; fileSize := fileSize cf; freeSize := sz;
     freeStart := start; streamInfos := streamInfos cf |}.

Definition with_infos (cf : cacheFile) (m : gmap N streamInfo) : cacheFile :=
  {| file := file cf; fileSize := fileSize cf; freeSize := freeSize cf;
     freeStart := freeStart cf; streamInfos := m |}.

(** A [bufio.Writer] on the file: what it holds back and the file as far
    as it has been written.  The buffer has 4096 bytes; a write that does
    not fit sends everything to the file. *)
Record bufWriter : Type := mkWriter { target : osFile; pending : list Z }.

Definition bufWrite (w : bufWriter) (p : list Z) : bufWriter :=
  if (length (pending w) + length p <=? 4096)%nat
  then {| target := target w; pending := pending w ++ p |}
  else {| target := fileWrite (target w) (pending w ++ p); pending := [] |}.

Definition bufFlush (w : bufWriter) : osFile :=
  fileWrite (target w) (pending w).

(** [io.CopyN(writer, reader, n)]. *)
Definition copyN (w : bufWriter) (reader : list Z) (n : Z)
  : bufWriter * list Z * option error :=
  if n <=? 0 then (w, reader, None)
  else if Z.of_nat (length reader) <? n
       then (bufWrite w reader, [], Some EOF)
       else (bufWrite w (take (Z.to_nat n) reader),
             drop (Z.to_nat n) reader, None).

(** The inner loop of the cleanup that adds up one record's chunk sizes
    ([for nZeros := 0; nZeros != 2;]). *)
Fixpoint skipSizes (fuel : nat) (reader : list Z) (dataSize pos : Z)
    (nZeros : nat) : option (result (Z * Z * list Z)) :=
  if (nZeros =? 2)%nat then Some (Ok (dataSize, pos, reader))
  else
    match fuel with
    | O => None
    | S fuel =>
        match readVarInt reader with
        | Err e => Some (Err e)
        | Ok (sz, n, reader) =>
            skipSizes fuel reader (toInt (dataSize + toInt sz)) (pos + n)
              (if sz =? 0 then S nZeros else O)
        end
    end.

Definition zeroInfo : streamInfo := {| offset := 0; size := 0 |}.

(** The cleanup loop ([for pos := cachefile.freeStart; ; ]).  The record
    at [pos] is kept when the entry of [streamID] (the argument of
    [SetData], as in the source) starts there, otherwise skipped.  Every
    round consumes the eight header bytes. *)
Fixpoint cleanupLoop (fuel : nat) (infos : gmap N streamInfo) (streamID : N)
    (reader : list Z) (writer : bufWriter) (pos : Z)
  : option (bufWriter * option error) :=
  match fuel with
  | O => None
  | S fuel =>
      match readFull reader headerSize with
      | Err EOF => Some (writer, None)
      | Err e => Some (writer, Some e)
      | Ok (header, reader) =>
          let pos := pos + headerSize in
          let info := default zeroInfo (infos !! streamID) in
          if offset info =? pos then
            let writer := bufWrite writer header in
            match copyN writer reader (toInt (size info)) with
            | (writer, _, Some e) => Some (writer, Some e)
            | (writer, reader, None) =>
                cleanupLoop fuel infos streamID reader writer
                  (pos + toInt (size info))
            end
          else
            match skipSizes (S (S (length reader))) reader 0 pos 0 with
            | None => Some (writer, Some outOfFuel)
            | Some (Err e) => Some (writer, Some e)
            | Some (Ok (dataSize, pos, reader)) =>
                match discard reader dataSize with
                | Err e => Some (writer, Some e)
                | Ok reader =>
                    cleanupLoop fuel infos streamID reader writer
                      (pos + dataSize)
                end
            end
      end
  end.

(** [if cachefile.freeSize >= cleanupMinFreeSize && ... { ... }]: the body.
    The buffered writer of the loop is never flushed. *)
Definition cleanupFile (cf : cacheFile) (streamID : N)
  : cacheFile * option error :=
  let cf := with_infos cf (delete streamID (streamInfos cf)) in
  match fileSeekStart (file cf) (freeStart cf) with
  | Err e => (cf, Some e)
  | Ok f =>
      let cf := with_file cf f in
      let reader := sectionReader f (freeStart cf) (fileSize cf - freeStart cf) in
      let writer := {| target := f; pending := [] |} in
      match cleanupLoop (S (length reader)) (streamInfos cf) streamID
              reader writer (freeStart cf) with
      | None => (cf, Some outOfFuel)
      | Some (writer, Some e) => (with_file cf (target writer), Some e)
      | Some (writer, None) =>
          match fileTruncate (target writer) (fileSize cf) with
          | Err e => (with_file cf (target writer), Some e)
          | Ok f => (with_free (with_file cf f) 0 (freeStart cf), None)
          end
      end
  end.

(** The encoder of one chunk size: [buf] has ten bytes and is filled from
    its end; [streamSize] counts the bytes.  A Go [int] needs nine. *)
Fixpoint putVarInt_loop (room : nat) (sz flag : Z) (buf : list Z)
    (streamSize : Z) : list Z * Z :=
  match room with
  | O => (buf, streamSize)
  | S room =>
      let streamSize := streamSize + 1 in
      let buf := Z.lor (Z.land sz 127) flag :: buf in
      let sz := Z.shiftr sz 7 in
      if sz =? 0 then (buf, streamSize)
      else putVarInt_loop room sz 128 buf streamSize
  end.

(** The loop over the packets that writes the chunk sizes. *)
Fixpoint writeSizes (convertedPackets : list IndexData) (wantDir : Direction)
    (out : list Z) (streamSize : Z) : list Z * Z :=
  match convertedPackets with
  | [] => (out, streamSize)
  | convertedPacket :: rest =>
      let sz := Z.of_nat (length (Content convertedPacket)) in
      let dir := Dir convertedPacket in
      let '(out, streamSize, wantDir) :=
        if decide (dir = wantDir) then (out, streamSize, wantDir)
        else (out ++ [0], streamSize + 1, Reverse wantDir) in
      let '(buf, streamSize) := putVarInt_loop 10 sz 0 [] streamSize in
      writeSizes rest (Reverse wantDir) (out ++ buf) streamSize
  end.

(** One direction's chunk data. *)
Fixpoint writeChunks (direction : Direction) (convertedPackets : list IndexData)
    (streamSize : Z) : list Z * Z :=
  match convertedPackets with
  | [] => ([], streamSize)
  | convertedPacket :: rest =>
      if decide (Dir convertedPacket = direction) then
        let '(out, streamSize) :=
          writeChunks direction rest
            (streamSize + Z.of_nat (length (Content convertedPacket))) in
        (Content convertedPacket ++ out, streamSize)
      else writeChunks direction rest streamSize
  end.

(** The second half of [SetData]: the new record goes through a fresh
    buffered writer, which is flushed, to the file's current position. *)
Definition appendRecord (cf : cacheFile) (streamID : N)
    (convertedPackets : list IndexData) : cacheFile :=
  let '(sizes, streamSize) :=
    writeSizes convertedPackets DirectionClientToServer [] 0 in
  let streamSize := streamSize + 2 in
  let '(clientData, streamSize) :=
    writeChunks DirectionClientToServer convertedPackets streamSize in
  let '(serverData, streamSize) :=
    writeChunks DirectionServerToClient convertedPackets streamSize in
  let out := le64 streamID ++ sizes ++ [0; 0] ++ clientData ++ serverData in
  {| file := fileWrite (file cf) out;
     fileSize := fileSize cf + headerSize + streamSize;
     freeSize := freeSize cf;
     freeStart := if freeStart cf =? fileSize cf
                  then freeStart cf + headerSize + streamSize
                  else freeStart cf;
     streamInfos := <[streamID := {| offset := fileSize cf + headerSize;
                                     size := streamSize |}]> (streamInfos cf) |}.

(** [int64(float64(fileSize) * cleanupMinFreeFactor)] with the factor 0.5:
    exact for every size below 2^53, where it is the quotient by two. *)
Definition halfOf (fileSize : Z) : Z := Z.quot fileSize 2.

Definition cleanupNeeded (cf : cacheFile) : bool :=
  (cleanupMinFreeSize <=? freeSize cf) && (halfOf (fileSize cf) <=? freeSize cf).

(** The first half of [SetData]: the older entry becomes free space. *)
Definition freeOlder (cf : cacheFile) (info : streamInfo) : cacheFile :=
  with_free cf (freeSize cf + size info + headerSize)
    (if offset info - headerSize <? freeStart cf
     then offset info - headerSize else freeStart cf).

(** [cacheFile.SetData]: the state it leaves and the error it returns.
    Writes to the file are taken to succeed. *)
Definition SetData (cf : cacheFile) (streamID : N)
    (convertedPackets : list IndexData) : cacheFile * option error :=
  let '(cf, err) :=
    match streamInfos cf !! streamID with
    | None => (cf, None)
    | Some info =>
        let cf := freeOlder cf info in
        if cleanupNeeded cf then cleanupFile cf streamID else (cf, None)
    end in
  match err with
  | Some e => (cf, Some e)
  | None => (appendRecord cf streamID convertedPackets, None)
  end.

(** *** What a record holds, in terms of the packets written

    These definitions say what [SetData] writes and what the readers are
    meant to give back; the theorems below relate them to the code. *)

Definition lenZ (p : IndexData) : Z := Z.of_nat (length (Content p)).

(** The block of one direction: the contents of its packets, in order. *)
Fixpoint bytesOf (d : Direction) (P : list IndexData) : list Z :=
  match P with
  | [] => []
  | p :: ps =>
      if decide (Dir p = d) then Content p ++ bytesOf d ps else bytesOf d ps
  end.

Definition totalOf (d : Direction) (P : list IndexData) : Z :=
  Z.of_nat (length (bytesOf d P)).

Definition totalBytes (P : list IndexData) : Z :=
  totalOf DirectionClientToServer P + totalOf DirectionServerToClient P.

Definition nonEmpty (P : list IndexData) : Prop :=
  Forall (fun p => Content p <> []) P.

(** The cumulative (client, server) offsets after each packet. *)
Fixpoint offsetsFrom (c s : Z) (P : list IndexData) : list (Z * Z) :=
  match P with
  | [] => []
  | p :: ps =>
      let c' := if decide (Dir p = DirectionClientToServer)
                then c + lenZ p else c in
      let s' := if decide (Dir p = DirectionServerToClient)
                then s + lenZ p else s in
      (c', s') :: offsetsFrom c' s' ps
  end.

(** [SetData] finds no older entry, or too little free space to clean up. *)
Definition noCleanup (cf : cacheFile) (streamID : N) : Prop :=
  match streamInfos cf !! streamID with
  | None => True
  | Some info => cleanupNeeded (freeOlder cf info) = false
  end.

(** The bytes of one chunk size and of all of them. *)
Definition encVarInt (sz : Z) : list Z := fst (putVarInt_loop 10 sz 0 [] 0).

Fixpoint encSizes (P : list IndexData) (wantDir : Direction) : list Z :=
  match P with
  | [] => []
  | p :: ps =>
      (if decide (Dir p = wantDir) then [] else [0])
      ++ encVarInt (lenZ p) ++ encSizes ps (Reverse (Dir p))
  end.

(** The list of sizes [Data] collects from them. *)
Fixpoint specSizes (P : list IndexData) (wantDir : Direction)
  : list sizeAndDirection :=
  match P with
  | [] => [{| Size := 0; Direction_ := wantDir |}]
  | p :: ps =>
      (if decide (Dir p = wantDir) then []
       else [{| Size := 0; Direction_ := wantDir |}])
      ++ {| Size := lenZ p; Direction_ := Dir p |}
         :: specSizes ps (Reverse (Dir p))
  end.

(** [buf] is the tail of a number: [k] groups that stand for [v]. *)
Definition decodes (buf : list Z) (k v : Z) : Prop :=
  forall rest bytes acc,
    0 <= acc -> acc * 2 ^ (7 * k) + v < 2 ^ 64 ->
    readVarInt_loop (buf ++ rest) bytes acc
    = Ok (acc * 2 ^ (7 * k) + v, bytes + k, rest).

(** *** Opening an existing cache file

    [NewCacheFile] reads the file record by record and rebuilds the
    table of streams and the free space from the headers and the chunk
    sizes alone. *)

(** [binary.LittleEndian.Uint64] of the header bytes. *)
Definition readLE64 (bs : list Z) : N :=
  Z.to_N (foldr (fun b acc => Z.lor b (Z.shiftl acc 8)) 0 bs).

(** [for nZeros := 0; nZeros < 2;]: the bytes the sizes take and the sum
    of the sizes, both [uint64]. *)
Fixpoint scanSizes (fuel : nat) (buffer : list Z) (lengthSize dataSize : Z)
    (nZeros : nat) : option (result (Z * Z * list Z)) :=
  if (2 <=? nZeros)%nat then Some (Ok (lengthSize, dataSize, buffer))
  else
    match fuel with
    | O => None
    | S fuel =>
        match readVarInt buffer with
        | Err e => Some (Err (ErrWrap "failed to read varint" e))
        | Ok (sz, n, buffer) =>
            scanSizes fuel buffer (wrap64 (lengthSize + n))
              (wrap64 (dataSize + sz)) (if sz =? 0 then S nZeros else O)
        end
    end.

Definition with_fileSize (cf : cacheFile) (n : Z) : cacheFile :=
  {| file := file cf; fileSize := n; freeSize := freeSize cf;
     freeStart := freeStart cf; streamInfos := streamInfos cf |}.

(** What one record does to the table: an older record of the same stream
    becomes free space, the stream now points behind the header just read.
    [fileSize res] already counts that header. *)
Definition noteRecord (res : cacheFile) (streamID : N) (lengthSize dataSize : Z)
  : cacheFile :=
  let res :=
    match streamInfos res !! streamID with
    | Some info =>
        with_free res (freeSize res + (headerSize + toInt (size info)))
          (if (freeSize res =? 0) || (offset info - headerSize <? freeStart res)
           then offset info - headerSize else freeStart res)
    | None => res
    end in
  with_infos res
    (<[streamID := {| offset := fileSize res;
                      size := wrap64 (lengthSize + dataSize) |}]>
       (streamInfos res)).

(** The loop over the records ([for buffer := bufio.NewReader(file); ; ]).
    Every round consumes the eight header bytes. *)
Fixpoint scanRecords (fuel : nat) (buffer : list Z) (res : cacheFile)
  : option (result cacheFile) :=
  match fuel with
  | O => None
  | S fuel =>
      match readFull buffer headerSize with
      | Err EOF => Some (Ok res)
      | Err e => Some (Err (ErrWrap "failed to read stream header" e))
      | Ok (header, buffer) =>
          let streamID := readLE64 header in
          let res := with_fileSize res (fileSize res + headerSize) in
          match scanSizes (S (S (length buffer))) buffer 0 0 0 with
          | None => Some (Err outOfFuel)
          | Some (Err e) => Some (Err e)
          | Some (Ok (lengthSize, dataSize, buffer)) =>
              let res := noteRecord res streamID lengthSize dataSize in
              match discard buffer (toInt dataSize) with
              | Err e =>
                  Some (Err (ErrWrap ("failed to discard " +:+ pretty dataSize
                                      +:+ " bytes") e))
              | Ok buffer =>
                  scanRecords fuel buffer
                    (with_fileSize res
                       (fileSize res + toInt (wrap64 (lengthSize + dataSize))))
              end
          end
      end
  end.

(** [NewCacheFile] on a file that holds [existing]; [[]] is the file that
    [O_CREATE] has just made.  The descriptor ends at the end of the file. *)
Definition NewCacheFile (existing : list Z) : result cacheFile :=
  let res := {| file := {| contents := existing; position := 0 |};
                fileSize := 0; freeSize := 0; freeStart := 0;
                streamInfos := ∅ |} in
  match scanRecords (S (length existing)) existing res with
  | None => Err outOfFuel
  | Some (Err e) => Err e
  | Some (Ok res) =>
      let res := if freeSize res =? 0
                 then with_free res (freeSize res) (fileSize res) else res in
      Ok (with_file res {| contents := existing;
                           position := Z.of_nat (length existing) |})
  end.

Definition StreamCount (cf : cacheFile) : Z :=
  wrap64 (Z.of_nat (base.size (streamInfos cf))).

(** [cacheFile.Reset]: the file is cut to nothing and the table emptied.
    [Truncate] leaves the descriptor's position where it was, and the
    function does not seek. *)
Definition Reset (cf : cacheFile) : cacheFile * option error :=
  match fileTruncate (file cf) 0 with
  | Err e => (cf, Some e)
  | Ok f =>
      ({| file := f; fileSize := 0; freeSize := 0; freeStart := 0;
          streamInfos := ∅ |}, None)
  end.

(** *** CachedConverter

    The converter processes are outside this model: [convert] is what
    [Converter.Data] answers for a stream, the packets and the two byte
    counts or an error. *)
Definition converterData : Type := N -> result (list IndexData * Z * Z).

(** [CachedConverter.Data]: the cache file afterwards and the answer. *)
Definition CachedConverter_Data (convert : converterData) (cf : cacheFile)
    (streamID : N) : cacheFile * result (list IndexData * Z * Z) :=
  match Data cf streamID with
  | Err e => (cf, Err e)
  | Ok (Some data, clientBytes, serverBytes) =>
      (cf, Ok (data, clientBytes, serverBytes))
  | Ok (None, _, _) =>
      match convert streamID with
      | Err e => (cf, Err e)
      | Ok (convertedPackets, clientBytes, serverBytes) =>
          match SetData cf streamID convertedPackets with
          | (cf, Some e) => (cf, Err e)
          | (cf, None) => (cf, Ok (convertedPackets, clientBytes, serverBytes))
          end
      end
  end.

(** *** Sequences of [SetData] *)

(** The bytes of a record behind its header. *)
Definition bodyOf (P : list IndexData) : list Z :=
  encSizes P DirectionClientToServer ++ [0; 0]
  ++ bytesOf DirectionClientToServer P ++ bytesOf DirectionServerToClient P.

(** The descriptor stands at the end of the file, which is as long as the
    table says. *)
Definition atEnd (cf : cacheFile) : Prop :=
  position (file cf) = fileSize cf
  /\ fileSize cf = Z.of_nat (length (contents (file cf))).

(** The record [SetData] writes for a stream. *)
Definition recordOf (op : N * list IndexData) : list Z :=
  le64 op.1 ++ encSizes op.2 DirectionClientToServer ++ [0; 0]
  ++ bytesOf DirectionClientToServer op.2
  ++ bytesOf DirectionServerToClient op.2.

Definition storeAll (cf : cacheFile) (ops : list (N * list IndexData))
  : cacheFile :=
  foldl (fun cf op => (SetData cf op.1 op.2).1) cf ops.

(** Every call of the sequence stores packets that are not empty, under a
    stream id of 64 bits, in a record of fewer than 2^63 bytes, and
    triggers no cleanup. *)
Fixpoint quiet (cf : cacheFile) (ops : list (N * list IndexData)) : Prop :=
  match ops with
  | [] => True
  | op :: ops =>
      (op.1 < 2 ^ 64)%N /\ noCleanup cf op.1 /\ nonEmpty op.2
      /\ Z.of_nat (length (recordOf op)) < 2 ^ 63
      /\ quiet (SetData cf op.1 op.2).1 ops
  end.

(** The table and the file hold the packets of [m]: a stream without
    packets has no entry, and the entry of a stream with packets [P]
    delimits, inside the file, the bytes of a record of [P]. *)
Definition keeps (cf : cacheFile) (m : gmap N (list IndexData)) : Prop :=
  forall s,
    match m !! s with
    | None => streamInfos cf !! s = None
    | Some P =>
        nonEmpty P /\ totalBytes P < 2 ^ 63
        /\ exists info,
             streamInfos cf !! s = Some info
             /\ 0 <= offset info
             /\ offset info + size info <= fileSize cf
             /\ size info = Z.of_nat (length (bodyOf P))
             /\ sectionReader (file cf) (offset info) (size info) = bodyOf P
    end.

(** The table [NewCacheFile] has built from the records read so far agrees
    with the table [SetData] has built while writing them.  Only the start
    of the free space is kept differently while nothing is free:
    [NewCacheFile] sets it when the file has been read. *)
Definition inStep (res cf : cacheFile) : Prop :=
  fileSize res = fileSize cf /\ freeSize res = freeSize cf
  /\ streamInfos res = streamInfos cf
  /\ 0 <= freeSize cf
  /\ (freeSize cf = 0 -> freeStart cf = fileSize cf)
  /\ (freeSize cf <> 0 ->
      freeStart res = freeStart cf /\ freeStart cf < fileSize cf)
  /\ (forall s info,
        streamInfos cf !! s = Some info ->
        headerSize <= offset info /\ 0 <= size info < 2 ^ 63
        /\ offset info + size info <= fileSize cf).

(** The packets stored last for every stream. *)
Definition lastStored (ops : list (N * list IndexData))
  : gmap N (list IndexData) :=
  foldl (fun m op => <[op.1 := op.2]> m) ∅ ops.

(** What [Data] is meant to answer for a stream of which [P] is stored. *)
Definition answerOf (P : option (list IndexData))
  : result (option (list IndexData) * Z * Z) :=
  match P with
  | None => Ok (None, 0, 0)
  | Some P => Ok (Some P, totalOf DirectionClientToServer P,
                  totalOf DirectionServerToClient P)
  end.

End ConverterCache.

Module Manager.

Abbreviation IndexData := ConverterCache.IndexData.

(** *** bitmask.LongBitmask *)

(** Modelled from the spec: the long bitmask keyed by stream id, with its
    operations set, unset, or, sub, is-zero and copy.  The package is not
    part of the sources at hand; a mask is modelled by the set of its set
    bits, so [Set] is [∪ {[i]}], [Unset] is [∖ {[i]}], [Or] is [∪], [Sub]
    is [∖] and [Copy] is the identity.  Masks are values here: where the
    source assigns a mask without [Copy] (a tag's [Uncertain] becomes
    [mgr.allStreams]) the two share storage, which is not modelled. *)

Definition IsZero (bm : gset N) : bool := bool_decide (bm = ∅).

(** Modelled from the spec: [TrailingZerosFrom] of the bitmask package
    (the "trailing-zeros-from(position)" primitive): the distance from
    [from] to the next set bit at or after it, or -1 when there is none. *)
Definition TrailingZerosFrom (bm : gset N) (from : N) : Z :=
  match foldr (fun x acc =>
                 if (from <=? x)%N
                 then Some (match acc with Some y => N.min x y | None => x end)
                 else acc) None (elements bm) with
  | Some x => Z.of_N x - Z.of_N from
  | None => -1
  end.

(** *** The query package

    Its parser and condition type are outside the sources at hand and are
    taken as an interface. *)

Record FeatureSet : Type := mkFeatures {
  SubQueryFeatures : Z;
  MainFeatures : Z;
  SubQueryTags : list string;
  MainTags : list string
}.

(** Modelled from the spec: the feature bits of the query package, one per
    sub-predicate kind (filter-by-id, filter-by-data, filter-by-absolute-time,
    filter-by-relative-time); the declaration of the constants is not in
    the sources at hand, only that they are distinct bits matters. *)
Definition FeatureFilterID : Z := 1.
Definition FeatureFilterData : Z := 2.
Definition FeatureFilterTimeAbsolute : Z := 4.
Definition FeatureFilterTimeRelative : Z := 8.

(** [x &^ y] *)
Definition andNot (x y : Z) : Z := Z.ldiff x y.

Record Query (C : Type) : Type := mkQuery {
  qConditions : C;
  qGrouping : bool   (* [q.Grouping != nil] *)
}.
Arguments mkQuery {C} _ _.
Arguments qConditions {C} _.
Arguments qGrouping {C} _.

Class QueryPackage : Type := {
  Conditions : Type;
  Parse : string -> result (Query Conditions);
  Features : Conditions -> FeatureSet;
  (** [Conditions.StreamIDs(nextStreamID)]: the explicit id set and
      whether the conditions are one *)
  StreamIDs : Conditions -> N -> gset N * bool
}.

(** *** index.Stream, index.Reader, converters *)

Record Stream : Type := mkStream {
  StreamID : N;
  streamData : result (list IndexData)      (* [Stream.Data()] *)
}.

Record Reader : Type := mkReader {
  rid : N;                                   (* the pointer's identity *)
  Filename : string;
  StreamCount : Z;
  PacketCount : Z;
  MaxStreamID : N;
  StreamIDs_ : gset N;
  StreamByID : N -> result (option Stream)
}.

Record ConverterAccess : Type := mkConverter {
  converterData : Stream -> result (list IndexData)
}.

Section WithQuery.
Context `{QP : QueryPackage}.

Record TagDetails : Type := mkDetails {
  dMatches : gset N;
  dUncertain : gset N;
  dConditions : Conditions
}.

Record tag : Type := mkTag {
  Matches : gset N;
  Uncertain : gset N;
  tagConditions : Conditions;
  definition : string;
  features : FeatureSet;
  color : string;
  converters_ : list string      (* the attached converters, by name *)
}.

Definition detailsOf (t : tag) : TagDetails :=
  {| dMatches := Matches t; dUncertain := Uncertain t;
     dConditions := tagConditions t |}.

Definition with_Uncertain (t : tag) (u : gset N) : tag :=
  {| Matches := Matches t; Uncertain := u; tagConditions := tagConditions t;
     definition := definition t; features := features t; color := color t;
     converters_ := converters_ t |}.

Definition with_Matches (t : tag) (m : gset N) : tag :=
  {| Matches := m; Uncertain := Uncertain t; tagConditions := tagConditions t;
     definition := definition t; features := features t; color := color t;
     converters_ := converters_ t |}.

Definition with_color (t : tag) (c : string) : tag :=
  {| Matches := Matches t; Uncertain := Uncertain t;
     tagConditions := tagConditions t;
     definition := definition t; features := features t; color := c;
     converters_ := converters_ t |}.

Definition with_converters (t : tag) (cs : list string) : tag :=
  {| Matches := Matches t; Uncertain := Uncertain t;
     tagConditions := tagConditions t;
     definition := definition t; features := features t; color := color t;
     converters_ := cs |}.

Definition with_definition (t : tag) (d : string) (c : Conditions) : tag :=
  {| Matches := Matches t; Uncertain := Uncertain t; tagConditions := c;
     definition := d; features := features t; color := color t;
     converters_ := converters_ t |}.

(** [tag.referencedTags] *)
Definition referencedTags (t : tag) : list string :=
  MainTags (features t) ++ SubQueryTags (features t).

(** The goroutines the scheduler starts with [go]. *)
Inductive Job : Type :=
| importPcapJob (filenames : list string) (nextStreamID : N)
    (existingIndexes existingIndexesReleaser : list Reader)
| mergeIndexesJob (offset : Z) (indexes releaser : list Reader)
| updateTagJob (name : string) (t : tag) (tagDetails : gmap string TagDetails)
    (converters : gmap string ConverterAccess) (indexes releaser : list Reader)
| convertStreamJob (converter : string) (streamIDs : gset N)
    (indexes releaser : list Reader).

(** The fields of [Manager] that the scheduler's closures read and write,
    and two logs of what they do to the world: the goroutines started and
    the index readers closed and removed from disk (newest first).  The
    state file ([saveState]) and the converter processes are left out. *)
Record Manager : Type := mkManager {
  mergeJobRunning : bool;
  taggingJobRunning : bool;
  converterJobRunning : bool;
  importJobs : list string;
  indexes : list Reader;
  nStreams : Z;
  nPackets : Z;
  nextStreamID : N;
  nUnmergeableIndexes : Z;
  allStreams : gset N;
  updatedStreamsDuringTaggingJob : gset N;
  addedStreamsDuringTaggingJob : gset N;
  streamsToConvert : gmap string (gset N);
  tags : gmap string tag;
  converters : gmap string ConverterAccess;
  usedIndexes : gmap N Z;
  started : list Job;
  removed : list N;
  resets : list string   (* [converter.Reset()] calls, newest first *)
}.

(** Field updates. *)

Definition set_mergeJobRunning (v : bool) (mgr : Manager) : Manager :=
  {| mergeJobRunning := v; taggingJobRunning := taggingJobRunning mgr;
     converterJobRunning := converterJobRunning mgr;
     importJobs := importJobs mgr; indexes := indexes mgr;
     nStreams := nStreams mgr; nPackets := nPackets mgr;
     nextStreamID := nextStreamID mgr;
     nUnmergeableIndexes := nUnmergeableIndexes mgr;
     allStreams := allStreams mgr;
     updatedStreamsDuringTaggingJob := updatedStreamsDuringTaggingJob mgr;
     addedStreamsDuringTaggingJob := addedStreamsDuringTaggingJob mgr;
     streamsToConvert := streamsToConvert mgr; tags := tags mgr;
     converters := converters mgr; usedIndexes := usedIndexes mgr;
     started := started mgr; removed := removed mgr; resets := resets mgr |}.

Definition set_taggingJobRunning (v : bool) (mgr : Manager) : Manager :=
  {| mergeJobRunning := mergeJobRunning mgr; taggingJobRunning := v;
     converterJobRunning := converterJobRunning mgr;
     importJobs := importJobs mgr; indexes := indexes mgr;
     nStreams := nStreams mgr; nPackets := nPackets mgr;
     nextStreamID := nextStreamID mgr;
     nUnmergeableIndexes := nUnmergeableIndexes mgr;
     allStreams := allStreams mgr;
     updatedStreamsDuringTaggingJob := updatedStreamsDuringTaggingJob mgr;
     addedStreamsDuringTaggingJob := addedStreamsDuringTaggingJob mgr;
     streamsToConvert := streamsToConvert mgr; tags := tags mgr;
     converters := converters mgr; usedIndexes := usedIndexes mgr;
     started := started mgr; removed := removed mgr; resets := resets mgr |}.

Definition set_converterJobRunning (v : bool) (mgr : Manager) : Manager :=
  {| mergeJobRunning := mergeJobRunning mgr;
     taggingJobRunning := taggingJobRunning mgr; converterJobRunning := v;
     importJobs := importJobs mgr; indexes := indexes mgr;
     nStreams := nStreams mgr; nPackets := nPackets mgr;
     nextStreamID := nextStreamID mgr;
     nUnmergeableIndexes := nUnmergeableIndexes mgr;
     allStreams := allStreams mgr;
     updatedStreamsDuringTaggingJob := updatedStreamsDuringTaggingJob mgr;
     addedStreamsDuringTaggingJob := addedStreamsDuringTaggingJob mgr;
     streamsToConvert := streamsToConvert mgr; tags := tags mgr;
     converters := converters mgr; usedIndexes := usedIndexes mgr;
     started := started mgr; removed := removed mgr; resets := resets mgr |}.

Definition set_importJobs (v : list string) (mgr : Manager) : Manager :=
  {| mergeJobRunning := mergeJobRunning mgr;
     taggingJobRunning := taggingJobRunning mgr;
     converterJobRunning := converterJobRunning mgr; importJobs := v;
     indexes := indexes mgr; nStreams := nStreams mgr;
     nPackets := nPackets mgr; nextStreamID := nextStreamID mgr;
     nUnmergeableIndexes := nUnmergeableIndexes mgr;
     allStreams := allStreams mgr;
     updatedStreamsDuringTaggingJob := updatedStreamsDuringTaggingJob mgr;
     addedStreamsDuringTaggingJob := addedStreamsDuringTaggingJob mgr;
     streamsToConvert := streamsToConvert mgr; tags := tags mgr;
     converters := converters mgr; usedIndexes := usedIndexes mgr;
     started := started mgr; removed := removed mgr; resets := resets mgr |}.

Definition set_indexes (v : list Reader) (mgr : Manager) : Manager :=
  {| mergeJobRunning := mergeJobRunning mgr;
     taggingJobRunning := taggingJobRunning mgr;
     converterJobRunning := converterJobRunning mgr;
     importJobs := importJobs mgr; indexes := v; nStreams := nStreams mgr;
     nPackets := nPackets mgr; nextStreamID := nextStreamID mgr;
     nUnmergeableIndexes := nUnmergeableIndexes mgr;
     allStreams := allStreams mgr;
     updatedStreamsDuringTaggingJob := updatedStreamsDuringTaggingJob mgr;
     addedStreamsDuringTaggingJob := addedStreamsDuringTaggingJob mgr;
     streamsToConvert := streamsToConvert mgr; tags := tags mgr;
     converters := converters mgr; usedIndexes := usedIndexes mgr;
     started := started mgr; removed := removed mgr; resets := resets mgr |}.

Definition set_nStreams (v : Z) (mgr : Manager) : Manager :=
  {| mergeJobRunning := mergeJobRunning mgr;
     taggingJobRunning := taggingJobRunning mgr;
     converterJobRunning := converterJobRunning mgr;
     importJobs := importJobs mgr; indexes := indexes mgr; nStreams := v;
     nPackets := nPackets mgr; nextStreamID := nextStreamID mgr;
     nUnmergeableIndexes := nUnmergeableIndexes mgr;
     allStreams := allStreams mgr;
     updatedStreamsDuringTaggingJob := updatedStreamsDuringTaggingJob mgr;
     addedStreamsDuringTaggingJob := addedStreamsDuringTaggingJob mgr;
     streamsToConvert := streamsToConvert mgr; tags := tags mgr;
     converters := converters mgr; usedIndexes := usedIndexes mgr;
     started := started mgr; removed := removed mgr; resets := resets mgr |}.

Definition set_nPackets (v : Z) (mgr : Manager) : Manager :=
  {| mergeJobRunning := mergeJobRunning mgr;
     taggingJobRunning := taggingJobRunning mgr;
     converterJobRunning := converterJobRunning mgr;
     importJobs := importJobs mgr; indexes := indexes mgr;
     nStreams := nStreams mgr; nPackets := v;
     nextStreamID := nextStreamID mgr;
     nUnmergeableIndexes := nUnmergeableIndexes mgr;
     allStreams := allStreams mgr;
     updatedStreamsDuringTaggingJob := updatedStreamsDuringTaggingJob mgr;
     addedStreamsDuringTaggingJob := addedStreamsDuringTaggingJob mgr;
     streamsToConvert := streamsToConvert mgr; tags := tags mgr;
     converters := converters mgr; usedIndexes := usedIndexes mgr;
     started := started mgr; removed := removed mgr; resets := resets mgr |}.

Definition set_nextStreamID (v : N) (mgr : Manager) : Manager :=
  {| mergeJobRunning := mergeJobRunning mgr;
     taggingJobRunning := taggingJobRunning mgr;
     converterJobRunning := converterJobRunning mgr;
     importJobs := importJobs mgr; indexes := indexes mgr;
     nStreams := nStreams mgr; nPackets := nPackets mgr; nextStreamID := v;
     nUnmergeableIndexes := nUnmergeableIndexes mgr;
     allStreams := allStreams mgr;
     updatedStreamsDuringTaggingJob := updatedStreamsDuringTaggingJob mgr;
     addedStreamsDuringTaggingJob := addedStreamsDuringTaggingJob mgr;
     streamsToConvert := streamsToConvert mgr; tags := tags mgr;
     converters := converters mgr; usedIndexes := usedIndexes mgr;
     started := started mgr; removed := removed mgr; resets := resets mgr |}.

Definition set_nUnmergeableIndexes (v : Z) (mgr : Manager) : Manager :=
  {| mergeJobRunning := mergeJobRunning mgr;
     taggingJobRunning := taggingJobRunning mgr;
     converterJobRunning := converterJobRunning mgr;
     importJobs := importJobs mgr; indexes := indexes mgr;
     nStreams := nStreams mgr; nPackets := nPackets mgr;
     nextStreamID := nextStreamID mgr; nUnmergeableIndexes := v;
     allStreams := allStreams mgr;
     updatedStreamsDuringTaggingJob := updatedStreamsDuringTaggingJob mgr;
     addedStreamsDuringTaggingJob := addedStreamsDuringTaggingJob mgr;
     streamsToConvert := streamsToConvert mgr; tags := tags mgr;
     converters := converters mgr; usedIndexes := usedIndexes mgr;
     started := started mgr; removed := removed mgr; resets := resets mgr |}.

Definition set_allStreams (v : gset N) (mgr : Manager) : Manager :=
  {| mergeJobRunning := mergeJobRunning mgr;
     taggingJobRunning := taggingJobRunning mgr;
     converterJobRunning := converterJobRunning mgr;
     importJobs := importJobs mgr; indexes := indexes mgr;
     nStreams := nStreams mgr; nPackets := nPackets mgr;
     nextStreamID := nextStreamID mgr;
     nUnmergeableIndexes := nUnmergeableIndexes mgr; allStreams := v;
     updatedStreamsDuringTaggingJob := updatedStreamsDuringTaggingJob mgr;
     addedStreamsDuringTaggingJob := addedStreamsDuringTaggingJob mgr;
     streamsToConvert := streamsToConvert mgr; tags := tags mgr;
     converters := converters mgr; usedIndexes := usedIndexes mgr;
     started := started mgr; removed := removed mgr; resets := resets mgr |}.

Definition set_updatedStreamsDuringTaggingJob (v : gset N) (mgr : Manager) : Manager :=
  {| mergeJobRunning := mergeJobRunning mgr;
     taggingJobRunning := taggingJobRunning mgr;
     converterJobRunning := converterJobRunning mgr;
     importJobs := importJobs mgr; indexes := indexes mgr;
     nStreams := nStreams mgr; nPackets := nPackets mgr;
     nextStreamID := nextStreamID mgr;
     nUnmergeableIndexes := nUnmergeableIndexes mgr;
     allStreams := allStreams mgr; updatedStreamsDuringTaggingJob := v;
     addedStreamsDuringTaggingJob := addedStreamsDuringTaggingJob mgr;
     streamsToConvert := streamsToConvert mgr; tags := tags mgr;
     converters := converters mgr; usedIndexes := usedIndexes mgr;
     started := started mgr; removed := removed mgr; resets := resets mgr |}.

Definition set_addedStreamsDuringTaggingJob (v : gset N) (mgr : Manager) : Manager :=
  {| mergeJobRunning := mergeJobRunning mgr;
     taggingJobRunning := taggingJobRunning mgr;
     converterJobRunning := converterJobRunning mgr;
     importJobs := importJobs mgr; indexes := indexes mgr;
     nStreams := nStreams mgr; nPackets := nPackets mgr;
     nextStreamID := nextStreamID mgr;
     nUnmergeableIndexes := nUnmergeableIndexes mgr;
     allStreams := allStreams mgr;
     updatedStreamsDuringTaggingJob := updatedStreamsDuringTaggingJob mgr;
     addedStreamsDuringTaggingJob := v;
     streamsToConvert := streamsToConvert mgr; tags := tags mgr;
     converters := converters mgr; usedIndexes := usedIndexes mgr;
     started := started mgr; removed := removed mgr; resets := resets mgr |}.

Definition set_streamsToConvert (v : gmap string (gset N)) (mgr : Manager) : Manager :=
  {| mergeJobRunning := mergeJobRunning mgr;
     taggingJobRunning := taggingJobRunning mgr;
     converterJobRunning := converterJobRunning mgr;
     importJobs := importJobs mgr; indexes := indexes mgr;
     nStreams := nStreams mgr; nPackets := nPackets mgr;
     nextStreamID := nextStreamID mgr;
     nUnmergeableIndexes := nUnmergeableIndexes mgr;
     allStreams := allStreams mgr;
     updatedStreamsDuringTaggingJob := updatedStreamsDuringTaggingJob mgr;
     addedStreamsDuringTaggingJob := addedStreamsDuringTaggingJob mgr;
     streamsToConvert := v; tags := tags mgr; converters := converters mgr;
     usedIndexes := usedIndexes mgr; started := started mgr;
     removed := removed mgr; resets := resets mgr |}.

Definition set_tags (v : gmap string tag) (mgr : Manager) : Manager :=
  {| mergeJobRunning := mergeJobRunning mgr;
     taggingJobRunning := taggingJobRunning mgr;
     converterJobRunning := converterJobRunning mgr;
     importJobs := importJobs mgr; indexes := indexes mgr;
     nStreams := nStreams mgr; nPackets := nPackets mgr;
     nextStreamID := nextStreamID mgr;
     nUnmergeableIndexes := nUnmergeableIndexes mgr;
     allStreams := allStreams mgr;
     updatedStreamsDuringTaggingJob := updatedStreamsDuringTaggingJob mgr;
     addedStreamsDuringTaggingJob := addedStreamsDuringTaggingJob mgr;
     streamsToConvert := streamsToConvert mgr; tags := v;
     converters := converters mgr; usedIndexes := usedIndexes mgr;
     started := started mgr; removed := removed mgr; resets := resets mgr |}.

Definition set_converters (v : gmap string ConverterAccess) (mgr : Manager) : Manager :=
  {| mergeJobRunning := mergeJobRunning mgr;
     taggingJobRunning := taggingJobRunning mgr;
     converterJobRunning := converterJobRunning mgr;
     importJobs := importJobs mgr; indexes := indexes mgr;
     nStreams := nStreams mgr; nPackets := nPackets mgr;
     nextStreamID := nextStreamID mgr;
     nUnmergeableIndexes := nUnmergeableIndexes mgr;
     allStreams := allStreams mgr;
     updatedStreamsDuringTaggingJob := updatedStreamsDuringTaggingJob mgr;
     addedStreamsDuringTaggingJob := addedStreamsDuringTaggingJob mgr;
     streamsToConvert := streamsToConvert mgr; tags := tags mgr;
     converters := v; usedIndexes := usedIndexes mgr; started := started mgr;
     removed := removed mgr; resets := resets mgr |}.

Definition set_usedIndexes (v : gmap N Z) (mgr : Manager) : Manager :=
  {| mergeJobRunning := mergeJobRunning mgr;
     taggingJobRunning := taggingJobRunning mgr;
     converterJobRunning := converterJobRunning mgr;
     importJobs := importJobs mgr; indexes := indexes mgr;
     nStreams := nStreams mgr; nPackets := nPackets mgr;
     nextStreamID := nextStreamID mgr;
     nUnmergeableIndexes := nUnmergeableIndexes mgr;
     allStreams := allStreams mgr;
     updatedStreamsDuringTaggingJob := updatedStreamsDuringTaggingJob mgr;
     addedStreamsDuringTaggingJob := addedStreamsDuringTaggingJob mgr;
     streamsToConvert := streamsToConvert mgr; tags := tags mgr;
     converters := converters mgr; usedIndexes := v; started := started mgr;
     removed := removed mgr; resets := resets mgr |}.

Definition set_started (v : list Job) (mgr : Manager) : Manager :=
  {| mergeJobRunning := mergeJobRunning mgr;
     taggingJobRunning := taggingJobRunning mgr;
     converterJobRunning := converterJobRunning mgr;
     importJobs := importJobs mgr; indexes := indexes mgr;
     nStreams := nStreams mgr; nPackets := nPackets mgr;
     nextStreamID := nextStreamID mgr;
     nUnmergeableIndexes := nUnmergeableIndexes mgr;
     allStreams := allStreams mgr;
     updatedStreamsDuringTaggingJob := updatedStreamsDuringTaggingJob mgr;
     addedStreamsDuringTaggingJob := addedStreamsDuringTaggingJob mgr;
     streamsToConvert := streamsToConvert mgr; tags := tags mgr;
     converters := converters mgr; usedIndexes := usedIndexes mgr;
     started := v; removed := removed mgr; resets := resets mgr |}.

Definition set_removed (v : list N) (mgr : Manager) : Manager :=
  {| mergeJobRunning := mergeJobRunning mgr;
     taggingJobRunning := taggingJobRunning mgr;
     converterJobRunning := converterJobRunning mgr;
     importJobs := importJobs mgr; indexes := indexes mgr;
     nStreams := nStreams mgr; nPackets := nPackets mgr;
     nextStreamID := nextStreamID mgr;
     nUnmergeableIndexes := nUnmergeableIndexes mgr;
     allStreams := allStreams mgr;
     updatedStreamsDuringTaggingJob := updatedStreamsDuringTaggingJob mgr;
     addedStreamsDuringTaggingJob := addedStreamsDuringTaggingJob mgr;
     streamsToConvert := streamsToConvert mgr; tags := tags mgr;
     converters := converters mgr; usedIndexes := usedIndexes mgr;
     started := started mgr; removed := v; resets := resets mgr |}.

Definition set_resets (v : list string) (mgr : Manager) : Manager :=
  {| mergeJobRunning := mergeJobRunning mgr;
     taggingJobRunning := taggingJobRunning mgr;
     converterJobRunning := converterJobRunning mgr;
     importJobs := importJobs mgr; indexes := indexes mgr;
     nStreams := nStreams mgr; nPackets := nPackets mgr;
     nextStreamID := nextStreamID mgr;
     nUnmergeableIndexes := nUnmergeableIndexes mgr;
     allStreams := allStreams mgr;
     updatedStreamsDuringTaggingJob := updatedStreamsDuringTaggingJob mgr;
     addedStreamsDuringTaggingJob := addedStreamsDuringTaggingJob mgr;
     streamsToConvert := streamsToConvert mgr; tags := tags mgr;
     converters := converters mgr; usedIndexes := usedIndexes mgr;
     started := started mgr; removed := removed mgr; resets := v |}.

(** *** The index release pool: [lock] and [release] *)

Definition cnt (m : gmap N Z) (i : N) : Z := default 0 (m !! i).

(** [mgr.usedIndexes[i]++]; the counters are [uint]. *)
Definition lock1 (m : gmap N Z) (i : Reader) : gmap N Z :=
  <[rid i := wrap64 (cnt m (rid i) + 1)]> m.

Definition lock (indexes : list Reader) (mgr : Manager)
  : Manager * list Reader :=
  (set_usedIndexes (foldl lock1 (usedIndexes mgr) indexes) mgr, indexes).

(** One round of [release]: decrement; at zero delete the entry, close the
    reader and remove its file. *)
Definition release1 (st : gmap N Z * list N) (i : Reader)
  : gmap N Z * list N :=
  let c := wrap64 (cnt st.1 (rid i) - 1) in
  if c =? 0 then (delete (rid i) st.1, rid i :: st.2)
  else (<[rid i := c]> st.1, st.2).

Definition release (r : list Reader) (mgr : Manager) : Manager :=
  let st := foldl release1 (usedIndexes mgr, removed mgr) r in
  set_removed st.2 (set_usedIndexes st.1 mgr).

Definition getIndexesCopy (start : Z) (mgr : Manager)
  : Manager * (list Reader * list Reader) :=
  let indexes := drop (Z.to_nat start) (indexes mgr) in
  let '(mgr, releaser) := lock indexes mgr in
  (mgr, (indexes, releaser)).

Definition spawn (j : Job) (mgr : Manager) : Manager :=
  set_started (j :: started mgr) mgr.

(** *** Uncertainty: [inheritTagUncertainty] and [invalidateTags] *)

(** [mgr.tags[rtn].Uncertain]; the source dereferences the entry, every
    referenced tag is in the map. *)
Definition uncertainOf (tags : gmap string tag) (rtn : string) : gset N :=
  match tags !! rtn with
  | Some t => Uncertain t
  | None => ∅
  end.

(** The body of the loop for a tag that references others. *)
Definition inheritTag (allStreams : gset N) (tags : gmap string tag)
    (ti : tag) : tag :=
  if existsb (fun rtn => negb (IsZero (uncertainOf tags rtn)))
       (SubQueryTags (features ti))
  then with_Uncertain ti allStreams
  else with_Uncertain ti
         (foldl (fun u rtn => u ∪ uncertainOf tags rtn) (Uncertain ti)
            (MainTags (features ti))).

(** One [for tn, ti := range mgr.tags] pass; [order] is the order in
    which this range happens to visit the keys. *)
Fixpoint inheritPass (allStreams : gset N) (order : list string)
    (resolvedTags : gset string) (tags : gmap string tag)
  : gset string * gmap string tag :=
  match order with
  | [] => (resolvedTags, tags)
  | tn :: order =>
      match tags !! tn with
      | None => inheritPass allStreams order resolvedTags tags
      | Some ti =>
          if bool_decide (tn ∈ resolvedTags)
          then inheritPass allStreams order resolvedTags tags
          else if forallb (fun rtn => bool_decide (rtn ∈ resolvedTags))
                    (referencedTags ti)
          then
            let resolvedTags := {[tn]} ∪ resolvedTags in
            match MainTags (features ti), SubQueryTags (features ti) with
            | [], [] => inheritPass allStreams order resolvedTags tags
            | _, _ =>
                inheritPass allStreams order resolvedTags
                  (<[tn := inheritTag allStreams tags ti]> tags)
            end
          else inheritPass allStreams order resolvedTags tags
      end
  end.

(** [for len(resolvedTags) != len(mgr.tags)]: one order per pass; [None]
    when the passes given are used up and the loop is still running. *)
Fixpoint inheritLoop (allStreams : gset N) (orders : list (list string))
    (resolvedTags : gset string) (tags : gmap string tag)
  : option (gmap string tag) :=
  if (size resolvedTags =? size tags)%nat then Some tags
  else
    match orders with
    | [] => None
    | order :: orders =>
        let st := inheritPass allStreams order resolvedTags tags in
        inheritLoop allStreams orders st.1 st.2
    end.

Definition inheritTagUncertainty (orders : list (list string))
    (mgr : Manager) : option Manager :=
  match inheritLoop (allStreams mgr) orders ∅ (tags mgr) with
  | Some tags => Some (set_tags tags mgr)
  | None => None
  end.

Definition timeOrData : Z :=
  Z.lor FeatureFilterData
    (Z.lor FeatureFilterTimeAbsolute FeatureFilterTimeRelative).

(** The body of the loop of [invalidateTags] for one tag. *)
Definition invalidateTag (allStreams updatedStreams addedStreams : gset N)
    (ti : tag) : tag :=
  if negb (SubQueryFeatures (features ti) =? 0)
  then with_Uncertain ti allStreams
  else if andNot (MainFeatures (features ti)) FeatureFilterID =? 0
  then ti
  else
    let u := Uncertain ti ∪ addedStreams in
    with_Uncertain ti
      (if negb (Z.land (MainFeatures (features ti)) timeOrData =? 0)
       then u ∪ updatedStreams else u).

Definition invalidateTags (orders : list (list string))
    (updatedStreams addedStreams : gset N) (mgr : Manager) : option Manager :=
  inheritTagUncertainty orders
    (set_tags (invalidateTag (allStreams mgr) updatedStreams addedStreams
                 <$> tags mgr) mgr).

(** *** Starting jobs *)

Definition anyUncertain (tags : gmap string tag) : bool :=
  existsb (fun nt => negb (IsZero (Uncertain nt.2))) (map_to_list tags).

(** The loop of [startMergeJobIfNeeded] over the indexes. *)
Fixpoint findMerge (idxs : list Reader) (i nStreams nUnmergeable : Z)
  : option Z :=
  match idxs with
  | [] => None
  | idx :: idxs =>
      let c := StreamCount idx in
      let nStreams := nStreams - c in
      if (nUnmergeable <=? i) && (c <? nStreams) then Some i
      else findMerge idxs (i + 1) nStreams nUnmergeable
  end.

Definition startMergeJobIfNeeded (mgr : Manager) : Manager :=
  if mergeJobRunning mgr || taggingJobRunning mgr then mgr
  else if anyUncertain (tags mgr) then mgr
  else
    match findMerge (indexes mgr) 0 (nStreams mgr) (nUnmergeableIndexes mgr) with
    | None => mgr
    | Some i =>
        let mgr := set_mergeJobRunning true mgr in
        let '(mgr, (indexes, indexesReleaser)) := getIndexesCopy i mgr in
        spawn (mergeIndexesJob i indexes indexesReleaser) mgr
    end.

(** The tag the range of [startTaggingJobIfNeeded] stops at. *)
Fixpoint pickTag (order : list string) (tags : gmap string tag)
  : option (string * tag) :=
  match order with
  | [] => None
  | n :: order =>
      match tags !! n with
      | None => pickTag order tags
      | Some t =>
          if IsZero (Uncertain t) then pickTag order tags
          else if existsb (fun tn => negb (IsZero (uncertainOf tags tn)))
                    (referencedTags t)
          then pickTag order tags
          else Some (n, t)
      end
  end.

Definition referencedDetails (tags : gmap string tag) (t : tag)
  : gmap string TagDetails :=
  foldl (fun m tn => match tags !! tn with
                     | Some rt => <[tn := detailsOf rt]> m
                     | None => m
                     end) ∅ (referencedTags t).

Definition startTaggingJobIfNeeded (order : list string) (mgr : Manager)
  : Manager :=
  if taggingJobRunning mgr then mgr
  else
    match pickTag order (tags mgr) with
    | None => mgr
    | Some (n, t) =>
        let tagDetails := referencedDetails (tags mgr) t in
        let mgr := set_updatedStreamsDuringTaggingJob ∅ mgr in
        let mgr := set_addedStreamsDuringTaggingJob ∅ mgr in
        let mgr := set_taggingJobRunning true mgr in
        let '(mgr, (indexes, releaser)) := getIndexesCopy 0 mgr in
        spawn (updateTagJob n t tagDetails (converters mgr) indexes releaser) mgr
    end.

Definition queueOf (mgr : Manager) (converterName : string) : gset N :=
  default ∅ (streamsToConvert mgr !! converterName).

Fixpoint pickConverter (order : list string) (mgr : Manager) : option string :=
  match order with
  | [] => None
  | converterName :: order =>
      match converters mgr !! converterName with
      | None => pickConverter order mgr
      | Some _ =>
          if IsZero (queueOf mgr converterName) then pickConverter order mgr
          else Some converterName
      end
  end.

Definition startConverterJobIfNeeded (order : list string) (mgr : Manager)
  : Manager :=
  if converterJobRunning mgr then mgr
  else
    match pickConverter order mgr with
    | None => mgr
    | Some converterName =>
        let mgr := set_converterJobRunning true mgr in
        let '(mgr, (indexes, releaser)) := getIndexesCopy 0 mgr in
        let workQueue := queueOf mgr converterName in
        let mgr :=
          set_streamsToConvert (<[converterName := ∅]> (streamsToConvert mgr)) mgr in
        spawn (convertStreamJob converterName workQueue indexes releaser) mgr
    end.

(** *** AddTag *)

Definition HasPrefix (s p : string) : bool := String.prefix p s.

(** [strings.SplitN(name, "/", 2)[1]] for a name with a slash. *)
Fixpoint afterSlash (name : string) : string :=
  match name with
  | EmptyString => EmptyString
  | String c rest => if Ascii.eqb c "/"%char then rest else afterSlash rest
  end.

Definition isMarkName (name : string) : bool :=
  HasPrefix name "mark/" || HasPrefix name "generated/".

Definition inList (x : string) (l : list string) : bool :=
  existsb (String.eqb x) l.

(** [order]: the order of the range in [startTaggingJobIfNeeded]. *)
Definition AddTag (order : list string) (name color queryString : string)
    (mgr : Manager) : Manager * option error :=
  let isMark := isMarkName name in
  if negb (HasPrefix name "tag/" || HasPrefix name "service/" || isMark)
  then (mgr, Some (ErrMsg "invalid tag name (need a 'tag/', 'service/', 'mark/' or 'generated/' prefix)"))
  else if String.eqb (afterSlash name) EmptyString
  then (mgr, Some (ErrMsg "invalid tag name (prefix only not allowed)"))
  else
    match Parse queryString with
    | Err e => (mgr, Some e)
    | Ok q =>
        let features := Features (qConditions q) in
        if negb (Z.land (Z.lor (MainFeatures features) (SubQueryFeatures features))
                   FeatureFilterTimeRelative =? 0)
        then (mgr, Some (ErrMsg "relative times not yet supported in tags"))
        else if qGrouping q
        then (mgr, Some (ErrMsg "grouping not allowed in tags"))
        else
          let nt := {| Matches := ∅; Uncertain := ∅;
                       tagConditions := qConditions q;
                       definition := queryString; features := features;
                       color := color; converters_ := [] |} in
          if inList name (referencedTags nt)
          then (mgr, Some (ErrMsg "self reference not allowed in tags"))
          else if isMark && negb (StreamIDs (qConditions q) 0).2
          then (mgr, Some (ErrMsg "tags of type `mark` have to only contain an `id` filter"))
          else
            (* on the scheduler *)
            match tags mgr !! name with
            | Some _ => (mgr, Some (ErrMsg "tag already exists"))
            | None =>
                match List.find (fun t => negb (bool_decide (is_Some (tags mgr !! t))))
                        (referencedTags nt) with
                | Some t => (mgr, Some (ErrMsg ("unknown referenced tag " +:+ quoted t)))
                | None =>
                    let nt :=
                      if isMark
                      then with_Matches nt (StreamIDs (qConditions q) (nextStreamID mgr)).1
                      else with_Uncertain nt (allStreams mgr) in
                    let mgr := set_tags (<[name := nt]> (tags mgr)) mgr in
                    (if isMark then mgr else startTaggingJobIfNeeded order mgr,
                     None)
                end
            end
    end.

(** *** Converters attached to tags *)

Definition hasConverter (converter : string) (t : tag) : bool :=
  inList converter (converters_ t).

Definition attachConverterToTag (order : list string) (tagName : string)
    (converter : string) (mgr : Manager) : Manager * option error :=
  match tags mgr !! tagName with
  | None => (mgr, None)
  | Some t =>
      if hasConverter converter t then (mgr, None)
      else if negb (Z.land (MainFeatures (features t)) FeatureFilterData =? 0)
              || negb (Z.land (SubQueryFeatures (features t)) FeatureFilterData =? 0)
              || negb (length (MainTags (features t)) =? 0)%nat
              || negb (length (SubQueryTags (features t)) =? 0)%nat
      then (mgr, Some (ErrMsg ("error: cannot attach converter to tag " +:+ tagName
                           +:+ " because it's query is too complex")))
      else
        let t := with_converters t (converters_ t ++ [converter]) in
        let mgr := set_tags (<[tagName := t]> (tags mgr)) mgr in
        let mgr :=
          set_streamsToConvert
            (alter (fun q => q ∪ Matches t) converter (streamsToConvert mgr)) mgr in
        (startConverterJobIfNeeded order mgr, None)
  end.

(** Remove the first occurrence. *)
Fixpoint removeFirst (x : string) (l : list string) : list string :=
  match l with
  | [] => []
  | y :: l => if String.eqb y x then l else y :: removeFirst x l
  end.

(** [converter.Reset()] is taken to succeed. *)
Definition detachConverterFromTag (tagName : string) (converter : string)
    (mgr : Manager) : Manager :=
  match tags mgr !! tagName with
  | None => mgr
  | Some t =>
      let t := with_converters t (removeFirst converter (converters_ t)) in
      let mgr := set_tags (<[tagName := t]> (tags mgr)) mgr in
      let matchingStreams : gset N :=
        map_fold (fun n t2 acc =>
                    if String.eqb n tagName then acc
                    else if hasConverter converter t2 then acc ∪ Matches t2
                    else acc) ∅ (tags mgr) in
      let onlyThisTag := Matches t ∖ matchingStreams in
      let mgr :=
        set_streamsToConvert
          (alter (fun q => q ∖ onlyThisTag) converter (streamsToConvert mgr)) mgr in
      if IsZero matchingStreams then set_resets (converter :: resets mgr) mgr
      else mgr
  end.

(** *** UpdateTag *)

Record updateTagOperationInfo : Type := mkInfo {
  markTagAddStreams : list N;
  markTagDelStreams : list N;
  infoColor : string;
  setConverterNames : list string;
  convertersUpdated : bool
}.

Definition noInfo : updateTagOperationInfo :=
  {| markTagAddStreams := []; markTagDelStreams := []; infoColor := EmptyString;
     setConverterNames := []; convertersUpdated := false |}.

Definition UpdateTagOperationMarkAddStream (streams : list N) :=
  {| markTagAddStreams := streams; markTagDelStreams := []; infoColor := EmptyString;
     setConverterNames := []; convertersUpdated := false |}.

Definition UpdateTagOperationMarkDelStream (streams : list N) :=
  {| markTagAddStreams := []; markTagDelStreams := streams; infoColor := EmptyString;
     setConverterNames := []; convertersUpdated := false |}.

Definition UpdateTagOperationUpdateColor (c : string) :=
  {| markTagAddStreams := []; markTagDelStreams := []; infoColor := c;
     setConverterNames := []; convertersUpdated := false |}.

Definition UpdateTagOperationSetConverter (converterNames : list string) :=
  {| markTagAddStreams := []; markTagDelStreams := []; infoColor := EmptyString;
     setConverterNames := converterNames; convertersUpdated := true |}.

(** [if maxUsedStreamID <= s { maxUsedStreamID = s + 1 }] on [uint64]. *)
Definition bumpMax (maxUsedStreamID s : N) : N :=
  if (maxUsedStreamID <=? s)%N then ((s + 1) mod 2 ^ 64)%N
  else maxUsedStreamID.

(** The loop that writes the ids of a mask, ascending, after "id:". *)
Fixpoint writeIDs (fuel : nat) (m : gset N) (last : N) (b : string) : string :=
  match fuel with
  | O => b
  | S fuel =>
      let zeros := TrailingZerosFrom m last in
      if zeros <? 0 then b
      else
        let b := if (last =? 0)%N then b else b +:+ "," in
        let last := (last + Z.to_N zeros)%N in
        writeIDs fuel m (last + 1)%N (b +:+ pretty last)
  end.

Definition markDefinition (m : gset N) : string :=
  if IsZero m then "id:-1" else writeIDs (S (size m)) m 0 "id:".

(** The first loop of the converter update: a range over [tag.converters]
    while [detachConverterFromTag] shifts that slice's array in place.
    [arr] is the array, [len] the length of the slice, [i] the index. *)
Fixpoint detachLoop (fuel : nat) (name : string) (keep : list string)
    (arr : list string) (len i : nat) (mgr : Manager) : Manager :=
  match fuel with
  | O => mgr
  | S fuel =>
      match arr !! i with
      | None => mgr
      | Some converter =>
          if inList converter keep
          then detachLoop fuel name keep arr len (S i) mgr
          else
            let slice := take len arr in
            let arr' :=
              if inList converter slice
              then removeFirst converter slice ++ drop (len - 1) arr
              else arr in
            let len' := if inList converter slice then (len - 1)%nat else len in
            detachLoop fuel name keep arr' len' (S i)
              (detachConverterFromTag name converter mgr)
      end
  end.

Fixpoint attachLoop (order : list string) (name : string)
    (converterNames setNames : list string) (mgr : Manager)
  : Manager * option error :=
  match setNames with
  | [] => (mgr, None)
  | converterName :: setNames =>
      if inList converterName converterNames
      then attachLoop order name converterNames setNames mgr
      else
        match converters mgr !! converterName with
        | None => (mgr, Some (ErrMsg ("unknown converter " +:+ quoted converterName)))
        | Some _ =>
            match attachConverterToTag order name converterName mgr with
            | (mgr, Some e) =>
                (mgr, Some (ErrWrap ("failed to attach converter "
                                     +:+ quoted converterName +:+ " to tag "
                                     +:+ quoted name) e))
            | (mgr, None) => attachLoop order name converterNames setNames mgr
            end
        end
  end.

(** [passes]: the orders of the ranges of [inheritTagUncertainty];
    [tagOrder], [convOrder]: those of the two job starters.  [None] when
    the passes given are used up. *)
Definition UpdateTag (passes : list (list string))
    (tagOrder convOrder : list string) (name : string)
    (info : updateTagOperationInfo) (mgr : Manager)
  : option (Manager * option error) :=
  let marking :=
    negb ((length (markTagAddStreams info) =? 0)%nat
          && (length (markTagDelStreams info) =? 0)%nat) in
  let maxUsedStreamID :=
    foldl bumpMax (foldl bumpMax 0%N (markTagAddStreams info))
      (markTagDelStreams info) in
  if marking && negb (isMarkName name)
  then Some (mgr, Some (ErrMsg ("tag " +:+ quoted name
                           +:+ " is not of type 'mark' or 'enerated'")))
  else if marking && (maxUsedStreamID =? 0)%N
  then Some (mgr, None)
  else
    let maxUsedStreamID :=
      if marking then (maxUsedStreamID - 1)%N else 0%N in
    (* on the scheduler *)
    match tags mgr !! name with
    | None => Some (mgr, Some (ErrMsg ("unknown tag " +:+ quoted name)))
    | Some t =>
        let mgr :=
          if negb (String.eqb (infoColor info) EmptyString)
          then set_tags (<[name := with_color t (infoColor info)]> (tags mgr)) mgr
          else mgr in
        let '(mgr, err) :=
          if convertersUpdated info then
            let arr := converters_ t in
            let mgr :=
              detachLoop (length arr) name (setConverterNames info)
                arr (length arr) 0 mgr in
            let converterNames :=
              match tags mgr !! name with
              | Some t => converters_ t
              | None => []
              end in
            attachLoop convOrder name converterNames (setConverterNames info) mgr
          else (mgr, None) in
        match err with
        | Some e => Some (mgr, Some e)
        | None =>
            if negb (maxUsedStreamID =? 0)%N then
              if (nextStreamID mgr <=? maxUsedStreamID)%N
              then Some (mgr, Some (ErrMsg ("unknown stream id " +:+ pretty maxUsedStreamID)))
              else
                match tags mgr !! name with
                | None => Some (mgr, None)
                | Some t =>
                    let newTag :=
                      foldl (fun nt s =>
                               with_Uncertain (with_Matches nt (Matches nt ∪ {[s]}))
                                 (Uncertain nt ∪ {[s]}))
                        t (markTagAddStreams info) in
                    let newTag :=
                      foldl (fun nt s =>
                               with_Uncertain (with_Matches nt (Matches nt ∖ {[s]}))
                                 (Uncertain nt ∪ {[s]}))
                        newTag (markTagDelStreams info) in
                    let d := markDefinition (Matches newTag) in
                    let newTag :=
                      match Parse d with
                      | Ok q => with_definition newTag d (qConditions q)
                      | Err _ => with_definition newTag d (tagConditions newTag)
                      end in
                    let mgr := set_tags (<[name := newTag]> (tags mgr)) mgr in
                    match inheritTagUncertainty passes mgr with
                    | None => None
                    | Some mgr =>
                        let mgr :=
                          set_tags (alter (fun t => with_Uncertain t ∅) name (tags mgr))
                            mgr in
                        Some (startTaggingJobIfNeeded tagOrder mgr, None)
                    end
                end
            else Some (mgr, None)
        end
    end.

(** *** Job completions: the closures the goroutines send back *)

(** [mergeIndexesJob]: [inputs] is the job's [indexes] argument,
    [mergedIndexes] and [failed] ([err != nil]) are what [index.Merge]
    returned. *)
Definition sumCounts (f : Reader -> Z) (l : list Reader) : Z :=
  foldl (fun acc idx => acc + f idx) 0 l.

(** The branch [if len(mergedIndexes) == 0 || err != nil ... else ...]. *)
Definition mergeIndexesJob_apply (offset : Z) (inputs : list Reader)
    (mergedIndexes : list Reader) (failed : bool) (mgr : Manager) : Manager :=
  let streamsDiff :=
    sumCounts StreamCount mergedIndexes - sumCounts StreamCount inputs in
  let packetsDiff :=
    sumCounts PacketCount mergedIndexes - sumCounts PacketCount inputs in
  if (length mergedIndexes =? 0)%nat || failed
  then set_nUnmergeableIndexes (nUnmergeableIndexes mgr + 1) mgr
  else
    let off := Z.to_nat offset in
    let rel := take (length inputs) (drop off (indexes mgr)) in
    let mgr := release rel mgr in
    let mgr := (lock mergedIndexes mgr).1 in
    let mgr :=
      set_indexes (take off (indexes mgr) ++ mergedIndexes
                   ++ drop (off + length inputs) (indexes mgr)) mgr in
    let mgr :=
      set_nUnmergeableIndexes
        (nUnmergeableIndexes mgr + (Z.of_nat (length mergedIndexes) - 1)) mgr in
    let mgr := set_nStreams (nStreams mgr + streamsDiff) mgr in
    set_nPackets (nPackets mgr + packetsDiff) mgr.

Definition mergeIndexesJob_done (offset : Z) (inputs releaser : list Reader)
    (mergedIndexes : list Reader) (failed : bool) (mgr : Manager) : Manager :=
  let mgr := mergeIndexesJob_apply offset inputs mergedIndexes failed mgr in
  let mgr := set_mergeJobRunning false mgr in
  let mgr := startMergeJobIfNeeded mgr in
  release releaser mgr.

(** [updateTagJob], off the scheduler: [search] is what parsing the
    definition and [index.SearchStreams] gave, the ids of the matches. *)
Definition updateTagJob_result (t : tag) (search : result (list N)) : tag :=
  let t :=
    match search with
    | Ok streams =>
        with_Matches t ((Matches t ∖ Uncertain t) ∪ list_to_set streams)
    | Err _ => with_Matches t ∅
    end in
  with_Uncertain t ∅.

(** [updateTagJob], back on the scheduler; [t] is the job's tag after
    [updateTagJob_result]. *)
Definition updateTagJob_done (passes : list (list string))
    (tagOrder convOrder : list string) (name : string) (t : tag)
    (releaser : list Reader) (mgr : Manager) : option Manager :=
  let applied :=
    match tags mgr !! name with
    | Some ot =>
        if String.eqb (definition ot) (definition t) then
          let mgr :=
            set_streamsToConvert
              (foldl (fun m c => alter (fun q => q ∪ Matches t) c m)
                 (streamsToConvert mgr) (converters_ t)) mgr in
          let mgr := set_tags (<[name := t]> (tags mgr)) mgr in
          if negb (IsZero (updatedStreamsDuringTaggingJob mgr)
                   && IsZero (addedStreamsDuringTaggingJob mgr))
          then invalidateTags passes (updatedStreamsDuringTaggingJob mgr)
                 (addedStreamsDuringTaggingJob mgr) mgr
          else Some mgr
        else Some mgr
    | None => Some mgr
    end in
  match applied with
  | None => None
  | Some mgr =>
      let mgr := set_taggingJobRunning false mgr in
      let mgr := startTaggingJobIfNeeded tagOrder mgr in
      let mgr := startMergeJobIfNeeded mgr in
      let mgr := startConverterJobIfNeeded convOrder mgr in
      Some (release releaser mgr)
  end.

(** [convertStreamJob], back on the scheduler: [streamIDs] is what is
    left of the work queue, [convertedStreamIDs] what was converted. *)
Definition convertStreamJob_done (tagOrder convOrder : list string)
    (converter : string) (streamIDs convertedStreamIDs : gset N)
    (releaser : list Reader) (mgr : Manager) : Manager :=
  let mgr := set_converterJobRunning false mgr in
  match converters mgr !! converter with
  | None =>
      let mgr := set_resets (converter :: resets mgr) mgr in
      let mgr := startConverterJobIfNeeded convOrder mgr in
      release releaser mgr
  | Some _ =>
      let mgr :=
        if negb (IsZero streamIDs)
        then set_streamsToConvert
               (alter (fun q => q ∪ streamIDs) converter (streamsToConvert mgr)) mgr
        else mgr in
      let mgr :=
        set_tags
          ((fun t =>
              if (Z.land (MainFeatures (features t)) FeatureFilterData =? 0)
                 && (Z.land (SubQueryFeatures (features t)) FeatureFilterData =? 0)
              then t
              else with_Uncertain t (Uncertain t ∪ convertedStreamIDs))
             <$> tags mgr) mgr in
      let mgr := startTaggingJobIfNeeded tagOrder mgr in
      let mgr := startConverterJobIfNeeded convOrder mgr in
      release releaser mgr
  end.

(** [{0 .. n-1}]: the loop that sets every bit below [n]. *)
Definition allBelow (n : N) : gset N :=
  list_to_set (N.of_nat <$> seq 0 (N.to_nat n)).

(** [importPcapJob], back on the scheduler: [processedFiles] and
    [createdIndexes] are what the builder returned; [nextStreamID0] is the
    job's argument. *)
Definition importPcapJob_done (passes : list (list string))
    (tagOrder : list string) (nextStreamID0 : N)
    (existingIndexesReleaser : list Reader) (processedFiles : nat)
    (createdIndexes : list Reader) (mgr : Manager) : option Manager :=
  let newNextStreamID :=
    foldl (fun nx idx => if (nx <? MaxStreamID idx + 1)%N
                         then (MaxStreamID idx + 1)%N else nx)
      nextStreamID0 createdIndexes in
  let ids : gset N := ⋃ (StreamIDs_ <$> createdIndexes) in
  let updatedStreams := filter (fun i => (i < nextStreamID0)%N) ids in
  let addedStreams := filter (fun i => ¬ (i < nextStreamID0)%N) ids in
  let mgr := set_allStreams (allBelow newNextStreamID) mgr in
  let mgr := release existingIndexesReleaser mgr in
  let imported :=
    if (0 <? length createdIndexes)%nat then
      let mgr := set_indexes (indexes mgr ++ createdIndexes) mgr in
      let mgr := set_nStreams (nStreams mgr + sumCounts StreamCount createdIndexes) mgr in
      let mgr := set_nPackets (nPackets mgr + sumCounts PacketCount createdIndexes) mgr in
      let mgr := set_nextStreamID newNextStreamID mgr in
      let mgr := (lock createdIndexes mgr).1 in
      let mgr :=
        set_addedStreamsDuringTaggingJob
          (addedStreamsDuringTaggingJob mgr ∪ addedStreams) mgr in
      let mgr :=
        set_updatedStreamsDuringTaggingJob
          (updatedStreamsDuringTaggingJob mgr ∪ updatedStreams) mgr in
      invalidateTags passes updatedStreams addedStreams mgr
    else Some mgr in
  match imported with
  | None => None
  | Some mgr =>
      let mgr := set_importJobs (drop processedFiles (importJobs mgr)) mgr in
      let mgr :=
        if (1 <=? length (importJobs mgr))%nat then
          let '(mgr, (idxs, rel)) := getIndexesCopy 0 mgr in
          spawn (importPcapJob (importJobs mgr) (nextStreamID mgr) idxs rel) mgr
        else mgr in
      let mgr := startTaggingJobIfNeeded tagOrder mgr in
      Some (startMergeJobIfNeeded mgr)
  end.

(** *** View *)

Record View : Type := mkView {
  vIndexes : list Reader;
  vReleaser : list Reader;
  vTagDetails : gmap string TagDetails;
  vConverters : gmap string ConverterAccess
}.

(** [mgr.GetView()] *)
Definition GetView : View :=
  {| vIndexes := []; vReleaser := []; vTagDetails := ∅; vConverters := ∅ |}.

(** [View.fetch]; it returns no error. *)
Definition fetch (v : View) (mgr : Manager) : Manager * View :=
  if negb (length (vIndexes v) =? 0)%nat then (mgr, v)
  else
    let '(mgr, (idxs, rel)) := getIndexesCopy 0 mgr in
    (mgr, {| vIndexes := idxs; vReleaser := rel;
             vTagDetails := detailsOf <$> tags mgr;
             vConverters := converters mgr |}).

Definition View_Release (v : View) (mgr : Manager) : Manager :=
  if negb (length (vReleaser v) =? 0)%nat then release (vReleaser v) mgr
  else mgr.

Record StreamContext : Type := mkContext {
  ctxStream : option Stream;     (* [s], nil in the zero value *)
  ctxView : option View          (* [v] *)
}.

Definition zeroContext : StreamContext :=
  {| ctxStream := None; ctxView := None |}.

(** The loop of [View.Stream], [newestFirst] being the indexes from the
    last to the first. *)
Fixpoint scanIndexes (v : View) (newestFirst : list Reader) (streamID : N)
  : StreamContext * option error :=
  match newestFirst with
  | [] => (zeroContext, None)
  | idx :: older =>
      match StreamByID idx streamID with
      | Err e => (zeroContext, Some e)
      | Ok None => scanIndexes v older streamID
      | Ok (Some stream) =>
          ({| ctxStream := Some stream; ctxView := Some v |}, None)
      end
  end.

Definition View_Stream (v : View) (streamID : N) (mgr : Manager)
  : Manager * View * (StreamContext * option error) :=
  let '(mgr, v) := fetch v mgr in
  (mgr, v, scanIndexes v (rev (vIndexes v)) streamID).

(** [StreamContext.Data]; the source dereferences [c.v] without a test, a
    context that holds a stream holds its view. *)
Definition StreamContext_Data (c : StreamContext) (converterName : string)
  : result (list IndexData) :=
  match ctxStream c with
  | None => Err (ErrMsg "stream not found")
  | Some stream =>
      if String.eqb converterName EmptyString then streamData stream
      else
        match ctxView c with
        | None => Err (ErrMsg ("invalid converter " +:+ quoted converterName))
        | Some v =>
            match vConverters v !! converterName with
            | None => Err (ErrMsg ("invalid converter " +:+ quoted converterName))
            | Some converter => converterData converter stream
            end
        end
  end.

(** *** Notions the theorems are stated with *)

(** **** The merge scheduler *)

(** The stream count of all indexes after position [i]. *)
Definition laterStreams (idxs : list Reader) (i : nat) : Z :=
  sumCounts StreamCount (drop (S i) idxs).

(** Position [i] may start a merge: it is not below the unmergeable
    prefix and its index is smaller than all later ones together. *)
Definition mergeableAt (nUnmergeable : Z) (idxs : list Reader) (i : nat) : Prop :=
  nUnmergeable <= Z.of_nat i
  /\ exists idx, idxs !! i = Some idx /\ StreamCount idx < laterStreams idxs i.

(** Some tag has a stream whose membership is not known. *)
Definition someUncertain (mgr : Manager) : Prop :=
  exists n t, tags mgr !! n = Some t /\ Uncertain t <> ∅.

(** **** The index release pool *)

(** How often the reader [i] is listed in [l], and in the lists held. *)
Fixpoint occ (i : N) (l : list Reader) : Z :=
  match l with
  | [] => 0
  | r :: l => (if decide (rid r = i) then 1 else 0) + occ i l
  end.

Fixpoint heldCount (i : N) (held : list (list Reader)) : Z :=
  match held with
  | [] => 0
  | h :: held => occ i h + heldCount i held
  end.

(** A run of the pool: [Lock l] locks the list [l] and holds it,
    [Release k] releases the [k]-th list held.  A run in which one reader
    would be locked 2^64 times is left out. *)
Inductive poolOp : Type :=
| Lock (l : list Reader)
| Release (k : nat).

Fixpoint runPool (ops : list poolOp) (mgr : Manager)
    (held : list (list Reader)) : option (Manager * list (list Reader)) :=
  match ops with
  | [] => Some (mgr, held)
  | Lock l :: ops =>
      if forallb (fun r => heldCount (rid r) (l :: held) <? 2 ^ 64) l
      then let st := lock l mgr in runPool ops st.1 (st.2 :: held)
      else None
  | Release k :: ops =>
      match held !! k with
      | Some h => runPool ops (release h mgr) (delete k held)
      | None => None
      end
  end.

(** No counter of the map is 0: such entries are deleted. *)
Definition noZero (m : gmap N Z) : Prop := forall i, m !! i <> Some 0.

(** **** Tags *)




(** Every referenced tag is in the map. *)
Definition referencesKnown (tags : gmap string tag) : Prop :=
  forall n t r, tags !! n = Some t -> r ∈ referencedTags t -> is_Some (tags !! r).

(** The graph of [referencedTags] is acyclic: [rank] falls along it. *)
Definition ranked (rank : string -> nat) (tags : gmap string tag) : Prop :=
  forall n t r, tags !! n = Some t -> r ∈ referencedTags t ->
                (rank r < rank n)%nat.

(** A range over the map visits every key. *)
Definition visitsAll (tags : gmap string tag) (order : list string) : Prop :=
  forall n, is_Some (tags !! n) -> n ∈ order.

(** A tag that references no other tag. *)
Definition noRefs (t : tag) : Prop :=
  MainTags (features t) = [] /\ SubQueryTags (features t) = [].

(** What inheritance assigns to the tag [t], read off the sentence of the
    specification; [tags'] is the map after the inheritance. *)
Definition inheritedUncertain (allStreams : gset N) (tags' : gmap string tag)
    (t : tag) (u' : gset N) : Prop :=
  (noRefs t -> u' = Uncertain t)
  /\ (~ noRefs t ->
      (exists r, r ∈ SubQueryTags (features t) /\ uncertainOf tags' r <> ∅) ->
      u' = allStreams)
  /\ (~ noRefs t ->
      (forall r, r ∈ SubQueryTags (features t) -> uncertainOf tags' r = ∅) ->
      forall i, i ∈ u' <-> i ∈ Uncertain t
                           \/ exists r, r ∈ MainTags (features t)
                                        /\ i ∈ uncertainOf tags' r).

(** What [invalidateTags] assigns before it re-inherits. *)
Definition invalidatedUncertain (allStreams updatedStreams addedStreams : gset N)
    (t : tag) (u : gset N) : Prop :=
  (SubQueryFeatures (features t) <> 0 -> u = allStreams)
  /\ (SubQueryFeatures (features t) = 0 ->
      andNot (MainFeatures (features t)) FeatureFilterID = 0 ->
      u = Uncertain t)
  /\ (SubQueryFeatures (features t) = 0 ->
      andNot (MainFeatures (features t)) FeatureFilterID <> 0 ->
      (Z.land (MainFeatures (features t)) timeOrData <> 0 ->
       u = Uncertain t ∪ addedStreams ∪ updatedStreams)
      /\ (Z.land (MainFeatures (features t)) timeOrData = 0 ->
          u = Uncertain t ∪ addedStreams)).

(** The tag as [inheritTagUncertainty] leaves it, given the map [cur]. *)
Definition finalTag (allStreams : gset N) (cur : gmap string tag) (t0 : tag) : tag :=
  match MainTags (features t0), SubQueryTags (features t0) with
  | [], [] => t0
  | _, _ => inheritTag allStreams cur t0
  end.

(** The features of a condition that is an explicit id set. *)
Definition idOnly (f : FeatureSet) : Prop :=
  SubQueryFeatures f = 0
  /\ andNot (MainFeatures f) FeatureFilterID = 0
  /\ MainTags f = [] /\ SubQueryTags f = [].

Definition marksCertain (tags : gmap string tag) : Prop :=
  forall n t, tags !! n = Some t -> isMarkName n = true ->
              Uncertain t = ∅ /\ idOnly (features t).

(** The tagging jobs under way hold copies of tags of the map. *)
Definition jobsFromMarks (jobs : list Job) : Prop :=
  forall n t d c i r, updateTagJob n t d c i r ∈ jobs -> isMarkName n = true ->
                      idOnly (features t).

Definition managerInv (mgr : Manager) : Prop :=
  marksCertain (tags mgr) /\ jobsFromMarks (started mgr).

(** One operation of the manager, from its start to its completion. *)
Inductive step : Manager -> Manager -> Prop :=
| step_AddTag order name col queryString mgr :
    step mgr (AddTag order name col queryString mgr).1
| step_UpdateTag passes tagOrder convOrder name info mgr r :
    UpdateTag passes tagOrder convOrder name info mgr = Some r ->
    step mgr r.1
| step_invalidateTags orders updatedStreams addedStreams mgr mgr' :
    invalidateTags orders updatedStreams addedStreams mgr = Some mgr' ->
    step mgr mgr'
| step_inheritTagUncertainty orders mgr mgr' :
    inheritTagUncertainty orders mgr = Some mgr' ->
    step mgr mgr'
| step_importPcapJob passes tagOrder nextStreamID0 releaser processedFiles
    createdIndexes mgr mgr' :
    importPcapJob_done passes tagOrder nextStreamID0 releaser processedFiles
      createdIndexes mgr = Some mgr' ->
    step mgr mgr'
| step_updateTagJob passes tagOrder convOrder name t0 d c i releaser search
    mgr mgr' :
    updateTagJob name t0 d c i releaser ∈ started mgr ->
    updateTagJob_done passes tagOrder convOrder name
      (updateTagJob_result t0 search) releaser mgr = Some mgr' ->
    step mgr mgr'
| step_convertStreamJob tagOrder convOrder converter streamIDs
    convertedStreamIDs releaser mgr :
    step mgr (convertStreamJob_done tagOrder convOrder converter streamIDs
                convertedStreamIDs releaser mgr)
| step_mergeIndexesJob offset inputs releaser mergedIndexes failed mgr :
    step mgr (mergeIndexesJob_done offset inputs releaser mergedIndexes failed mgr).

Inductive reachable (mgr0 : Manager) : Manager -> Prop :=
| reach_here : reachable mgr0 mgr0
| reach_step mgr mgr' : reachable mgr0 mgr -> step mgr mgr' -> reachable mgr0 mgr'.

(** The pool's invariant: a counter is the number of locks held. *)
Definition poolInv (mgr : Manager) (held : list (list Reader)) : Prop :=
  noZero (usedIndexes mgr)
  /\ forall i, cnt (usedIndexes mgr) i = heldCount i held
               /\ heldCount i held < 2 ^ 64.

(** The invariant of the loop of [inheritTagUncertainty], [tags0] being
    the map it started from. *)
Definition loopInv (allS : gset N) (tags0 : gmap string tag)
    (resolved : gset string) (cur : gmap string tag) : Prop :=
  (forall n, n ∈ resolved ->
             exists t0, tags0 !! n = Some t0
                        /\ cur !! n = Some (finalTag allS cur t0)
                        /\ forall r, r ∈ referencedTags t0 -> r ∈ resolved)
  /\ (forall n, n ∉ resolved -> cur !! n = tags0 !! n).

(** Marks are certain, but for [except], a mark that is being edited. *)
Definition marksCertainBut (except : string) (tgs : gmap string tag) : Prop :=
  forall n t, tgs !! n = Some t -> isMarkName n = true ->
              idOnly (features t) /\ (n <> except -> Uncertain t = ∅).

(** Decision procedures for the conditions on the tag map. *)
Definition referencesKnownb (tags : gmap string tag) : bool :=
  forallb (fun e => forallb (fun r => bool_decide (is_Some (tags !! r)))
                      (referencedTags e.2))
    (map_to_list tags).

Definition rankedb (rank : string -> nat) (tags : gmap string tag) : bool :=
  forallb (fun e => forallb (fun r => (rank r <? rank e.1)%nat)
                      (referencedTags e.2))
    (map_to_list tags).

Definition visitsAllb (tags : gmap string tag) (order : list string) : bool :=
  forallb (fun e => inList e.1 order) (map_to_list tags).

(** The least strict upper bound of the ids a mark operation names: 0 for
    no id, 1 when stream 0 is the only one. *)
Definition upperBound (l : list N) : N :=
  foldr (fun s acc => N.max (s + 1) acc) 0%N l.

(** A mark operation that adds [adds] and removes [dels]. *)
Definition markInfo (adds dels : list N) : updateTagOperationInfo :=
  {| markTagAddStreams := adds; markTagDelStreams := dels;
     infoColor := EmptyString; setConverterNames := [];
     convertersUpdated := false |}.

(** The tag a mark operation on [t] is meant to leave. *)
Definition markedTag (t : tag) (adds dels : list N) : tag :=
  let m := (Matches t ∪ list_to_set adds) ∖ list_to_set dels in
  let d := markDefinition m in
  {| Matches := m; Uncertain := ∅;
     tagConditions := match Parse d with
                      | Ok q => qConditions q
                      | Err _ => tagConditions t
                      end;
     definition := d; features := features t; color := color t;
     converters_ := converters_ t |}.


(** *** DelTag *)

(** [order]: the order in which the range visits the tags when it looks
    for a reference to [name].  The loop over the converters of the tag is
    that of [UpdateTag], with nothing to keep. *)
Definition DelTag (order : list string) (name : string) (mgr : Manager)
  : Manager * option error :=
  match tags mgr !! name with
  | None => (mgr, Some (ErrMsg ("unknown tag " +:+ quoted name)))
  | Some t =>
      match List.find (fun t2name =>
                         match tags mgr !! t2name with
                         | Some t2 => inList name (referencedTags t2)
                         | None => false
                         end) order with
      | Some t2name =>
          (mgr, Some (ErrMsg ("tag " +:+ quoted t2name
                              +:+ " still references the tag to be deleted")))
      | None =>
          let arr := converters_ t in
          let mgr := detachLoop (length arr) name [] arr (length arr) 0 mgr in
          (set_tags (delete name (tags mgr)) mgr, None)
      end
  end.

(** *** The graph of the references between tags *)

(** The graph has no cycle: some rank falls along every reference. *)
Definition acyclic (tgs : gmap string tag) : Prop :=
  exists rank, ranked rank tgs.

(** A tag that is no mark has the features of its definition. *)
Definition parsedTag (n : string) (t : tag) : Prop :=
  isMarkName n = false ->
  exists q, Parse (definition t) = Ok q /\ features t = Features (qConditions q).

Definition tagsParsed (tgs : gmap string tag) : Prop :=
  forall n t, tgs !! n = Some t -> parsedTag n t.

Definition jobsParsed (jobs : list Job) : Prop :=
  forall n t d c i r, updateTagJob n t d c i r ∈ jobs -> parsedTag n t.

(** The invariant of the tags: marks are certain id sets, every
    reference leads to a tag of the map, no reference leads back, and the
    features are those of the definitions, in the map and in the tagging
    jobs under way. *)
Definition graphInv (mgr : Manager) : Prop :=
  managerInv mgr /\ referencesKnown (tags mgr) /\ acyclic (tags mgr)
  /\ tagsParsed (tags mgr) /\ jobsParsed (started mgr).

(** The operations of the manager, [DelTag] included. *)
Inductive apiStep : Manager -> Manager -> Prop :=
| api_step mgr mgr' : step mgr mgr' -> apiStep mgr mgr'
| api_DelTag order name mgr :
    visitsAll (tags mgr) order -> apiStep mgr (DelTag order name mgr).1.

Inductive apiReachable (mgr0 : Manager) : Manager -> Prop :=
| api_here : apiReachable mgr0 mgr0
| api_next mgr mgr' :
    apiReachable mgr0 mgr -> apiStep mgr mgr' -> apiReachable mgr0 mgr'.

(** Two tag maps with the same names and the same references; tags that
    are no marks also keep definition and features. *)
Definition sameShape (tgs tgs' : gmap string tag) : Prop :=
  forall n,
    match tgs !! n, tgs' !! n with
    | Some t, Some t' =>
        referencedTags t' = referencedTags t
        /\ (isMarkName n = false ->
            definition t' = definition t /\ features t' = features t)
    | None, None => True
    | _, _ => False
    end.

(** A part of an operation that keeps the shape of the tags and starts
    tagging jobs only for tags of the map. *)
Definition calm (mgr mgr' : Manager) : Prop :=
  sameShape (tags mgr) (tags mgr')
  /\ (tagsParsed (tags mgr) -> jobsParsed (started mgr) ->
      jobsParsed (started mgr')).

(** The largest rank among [refs]. *)
Definition maxRank (rank : string -> nat) (refs : list string) : nat :=
  foldr (fun r acc => Nat.max (rank r) acc) 0%nat refs.

End WithQuery.
End Manager.

(** * The filter cache file

    The file [filterindex-<name>.fidx] of a filter
    ([internal/index/filters]): records are only ever appended, each a
    header of stream id and data size followed by the chunk sizes and the
    data of both directions; a reader indexes the file by stream id.  The
    filter process itself is outside this model. *)

Module Filters.

Import ConverterCache.

(** [InvalidStreamID = ^uint64(0)] *)
Definition InvalidStreamID : N := 2 ^ 64 - 1.

(** [unsafe.Sizeof(filterStreamSection{})] *)
Definition sectionSize : Z := 16.

(** *** Writer *)

(** The loop of [AppendStream] that builds [segmentation]; the encoder of
    one size is the loop of [SetData], whose byte counter is not used
    here. *)
Fixpoint segmentationOf (filteredPackets : list IndexData)
    (wantDir : Direction) (segmentation : list Z) : list Z :=
  match filteredPackets with
  | [] => segmentation
  | filteredPacket :: rest =>
      let sz := Z.of_nat (length (Content filteredPacket)) in
      let dir := Dir filteredPacket in
      let '(segmentation, wantDir) :=
        if decide (dir = wantDir) then (segmentation, wantDir)
        else (segmentation ++ [0], Reverse wantDir) in
      let buf := (putVarInt_loop 10 sz 0 [] 0).1 in
      segmentationOf rest (Reverse wantDir) (segmentation ++ buf)
  end.

(** The data of one direction, as the last loop writes it. *)
Fixpoint writeDirection (direction : Direction)
    (filteredPackets : list IndexData) : list Z :=
  match filteredPackets with
  | [] => []
  | filteredPacket :: rest =>
      if decide (Dir filteredPacket = direction)
      then Content filteredPacket ++ writeDirection direction rest
      else writeDirection direction rest
  end.

(** [Writer.AppendStream]: the bytes handed to the buffered writer.  The
    data size of the header is a [uint64] sum. *)
Definition AppendStream (streamID : N) (filteredPackets : list IndexData)
  : list Z :=
  let dataSize :=
    foldl (fun dataSize filteredPacket =>
             wrap64 (dataSize + Z.of_nat (length (Content filteredPacket))))
      0 filteredPackets in
  let segmentation :=
    segmentationOf filteredPackets DirectionClientToServer [] ++ [0; 0] in
  le64 streamID
  ++ le64 (Z.to_N (wrap64 (dataSize + Z.of_nat (length segmentation))))
  ++ segmentation
  ++ writeDirection DirectionClientToServer filteredPackets
  ++ writeDirection DirectionServerToClient filteredPackets.

(** *** Reader *)

Record Reader : Type := mkReader {
  filename : string;
  rfile : list Z;
  containedStreamIds : gmap N Z
}.

(** The loop of [NewReader] over the sections.  Every round consumes the
    sixteen header bytes. *)
Fixpoint readSections (fuel : nat) (buffer : list Z) (pos : Z)
    (ids : gmap N Z) : option (result (gmap N Z)) :=
  match fuel with
  | O => None
  | S fuel =>
      match readFull buffer sectionSize with
      | Err EOF => Some (Ok ids)
      | Err e => Some (Err e)
      | Ok (header, buffer) =>
          let StreamID := readLE64 (take 8 header) in
          let DataSize := Z.of_N (readLE64 (drop 8 header)) in
          let pos := wrap64 (pos + sectionSize) in
          let ids := if decide (StreamID = InvalidStreamID) then ids
                     else <[StreamID := pos]> ids in
          match discard buffer (toInt DataSize) with
          | Err e => Some (Err e)
          | Ok buffer => readSections fuel buffer (wrap64 (pos + DataSize)) ids
          end
      end
  end.

(** [NewReader] on a file that holds [bytes]. *)
Definition NewReader (name : string) (bytes : list Z) : result Reader :=
  match readSections (S (length bytes)) bytes 0 ∅ with
  | None => Err outOfFuel
  | Some (Err e) => Err e
  | Some (Ok ids) =>
      Ok {| filename := name; rfile := bytes; containedStreamIds := ids |}
  end.

Definition Reader_HasStream (r : Reader) (streamID : N) : bool :=
  bool_decide (is_Some (containedStreamIds r !! streamID)).

(** [Reader.Streams]: [order] is the order in which [range] visits the
    keys of the map.  The index [i] stays 0. *)
Definition Streams (r : Reader) (order : list N) : list N :=
  foldl (fun keys k => <[0%nat := k]> keys)
    (replicate (base.size (containedStreamIds r)) 0%N) order.

(** [Reader.ReadStream]: the reader seeks to the record and reads on to
    the end of the file. *)
Definition ReadStream (r : Reader) (streamID : N) : result (list IndexData) :=
  match containedStreamIds r !! streamID with
  | None =>
      Err (ErrMsg ("stream " +:+ pretty streamID +:+ " not found in "
                   +:+ filename r))
  | Some pos =>
      if toInt pos <? 0 then Err ErrNegative
      else
        let buffer := drop (Z.to_nat (toInt pos)) (rfile r) in
        match readSizes (S (length buffer)) buffer []
                false DirectionClientToServer 0 0 with
        | None => Err outOfFuel
        | Some (Err e) => Err e
        | Some (Ok (dataSizes, clientBytes, serverBytes, buffer)) =>
            match readFull buffer clientBytes with
            | Err e => Err e
            | Ok (clientData, buffer) =>
                match readFull buffer serverBytes with
                | Err e => Err e
                | Ok (serverData, _) =>
                    Ok (splitChunks dataSizes clientData serverData [])
                end
            end
        end
  end.

(** *** Filter

    Of the filter itself: the tags it is attached to, the streams it has
    results for, and its cache file, which exists or not.  [CachePath] is
    the value of [filter.CachePath()]. *)
Record Filter : Type := mkFilter {
  CachePath : string;
  attachedTags : list string;
  availableStreams : gset N;
  fidx : option (list Z)
}.

(** [os.ErrNotExist] from [os.Open]. *)
Definition errNotExist : error := ErrMsg "file does not exist".

(** [NewFilter]: the streams of an existing cache file become available. *)
Definition NewFilter (path : string) (existing : option (list Z))
    (order : list N) : result Filter :=
  match existing with
  | Some bytes =>
      match NewReader path bytes with
      | Err e => Err e
      | Ok reader =>
          Ok {| CachePath := path; attachedTags := [];
                availableStreams :=
                  foldl (fun bm streamID => bm ∪ {[streamID]}) ∅
                    (Streams reader order);
                fidx := existing |}
      end
  | None =>
      Ok {| CachePath := path; attachedTags := [];
            availableStreams := ∅; fidx := None |}
  end.

Definition HasStream (filter : Filter) (streamID : N) : bool :=
  bool_decide (streamID ∈ availableStreams filter).

(** [Filter.appendStream]: the writer opens the file for appending,
    creating it if need be, and is flushed when the function returns.
    [InvalidateStream] does nothing.  Writes are taken to succeed. *)
Definition appendStream (filter : Filter) (streamID : N)
    (filteredPackets : list IndexData) : Filter :=
  {| CachePath := CachePath filter; attachedTags := attachedTags filter;
     availableStreams := availableStreams filter ∪ {[streamID]};
     fidx := Some (default [] (fidx filter)
                   ++ AppendStream streamID filteredPackets) |}.

(** [Filter.Data] *)
Definition Filter_Data (filter : Filter) (streamID : N)
  : result (list IndexData) :=
  match fidx filter with
  | None => Err errNotExist
  | Some bytes =>
      match NewReader (CachePath filter) bytes with
      | Err e => Err e
      | Ok reader => ReadStream reader streamID
      end
  end.

(** *** Sequences of [appendStream] *)

Definition appendAll (filter : Filter) (ops : list (N * list IndexData))
  : Filter :=
  foldl (fun filter op => appendStream filter op.1 op.2) filter ops.

(** Every record holds packets that are not empty, under a stream id of 64
    bits. *)
Definition plain (ops : list (N * list IndexData)) : Prop :=
  Forall (fun op => (op.1 < 2 ^ 64)%N /\ nonEmpty op.2) ops.

(** The packets appended last for every stream id but [InvalidStreamID]. *)
Definition readable (m : gmap N (list IndexData))
    (ops : list (N * list IndexData)) : gmap N (list IndexData) :=
  foldl (fun m op => if decide (op.1 = InvalidStreamID) then m
                     else <[op.1 := op.2]> m) m ops.

(** The error of [ReadStream] for a stream that is not in the index. *)
Definition notFound (streamID : N) (name : string) : error :=
  ErrMsg ("stream " +:+ pretty streamID +:+ " not found in " +:+ name).

(** The filter that [NewFilter] returns when there is no cache file. *)
Definition newFilter (path : string) : Filter :=
  {| CachePath := path; attachedTags := [];
     availableStreams := ∅; fidx := None |}.

(** The file after the records of [ops]. *)
Definition records (ops : list (N * list IndexData)) : list Z :=
  concat (map (fun op => AppendStream op.1 op.2) ops).

(** The index [ids] points, for every stream of [m], to the chunk sizes and
    data of its packets inside [pre], and knows no other stream. *)
Definition indexed (pre : list Z) (ids : gmap N Z)
    (m : gmap N (list IndexData)) : Prop :=
  forall s,
    match m !! s with
    | None => ids !! s = None
    | Some P =>
        nonEmpty P
        /\ exists p tail,
             ids !! s = Some p
             /\ 0 <= p <= Z.of_nat (length pre)
             /\ drop (Z.to_nat p) pre = bodyOf P ++ tail
    end.

End Filters.


(** * Examples *)

Module Examples.

Import Manager.

(** A small query language for the examples. *)
Inductive exCond : Type :=
| ExIDs (ids : list N)
| ExData
| ExService
| ExTag (n : string)
| ExSubTag (n : string)
| ExRelTime.

Definition exTable : list (string * exCond) :=
  [("id:3,7", ExIDs [3; 7]%N); ("id:3,5,7", ExIDs [3; 5; 7]%N);
   ("id:0,3,7", ExIDs [0; 3; 7]%N); ("id:-1", ExIDs []);
   ("data:GET", ExData); ("service:http", ExService);
   ("tag:http", ExTag "service/http"); ("@sub:tag:http", ExSubTag "service/http");
   ("ltime:-1h", ExRelTime)].

Definition exParse (s : string) : result (Query exCond) :=
  match List.find (fun e => String.eqb e.1 s) exTable with
  | Some e => Ok (mkQuery e.2 false)
  | None => Err (ErrMsg "parse error")
  end.

Definition exFeatures (c : exCond) : FeatureSet :=
  match c with
  | ExIDs _ => mkFeatures 0 FeatureFilterID [] []
  | ExData => mkFeatures 0 FeatureFilterData [] []
  | ExService => mkFeatures 0 0 [] []
  | ExTag n => mkFeatures 0 0 [] [n]
  | ExSubTag n => mkFeatures FeatureFilterData 0 [n] []
  | ExRelTime => mkFeatures 0 FeatureFilterTimeRelative [] []
  end.

Definition exStreamIDs (c : exCond) (nextStreamID : N) : gset N * bool :=
  match c with
  | ExIDs ids => (list_to_set (List.filter (fun i => (i <? nextStreamID)%N) ids), true)
  | _ => (∅, false)
  end.

#[global] Instance exQuery : QueryPackage :=
  {| Conditions := exCond; Parse := exParse; Features := exFeatures;
     StreamIDs := exStreamIDs |}.

Definition emptyManager : Manager :=
  {| mergeJobRunning := false; taggingJobRunning := false;
     converterJobRunning := false; importJobs := []; indexes := [];
     nStreams := 0; nPackets := 0; nextStreamID := 0;
     nUnmergeableIndexes := 0; allStreams := ∅;
     updatedStreamsDuringTaggingJob := ∅; addedStreamsDuringTaggingJob := ∅;
     streamsToConvert := ∅; tags := ∅; converters := ∅; usedIndexes := ∅;
     started := []; removed := []; resets := [] |}.

Definition mgr8 : Manager :=
  set_allStreams (allBelow 8) (set_nextStreamID 8 emptyManager).

Definition favs : Manager := (AddTag [] "mark/favs" "#f00" "id:3,7" mgr8).1.

(** Index readers for the examples: [rd i count] holds no stream,
    [holds i ids] holds the streams [ids]. *)
Definition rd (i : N) (count : Z) : Reader :=
  {| rid := i; Filename := "idx" +:+ pretty i; StreamCount := count;
     PacketCount := count; MaxStreamID := 0; StreamIDs_ := ∅;
     StreamByID := fun _ => Ok None |}.

Definition streamOf (i s : N) : Stream :=
  {| StreamID := s;
     streamData := Ok [ConverterCache.mkData ConverterCache.DirectionClientToServer
                         [Z.of_N i]] |}.

Definition holds (i : N) (ids : list N) : Reader :=
  {| rid := i; Filename := "idx" +:+ pretty i;
     StreamCount := Z.of_nat (length ids); PacketCount := Z.of_nat (length ids);
     MaxStreamID := foldr N.max 0%N ids; StreamIDs_ := list_to_set ids;
     StreamByID := fun s => Ok (if bool_decide (s ∈ ids) then Some (streamOf i s) else None) |}.

(** Four indexes, the last two being merged by a job under way. *)
Definition fourIndexes : Manager :=
  let idxs := [rd 0 40; rd 1 30; rd 2 2; rd 3 1] in
  set_nUnmergeableIndexes 2
    (set_mergeJobRunning true
       (set_nStreams 73
          (lock idxs (lock (drop 2 idxs) (set_indexes idxs emptyManager)).1).1)).

(** Four indexes and no job. *)
Definition idle : Manager :=
  set_nUnmergeableIndexes 1
    (set_nStreams 73
       (set_indexes [rd 0 40; rd 1 30; rd 2 1; rd 3 2] emptyManager)).

Definition threeIndexes : View :=
  {| vIndexes := [holds 0 [3; 4]%N; holds 1 [4]%N; holds 2 []];
     vReleaser := []; vTagDetails := ∅; vConverters := ∅ |}.

Definition poolRun : list poolOp :=
  [Lock [rd 0 40; rd 1 30]; Lock [rd 1 30]; Release 1; Lock [rd 2 2]].

(** The pool after the run. *)
Definition poolEnd : Manager * list (list Reader) :=
  default (emptyManager, []) (runPool poolRun emptyManager []).

(** The mark of the examples after stream 5 was added to it. *)
Definition favs5 : Manager :=
  match UpdateTag [["mark/favs"]] ["mark/favs"] [] "mark/favs"
          (UpdateTagOperationMarkAddStream [5%N]) favs with
  | Some r => r.1
  | None => favs
  end.

(** A service, two tags that refer to it and a mark. *)
Definition tagNames : list string :=
  ["tag/web"; "mark/favs"; "tag/slow"; "service/http"].

Definition tagged : Manager :=
  let m1 := (AddTag tagNames "service/http" "#0f0" "service:http" favs).1 in
  let m2 := (AddTag tagNames "tag/web" "#00f" "tag:http" m1).1 in
  (AddTag tagNames "tag/slow" "#ff0" "@sub:tag:http" m2).1.

Definition tagRank (n : string) : nat :=
  if String.eqb n "service/http" then 0%nat else 1%nat.

(** A mark that holds stream 0, and a mark in a manager without streams. *)
Definition favs0 : Manager := (AddTag [] "mark/favs" "#f00" "id:0,3,7" mgr8).1.

Definition noStreams : Manager :=
  (AddTag [] "mark/none" "#f00" "id:-1" emptyManager).1.

End Examples.

Module CacheExamples.

Import ConverterCache.

(** The packets of the scenarios of the cache file. *)
Definition c2s := DirectionClientToServer.
Definition s2c := DirectionServerToClient.

Definition scenarioS1 : list IndexData :=
  [mkData c2s [97; 98]; mkData s2c [122; 122]; mkData c2s [99; 100]].

Definition emptyThenData : list IndexData :=
  [mkData s2c []; mkData c2s [97; 98]].

(** Three small records: stream 1, stream 2, and stream 1 again, which
    frees the first record. *)
Definition smallRecords : cacheFile :=
  let cf := (SetData NewCacheFile_empty 1 [mkData c2s [97; 98]]).1 in
  let cf := (SetData cf 2 [mkData c2s [99; 100]; mkData s2c [101]]).1 in
  (SetData cf 1 [mkData c2s [97]]).1.

(** The cache file before the cleanup: a fourth record, of stream 3,
    holds the one packet [big]. *)
Definition beforeCleanup (big : list Z) : cacheFile :=
  (SetData smallRecords 3 [mkData c2s big]).1.

(** Sixteen MiB of the letter a. *)
Definition bigContent : list Z := repeat 97 (N.to_nat 16777216).

Definition afterCleanupPackets : list IndexData :=
  [mkData c2s [1; 2; 3; 4; 5; 6; 7; 8; 9; 10; 11; 12]].

End CacheExamples.

(** * More scenarios *)

Module MoreExamples.

Import ConverterCache CacheExamples.

(** Three calls of [SetData] or [appendStream]: stream 1, stream 2, and
    stream 1 again. *)
Definition threeStores : list (N * list IndexData) :=
  [(1%N, [mkData c2s [97; 98]]);
   (2%N, [mkData c2s [99; 100]; mkData s2c [101]]);
   (1%N, [mkData c2s [97]])].

(** A converter that answers the packets of the first scenario for every
    stream, and one that fails. *)
Definition cannedConverter : converterData :=
  fun _ => Ok (scenarioS1, 4, 2).

Definition brokenConverter : converterData := fun _ => Err EOF.

End MoreExamples.

Module FilterExamples.

Import ConverterCache CacheExamples MoreExamples Filters.

(** A filter cache file with the streams 1 and 2, and its reader. *)
Definition twoStreams : list Z :=
  records [(1%N, [mkData c2s [97; 98]]); (2%N, [mkData s2c [101]])].

Definition twoStreamsReader : Reader :=
  match NewReader "f.fidx" twoStreams with
  | Ok r => r
  | Err _ => {| filename := "f.fidx"; rfile := []; containedStreamIds := ∅ |}
  end.

End FilterExamples.

Module ManagerExamples.

Import Manager Examples.

(** Two indexes on which the manager holds its own lock. *)
Definition owned : Manager :=
  (lock [rd 0 40; rd 1 30] (set_indexes [rd 0 40; rd 1 30] emptyManager)).1.

(** The tags of the examples after [tag/web] has been deleted. *)
Definition untagged : Manager := (DelTag tagNames "tag/web" tagged).1.

(** The mark of the examples. *)
Definition favsTag : tag :=
  default {| Matches := ∅; Uncertain := ∅; tagConditions := ExIDs [];
             definition := EmptyString; features := exFeatures (ExIDs []);
             color := EmptyString; converters_ := [] |}
    (tags favs !! "mark/favs").

End ManagerExamples.

(** * Theory of the converter cache *)

Module CacheTheory.

Import ConverterCache CacheExamples.

Lemma lor_low7 (a b : Z) : 0 <= b < 128 -> Z.lor (a * 128) b = a * 128 + b.
Proof.
  intros Hb. symmetry. apply Z.add_nocarry_lor.
  apply Z.bits_inj'. intros n Hn. rewrite Z.land_spec, Z.bits_0.
  destruct (Z.lt_ge_cases n 7) as [Hlt | Hge].
  - change 128 with (2 ^ 7). rewrite Z.mul_pow2_bits_low by lia. reflexivity.
  - rewrite (Z.bits_above_log2 b n), andb_false_r; [reflexivity | lia |].
    destruct (Z.eq_dec b 0) as [-> | Hnz]; [simpl; lia |].
    apply Z.log2_lt_pow2; [lia |].
    eapply Z.lt_le_trans with (2 ^ 7); [simpl; lia |].
    apply Z.pow_le_mono_r; lia.
Qed.

Lemma land_127 (z : Z) : Z.land z 127 = z mod 128.
Proof. change 127 with (Z.ones 7). rewrite Z.land_ones by lia. reflexivity. Qed.

Lemma shiftr_7 (z : Z) : Z.shiftr z 7 = z / 128.
Proof. rewrite Z.shiftr_div_pow2 by lia. reflexivity. Qed.

Lemma shiftl_7 (z : Z) : Z.shiftl z 7 = z * 128.
Proof. rewrite Z.shiftl_mul_pow2 by lia. reflexivity. Qed.

Lemma decodes_last (g : Z) : 0 <= g < 128 -> decodes [g] 1 g.
Proof.
  intros Hg rest bytes acc Hacc Hlt. simpl.
  change (2 ^ (7 * 1)) with 128 in *.
  destruct (g <? 128) eqn:E; [| lia].
  rewrite shiftl_7, land_127, (Z.mod_small g) by lia.
  unfold wrap64. rewrite Z.mod_small by lia.
  rewrite lor_low7 by lia. reflexivity.
Qed.

Lemma decodes_cons (buf : list Z) (k v g : Z) :
  0 <= k -> 0 <= v < 2 ^ (7 * k) -> 0 <= g < 128 ->
  decodes buf k v ->
  decodes (Z.lor g 128 :: buf) (k + 1) (g * 2 ^ (7 * k) + v).
Proof.
  intros Hk Hv Hg Hd rest bytes acc Hacc Hlt. simpl.
  assert (Hp : 2 ^ (7 * (k + 1)) = 128 * 2 ^ (7 * k)).
  { replace (7 * (k + 1)) with (7 + 7 * k) by lia.
    rewrite Z.pow_add_r by lia. reflexivity. }
  assert (Hpos : 0 < 2 ^ (7 * k)) by (apply Z.pow_pos_nonneg; lia).
  assert (Hb : Z.lor g 128 = 128 + g).
  { rewrite Z.lor_comm. change 128 with (1 * 128) at 1.
    rewrite lor_low7 by lia. lia. }
  rewrite Hb. destruct (128 + g <? 128) eqn:E; [lia |].
  rewrite shiftl_7, land_127.
  assert (Hm : (128 + g) mod 128 = g).
  { replace (128 + g) with (g + 1 * 128) by lia.
    rewrite Z.mod_add by lia. apply Z.mod_small; lia. }
  rewrite Hm.
  assert (acc * 128 + g < 2 ^ 64) by nia.
  unfold wrap64. rewrite Z.mod_small by nia.
  rewrite lor_low7 by lia.
  rewrite Hd; [| lia | nia].
  f_equal. f_equal. f_equal; [nia | lia].
Qed.

Lemma putVarInt_loop_S (room : nat) (sz flag : Z) (buf : list Z) (n : Z) :
  putVarInt_loop (S room) sz flag buf n
  = if Z.shiftr sz 7 =? 0
    then (Z.lor (Z.land sz 127) flag :: buf, n + 1)
    else putVarInt_loop room (Z.shiftr sz 7) 128
           (Z.lor (Z.land sz 127) flag :: buf) (n + 1).
Proof. reflexivity. Qed.

Lemma putVarInt_loop_decodes (room : nat) :
  forall sz buf k v n,
    0 <= k -> 0 <= v < 2 ^ (7 * k) -> 0 <= sz < 2 ^ (7 * Z.of_nat room) ->
    k = Z.of_nat (length buf) ->
    decodes buf k v ->
    exists buf',
      putVarInt_loop room sz 128 buf n
      = (buf', n + (Z.of_nat (length buf') - k))
      /\ (length buf <= length buf')%nat
      /\ decodes buf' (Z.of_nat (length buf')) (sz * 2 ^ (7 * k) + v).
Proof.
  induction room as [| room IH]; intros sz buf k v n Hk Hv Hsz Hlen Hd.
  - simpl in *. assert (sz = 0) by lia. subst sz.
    exists buf. rewrite <- Hlen. split; [f_equal; lia |]. split; [lia |].
    replace (0 * 2 ^ (7 * k) + v) with v by lia. exact Hd.
  - rewrite putVarInt_loop_S.
    rewrite land_127, shiftr_7.
    assert (Hg : 0 <= sz mod 128 < 128) by (apply Z.mod_pos_bound; lia).
    assert (Hpos : 0 < 2 ^ (7 * k)) by (apply Z.pow_pos_nonneg; lia).
    pose proof (decodes_cons buf k v (sz mod 128) Hk Hv Hg Hd) as Hd'.
    assert (Hdiv : sz = 128 * (sz / 128) + sz mod 128)
      by (apply Z.div_mod; lia).
    assert (Hp : 2 ^ (7 * (k + 1)) = 128 * 2 ^ (7 * k)).
    { replace (7 * (k + 1)) with (7 + 7 * k) by lia.
      rewrite Z.pow_add_r by lia. reflexivity. }
    destruct (sz / 128 =? 0) eqn:E.
    + apply Z.eqb_eq in E.
      exists (Z.lor (sz mod 128) 128 :: buf). cbn [length].
      split; [f_equal; lia |]. split; [lia |].
      replace (Z.of_nat (S (length buf))) with (k + 1) by lia.
      replace (sz * 2 ^ (7 * k) + v) with (sz mod 128 * 2 ^ (7 * k) + v)
        by (rewrite Hdiv at 2; rewrite E; f_equal; f_equal; lia).
      exact Hd'.
    + apply Z.eqb_neq in E.
      assert (Hq : 0 <= sz / 128 < 2 ^ (7 * Z.of_nat room)).
      { split; [apply Z.div_pos; lia |].
        apply Z.div_lt_upper_bound; [lia |].
        replace (7 * Z.of_nat (S room)) with (7 + 7 * Z.of_nat room) in Hsz by lia.
        rewrite Z.pow_add_r in Hsz by lia. change (2 ^ 7) with 128 in Hsz. lia. }
      destruct (IH (sz / 128) (Z.lor (sz mod 128) 128 :: buf) (k + 1)
                  (sz mod 128 * 2 ^ (7 * k) + v) (n + 1))
        as (buf' & Heq & Hle & Hdec).
      * lia.
      * rewrite Hp. nia.
      * exact Hq.
      * cbn [length]. lia.
      * exact Hd'.
      * exists buf'. rewrite Heq. cbn [length] in Hle.
        split; [f_equal; lia |]. split; [lia |].
        replace (sz * 2 ^ (7 * k) + v)
          with (sz / 128 * 2 ^ (7 * (k + 1)) + (sz mod 128 * 2 ^ (7 * k) + v));
          [exact Hdec |].
        rewrite Hp. rewrite Hdiv at 3. ring.
Qed.

Lemma putVarInt_readVarInt (sz n : Z) :
  0 <= sz < 2 ^ 63 ->
  exists enc,
    putVarInt_loop 10 sz 0 [] n = (enc, n + Z.of_nat (length enc))
    /\ (1 <= length enc)%nat
    /\ forall rest,
         readVarInt (enc ++ rest) = Ok (sz, Z.of_nat (length enc), rest).
Proof.
  intros Hsz. rewrite (putVarInt_loop_S 9).
  rewrite land_127, shiftr_7, Z.lor_0_r.
  assert (H63 : 2 ^ 63 = 9223372036854775808) by reflexivity.
  assert (H64 : 2 ^ 64 = 18446744073709551616) by reflexivity.
  assert (H9 : 2 ^ (7 * Z.of_nat 9) = 2 ^ 63) by reflexivity.
  assert (H1 : 2 ^ (7 * 1) = 128) by reflexivity.
  assert (Hg : 0 <= sz mod 128 < 128) by (apply Z.mod_pos_bound; lia).
  assert (Hdiv : sz = 128 * (sz / 128) + sz mod 128) by (apply Z.div_mod; lia).
  pose proof (decodes_last (sz mod 128) Hg) as Hd.
  destruct (sz / 128 =? 0) eqn:E.
  - apply Z.eqb_eq in E. exists [sz mod 128]. cbn [length].
    split; [f_equal |]. split; [lia |].
    intros rest. unfold readVarInt. rewrite Hd; [| lia | lia].
    f_equal. f_equal. f_equal. lia.
  - apply Z.eqb_neq in E.
    destruct (putVarInt_loop_decodes 9 (sz / 128) [sz mod 128] 1 (sz mod 128) (n + 1))
      as (buf' & Heq & Hle & Hdec).
    + lia.
    + lia.
    + split; [apply Z.div_pos; lia |].
      apply Z.div_lt_upper_bound; [lia |]. lia.
    + reflexivity.
    + exact Hd.
    + exists buf'. rewrite Heq. cbn [length] in Hle.
      split; [f_equal; lia |]. split; [lia |].
      intros rest. unfold readVarInt. rewrite Hdec; [| lia |].
      * f_equal. f_equal. f_equal. lia.
      * lia.
Qed.

Lemma putVarInt_loop_fst (room : nat) :
  forall sz flag buf n m,
    putVarInt_loop room sz flag buf n
    = (fst (putVarInt_loop room sz flag buf m),
       snd (putVarInt_loop room sz flag buf m) + (n - m)).
Proof.
  induction room as [| room IH]; intros sz flag buf n m.
  - simpl. f_equal. lia.
  - rewrite !putVarInt_loop_S. destruct (Z.shiftr sz 7 =? 0).
    + simpl. f_equal. lia.
    + rewrite (IH _ _ _ (n + 1) (m + 1)). f_equal. lia.
Qed.

Lemma encVarInt_spec (sz n : Z) :
  0 <= sz < 2 ^ 63 ->
  putVarInt_loop 10 sz 0 [] n = (encVarInt sz, n + Z.of_nat (length (encVarInt sz)))
  /\ (1 <= length (encVarInt sz))%nat
  /\ forall rest,
       readVarInt (encVarInt sz ++ rest)
       = Ok (sz, Z.of_nat (length (encVarInt sz)), rest).
Proof.
  intros Hsz.
  destruct (putVarInt_readVarInt sz 0 Hsz) as (enc & Hput & Hlen & Hread).
  assert (He : encVarInt sz = enc) by (unfold encVarInt; rewrite Hput; done).
  rewrite He. split; [| split; [exact Hlen | exact Hread]].
  rewrite (putVarInt_loop_fst 10 sz 0 [] n 0), Hput. simpl. f_equal. lia.
Qed.

Lemma readVarInt_zero (rest : list Z) : readVarInt (0 :: rest) = Ok (0, 1, rest).
Proof. reflexivity. Qed.

Lemma totalOf_cons_same (d : Direction) (p : IndexData) (ps : list IndexData) :
  Dir p = d -> totalOf d (p :: ps) = lenZ p + totalOf d ps.
Proof.
  intros H. unfold totalOf, lenZ. simpl. rewrite decide_True by done.
  rewrite length_app. lia.
Qed.

Lemma totalOf_cons_other (d : Direction) (p : IndexData) (ps : list IndexData) :
  Dir p <> d -> totalOf d (p :: ps) = totalOf d ps.
Proof.
  intros H. unfold totalOf. simpl. rewrite decide_False by done. reflexivity.
Qed.

Lemma totalOf_nonneg (d : Direction) (P : list IndexData) : 0 <= totalOf d P.
Proof. unfold totalOf. lia. Qed.

Lemma Reverse_neq (d e : Direction) : d <> e -> Reverse e = d.
Proof. destruct d, e; simpl; congruence. Qed.

Lemma writeChunks_spec (d : Direction) (P : list IndexData) :
  forall n, writeChunks d P n = (bytesOf d P, n + totalOf d P).
Proof.
  induction P as [| p ps IH]; intros n.
  - simpl. f_equal. unfold totalOf. simpl. lia.
  - simpl. destruct (decide (Dir p = d)) as [E | E].
    + rewrite IH. f_equal. rewrite (totalOf_cons_same d p ps E). unfold lenZ. lia.
    + rewrite IH. f_equal. rewrite (totalOf_cons_other d p ps E). done.
Qed.

Lemma readSizes_S fuel buffer dataSizes prevWasZero direction bytesC bytesS :
  readSizes (S fuel) buffer dataSizes prevWasZero direction bytesC bytesS
  = match readVarInt buffer with
    | Err e => Some (Err e)
    | Ok (sz, _, buffer) =>
        if (sz =? 0) && prevWasZero
        then Some (Ok (dataSizes, bytesC, bytesS, buffer))
        else
          match direction with
          | DirectionClientToServer =>
              readSizes fuel buffer
                (dataSizes ++ [{| Size := sz; Direction_ := direction |}])
                (sz =? 0) (Reverse direction) (wrap64 (bytesC + sz)) bytesS
          | DirectionServerToClient =>
              readSizes fuel buffer
                (dataSizes ++ [{| Size := sz; Direction_ := direction |}])
                (sz =? 0) (Reverse direction) bytesC (wrap64 (bytesS + sz))
          end
    end.
Proof. reflexivity. Qed.

Lemma wrap64_small (z : Z) : 0 <= z < 2 ^ 64 -> wrap64 z = z.
Proof. intros H. unfold wrap64. apply Z.mod_small. exact H. Qed.

(** One chunk size that is not zero, read in direction [d]. *)
Lemma readSizes_chunk fuel enc rest acc prev (d : Direction) sz bC bS :
  readVarInt (enc ++ rest) = Ok (sz, Z.of_nat (length enc), rest) ->
  sz <> 0 -> 0 <= bC -> 0 <= bS ->
  (if decide (d = DirectionClientToServer) then bC + sz else bS + sz) < 2 ^ 64 ->
  0 <= sz ->
  readSizes (S fuel) (enc ++ rest) acc prev d bC bS
  = readSizes fuel rest (acc ++ [{| Size := sz; Direction_ := d |}]) false
      (Reverse d)
      (if decide (d = DirectionClientToServer) then bC + sz else bC)
      (if decide (d = DirectionClientToServer) then bS else bS + sz).
Proof.
  intros Hr Hnz HbC HbS HC Hsz. rewrite readSizes_S, Hr.
  apply Z.eqb_neq in Hnz. rewrite Hnz. cbn [andb].
  destruct d; cbn [Reverse].
  - rewrite decide_True in * by done. rewrite wrap64_small by lia. reflexivity.
  - rewrite decide_False in * by done. rewrite wrap64_small by lia. reflexivity.
Qed.

(** A zero that skips direction [d]. *)
Lemma readSizes_skip fuel rest acc (d : Direction) bC bS :
  0 <= bC < 2 ^ 64 -> 0 <= bS < 2 ^ 64 ->
  readSizes (S fuel) (0 :: rest) acc false d bC bS
  = readSizes fuel rest (acc ++ [{| Size := 0; Direction_ := d |}]) true
      (Reverse d) bC bS.
Proof.
  intros HbC HbS. rewrite readSizes_S, readVarInt_zero.
  cbn [Z.eqb andb]. rewrite !Z.add_0_r.
  destruct d; cbn [Reverse]; rewrite wrap64_small by lia; reflexivity.
Qed.

Lemma lenZ_bounds (p : IndexData) (ps : list IndexData) :
  Content p <> [] -> totalBytes (p :: ps) < 2 ^ 63 ->
  1 <= lenZ p < 2 ^ 63 /\ totalBytes ps < 2 ^ 63
  /\ totalBytes (p :: ps) = lenZ p + totalBytes ps.
Proof.
  intros Hp Htot.
  assert (HL : 1 <= lenZ p).
  { unfold lenZ. destruct (Content p); [done | simpl; lia]. }
  pose proof (totalOf_nonneg DirectionClientToServer ps) as HnC.
  pose proof (totalOf_nonneg DirectionServerToClient ps) as HnS.
  assert (Hsplit : totalBytes (p :: ps) = lenZ p + totalBytes ps).
  { unfold totalBytes. destruct (Dir p) eqn:E.
    - rewrite totalOf_cons_same, totalOf_cons_other by (rewrite ?E; done). lia.
    - rewrite totalOf_cons_other, totalOf_cons_same by (rewrite ?E; done). lia. }
  unfold totalBytes in *. lia.
Qed.

Lemma totalOf_cons (d : Direction) (p : IndexData) (ps : list IndexData) :
  totalOf d (p :: ps) = (if decide (Dir p = d) then lenZ p else 0) + totalOf d ps.
Proof.
  destruct (decide (Dir p = d)) as [E | E].
  - by rewrite totalOf_cons_same.
  - rewrite totalOf_cons_other by done. lia.
Qed.

Lemma writeSizes_spec (P : list IndexData) :
  forall wantDir out n,
    nonEmpty P -> totalBytes P < 2 ^ 63 ->
    writeSizes P wantDir out n
    = (out ++ encSizes P wantDir, n + Z.of_nat (length (encSizes P wantDir))).
Proof.
  induction P as [| p ps IH]; intros wantDir out n Hne Htot.
  - simpl. rewrite app_nil_r. f_equal. lia.
  - inversion Hne as [| ? ? Hp Hps]; subst.
    destruct (lenZ_bounds p ps Hp Htot) as (HL & Hps' & _).
    cbn [writeSizes encSizes]. fold (lenZ p).
    destruct (decide (Dir p = wantDir)) as [<- | E].
    + destruct (encVarInt_spec (lenZ p) n) as (Hput & _); [lia |].
      rewrite Hput, IH by done.
      cbn [app]. rewrite <- !app_assoc. f_equal.
      rewrite ?length_app. lia.
    + destruct (encVarInt_spec (lenZ p) (n + 1)) as (Hput & _); [lia |].
      rewrite Hput, (Reverse_neq (Dir p) wantDir E), IH by done.
      rewrite <- !app_assoc. cbn [app]. f_equal.
      cbn [length]. rewrite ?length_app. lia.
Qed.

Lemma readSizes_encSizes (P : list IndexData) :
  forall wantDir fuel rest acc bC bS,
    nonEmpty P -> totalBytes P < 2 ^ 63 ->
    (length (encSizes P wantDir) + 2 + length rest < fuel)%nat ->
    0 <= bC -> 0 <= bS ->
    bC + totalOf DirectionClientToServer P < 2 ^ 64 ->
    bS + totalOf DirectionServerToClient P < 2 ^ 64 ->
    readSizes fuel (encSizes P wantDir ++ 0 :: 0 :: rest) acc false wantDir bC bS
    = Some (Ok (acc ++ specSizes P wantDir,
                bC + totalOf DirectionClientToServer P,
                bS + totalOf DirectionServerToClient P, rest)).
Proof.
  induction P as [| p ps IH];
    intros wantDir fuel rest acc bC bS Hne Htot Hf HbC HbS HC HS.
  - unfold totalOf in *. cbn [encSizes bytesOf length Z.of_nat app] in *.
    destruct fuel as [| [| fuel]]; [lia | lia |].
    rewrite readSizes_skip by lia.
    rewrite readSizes_S, readVarInt_zero. cbn [Z.eqb andb specSizes].
    rewrite !Z.add_0_r. reflexivity.
  - inversion Hne as [| ? ? Hp Hps]; subst.
    destruct (lenZ_bounds p ps Hp Htot) as (HL & Hps' & _).
    pose proof (totalOf_nonneg DirectionClientToServer ps) as HnC.
    pose proof (totalOf_nonneg DirectionServerToClient ps) as HnS.
    destruct (encVarInt_spec (lenZ p) 0) as (_ & Hlen & Hread); [lia |].
    rewrite !totalOf_cons in *.
    set (ep := encVarInt (lenZ p)) in *.
    set (es := encSizes ps (Reverse (Dir p))) in *.
    assert (Hstep : forall fuel' acc' prev,
               (length ep + length es + 2 + length rest < S fuel')%nat ->
               readSizes (S fuel') (ep ++ es ++ 0 :: 0 :: rest) acc' prev (Dir p) bC bS
               = Some (Ok ((acc' ++ [{| Size := lenZ p; Direction_ := Dir p |}])
                             ++ specSizes ps (Reverse (Dir p)),
                           bC + ((if decide (Dir p = DirectionClientToServer)
                                  then lenZ p else 0)
                                 + totalOf DirectionClientToServer ps),
                           bS + ((if decide (Dir p = DirectionServerToClient)
                                  then lenZ p else 0)
                                 + totalOf DirectionServerToClient ps), rest))).
    { intros fuel' acc' prev Hf'.
      rewrite (readSizes_chunk fuel' ep _ acc' _ (Dir p) (lenZ p) bC bS);
        [| apply Hread | lia | lia | lia
         | destruct (Dir p); simpl in *; lia | lia].
      unfold es. rewrite IH; [| done | done | fold es; lia
                              | destruct (Dir p); simpl in *; lia
                              | destruct (Dir p); simpl in *; lia
                              | destruct (Dir p); simpl in *; lia
                              | destruct (Dir p); simpl in *; lia].
      destruct (Dir p); simpl; rewrite ?Z.add_assoc, ?Z.add_0_r; reflexivity. }
    cbn [specSizes encSizes] in *. fold ep es in Hf |- *.
    destruct (decide (Dir p = wantDir)) as [E | E].
    + cbn [app length] in *. rewrite length_app in Hf.
      destruct fuel as [| fuel]; [lia |].
      rewrite <- E. rewrite <- app_assoc.
      rewrite Hstep by lia. rewrite <- app_assoc. reflexivity.
    + cbn [app length] in *. rewrite length_app in Hf.
      destruct fuel as [| [| fuel]]; [lia | lia |].
      rewrite <- app_assoc.
      rewrite readSizes_skip by (destruct (Dir p); simpl in *; lia).
      rewrite (Reverse_neq (Dir p) wantDir E).
      rewrite Hstep by lia. rewrite <- !app_assoc. reflexivity.
Qed.

Lemma splitChunks_spec (P : list IndexData) :
  forall wantDir cRest sRest data,
    nonEmpty P ->
    splitChunks (specSizes P wantDir)
      (bytesOf DirectionClientToServer P ++ cRest)
      (bytesOf DirectionServerToClient P ++ sRest) data
    = data ++ P.
Proof.
  induction P as [| p ps IH]; intros wantDir cRest sRest data Hne.
  - simpl. by rewrite app_nil_r.
  - inversion Hne as [| ? ? Hp Hps]; subst.
    assert (HL : 1 <= lenZ p).
    { unfold lenZ. destruct (Content p); [done | simpl; lia]. }
    assert (Hstep :
      splitChunks ({| Size := lenZ p; Direction_ := Dir p |}
                     :: specSizes ps (Reverse (Dir p)))
        (bytesOf DirectionClientToServer (p :: ps) ++ cRest)
        (bytesOf DirectionServerToClient (p :: ps) ++ sRest) data
      = data ++ p :: ps).
    { cbn [splitChunks Size Direction_ bytesOf].
      destruct (lenZ p =? 0) eqn:E0; [apply Z.eqb_eq in E0; lia |].
      unfold lenZ. rewrite Nat2Z.id.
      destruct p as [d c]; cbn [Dir Content] in *.
      destruct d.
      - rewrite decide_True by done. rewrite decide_False by done.
        rewrite <- app_assoc, take_app_length, drop_app_length, IH by done.
        rewrite <- app_assoc. reflexivity.
      - rewrite decide_False by done. rewrite decide_True by done.
        rewrite <- app_assoc, take_app_length, drop_app_length, IH by done.
        rewrite <- app_assoc. reflexivity. }
    cbn [specSizes]. destruct (decide (Dir p = wantDir)) as [E | E].
    + exact Hstep.
    + cbn [app splitChunks Size Z.eqb]. exact Hstep.
Qed.

Lemma toInt_small (z : Z) : - 2 ^ 63 <= z < 2 ^ 63 -> toInt z = z.
Proof.
  intros H. unfold toInt.
  assert (H63 : 2 ^ 63 = 9223372036854775808) by reflexivity.
  assert (H64 : 2 ^ 64 = 18446744073709551616) by reflexivity.
  rewrite Z.mod_small by lia. lia.
Qed.

Lemma searchSizes_S fuel buffer dataSizes prevWasZero direction cB sB :
  searchSizes (S fuel) buffer dataSizes prevWasZero direction cB sB
  = let last := List.last dataSizes (0, 0) in
    match readVarInt buffer with
    | Err e => Some (Err e)
    | Ok (sz, _, buffer) =>
        if sz =? 0 then
          if prevWasZero
          then Some (Ok (dataSizes, cB, sB, buffer))
          else searchSizes fuel buffer dataSizes true (Reverse direction) cB sB
        else
          match direction with
          | DirectionClientToServer =>
              searchSizes fuel buffer
                (dataSizes ++ [(toInt (fst last + toInt sz), snd last)])
                false (Reverse direction) (wrap64 (cB + sz)) sB
          | DirectionServerToClient =>
              searchSizes fuel buffer
                (dataSizes ++ [(fst last, toInt (snd last + toInt sz))])
                false (Reverse direction) cB (wrap64 (sB + sz))
          end
    end.
Proof. reflexivity. Qed.

Lemma searchSizes_encSizes (P : list IndexData) :
  forall wantDir fuel rest acc bC bS,
    nonEmpty P -> totalBytes P < 2 ^ 63 ->
    (length (encSizes P wantDir) + 2 + length rest < fuel)%nat ->
    0 <= bC -> 0 <= bS ->
    bC + totalOf DirectionClientToServer P < 2 ^ 63 ->
    bS + totalOf DirectionServerToClient P < 2 ^ 63 ->
    List.last acc (0, 0) = (bC, bS) ->
    searchSizes fuel (encSizes P wantDir ++ 0 :: 0 :: rest) acc false wantDir bC bS
    = Some (Ok (acc ++ offsetsFrom bC bS P,
                bC + totalOf DirectionClientToServer P,
                bS + totalOf DirectionServerToClient P, rest)).
Proof.
  assert (H63 : 2 ^ 63 = 9223372036854775808) by reflexivity.
  assert (H64 : 2 ^ 64 = 18446744073709551616) by reflexivity.
  induction P as [| p ps IH];
    intros wantDir fuel rest acc bC bS Hne Htot Hf HbC HbS HC HS Hlast.
  - unfold totalOf in *. cbn [encSizes bytesOf length Z.of_nat app] in *.
    destruct fuel as [| [| fuel]]; [lia | lia |].
    rewrite searchSizes_S, readVarInt_zero. cbn [Z.eqb].
    cbv zeta. rewrite searchSizes_S, readVarInt_zero. cbn [Z.eqb].
    cbv zeta. rewrite app_nil_r, !Z.add_0_r. reflexivity.
  - inversion Hne as [| ? ? Hp Hps]; subst.
    destruct (lenZ_bounds p ps Hp Htot) as (HL & Hps' & _).
    pose proof (totalOf_nonneg DirectionClientToServer ps) as HnC.
    pose proof (totalOf_nonneg DirectionServerToClient ps) as HnS.
    destruct (encVarInt_spec (lenZ p) 0) as (_ & Hlen & Hread); [lia |].
    rewrite !totalOf_cons in *.
    set (ep := encVarInt (lenZ p)) in *.
    set (es := encSizes ps (Reverse (Dir p))) in *.
    assert (Hstep : forall fuel' prev',
               (length ep + length es + 2 + length rest < S fuel')%nat ->
               searchSizes (S fuel') (ep ++ es ++ 0 :: 0 :: rest) acc prev' (Dir p) bC bS
               = Some (Ok (acc ++ offsetsFrom bC bS (p :: ps),
                           bC + ((if decide (Dir p = DirectionClientToServer)
                                  then lenZ p else 0)
                                 + totalOf DirectionClientToServer ps),
                           bS + ((if decide (Dir p = DirectionServerToClient)
                                  then lenZ p else 0)
                                 + totalOf DirectionServerToClient ps), rest))).
    { intros fuel' prev' Hf'.
      rewrite searchSizes_S, Hread. cbv zeta. rewrite Hlast. cbn [fst snd].
      destruct (lenZ p =? 0) eqn:E0; [apply Z.eqb_eq in E0; lia |].
      rewrite (toInt_small (lenZ p)) by lia.
      cbn [offsetsFrom].
      destruct (Dir p) eqn:Ed; cbn [Reverse];
        rewrite ?decide_True in * by done; rewrite ?decide_False in * by done;
        rewrite toInt_small by lia; rewrite wrap64_small by lia.
      - unfold es. rewrite IH; [| done | done | unfold es in *; cbn [Reverse] in *; lia | lia | lia | lia | lia
                                | by rewrite last_last].
        rewrite <- app_assoc. cbn [app].
        rewrite ?Z.add_assoc, ?Z.add_0_r. reflexivity.
      - unfold es. rewrite IH; [| done | done | unfold es in *; cbn [Reverse] in *; lia | lia | lia | lia | lia
                                | by rewrite last_last].
        rewrite <- app_assoc. cbn [app].
        rewrite ?Z.add_assoc, ?Z.add_0_r. reflexivity. }
    cbn [encSizes] in *. fold ep es in Hf |- *.
    destruct (decide (Dir p = wantDir)) as [<- | E].
    + cbn [app length] in *. rewrite length_app in Hf.
      destruct fuel as [| fuel]; [lia |].
      rewrite <- app_assoc. rewrite Hstep by lia. reflexivity.
    + cbn [app length] in *. rewrite length_app in Hf.
      destruct fuel as [| [| fuel]]; [lia | lia |].
      rewrite <- app_assoc.
      rewrite searchSizes_S, readVarInt_zero. cbn [Z.eqb]. cbv zeta.
      rewrite (Reverse_neq (Dir p) wantDir E).
      rewrite Hstep by lia. reflexivity.
Qed.

Lemma length_zeros (n : Z) : length (zeros n) = Z.to_nat n.
Proof. unfold zeros. apply repeat_length. Qed.

(** What was written can be read back at the place it was written to. *)
Lemma sectionReader_fileWrite (f : osFile) (hdr body : list Z) :
  0 <= position f ->
  sectionReader (fileWrite f (hdr ++ body))
    (position f + Z.of_nat (length hdr)) (Z.of_nat (length body))
  = body.
Proof.
  intros Hpos. unfold sectionReader, fileWrite. cbn [contents].
  rewrite Nat2Z.id.
  set (c := contents f).
  set (pre := take (Z.to_nat (position f)) c
              ++ zeros (position f - Z.of_nat (length c))).
  assert (Hpre : length pre = Z.to_nat (position f)).
  { unfold pre. rewrite length_app, length_take, length_zeros. lia. }
  replace (Z.to_nat (position f + Z.of_nat (length hdr)))
    with (length (pre ++ hdr))%nat by (rewrite length_app; lia).
  replace (take (Z.to_nat (position f)) c
           ++ zeros (position f - Z.of_nat (length c))
           ++ (hdr ++ body) ++ drop (Z.to_nat (position f) + length (hdr ++ body)) c)
    with ((pre ++ hdr) ++ body ++ drop (Z.to_nat (position f) + length (hdr ++ body)) c)
    by (unfold pre; by rewrite <- !app_assoc).
  rewrite drop_app_length, take_app_length. reflexivity.
Qed.

Lemma length_le64 (v : N) : length (le64 v) = 8%nat.
Proof. reflexivity. Qed.

Lemma readFull_app (a b : list Z) :
  readFull (a ++ b) (Z.of_nat (length a)) = Ok (a, b).
Proof.
  unfold readFull. destruct a as [| x a].
  - reflexivity.
  - destruct (Z.of_nat (length (x :: a)) <=? 0) eqn:E;
      [apply Z.leb_le in E; simpl in E; lia |].
    destruct (Z.of_nat (length ((x :: a) ++ b)) <? Z.of_nat (length (x :: a))) eqn:E2.
    + apply Z.ltb_lt in E2. rewrite length_app in E2. lia.
    + rewrite Nat2Z.id, take_app_length, drop_app_length. reflexivity.
Qed.

Lemma appendRecord_layout (cf : cacheFile) (s : N) (P : list IndexData) :
  nonEmpty P -> totalBytes P < 2 ^ 63 ->
  let body := encSizes P DirectionClientToServer ++ [0; 0]
              ++ bytesOf DirectionClientToServer P
              ++ bytesOf DirectionServerToClient P in
  appendRecord cf s P
  = {| file := fileWrite (file cf) (le64 s ++ body);
       fileSize := fileSize cf + headerSize + Z.of_nat (length body);
       freeSize := freeSize cf;
       freeStart := if freeStart cf =? fileSize cf
                    then freeStart cf + headerSize + Z.of_nat (length body)
                    else freeStart cf;
       streamInfos := <[s := {| offset := fileSize cf + headerSize;
                               size := Z.of_nat (length body) |}]> (streamInfos cf) |}.
Proof.
  intros Hne Htot body. unfold appendRecord.
  rewrite writeSizes_spec by done. rewrite !writeChunks_spec.
  cbn [app].
  assert (Hlen : 0 + Z.of_nat (length (encSizes P DirectionClientToServer)) + 2
                 + totalOf DirectionClientToServer P
                 + totalOf DirectionServerToClient P
                 = Z.of_nat (length body)).
  { unfold body, totalOf. rewrite !length_app. cbn [length]. lia. }
  rewrite Hlen. reflexivity.
Qed.

Lemma SetData_noCleanup (cf : cacheFile) (s : N) (P : list IndexData) :
  noCleanup cf s ->
  exists cf0,
    SetData cf s P = (appendRecord cf0 s P, None)
    /\ file cf0 = file cf /\ fileSize cf0 = fileSize cf.
Proof.
  unfold noCleanup, SetData. intros H.
  destruct (streamInfos cf !! s) as [info |].
  - rewrite H. exists (freeOlder cf info). done.
  - exists cf. done.
Qed.

Lemma splitChunks_whole (P : list IndexData) (wantDir : Direction) :
  nonEmpty P ->
  splitChunks (specSizes P wantDir) (bytesOf DirectionClientToServer P)
    (bytesOf DirectionServerToClient P) [] = P.
Proof.
  intros Hne.
  pose proof (splitChunks_spec P wantDir [] [] [] Hne) as H.
  rewrite !app_nil_r in H. exact H.
Qed.

(** C2 (amended): the round trip of the converter cache.  When the
    file position is at the recorded end of the file, no cleanup is due, no
    packet is empty and fewer than 2^63 bytes are stored, [SetData s P]
    succeeds, after it [Data s] returns the packets [P] themselves with the
    byte totals of both directions, and [DataForSearch s] returns the bytes
    of each direction, the cumulative offset pairs and the same totals. *)
Theorem roundtrip (cf : cacheFile) (s : N) (P : list IndexData) :
  0 <= fileSize cf ->
  position (file cf) = fileSize cf ->
  noCleanup cf s ->
  nonEmpty P ->
  totalBytes P < 2 ^ 63 ->
  snd (SetData cf s P) = None
  /\ Data (fst (SetData cf s P)) s
     = Ok (Some P, totalOf DirectionClientToServer P,
           totalOf DirectionServerToClient P)
  /\ DataForSearch (fst (SetData cf s P)) s
     = Ok (bytesOf DirectionClientToServer P,
           bytesOf DirectionServerToClient P,
           (0, 0) :: offsetsFrom 0 0 P,
           totalOf DirectionClientToServer P,
           totalOf DirectionServerToClient P).
Proof.
  intros Hsz Hpos Hno Hne Htot.
  assert (H63 : 2 ^ 63 = 9223372036854775808) by reflexivity.
  assert (H64 : 2 ^ 64 = 18446744073709551616) by reflexivity.
  destruct (SetData_noCleanup cf s P Hno) as (cf0 & -> & Hf & Hs).
  cbn [fst snd]. split; [reflexivity |].
  rewrite (appendRecord_layout cf0 s P Hne Htot). cbv zeta.
  set (body := encSizes P DirectionClientToServer ++ [0; 0]
               ++ bytesOf DirectionClientToServer P
               ++ bytesOf DirectionServerToClient P).
  pose proof (totalOf_nonneg DirectionClientToServer P) as HnC.
  pose proof (totalOf_nonneg DirectionServerToClient P) as HnS.
  assert (Hsec : newSectionReader (fileWrite (file cf0) (le64 s ++ body))
                   (fileSize cf0 + headerSize) (Z.of_nat (length body))
                 = Ok body).
  { unfold newSectionReader.
    destruct (fileSize cf0 + headerSize <? 0) eqn:E;
      [apply Z.ltb_lt in E; unfold headerSize in E; lia |].
    f_equal. rewrite Hf, Hs, <- Hpos.
    change headerSize with (Z.of_nat (length (le64 s))).
    apply sectionReader_fileWrite. lia. }
  assert (Hfuel : (length (encSizes P DirectionClientToServer) + 2
                   + length (bytesOf DirectionClientToServer P
                             ++ bytesOf DirectionServerToClient P)
                   < S (length body))%nat).
  { unfold body. rewrite ?length_app. cbn [length]. rewrite ?length_app. lia. }
  split.
  - unfold Data. cbn [streamInfos file]. rewrite lookup_insert_eq.
    cbn [offset size]. rewrite Hsec.
    unfold body at 2. cbn [app].
    rewrite (readSizes_encSizes P DirectionClientToServer (S (length body)));
      [| done | done | exact Hfuel | lia | lia
       | unfold totalBytes in Htot; lia | unfold totalBytes in Htot; lia].
    rewrite !Z.add_0_l. unfold totalOf at 1. rewrite readFull_app.
    unfold totalOf at 1.
    rewrite <- (app_nil_r (bytesOf DirectionServerToClient P)) at 1.
    rewrite readFull_app.
    cbn [app]. rewrite splitChunks_whole by done. reflexivity.
  - unfold DataForSearch. cbn [streamInfos file]. rewrite lookup_insert_eq.
    cbn [offset size]. rewrite Hsec.
    unfold body at 2. cbn [app].
    rewrite (searchSizes_encSizes P DirectionClientToServer (S (length body)));
      [| done | done | exact Hfuel | lia | lia
       | unfold totalBytes in Htot; lia | unfold totalBytes in Htot; lia
       | reflexivity].
    rewrite !Z.add_0_l. unfold totalOf at 1. rewrite readFull_app.
    unfold totalOf at 1.
    rewrite <- (app_nil_r (bytesOf DirectionServerToClient P)) at 1.
    rewrite readFull_app. reflexivity.
Qed.

Lemma readVarInt_loop_bytes (r : list Z) :
  forall bytes acc v n rest,
    readVarInt_loop r bytes acc = Ok (v, n, rest) -> bytes < n.
Proof.
  induction r as [| b r IH]; intros bytes acc v n rest H; simpl in H.
  - discriminate.
  - destruct (b <? 128).
    + inversion H; subst. lia.
    + apply IH in H. lia.
Qed.

Lemma skipSizes_pos (fuel : nat) :
  forall reader dataSize pos nZeros dataSize' pos' reader',
    skipSizes fuel reader dataSize pos nZeros = Some (Ok (dataSize', pos', reader')) ->
    pos <= pos'.
Proof.
  induction fuel as [| fuel IH];
    intros reader dataSize pos nZeros dataSize' pos' reader' H; simpl in H.
  - destruct (nZeros =? 2)%nat; [inversion H; lia | discriminate].
  - destruct (nZeros =? 2)%nat; [inversion H; lia |].
    destruct (readVarInt reader) as [[[sz n] reader2] | e] eqn:E; [| discriminate].
    apply IH in H. apply readVarInt_loop_bytes in E. lia.
Qed.

Lemma cleanupLoop_S fuel infos streamID reader writer pos :
  cleanupLoop (S fuel) infos streamID reader writer pos
  = match readFull reader headerSize with
    | Err EOF => Some (writer, None)
    | Err e => Some (writer, Some e)
    | Ok (header, reader) =>
        let pos := pos + headerSize in
        let info := default zeroInfo (infos !! streamID) in
        if offset info =? pos then
          let writer := bufWrite writer header in
          match copyN writer reader (toInt (size info)) with
          | (writer, _, Some e) => Some (writer, Some e)
          | (writer, reader, None) =>
              cleanupLoop fuel infos streamID reader writer
                (pos + toInt (size info))
          end
        else
          match skipSizes (S (S (length reader))) reader 0 pos 0 with
          | None => Some (writer, Some outOfFuel)
          | Some (Err e) => Some (writer, Some e)
          | Some (Ok (dataSize, pos, reader)) =>
              match discard reader dataSize with
              | Err e => Some (writer, Some e)
              | Ok reader =>
                  cleanupLoop fuel infos streamID reader writer
                    (pos + dataSize)
              end
          end
    end.
Proof. reflexivity. Qed.

(** The entry of [streamID] was deleted before the loop, so the loop
    compares every record's position with offset 0 and keeps none. *)
Lemma cleanupLoop_keeps_nothing (fuel : nat) :
  forall infos streamID reader writer pos writer' e,
    infos !! streamID = None -> 0 <= pos ->
    cleanupLoop fuel infos streamID reader writer pos = Some (writer', e) ->
    writer' = writer.
Proof.
  induction fuel as [| fuel IH];
    intros infos streamID reader writer pos writer' e Hnone Hpos H;
    [discriminate |].
  rewrite cleanupLoop_S in H.
  destruct (readFull reader headerSize) as [[header reader2] | err] eqn:E.
  - cbv zeta in H. rewrite Hnone in H. cbn [default zeroInfo offset] in H.
    destruct (0 =? pos + headerSize) eqn:E0;
      [apply Z.eqb_eq in E0; unfold headerSize in E0; lia |].
    destruct (skipSizes _ reader2 0 (pos + headerSize) 0)
      as [[[[dataSize pos2] reader3] | err] |] eqn:Es.
    + destruct (discard reader3 dataSize) as [reader4 | err] eqn:Ed.
      * apply skipSizes_pos in Es.
        assert (0 <= dataSize).
        { unfold discard in Ed. destruct (dataSize <? 0) eqn:E1; [discriminate |].
          apply Z.ltb_ge in E1. exact E1. }
        eapply IH in H; [exact H | exact Hnone |]. unfold headerSize in *. lia.
      * inversion H. reflexivity.
    + inversion H. reflexivity.
    + inversion H. reflexivity.
  - destruct err; inversion H; reflexivity.
Qed.

(** C2, witness: the packets ab, zz, cd of stream 42 come back from [Data],
    and [DataForSearch] returns abcd, zz and the offsets (0,0) (2,0) (2,2)
    (4,2). *)
Lemma roundtrip_S1 :
  Data (SetData NewCacheFile_empty 42 scenarioS1).1 42
  = Ok (Some scenarioS1, 4, 2)
  /\ DataForSearch (SetData NewCacheFile_empty 42 scenarioS1).1 42
     = Ok ([97; 98; 99; 100], [122; 122], [(0, 0); (2, 0); (2, 2); (4, 2)], 4, 2).
Proof.
  destruct (roundtrip NewCacheFile_empty 42 scenarioS1) as (_ & HD & HS).
  - simpl. lia.
  - reflexivity.
  - exact I.
  - repeat constructor; discriminate.
  - reflexivity.
  - split; [exact HD | exact HS].
Defined.

(** C2, counterexample: a packet list that starts with an empty packet is
    stored without error, but [Data] returns no packet at all, so neither
    the list nor the byte total of the client direction is preserved. *)
Lemma roundtrip_empty_packet_counterexample :
  Data (SetData NewCacheFile_empty 42 emptyThenData).1 42 = Ok (Some [], 0, 0)
  /\ bytesOf DirectionClientToServer emptyThenData = [97; 98]
  /\ ~ (exists c s, Data (SetData NewCacheFile_empty 42 emptyThenData).1 42
                    = Ok (Some emptyThenData, c, s)).
Proof.
  assert (H : Data (SetData NewCacheFile_empty 42 emptyThenData).1 42
              = Ok (Some [], 0, 0)) by (vm_compute; reflexivity).
  split; [exact H |]. split; [reflexivity |].
  intros (c & s & H'). rewrite H in H'. discriminate H'.
Qed.

(** ** The cleanup of [SetData] *)

Lemma fileWrite_end (f : osFile) (p : list Z) :
  position f = Z.of_nat (length (contents f)) ->
  fileWrite f p
  = {| contents := contents f ++ p;
       position := position f + Z.of_nat (length p) |}.
Proof.
  intros H. unfold fileWrite. rewrite H, Nat2Z.id, Z.sub_diag.
  rewrite firstn_all, drop_ge by lia.
  unfold zeros. cbn [Z.to_nat repeat app]. rewrite app_nil_r. reflexivity.
Qed.

(** Without a cleanup [SetData] leaves the write position at the recorded
    end of the file, where it found it. *)
Lemma SetData_keeps_end (cf : cacheFile) (s : N) (P : list IndexData) :
  position (file cf) = fileSize cf ->
  fileSize cf = Z.of_nat (length (contents (file cf))) ->
  noCleanup cf s -> nonEmpty P -> totalBytes P < 2 ^ 63 ->
  position (file (SetData cf s P).1) = fileSize (SetData cf s P).1
  /\ fileSize (SetData cf s P).1
     = Z.of_nat (length (contents (file (SetData cf s P).1))).
Proof.
  intros Hpos Hsize Hno Hne Htot.
  destruct (SetData_noCleanup cf s P Hno) as (cf0 & -> & Hf & Hs).
  cbn [fst]. pose proof (appendRecord_layout cf0 s P Hne Htot) as HL.
  cbv zeta in HL. rewrite HL. cbn [file fileSize].
  rewrite fileWrite_end by (rewrite Hf; congruence).
  cbn [position contents]. rewrite Hf, Hs, !length_app, length_le64.
  unfold headerSize. rewrite length_app in *. lia.
Qed.

Lemma fileWrite_start (f : osFile) (p : list Z) :
  position f = 0 ->
  fileWrite f p
  = {| contents := p ++ drop (length p) (contents f);
       position := Z.of_nat (length p) |}.
Proof.
  intros H. unfold fileWrite. rewrite H.
  change (Z.to_nat 0) with 0%nat. cbn [take app Nat.add].
  unfold zeros. replace (Z.to_nat (0 - Z.of_nat (length (contents f)))) with 0%nat by lia.
  reflexivity.
Qed.

Lemma discard_app (a b : list Z) :
  discard (a ++ b) (Z.of_nat (length a)) = Ok b.
Proof.
  unfold discard.
  destruct (Z.of_nat (length a) <? 0) eqn:E; [apply Z.ltb_lt in E; lia |].
  destruct (Z.of_nat (length (a ++ b)) <? Z.of_nat (length a)) eqn:E2.
  - apply Z.ltb_lt in E2. rewrite length_app in E2. lia.
  - rewrite Nat2Z.id, drop_app_length. reflexivity.
Qed.

(** One round of the cleanup loop over a record that is not kept: the
    header, the chunk sizes and the data are read and nothing is written. *)
Lemma cleanupLoop_skips (fuel : nat) (infos : gmap N streamInfo) (streamID : N)
    (reader header sizes data rest : list Z) (writer : bufWriter)
    (pos pos' : Z) :
  infos !! streamID = None -> 0 <= pos -> length header = 8%nat ->
  reader = header ++ sizes ++ data ++ rest ->
  skipSizes (S (S (length (sizes ++ data ++ rest)))) (sizes ++ data ++ rest)
    0 (pos + headerSize) 0
  = Some (Ok (Z.of_nat (length data), pos', data ++ rest)) ->
  cleanupLoop (S fuel) infos streamID reader writer pos
  = cleanupLoop fuel infos streamID rest writer (pos' + Z.of_nat (length data)).
Proof.
  intros Hnone Hpos Hh -> Hskip. rewrite cleanupLoop_S.
  replace headerSize with (Z.of_nat (length header))
    by (rewrite Hh; reflexivity).
  rewrite readFull_app. cbv zeta. rewrite Hnone.
  cbn [default zeroInfo offset].
  replace (Z.of_nat (length header)) with headerSize
    by (rewrite Hh; reflexivity).
  destruct (0 =? pos + headerSize) eqn:E0;
    [apply Z.eqb_eq in E0; unfold headerSize in E0; lia |].
  rewrite Hskip, discard_app. reflexivity.
Qed.

Lemma cleanupLoop_end (fuel : nat) (infos : gmap N streamInfo) (streamID : N)
    (writer : bufWriter) (pos : Z) :
  cleanupLoop (S fuel) infos streamID [] writer pos = Some (writer, None).
Proof. reflexivity. Qed.

(** The state the cleanup leaves when it returns no error: but for the
    file position, the deleted entry and the free space that is taken to
    be gone, the one it found. *)
Lemma cleanupFile_result (cf cf' : cacheFile) (streamID : N) :
  fileSize cf = Z.of_nat (length (contents (file cf))) ->
  cleanupFile cf streamID = (cf', None) ->
  cf' = {| file := {| contents := contents (file cf);
                      position := freeStart cf |};
           fileSize := fileSize cf; freeSize := 0;
           freeStart := freeStart cf;
           streamInfos := delete streamID (streamInfos cf) |}.
Proof.
  intros Hsize H. unfold cleanupFile in H. cbn [with_infos file freeStart] in H.
  unfold fileSeekStart in H.
  destruct (freeStart cf <? 0) eqn:Ef; [discriminate |].
  apply Z.ltb_ge in Ef.
  cbn [with_file streamInfos fileSize freeStart] in H.
  match type of H with
  | context [cleanupLoop ?f ?i ?s ?r ?w ?p] =>
      destruct (cleanupLoop f i s r w p) as [[w' [e |]] |] eqn:El
  end; try discriminate.
  apply cleanupLoop_keeps_nothing in El; [| apply lookup_delete_eq | exact Ef].
  subst w'. cbn [target] in H. unfold fileTruncate in H. cbn [contents position] in H.
  unfold with_infos, with_file, with_free in H.
  cbn [fileSize file streamInfos freeStart freeSize contents position] in H.
  destruct (fileSize cf <? 0) eqn:E0; [discriminate |].
  inversion H; subst; clear H.
  rewrite Hsize, Nat2Z.id, firstn_all, Z.sub_diag.
  unfold zeros. cbn [Z.to_nat repeat]. rewrite app_nil_r. reflexivity.
Qed.

(** The cleanup returns no error when its loop does not. *)
Lemma cleanupFile_ok (cf : cacheFile) (streamID : N) (w : bufWriter) :
  0 <= freeStart cf -> 0 <= fileSize cf ->
  cleanupLoop
    (S (length (sectionReader (file cf) (freeStart cf)
                  (fileSize cf - freeStart cf))))
    (delete streamID (streamInfos cf)) streamID
    (sectionReader (file cf) (freeStart cf) (fileSize cf - freeStart cf))
    {| target := {| contents := contents (file cf);
                    position := freeStart cf |};
       pending := [] |}
    (freeStart cf)
  = Some (w, None) ->
  (cleanupFile cf streamID).2 = None.
Proof.
  intros Hs Hf H. unfold cleanupFile. cbn [with_infos file freeStart].
  unfold fileSeekStart.
  destruct (freeStart cf <? 0) eqn:Ef; [apply Z.ltb_lt in Ef; lia |].
  cbn [with_file streamInfos fileSize freeStart].
  unfold sectionReader in *. cbn [contents] in *.
  unfold with_infos, with_file.
  cbn [file fileSize freeStart streamInfos contents].
  rewrite H. unfold fileTruncate. cbn [fileSize].
  destruct (fileSize cf <? 0) eqn:E0; [apply Z.ltb_lt in E0; lia |].
  reflexivity.
Qed.

(** ** The scenario of the cleanup, for any packet of 16 MiB *)

Lemma beforeCleanup_eq (big : list Z) :
  Z.of_nat (length big) = cleanupMinFreeSize ->
  beforeCleanup big
  = {| file := {| contents := contents (file smallRecords) ++ le64 3
                              ++ [136; 128; 128; 0; 0; 0] ++ big;
                  position := 16777270 |};
       fileSize := 16777270; freeSize := 13; freeStart := 0;
       streamInfos := <[3%N := {| offset := 48; size := 16777222 |}]>
                        (streamInfos smallRecords) |}.
Proof.
  intros Hbig. unfold cleanupMinFreeSize in Hbig.
  unfold beforeCleanup, SetData.
  change (streamInfos smallRecords !! 3%N) with (@None streamInfo).
  cbv beta iota zeta delta [fst].
  pose proof (appendRecord_layout smallRecords 3 [mkData c2s big]) as H.
  cbv zeta in H. rewrite H; clear H.
  - change (encSizes [mkData c2s big] DirectionClientToServer)
      with (encVarInt (Z.of_nat (length big)) ++ []).
    change (bytesOf DirectionClientToServer [mkData c2s big]) with (big ++ []).
    change (bytesOf DirectionServerToClient [mkData c2s big]) with (@nil Z).
    rewrite Hbig.
    change (encVarInt (16 * 1024 * 1024)) with [136; 128; 128; 0].
    rewrite !app_nil_r.
    rewrite fileWrite_end by reflexivity.
    change (fileSize smallRecords) with 40.
    change (freeSize smallRecords) with 13.
    change (freeStart smallRecords) with 0.
    change (position (file smallRecords)) with 40.
    change (0 =? 40) with false. cbv iota.
    replace (Z.of_nat (length ([136; 128; 128; 0] ++ [0; 0] ++ big)))
      with 16777222 by (rewrite !length_app; cbn [length]; lia).
    replace (Z.of_nat (length (le64 3 ++ [136; 128; 128; 0] ++ [0; 0] ++ big)))
      with 16777230
      by (rewrite !length_app; change (length (le64 3)) with 8%nat;
          cbn [length]; lia).
    reflexivity.
  - constructor; [| constructor]. cbn [Content]. intros ->.
    cbn [length] in Hbig. lia.
  - unfold totalBytes, totalOf.
    change (bytesOf DirectionClientToServer [mkData c2s big]) with (big ++ []).
    change (bytesOf DirectionServerToClient [mkData c2s big]) with (@nil Z).
    rewrite app_nil_r, Hbig. reflexivity.
Qed.

Lemma smallRecords_contents :
  contents (file smallRecords)
  = [1; 0; 0; 0; 0; 0; 0; 0] ++ [2; 0; 0] ++ [97; 98]
    ++ [2; 0; 0; 0; 0; 0; 0; 0] ++ [2; 1; 0; 0] ++ [99; 100; 101]
    ++ [1; 0; 0; 0; 0; 0; 0; 0] ++ [1; 0; 0] ++ [97].
Proof. reflexivity. Qed.

(** The cleanup loop runs over the four records of the file and comes to
    its end without an error. *)
Lemma cleanupLoop_scenario (big : list Z) (infos : gmap N streamInfo)
    (writer : bufWriter) (fuel : nat) :
  Z.of_nat (length big) = cleanupMinFreeSize ->
  infos !! 3%N = None ->
  cleanupLoop (S (S (S (S (S fuel))))) infos 3
    (contents (file smallRecords) ++ le64 3 ++ [136; 128; 128; 0; 0; 0] ++ big)
    writer 0
  = Some (writer, None).
Proof.
  intros Hbig Hnone. rewrite smallRecords_contents.
  rewrite (cleanupLoop_skips _ infos 3 _ [1; 0; 0; 0; 0; 0; 0; 0] [2; 0; 0]
             [97; 98]
             ([2; 0; 0; 0; 0; 0; 0; 0] ++ [2; 1; 0; 0] ++ [99; 100; 101]
              ++ [1; 0; 0; 0; 0; 0; 0; 0] ++ [1; 0; 0] ++ [97]
              ++ le64 3 ++ [136; 128; 128; 0; 0; 0] ++ big)
             writer 0 11 Hnone);
    [| lia | reflexivity | reflexivity | reflexivity].
  rewrite (cleanupLoop_skips _ infos 3 _ [2; 0; 0; 0; 0; 0; 0; 0] [2; 1; 0; 0]
             [99; 100; 101]
             ([1; 0; 0; 0; 0; 0; 0; 0] ++ [1; 0; 0] ++ [97]
              ++ le64 3 ++ [136; 128; 128; 0; 0; 0] ++ big)
             writer _ 25 Hnone);
    [| cbn [length]; lia | reflexivity | reflexivity | reflexivity].
  rewrite (cleanupLoop_skips _ infos 3 _ [1; 0; 0; 0; 0; 0; 0; 0] [1; 0; 0]
             [97]
             (le64 3 ++ [136; 128; 128; 0; 0; 0] ++ big)
             writer _ 39 Hnone);
    [| cbn [length]; lia | reflexivity | reflexivity | reflexivity].
  rewrite (cleanupLoop_skips _ infos 3 _ (le64 3) [136; 128; 128; 0; 0; 0]
             big [] writer _ 54 Hnone);
    [apply cleanupLoop_end | cbn [length]; lia | reflexivity
    | rewrite app_nil_r; reflexivity |].
  rewrite Hbig. reflexivity.
Qed.

(** What the call that triggers the cleanup returns and leaves. *)
Lemma SetData_scenario (big : list Z) :
  Z.of_nat (length big) = cleanupMinFreeSize ->
  SetData (beforeCleanup big) 3 afterCleanupPackets
  = ({| file :=
          {| contents :=
               [3; 0; 0; 0; 0; 0; 0; 0; 12; 0; 0;
                1; 2; 3; 4; 5; 6; 7; 8; 9; 10; 11; 12]
               ++ [0; 0; 99; 100; 101; 1; 0; 0; 0; 0; 0; 0; 0; 1; 0; 0; 97;
                   3; 0; 0; 0; 0; 0; 0; 0; 136; 128; 128; 0; 0; 0]
               ++ big;
             position := 23 |};
        fileSize := 16777293; freeSize := 0; freeStart := 0;
        streamInfos := <[3%N := {| offset := 16777278; size := 15 |}]>
                         (streamInfos smallRecords) |}, None).
Proof.
  intros Hbig. rewrite (beforeCleanup_eq big Hbig). unfold SetData.
  cbn [streamInfos]. rewrite lookup_insert_eq.
  set (c := contents (file smallRecords) ++ le64 3
            ++ [136; 128; 128; 0; 0; 0] ++ big).
  set (infos := <[3%N := {| offset := 48; size := 16777222 |}]>
                  (streamInfos smallRecords)).
  change (freeOlder _ _)
    with {| file := {| contents := c; position := 16777270 |};
            fileSize := 16777270; freeSize := 16777243; freeStart := 0;
            streamInfos := infos |}.
  change (cleanupNeeded _) with true. cbv iota.
  assert (Hlen : Z.of_nat (length c) = 16777270).
  { unfold c. rewrite !length_app.
    change (length (contents (file smallRecords))) with 40%nat.
    change (length (le64 3)) with 8%nat. cbn [length].
    unfold cleanupMinFreeSize in Hbig. lia. }
  match goal with
  | |- context [cleanupFile ?x 3] => set (cfX := x)
  end.
  assert (Hok : (cleanupFile cfX 3).2 = None).
  { apply (cleanupFile_ok cfX 3
             {| target := {| contents := c; position := 0 |}; pending := [] |});
      [cbn; lia | cbn; lia |].
    unfold cfX, sectionReader. cbn [file contents fileSize freeStart streamInfos].
    change (Z.to_nat 0) with 0%nat. rewrite drop_0, Z.sub_0_r.
    rewrite take_ge by lia.
    replace (length c) with (S (S (S (S (length c - 4))))) by lia.
    apply cleanupLoop_scenario; [exact Hbig | apply lookup_delete_eq]. }
  destruct (cleanupFile cfX 3) as [cf' e] eqn:EC. cbn [snd] in Hok. subst e.
  apply cleanupFile_result in EC; [| symmetry; exact Hlen]. subst cf'.
  unfold cfX. cbn [file contents fileSize freeStart streamInfos].
  change (appendRecord _ 3 afterCleanupPackets)
    with {| file := fileWrite {| contents := c; position := 0 |}
                      [3; 0; 0; 0; 0; 0; 0; 0; 12; 0; 0;
                       1; 2; 3; 4; 5; 6; 7; 8; 9; 10; 11; 12];
            fileSize := 16777293; freeSize := 0; freeStart := 0;
            streamInfos := <[3%N := {| offset := 16777278; size := 15 |}]>
                             (delete 3%N infos) |}.
  rewrite fileWrite_start by reflexivity.
  rewrite insert_delete_eq. unfold infos. rewrite insert_insert_eq.
  reflexivity.
Qed.

(** C3: what the code does when a cleanup is due.  Stream 1 is stored twice,
    stream 2 once and stream 3 with a packet of 16 MiB; storing stream 3
    again triggers the cleanup and returns no error.  The file is not
    shortened while the recorded size grows, no live record is moved and no
    offset is updated, the new record is written at the earliest free offset
    and not at the end of the file, and [Data] fails afterwards both for the
    live stream 2 and for stream 3. *)
Theorem cleanup_eval (big : list Z) :
  Z.of_nat (length big) = cleanupMinFreeSize ->
  let cf := beforeCleanup big in
  let r := SetData cf 3 afterCleanupPackets in
  cleanupNeeded (freeOlder cf (default zeroInfo (streamInfos cf !! 3%N))) = true
  /\ r.2 = None
  /\ Z.of_nat (length (contents (file cf))) = 16777270
  /\ fileSize cf = 16777270
  /\ Z.of_nat (length (contents (file r.1))) = 16777270
  /\ fileSize r.1 = 16777293
  /\ freeStart cf = 0
  /\ position (file r.1) = 23
  /\ take 23 (contents (file r.1))
     = [3; 0; 0; 0; 0; 0; 0; 0; 12; 0; 0; 1; 2; 3; 4; 5; 6; 7; 8; 9; 10; 11; 12]
  /\ streamInfos r.1 !! 3%N = Some {| offset := 16777278; size := 15 |}
  /\ streamInfos cf !! 2%N = Some {| offset := 21; size := 7 |}
  /\ streamInfos r.1 !! 2%N = Some {| offset := 21; size := 7 |}
  /\ Data cf 2 = Ok (Some [mkData c2s [99; 100]; mkData s2c [101]], 2, 1)
  /\ Data r.1 2 = Err ErrUnexpectedEOF
  /\ Data r.1 3 = Err EOF.
Proof.
  intros Hbig cf r. unfold r, cf. clear r cf.
  rewrite (SetData_scenario big Hbig), (beforeCleanup_eq big Hbig).
  cbn [fst snd file contents position fileSize freeStart streamInfos].
  assert (Hlen : Z.of_nat (length big) = 16777216) by exact Hbig.
  split; [rewrite lookup_insert_eq; reflexivity |].
  split; [reflexivity |].
  split.
  { rewrite !length_app.
    change (length (contents (file smallRecords))) with 40%nat.
    change (length (le64 3)) with 8%nat. cbn [length]. lia. }
  split; [reflexivity |].
  split; [rewrite !length_app; cbn [length]; lia |].
  split; [reflexivity |]. split; [reflexivity |]. split; [reflexivity |].
  split; [reflexivity |].
  split; [rewrite lookup_insert_eq; reflexivity |].
  split; [rewrite lookup_insert_ne by discriminate; reflexivity |].
  split; [rewrite lookup_insert_ne by discriminate; reflexivity |].
  split.
  { unfold Data. cbn [streamInfos].
    rewrite lookup_insert_ne by discriminate. reflexivity. }
  split.
  { unfold Data. cbn [streamInfos].
    rewrite lookup_insert_ne by discriminate. reflexivity. }
  unfold Data. cbn [streamInfos]. rewrite lookup_insert_eq.
  unfold newSectionReader, sectionReader. cbn [offset size file contents].
  change (16777278 <? 0) with false. cbv iota.
  rewrite drop_ge; [reflexivity |].
  rewrite !length_app. cbn [length]. lia.
Qed.

(** C3, witness: sixteen MiB of the letter a. *)
Lemma cleanup_eval_witness :
  Data (beforeCleanup bigContent) 2
  = Ok (Some [mkData c2s [99; 100]; mkData s2c [101]], 2, 1)
  /\ (SetData (beforeCleanup bigContent) 3 afterCleanupPackets).2 = None
  /\ Data (SetData (beforeCleanup bigContent) 3 afterCleanupPackets).1 2
     = Err ErrUnexpectedEOF.
Proof.
  assert (H : Z.of_nat (length bigContent) = cleanupMinFreeSize).
  { unfold bigContent. rewrite repeat_length. apply N_nat_Z. }
  destruct (cleanup_eval bigContent H)
    as (_ & H2 & _ & _ & _ & _ & _ & _ & _ & _ & _ & _ & H13 & H14 & _).
  split; [exact H13 |]. split; [exact H2 | exact H14].
Defined.

End CacheTheory.

(** * Theory of the manager *)

Module ManagerTheory.

Import Manager.

Section ViewTheory.
Context `{QP : QueryPackage}.

Lemma scanIndexes_found (v : View) (newer : list Reader) :
  forall idx older streamID stream,
    Forall (fun j => StreamByID j streamID = Ok None) newer ->
    StreamByID idx streamID = Ok (Some stream) ->
    scanIndexes v (rev newer ++ idx :: older) streamID
    = ({| ctxStream := Some stream; ctxView := Some v |}, None).
Proof.
  induction newer as [| j newer IH] using rev_ind;
    intros idx older streamID stream Hnone Hsome.
  - simpl. rewrite Hsome. reflexivity.
  - apply Forall_app in Hnone as [Hnewer Hj].
    inversion Hj as [| ? ? Hj' _]; subst.
    rewrite rev_app_distr. simpl. rewrite Hj'.
    specialize (IH idx older streamID stream Hnewer Hsome).
    exact IH.
Qed.

Lemma scanIndexes_none (v : View) (l : list Reader) (streamID : N) :
  Forall (fun j => StreamByID j streamID = Ok None) l ->
  scanIndexes v l streamID = (zeroContext, None).
Proof.
  induction 1 as [| j l Hj _ IH]; simpl; [reflexivity |].
  rewrite Hj. exact IH.
Qed.

(** C10: [View.Stream] returns the stream of the newest index that holds
    [streamID], indexes being scanned from the last to the first; when no
    index holds it the result is the zero context with no error, and
    [StreamContext.Data] on that context is what fails with
    stream not found. *)
Theorem View_Stream_newest (v : View) (streamID : N) (mgr : Manager) :
  forall mgr' v' ctx err,
    View_Stream v streamID mgr = (mgr', v', (ctx, err)) ->
    (forall older idx newer stream,
        vIndexes v' = older ++ idx :: newer ->
        StreamByID idx streamID = Ok (Some stream) ->
        Forall (fun j => StreamByID j streamID = Ok None) newer ->
        ctx = {| ctxStream := Some stream; ctxView := Some v' |} /\ err = None)
    /\ (Forall (fun j => StreamByID j streamID = Ok None) (vIndexes v') ->
        ctx = zeroContext /\ err = None
        /\ forall converterName,
             StreamContext_Data ctx converterName
             = Err (ErrMsg "stream not found")).
Proof.
  intros mgr' v' ctx err H. unfold View_Stream in H.
  destruct (fetch v mgr) as [mgr1 v1]. inversion H; subst; clear H.
  split.
  - intros older idx newer stream Hidx Hsome Hnone.
    rewrite Hidx, rev_app_distr in H3. simpl in H3.
    rewrite <- app_assoc in H3. simpl in H3.
    rewrite (scanIndexes_found v' newer idx (rev older) streamID stream Hnone Hsome) in H3.
    inversion H3. done.
  - intros Hnone.
    rewrite (scanIndexes_none v' (rev (vIndexes v')) streamID) in H3.
    + inversion H3; subst. done.
    + apply Forall_rev. exact Hnone.
Qed.

End ViewTheory.

Section MergeTheory.
Context `{QP : QueryPackage}.

Lemma foldl_add_acc (f : Reader -> Z) (l : list Reader) :
  forall acc, foldl (fun a idx => a + f idx) acc l
              = acc + foldl (fun a idx => a + f idx) 0 l.
Proof.
  induction l as [| x l IH]; intros acc; simpl; [lia |].
  rewrite (IH (acc + f x)), (IH (0 + f x)). lia.
Qed.

Lemma sumCounts_cons (f : Reader -> Z) (x : Reader) (l : list Reader) :
  sumCounts f (x :: l) = f x + sumCounts f l.
Proof. unfold sumCounts. simpl. rewrite foldl_add_acc. lia. Qed.

Lemma sumCounts_nil (f : Reader -> Z) : sumCounts f [] = 0.
Proof. reflexivity. Qed.

Lemma IsZero_true (bm : gset N) : IsZero bm = true <-> bm = ∅.
Proof. unfold IsZero. apply bool_decide_eq_true. Qed.

Lemma IsZero_false (bm : gset N) : IsZero bm = false <-> bm <> ∅.
Proof. unfold IsZero. apply bool_decide_eq_false. Qed.

Lemma anyUncertain_spec (mgr : Manager) :
  anyUncertain (tags mgr) = true <-> someUncertain mgr.
Proof.
  unfold anyUncertain, someUncertain. rewrite existsb_exists. split.
  - intros ([n t] & Hin & Hz). exists n, t.
    apply list_elem_of_In, elem_of_map_to_list in Hin. split; [exact Hin |].
    apply negb_true_iff, IsZero_false in Hz. exact Hz.
  - intros (n & t & Hl & Hz). exists (n, t). split.
    + apply list_elem_of_In, elem_of_map_to_list. exact Hl.
    + apply negb_true_iff, IsZero_false. exact Hz.
Qed.

Lemma findMerge_spec (nU : Z) (idxs : list Reader) :
  forall pre,
    match findMerge idxs (Z.of_nat (length pre)) (sumCounts StreamCount idxs) nU with
    | Some z =>
        exists j, z = Z.of_nat (length pre + j)
                  /\ mergeableAt nU (pre ++ idxs) (length pre + j)
                  /\ forall j', (j' < j)%nat ->
                                ~ mergeableAt nU (pre ++ idxs) (length pre + j')
    | None =>
        forall j, (j < length idxs)%nat ->
                  ~ mergeableAt nU (pre ++ idxs) (length pre + j)
    end.
Proof.
  induction idxs as [| idx idxs IH]; intros pre.
  - simpl. intros j Hj. lia.
  - cbn [findMerge]. rewrite sumCounts_cons.
    replace (StreamCount idx + sumCounts StreamCount idxs - StreamCount idx)
      with (sumCounts StreamCount idxs) by lia.
    assert (Hhere : mergeableAt nU (pre ++ idx :: idxs) (length pre)
                    <-> nU <= Z.of_nat (length pre)
                        /\ StreamCount idx < sumCounts StreamCount idxs).
    { unfold mergeableAt, laterStreams.
      rewrite list_lookup_middle by done.
      replace (drop (S (length pre)) (pre ++ idx :: idxs)) with idxs.
      2:{ change (idx :: idxs) with ([idx] ++ idxs). rewrite app_assoc.
          rewrite drop_app_length'; [done |]. rewrite length_app. simpl. lia. }
      split.
      - intros (H1 & x & Hx & H2). inversion Hx; subst. done.
      - intros (H1 & H2). split; [done |]. exists idx. done. }
    destruct ((nU <=? Z.of_nat (length pre))
              && (StreamCount idx <? sumCounts StreamCount idxs)) eqn:E.
    + apply andb_true_iff in E as [E1 E2].
      apply Z.leb_le in E1. apply Z.ltb_lt in E2.
      exists 0%nat. rewrite Nat.add_0_r. split; [done |]. split.
      * apply Hhere. done.
      * intros j' Hj'. lia.
    + assert (Hnot : ~ mergeableAt nU (pre ++ idx :: idxs) (length pre)).
      { rewrite Hhere. intros [H1 H2].
        apply Z.leb_le in H1. apply Z.ltb_lt in H2. rewrite H1, H2 in E.
        discriminate. }
      specialize (IH (pre ++ [idx])).
      rewrite length_app in IH. cbn [length] in IH.
      replace (Z.of_nat (length pre + 1)) with (Z.of_nat (length pre) + 1) in IH by lia.
      rewrite <- app_assoc in IH. cbn [app] in IH.
      destruct (findMerge idxs (Z.of_nat (length pre) + 1)
                  (sumCounts StreamCount idxs) nU) as [z |].
      * destruct IH as (j & Hz & Hm & Hleast).
        exists (S j). split; [rewrite Hz; f_equal; lia |]. split.
        -- replace (length pre + S j)%nat with (length pre + 1 + j)%nat by lia.
           exact Hm.
        -- intros [| j'] Hj'.
           ++ rewrite Nat.add_0_r. exact Hnot.
           ++ replace (length pre + S j')%nat with (length pre + 1 + j')%nat by lia.
              apply Hleast. lia.
      * intros [| j] Hj.
        -- rewrite Nat.add_0_r. exact Hnot.
        -- replace (length pre + S j)%nat with (length pre + 1 + j)%nat by lia.
           apply IH. simpl in Hj. lia.
Qed.

Lemma mergeableAt_lt (nU : Z) (idxs : list Reader) (i : nat) :
  mergeableAt nU idxs i -> (i < length idxs)%nat.
Proof.
  intros (_ & idx & Hidx & _). apply lookup_lt_Some in Hidx. exact Hidx.
Qed.

(** C4: no merge job is started while a merge or a tagging job runs or a
    tag has a non-empty [Uncertain]; otherwise the job that is started
    merges the indexes from the first position [i >= nUnmergeableIndexes]
    whose stream count is strictly below the total of the later indexes,
    and none is started when there is no such position. *)
Theorem startMergeJobIfNeeded_spec (mgr : Manager) :
  nStreams mgr = sumCounts StreamCount (indexes mgr) ->
  ((mergeJobRunning mgr = true \/ taggingJobRunning mgr = true
    \/ someUncertain mgr) ->
   startMergeJobIfNeeded mgr = mgr)
  /\ (mergeJobRunning mgr = false -> taggingJobRunning mgr = false ->
      ~ someUncertain mgr ->
      (forall i,
          mergeableAt (nUnmergeableIndexes mgr) (indexes mgr) i ->
          (forall j, (j < i)%nat ->
                     ~ mergeableAt (nUnmergeableIndexes mgr) (indexes mgr) j) ->
          startMergeJobIfNeeded mgr
          = spawn (mergeIndexesJob (Z.of_nat i) (drop i (indexes mgr))
                     (drop i (indexes mgr)))
              (lock (drop i (indexes mgr)) (set_mergeJobRunning true mgr)).1)
      /\ ((forall i, ~ mergeableAt (nUnmergeableIndexes mgr) (indexes mgr) i) ->
          startMergeJobIfNeeded mgr = mgr)).
Proof.
  intros Hn. split.
  - intros [H | [H | H]]; unfold startMergeJobIfNeeded.
    + rewrite H. reflexivity.
    + rewrite H, orb_true_r. reflexivity.
    + apply anyUncertain_spec in H. rewrite H.
      destruct (mergeJobRunning mgr || taggingJobRunning mgr); reflexivity.
  - intros Hm Ht Hu.
    assert (Hany : anyUncertain (tags mgr) = false).
    { destruct (anyUncertain (tags mgr)) eqn:E; [| reflexivity].
      apply anyUncertain_spec in E. contradiction. }
    pose proof (findMerge_spec (nUnmergeableIndexes mgr) (indexes mgr) []) as Hf.
    cbn [length app Z.of_nat Nat.add] in Hf. rewrite <- Hn in Hf.
    change (Z.of_nat 0) with 0 in Hf.
    unfold startMergeJobIfNeeded. rewrite Hm, Ht, Hany. cbn [orb].
    destruct (findMerge (indexes mgr) 0 (nStreams mgr) (nUnmergeableIndexes mgr))
      as [z |].
    + destruct Hf as (j & -> & Hmj & Hleast). split.
      * intros i Hi Hmin.
        assert (i = j).
        { destruct (Nat.lt_trichotomy i j) as [Hlt | [Heq | Hgt]]; [| done |].
          - exfalso. apply (Hleast i Hlt). exact Hi.
          - exfalso. apply (Hmin j Hgt). exact Hmj. }
        subst j. unfold getIndexesCopy. rewrite Nat2Z.id. reflexivity.
      * intros Hnone. exfalso. apply (Hnone j). exact Hmj.
    + split; [| reflexivity].
      intros i Hi _. exfalso. apply (Hf i); [| exact Hi].
      eapply mergeableAt_lt. exact Hi.
Qed.

End MergeTheory.

Section PoolTheory.
Context `{QP : QueryPackage}.

Lemma occ_nonneg (i : N) (l : list Reader) : 0 <= occ i l.
Proof. induction l as [| r l IH]; simpl; [lia |]. destruct (decide _); lia. Qed.

Lemma heldCount_nonneg (i : N) (H : list (list Reader)) : 0 <= heldCount i H.
Proof.
  induction H as [| h H IH]; simpl; [lia |]. pose proof (occ_nonneg i h). lia.
Qed.

Lemma pow2_64 : 2 ^ 64 = 18446744073709551616.
Proof. reflexivity. Qed.

Lemma wrap64_id (z : Z) : 0 <= z < 2 ^ 64 -> wrap64 z = z.
Proof. intros H. unfold wrap64. apply Z.mod_small. exact H. Qed.

Lemma cnt_insert (m : gmap N Z) (i j : N) (v : Z) :
  cnt (<[i := v]> m) j = if decide (i = j) then v else cnt m j.
Proof.
  unfold cnt. rewrite lookup_insert. destruct (decide (i = j)); reflexivity.
Qed.

Lemma cnt_delete (m : gmap N Z) (i j : N) :
  cnt (delete i m) j = if decide (i = j) then 0 else cnt m j.
Proof.
  unfold cnt. rewrite lookup_delete. destruct (decide (i = j)); reflexivity.
Qed.

Lemma noZero_None (m : gmap N Z) (i : N) :
  noZero m -> (m !! i = None <-> cnt m i = 0).
Proof.
  intros Hz. unfold cnt. split.
  - intros ->. reflexivity.
  - destruct (m !! i) as [v |] eqn:E; [| done].
    simpl. intros ->. exfalso. exact (Hz i E).
Qed.

(** [lock]: every listed reader's counter goes up by the number of times
    it is listed. *)
Lemma lock_counts (l : list Reader) :
  forall m,
    noZero m -> (forall i, 0 <= cnt m i) ->
    (forall i, cnt m i + occ i l < 2 ^ 64) ->
    noZero (foldl lock1 m l)
    /\ forall i, cnt (foldl lock1 m l) i = cnt m i + occ i l.
Proof.
  induction l as [| r l IH]; intros m Hz Hpos Hbound.
  - simpl. split; [exact Hz |]. intros i. lia.
  - cbn [foldl].
    assert (Hr : cnt (lock1 m r) (rid r) = cnt m (rid r) + 1
                 /\ forall i, i <> rid r -> cnt (lock1 m r) i = cnt m i).
    { unfold lock1. split.
      - rewrite cnt_insert, decide_True by done.
        apply wrap64_id. specialize (Hbound (rid r)). specialize (Hpos (rid r)).
        cbn [occ] in Hbound. rewrite decide_True in Hbound by done.
        pose proof (occ_nonneg (rid r) l). lia.
      - intros i Hi. rewrite cnt_insert, decide_False by done. reflexivity. }
    destruct Hr as [Hr1 Hr2].
    assert (Hall : forall i, cnt (lock1 m r) i
                             = cnt m i + (if decide (rid r = i) then 1 else 0)).
    { intros i. destruct (decide (rid r = i)) as [<- | Hne]; [exact Hr1 |].
      rewrite Hr2 by done. lia. }
    destruct (IH (lock1 m r)) as [Hz' Hc'].
    + intros i Hi. unfold lock1 in Hi. rewrite lookup_insert in Hi.
      destruct (decide (rid r = i)) as [<- | Hne]; [| exact (Hz i Hi)].
      inversion Hi as [Hw]. fold (cnt m (rid r)) in Hw.
      assert (Hc := Hr1). unfold lock1 in Hc.
      rewrite cnt_insert, decide_True in Hc by done.
      specialize (Hpos (rid r)). lia.
    + intros i. rewrite Hall. specialize (Hpos i). destruct (decide _); lia.
    + intros i. rewrite Hall. specialize (Hbound i). cbn [occ] in Hbound. lia.
    + split; [exact Hz' |]. intros i. rewrite Hc', Hall. cbn [occ]. lia.
Qed.

(** [release] of readers on which that many locks are held: the counters
    go down, and exactly the readers whose counter reaches zero are closed
    and removed, each once. *)
Lemma release_counts (h : list Reader) :
  forall m rm,
    noZero m -> (forall i, occ i h <= cnt m i < 2 ^ 64) ->
    exists newly,
      (foldl release1 (m, rm) h).2 = newly ++ rm
      /\ NoDup newly
      /\ (forall i, i ∈ newly <-> 0 < occ i h /\ cnt m i = occ i h)
      /\ noZero (foldl release1 (m, rm) h).1
      /\ forall i, cnt (foldl release1 (m, rm) h).1 i = cnt m i - occ i h.
Proof.
  induction h as [| r h IH]; intros m rm Hz Hb.
  - exists []. simpl. split; [done |]. split; [constructor |].
    split; [| split; [exact Hz | intros i; lia]].
    intros i. split; [intros Hi; inversion Hi | lia].
  - assert (Hc1 : 1 <= cnt m (rid r) < 2 ^ 64).
    { specialize (Hb (rid r)). cbn [occ] in Hb.
      rewrite decide_True in Hb by done. pose proof (occ_nonneg (rid r) h). lia. }
    assert (Hr1 : release1 (m, rm) r
                  = if cnt m (rid r) - 1 =? 0
                    then (delete (rid r) m, rid r :: rm)
                    else (<[rid r := cnt m (rid r) - 1]> m, rm)).
    { unfold release1. cbn [fst snd]. rewrite wrap64_id by lia. reflexivity. }
    cbn [foldl]. rewrite Hr1. clear Hr1.
    assert (Hocc : forall i, occ i (r :: h)
                             = (if decide (rid r = i) then 1 else 0) + occ i h)
      by reflexivity.
    destruct (cnt m (rid r) - 1 =? 0) eqn:E.
    + apply Z.eqb_eq in E.
      destruct (IH (delete (rid r) m) (rid r :: rm))
        as (newly & Hrm & Hnd & Hin & Hz' & Hc').
      * intros i Hi. rewrite lookup_delete in Hi.
        destruct (decide (rid r = i)); [discriminate | exact (Hz i Hi)].
      * intros i. rewrite cnt_delete. specialize (Hb i). rewrite Hocc in Hb.
        pose proof (occ_nonneg i h). destruct (decide (rid r = i)) as [<- | ?]; lia.
      * exists (newly ++ [rid r]). split; [rewrite Hrm, <- app_assoc; done |].
        split.
        { apply NoDup_app. split; [exact Hnd |]. split; [| apply NoDup_singleton].
          intros i Hi Hi'. apply list_elem_of_singleton in Hi'. subst i.
          apply Hin in Hi. rewrite cnt_delete, decide_True in Hi by done. lia. }
        split.
        { intros i. rewrite elem_of_app, list_elem_of_singleton, Hin, cnt_delete, Hocc.
          specialize (Hb i). rewrite Hocc in Hb. pose proof (occ_nonneg i h).
          destruct (decide (rid r = i)) as [<- | Hne].
          - split; [intros _; lia | intros _; right; reflexivity].
          - split; [intros [? | ?]; [lia | congruence] | intros ?; left; lia]. }
        split; [exact Hz' |].
        intros i. rewrite Hc', cnt_delete, Hocc.
        destruct (decide (rid r = i)) as [<- | Hne]; lia.
    + apply Z.eqb_neq in E.
      destruct (IH (<[rid r := cnt m (rid r) - 1]> m) rm)
        as (newly & Hrm & Hnd & Hin & Hz' & Hc').
      * intros i Hi. rewrite lookup_insert in Hi.
        destruct (decide (rid r = i)); [inversion Hi; lia | exact (Hz i Hi)].
      * intros i. rewrite cnt_insert. specialize (Hb i). rewrite Hocc in Hb.
        pose proof (occ_nonneg i h). destruct (decide (rid r = i)) as [<- | ?]; lia.
      * exists newly. split; [exact Hrm |]. split; [exact Hnd |]. split.
        { intros i. rewrite Hin, cnt_insert, Hocc.
          specialize (Hb i). rewrite Hocc in Hb. pose proof (occ_nonneg i h).
          destruct (decide (rid r = i)) as [<- | Hne]; lia. }
        split; [exact Hz' |].
        intros i. rewrite Hc', cnt_insert, Hocc.
        destruct (decide (rid r = i)) as [<- | Hne]; lia.
Qed.

Lemma heldCount_delete (i : N) (H : list (list Reader)) :
  forall k h, H !! k = Some h ->
              heldCount i (delete k H) = heldCount i H - occ i h.
Proof.
  induction H as [| h0 H IH]; intros k h Hk; [discriminate |].
  destruct k as [| k]; simpl in *.
  - inversion Hk; subst. lia.
  - rewrite (IH k h Hk). lia.
Qed.

Lemma heldCount_ge (i : N) (H : list (list Reader)) (k : nat) (h : list Reader) :
  H !! k = Some h -> occ i h <= heldCount i H.
Proof.
  intros Hk. pose proof (heldCount_delete i H k h Hk).
  pose proof (heldCount_nonneg i (delete k H)). lia.
Qed.

Lemma forallb_bound (l : list Reader) (held : list (list Reader)) :
  forallb (fun r => heldCount (rid r) (l :: held) <? 2 ^ 64) l = true ->
  (forall i, heldCount i held < 2 ^ 64) ->
  forall i, heldCount i (l :: held) < 2 ^ 64.
Proof.
  intros Hf Hh i. cbn [heldCount].
  destruct (decide (occ i l = 0)) as [-> | Hne]; [apply Hh |].
  assert (Hin : exists r, r ∈ l /\ rid r = i).
  { clear -Hne. induction l as [| r l IH]; [done |].
    simpl in Hne. destruct (decide (rid r = i)) as [E | E].
    - exists r. split; [left | done].
    - destruct IH as (r' & ? & ?); [lia |]. exists r'. split; [by right | done]. }
  destruct Hin as (r & Hr & <-).
  rewrite forallb_forall in Hf. apply list_elem_of_In in Hr.
  specialize (Hf r Hr). apply Z.ltb_lt in Hf. exact Hf.
Qed.

Lemma lock_poolInv (mgr : Manager) (held : list (list Reader)) (l : list Reader) :
  poolInv mgr held ->
  (forall i, heldCount i (l :: held) < 2 ^ 64) ->
  poolInv (lock l mgr).1 ((lock l mgr).2 :: held)
  /\ removed (lock l mgr).1 = removed mgr
  /\ forall i, cnt (usedIndexes (lock l mgr).1) i
               = cnt (usedIndexes mgr) i + occ i l.
Proof.
  intros [Hz Hc] Hb. unfold lock. cbn [fst snd].
  destruct mgr; cbn [set_usedIndexes usedIndexes removed] in *.
  destruct (lock_counts l usedIndexes0) as [Hz' Hc'].
  - exact Hz.
  - intros i. destruct (Hc i) as [-> _]. apply heldCount_nonneg.
  - intros i. destruct (Hc i) as [-> _]. specialize (Hb i).
    cbn [heldCount] in Hb. lia.
  - split; [| split; [reflexivity | exact Hc']].
    split; [exact Hz' |]. intros i. rewrite Hc'. destruct (Hc i) as [-> _].
    cbn [heldCount]. split; [lia | apply Hb].
Qed.

Lemma release_poolInv (mgr : Manager) (held : list (list Reader)) (k : nat)
    (h : list Reader) :
  poolInv mgr held -> held !! k = Some h ->
  poolInv (release h mgr) (delete k held)
  /\ exists newly,
       removed (release h mgr) = newly ++ removed mgr
       /\ NoDup newly
       /\ (forall i, i ∈ newly <-> 0 < occ i h /\ heldCount i (delete k held) = 0)
       /\ forall i, cnt (usedIndexes (release h mgr)) i
                    = cnt (usedIndexes mgr) i - occ i h.
Proof.
  intros [Hz Hc] Hk. unfold release.
  destruct mgr; cbn [set_usedIndexes set_removed usedIndexes removed] in *.
  destruct (release_counts h usedIndexes0 removed0)
    as (newly & Hrm & Hnd & Hin & Hz' & Hc').
  - exact Hz.
  - intros i. destruct (Hc i) as [-> Hlt]. split; [| exact Hlt].
    eapply heldCount_ge. exact Hk.
  - split.
    + split; [exact Hz' |]. intros i. rewrite Hc'. destruct (Hc i) as [-> Hlt].
      rewrite (heldCount_delete i held k h Hk).
      pose proof (occ_nonneg i h). split; [reflexivity | lia].
    + exists newly. split; [exact Hrm |]. split; [exact Hnd |].
      split; [| exact Hc'].
      intros i. rewrite Hin, (heldCount_delete i held k h Hk).
      destruct (Hc i) as [-> _]. split; intros [? ?]; split; lia.
Qed.

Lemma runPool_poolInv (ops : list poolOp) :
  forall mgr held mgr' held',
    poolInv mgr held -> runPool ops mgr held = Some (mgr', held') ->
    poolInv mgr' held'.
Proof.
  induction ops as [| [l | k] ops IH]; intros mgr held mgr' held' Hinv Hrun;
    cbn [runPool] in Hrun.
  - inversion Hrun; subst. exact Hinv.
  - destruct (forallb _ l) eqn:Hf; [| discriminate].
    eapply IH; [| exact Hrun].
    apply lock_poolInv; [exact Hinv |].
    apply forallb_bound; [exact Hf |]. intros i. apply Hinv.
  - destruct (held !! k) as [h |] eqn:Hk; [| discriminate].
    eapply IH; [| exact Hrun].
    apply release_poolInv; assumption.
Qed.

(** C9: after any sequence of [lock] and [release] that starts from an
    empty pool, the counter of every reader is the number of locks held on
    it; [lock] adds one per listed reader and removes none; [release]
    subtracts one per listed reader and closes and removes exactly the
    readers no remaining lock holds, each one once. *)
Theorem pool_refcount (ops : list poolOp) (mgr0 mgr : Manager)
    (held : list (list Reader)) :
  usedIndexes mgr0 = ∅ ->
  runPool ops mgr0 [] = Some (mgr, held) ->
  (forall i, cnt (usedIndexes mgr) i = heldCount i held
             /\ (usedIndexes mgr !! i = None <-> heldCount i held = 0))
  /\ (forall l,
         (forall i, heldCount i (l :: held) < 2 ^ 64) ->
         removed (lock l mgr).1 = removed mgr
         /\ forall i, cnt (usedIndexes (lock l mgr).1) i
                      = cnt (usedIndexes mgr) i + occ i l)
  /\ (forall k h,
         held !! k = Some h ->
         exists newly,
           removed (release h mgr) = newly ++ removed mgr
           /\ NoDup newly
           /\ (forall i, i ∈ newly
                         <-> 0 < occ i h /\ heldCount i (delete k held) = 0)
           /\ forall i, cnt (usedIndexes (release h mgr)) i
                        = cnt (usedIndexes mgr) i - occ i h).
Proof.
  intros H0 Hrun.
  assert (Hinit : poolInv mgr0 []).
  { split.
    - intros i. rewrite H0, lookup_empty. discriminate.
    - intros i. unfold cnt. rewrite H0, lookup_empty. simpl.
      split; [reflexivity | rewrite pow2_64; lia]. }
  pose proof (runPool_poolInv ops mgr0 [] mgr held Hinit Hrun) as Hinv.
  split; [| split].
  - intros i. destruct Hinv as [Hz Hc]. destruct (Hc i) as [Hci _].
    split; [exact Hci |]. rewrite <- Hci. apply noZero_None. exact Hz.
  - intros l Hb. destruct (lock_poolInv mgr held l Hinv Hb) as (_ & Hr & Hc).
    split; assumption.
  - intros k h Hk. destruct (release_poolInv mgr held k h Hinv Hk) as (_ & Hex).
    exact Hex.
Qed.

End PoolTheory.

Section MergeDone.
Context `{QP : QueryPackage}.

Lemma startMergeJobIfNeeded_fields (mgr : Manager) :
  indexes (startMergeJobIfNeeded mgr) = indexes mgr
  /\ nUnmergeableIndexes (startMergeJobIfNeeded mgr) = nUnmergeableIndexes mgr
  /\ tags (startMergeJobIfNeeded mgr) = tags mgr.
Proof.
  unfold startMergeJobIfNeeded.
  destruct (mergeJobRunning mgr || taggingJobRunning mgr); [done |].
  destruct (anyUncertain (tags mgr)); [done |].
  destruct (findMerge _ _ _ _); [| done].
  destruct mgr; done.
Qed.

Lemma release_fields (r : list Reader) (mgr : Manager) :
  indexes (release r mgr) = indexes mgr
  /\ nUnmergeableIndexes (release r mgr) = nUnmergeableIndexes mgr
  /\ tags (release r mgr) = tags mgr.
Proof. destruct mgr; done. Qed.

(** C5 (amended): completion of a merge job.  When the merge failed or
    produced nothing, [nUnmergeableIndexes] grows by one and the indexes,
    counters and files are untouched; otherwise the slice
    [offset, offset + len inputs) is replaced by the result, the old readers
    are released and the new ones locked, and [nUnmergeableIndexes] is
    increased by [len merged - 1]. *)
Theorem mergeIndexesJob_done_spec (offset : Z) (inputs releaser merged : list Reader)
    (failed : bool) (mgr : Manager) :
  let old := take (length inputs) (drop (Z.to_nat offset) (indexes mgr)) in
  let mgr1 := mergeIndexesJob_apply offset inputs merged failed mgr in
  let mgr' := mergeIndexesJob_done offset inputs releaser merged failed mgr in
  indexes mgr' = indexes mgr1
  /\ nUnmergeableIndexes mgr' = nUnmergeableIndexes mgr1
  /\ (merged = [] \/ failed = true ->
      nUnmergeableIndexes mgr1 = nUnmergeableIndexes mgr + 1
      /\ indexes mgr1 = indexes mgr
      /\ usedIndexes mgr1 = usedIndexes mgr
      /\ removed mgr1 = removed mgr)
  /\ (merged <> [] -> failed = false ->
      indexes mgr1
      = take (Z.to_nat offset) (indexes mgr) ++ merged
        ++ drop (Z.to_nat offset + length inputs) (indexes mgr)
      /\ nUnmergeableIndexes mgr1
         = nUnmergeableIndexes mgr + (Z.of_nat (length merged) - 1)
      /\ (noZero (usedIndexes mgr) ->
          (forall i, occ i old <= cnt (usedIndexes mgr) i < 2 ^ 64) ->
          (forall i, cnt (usedIndexes mgr) i - occ i old + occ i merged < 2 ^ 64) ->
          forall i, cnt (usedIndexes mgr1) i
                    = cnt (usedIndexes mgr) i - occ i old + occ i merged)).
Proof.
  intros old mgr1 mgr'. split; [| split; [| split]].
  - unfold mgr', mgr1, mergeIndexesJob_done.
    destruct (release_fields releaser
                (startMergeJobIfNeeded
                   (set_mergeJobRunning false
                      (mergeIndexesJob_apply offset inputs merged failed mgr))))
      as (-> & _).
    destruct (startMergeJobIfNeeded_fields
                (set_mergeJobRunning false
                   (mergeIndexesJob_apply offset inputs merged failed mgr)))
      as (-> & _).
    reflexivity.
  - unfold mgr', mgr1, mergeIndexesJob_done.
    destruct (release_fields releaser
                (startMergeJobIfNeeded
                   (set_mergeJobRunning false
                      (mergeIndexesJob_apply offset inputs merged failed mgr))))
      as (_ & -> & _).
    destruct (startMergeJobIfNeeded_fields
                (set_mergeJobRunning false
                   (mergeIndexesJob_apply offset inputs merged failed mgr)))
      as (_ & -> & _).
    reflexivity.
  - intros Hfail. unfold mgr1, mergeIndexesJob_apply.
    assert (E : (length merged =? 0)%nat || failed = true).
    { destruct Hfail as [-> | ->]; [reflexivity | apply orb_true_r]. }
    rewrite E. done.
  - intros Hne Hok. unfold mgr1, mergeIndexesJob_apply.
    assert (E : (length merged =? 0)%nat || failed = false).
    { rewrite Hok, orb_false_r. apply Nat.eqb_neq.
      destruct merged; [done | simpl; lia]. }
    rewrite E. fold old. split; [reflexivity |]. split; [reflexivity |].
    intros Hz Hb Hb' i.
    cbn [usedIndexes set_nPackets set_nStreams set_nUnmergeableIndexes set_indexes].
    unfold lock. cbn [fst usedIndexes set_usedIndexes].
    unfold release. cbn [usedIndexes set_removed set_usedIndexes].
    destruct (release_counts old (usedIndexes mgr) (removed mgr) Hz Hb)
      as (newly & _ & _ & _ & Hz1 & Hc1).
    destruct (lock_counts merged (foldl release1 (usedIndexes mgr, removed mgr) old).1)
      as [_ Hc2].
    + exact Hz1.
    + intros j. rewrite Hc1. specialize (Hb j). lia.
    + intros j. rewrite Hc1. apply Hb'.
    + rewrite Hc2, Hc1. reflexivity.
Qed.

End MergeDone.

Section AddTagTheory.
Context `{QP : QueryPackage}.

Lemma inList_spec (x : string) (l : list string) : inList x l = true <-> x ∈ l.
Proof.
  unfold inList. rewrite existsb_exists. split.
  - intros (y & Hin & Heq). apply String.eqb_eq in Heq. subst y.
    apply list_elem_of_In. exact Hin.
  - intros Hin. exists x. split; [apply list_elem_of_In; exact Hin |].
    apply String.eqb_refl.
Qed.


Lemma find_unknown_spec (tgs : gmap string tag) (refs : list string) :
  match List.find (fun t => negb (bool_decide (is_Some (tgs !! t)))) refs with
  | Some t => t ∈ refs /\ tgs !! t = None
  | None => forall t, t ∈ refs -> is_Some (tgs !! t)
  end.
Proof.
  destruct (List.find _ refs) as [t |] eqn:E.
  - apply find_some in E as [Hin Hb]. split; [apply list_elem_of_In; exact Hin |].
    apply negb_true_iff, bool_decide_eq_false in Hb.
    destruct (tgs !! t) eqn:El; [exfalso; apply Hb; eauto | reflexivity].
  - intros t Hin. apply list_elem_of_In in Hin.
    pose proof (find_none _ _ E t Hin) as Hb. simpl in Hb.
    apply negb_false_iff, bool_decide_eq_true in Hb. exact Hb.
Qed.


End AddTagTheory.

Section InheritTheory.
Context `{QP : QueryPackage}.

Lemma foldl_union_elem (f : string -> gset N) (l : list string) :
  forall (u : gset N) i,
    i ∈ foldl (fun u r => u ∪ f r) u l <-> i ∈ u \/ exists r, r ∈ l /\ i ∈ f r.
Proof.
  induction l as [| x l IH]; intros u i; simpl.
  - split; [auto | intros [? | (r & Hr & _)]; [done | inversion Hr]].
  - rewrite IH, elem_of_union. split.
    + intros [[? | ?] | (r & Hr & Hi)]; [by left | right | right].
      * exists x. split; [left | done].
      * exists r. split; [by right | done].
    + intros [? | (r & Hr & Hi)]; [by left; left |].
      apply elem_of_cons in Hr as [-> | Hr]; [by left; right |].
      right. exists r. done.
Qed.

Lemma foldl_union_ext (f g : string -> gset N) (l : list string) :
  (forall r, r ∈ l -> f r = g r) ->
  forall u : gset N, foldl (fun u r => u ∪ f r) u l = foldl (fun u r => u ∪ g r) u l.
Proof.
  induction l as [| x l IH]; intros Hfg u; simpl; [reflexivity |].
  rewrite (Hfg x) by left. apply IH. intros r Hr. apply Hfg. by right.
Qed.

Lemma existsb_ext_in {A} (f g : A -> bool) (l : list A) :
  (forall r, r ∈ l -> f r = g r) -> existsb f l = existsb g l.
Proof.
  induction l as [| x l IH]; intros Hfg; simpl; [reflexivity |].
  rewrite (Hfg x) by left. f_equal. apply IH. intros r Hr. apply Hfg. by right.
Qed.

Lemma inheritTag_ext (allS : gset N) (c1 c2 : gmap string tag) (t : tag) :
  (forall r, r ∈ referencedTags t -> uncertainOf c1 r = uncertainOf c2 r) ->
  inheritTag allS c1 t = inheritTag allS c2 t.
Proof.
  intros H. unfold inheritTag.
  rewrite (existsb_ext_in
             (fun rtn => negb (IsZero (uncertainOf c1 rtn)))
             (fun rtn => negb (IsZero (uncertainOf c2 rtn)))).
  2:{ intros r Hr. rewrite H; [reflexivity |].
      unfold referencedTags. apply elem_of_app. by right. }
  rewrite (foldl_union_ext (uncertainOf c1) (uncertainOf c2)).
  2:{ intros r Hr. apply H. unfold referencedTags. apply elem_of_app. by left. }
  reflexivity.
Qed.

Lemma finalTag_ext (allS : gset N) (c1 c2 : gmap string tag) (t : tag) :
  (forall r, r ∈ referencedTags t -> uncertainOf c1 r = uncertainOf c2 r) ->
  finalTag allS c1 t = finalTag allS c2 t.
Proof.
  intros H. unfold finalTag.
  destruct (MainTags (features t)), (SubQueryTags (features t));
    try reflexivity; apply inheritTag_ext; exact H.
Qed.

Lemma finalTag_features (allS : gset N) (cur : gmap string tag) (t : tag) :
  finalTag allS cur t = with_Uncertain t (Uncertain (finalTag allS cur t)).
Proof.
  unfold finalTag, inheritTag.
  destruct (MainTags (features t)), (SubQueryTags (features t));
    try (destruct t; reflexivity);
    destruct (existsb _ _); reflexivity.
Qed.

Lemma finalTag_spec (allS : gset N) (cur : gmap string tag) (t : tag) :
  inheritedUncertain allS cur t (Uncertain (finalTag allS cur t)).
Proof.
  unfold inheritedUncertain, noRefs, finalTag. split; [| split].
  - intros [-> ->]. reflexivity.
  - intros Hrefs (r & Hr & Hne).
    assert (Hex : existsb (fun rtn => negb (IsZero (uncertainOf cur rtn)))
                    (SubQueryTags (features t)) = true).
    { apply existsb_exists. exists r. split; [apply list_elem_of_In; exact Hr |].
      apply negb_true_iff, IsZero_false. exact Hne. }
    unfold inheritTag. rewrite Hex.
    destruct (MainTags (features t)) eqn:EM, (SubQueryTags (features t)) eqn:ES;
      [exfalso; apply Hrefs; done | reflexivity | reflexivity | reflexivity].
  - intros Hrefs Hall i.
    assert (Hex : existsb (fun rtn => negb (IsZero (uncertainOf cur rtn)))
                    (SubQueryTags (features t)) = false).
    { destruct (existsb _ _) eqn:E; [| reflexivity].
      apply existsb_exists in E as (r & Hr & Hz).
      apply negb_true_iff, IsZero_false in Hz.
      apply list_elem_of_In in Hr. exfalso. apply Hz, Hall, Hr. }
    assert (Hu : Uncertain (inheritTag allS cur t)
                 = foldl (fun u rtn => u ∪ uncertainOf cur rtn) (Uncertain t)
                     (MainTags (features t))).
    { unfold inheritTag. rewrite Hex. reflexivity. }
    destruct (MainTags (features t)) eqn:EM, (SubQueryTags (features t)) eqn:ES;
      [exfalso; apply Hrefs; done | | |];
      rewrite Hu, foldl_union_elem; reflexivity.
Qed.

(** *** The invariant of the loop *)

Section Loop.
Variable allS : gset N.
Variable tags0 : gmap string tag.

Lemma uncertainOf_insert_ne (cur : gmap string tag) (tn r : string) (t : tag) :
  r <> tn -> uncertainOf (<[tn := t]> cur) r = uncertainOf cur r.
Proof. intros H. unfold uncertainOf. rewrite lookup_insert_ne by done. done. Qed.

Lemma forallb_resolved (resolved : gset string) (l : list string) :
  forallb (fun rtn => bool_decide (rtn ∈ resolved)) l = true
  <-> forall r, r ∈ l -> r ∈ resolved.
Proof.
  rewrite forallb_forall. split.
  - intros H r Hr. apply list_elem_of_In in Hr.
    apply H in Hr. apply bool_decide_eq_true in Hr. exact Hr.
  - intros H r Hr. apply bool_decide_eq_true, H, list_elem_of_In, Hr.
Qed.

(** Resolving one tag keeps the invariant. *)
Lemma resolve_inv (resolved : gset string) (cur : gmap string tag)
    (tn : string) (ti : tag) :
  loopInv allS tags0 resolved cur -> cur !! tn = Some ti -> tn ∉ resolved ->
  (forall r, r ∈ referencedTags ti -> r ∈ resolved) ->
  loopInv allS tags0 ({[tn]} ∪ resolved)
    (match MainTags (features ti), SubQueryTags (features ti) with
     | [], [] => cur
     | _, _ => <[tn := inheritTag allS cur ti]> cur
     end).
Proof.
  intros [Ha Hb] Hti Hun Hrefs.
  set (cur' := match MainTags (features ti), SubQueryTags (features ti) with
               | [], [] => cur
               | _, _ => <[tn := inheritTag allS cur ti]> cur
               end).
  assert (Hsame : forall n, n <> tn -> cur' !! n = cur !! n).
  { intros n Hn. unfold cur'.
    destruct (MainTags (features ti)), (SubQueryTags (features ti));
      try reflexivity; apply lookup_insert_ne; congruence. }
  assert (Htn : cur' !! tn = Some (finalTag allS cur ti)).
  { unfold cur', finalTag.
    destruct (MainTags (features ti)), (SubQueryTags (features ti));
      try exact Hti; apply lookup_insert_eq. }
  assert (Hunc : forall r, r <> tn -> uncertainOf cur' r = uncertainOf cur r).
  { intros r Hr. unfold uncertainOf. rewrite Hsame by done. reflexivity. }
  assert (Hext : forall t0, (forall r, r ∈ referencedTags t0 -> r ∈ resolved) ->
                            finalTag allS cur' t0 = finalTag allS cur t0).
  { intros t0 Hr0. apply finalTag_ext. intros r Hr. apply Hunc.
    intros ->. apply Hun, Hr0, Hr. }
  split.
  - intros n Hn. apply elem_of_union in Hn as [Hn | Hn].
    + apply elem_of_singleton in Hn. subst n.
      exists ti. split; [rewrite <- (Hb tn Hun); exact Hti |].
      split; [rewrite Htn, Hext by exact Hrefs; reflexivity |].
      intros r Hr. apply elem_of_union. right. apply Hrefs, Hr.
    + destruct (Ha n Hn) as (t0 & H0 & Hc & Hr0).
      exists t0. split; [exact H0 |]. split.
      * rewrite Hsame by (intros ->; contradiction).
        rewrite Hext by exact Hr0. exact Hc.
      * intros r Hr. apply elem_of_union. right. apply Hr0, Hr.
  - intros n Hn. rewrite not_elem_of_union, not_elem_of_singleton in Hn.
    destruct Hn as [Hne Hnr]. rewrite Hsame by done. apply Hb, Hnr.
Qed.

Lemma inheritPass_inv (order : list string) :
  forall resolved cur,
    loopInv allS tags0 resolved cur ->
    let st := inheritPass allS order resolved cur in
    loopInv allS tags0 st.1 st.2
    /\ resolved ⊆ st.1
    /\ forall n t0, n ∈ order -> tags0 !! n = Some t0 ->
                    (forall r, r ∈ referencedTags t0 -> r ∈ resolved) ->
                    n ∈ st.1.
Proof.
  induction order as [| tn order IH]; intros resolved cur Hinv; cbn [inheritPass].
  - split; [exact Hinv |]. split; [done |]. intros n t0 Hn. inversion Hn.
  - assert (Hskip : let st := inheritPass allS order resolved cur in
                    (tn ∈ resolved \/ cur !! tn = None
                     \/ exists ti, cur !! tn = Some ti
                                   /\ ~ (forall r, r ∈ referencedTags ti -> r ∈ resolved)) ->
                    loopInv allS tags0 st.1 st.2 /\ resolved ⊆ st.1
                    /\ forall n t0, n ∈ tn :: order -> tags0 !! n = Some t0 ->
                                    (forall r, r ∈ referencedTags t0 -> r ∈ resolved) ->
                                    n ∈ st.1).
    { intros st Hcase. destruct (IH resolved cur Hinv) as (H1 & H2 & H3).
      split; [exact H1 |]. split; [exact H2 |].
      intros n t0 Hn H0 Hr. apply elem_of_cons in Hn as [-> | Hn].
      - destruct Hcase as [Hres | [Hnone | (ti & Hti & Hnot)]].
        + apply H2, Hres.
        + destruct (decide (tn ∈ resolved)) as [Hres | Hres]; [apply H2, Hres |].
          destruct Hinv as [_ Hb]. rewrite (Hb tn Hres) in Hnone. congruence.
        + destruct (decide (tn ∈ resolved)) as [Hres | Hres]; [apply H2, Hres |].
          destruct Hinv as [_ Hb]. rewrite (Hb tn Hres) in Hti.
          assert (ti = t0) by congruence. subst ti. contradiction.
      - eapply H3; eassumption. }
    destruct (cur !! tn) as [ti |] eqn:Eti; [| apply Hskip; auto].
    destruct (bool_decide (tn ∈ resolved)) eqn:Eres.
    { apply bool_decide_eq_true in Eres. apply Hskip. auto. }
    apply bool_decide_eq_false in Eres.
    destruct (forallb _ (referencedTags ti)) eqn:Erefs.
    2:{ apply Hskip. right. right. exists ti. split; [reflexivity |].
        intros Hall. apply (proj2 (forallb_resolved resolved (referencedTags ti))) in Hall.
        congruence. }
    assert (Erefs' := proj1 (forallb_resolved resolved (referencedTags ti)) Erefs).
    clear Erefs. rename Erefs' into Erefs.
    pose proof (resolve_inv resolved cur tn ti Hinv Eti Eres Erefs) as Hinv'.
    set (cur' := match MainTags (features ti), SubQueryTags (features ti) with
                 | [], [] => cur
                 | _, _ => <[tn := inheritTag allS cur ti]> cur
                 end) in *.
    assert (Heq : match MainTags (features ti), SubQueryTags (features ti) with
                  | [], [] => inheritPass allS order ({[tn]} ∪ resolved) cur
                  | _, _ => inheritPass allS order ({[tn]} ∪ resolved)
                              (<[tn := inheritTag allS cur ti]> cur)
                  end = inheritPass allS order ({[tn]} ∪ resolved) cur').
    { unfold cur'.
      destruct (MainTags (features ti)), (SubQueryTags (features ti)); reflexivity. }
    rewrite Heq. clear Heq.
    destruct (IH ({[tn]} ∪ resolved) cur' Hinv') as (H1 & H2 & H3).
    assert (Hsub1 : resolved ⊆ {[tn]} ∪ resolved)
      by (intros x Hx; apply elem_of_union; right; exact Hx).
    split; [exact H1 |]. split; [etrans; [exact Hsub1 | exact H2] |].
    intros n t0 Hn H0 Hr. apply elem_of_cons in Hn as [-> | Hn].
    + apply H2. apply elem_of_union. left. apply elem_of_singleton. reflexivity.
    + eapply H3; [exact Hn | exact H0 |]. intros r Hr'. apply Hsub1, Hr, Hr'.
Qed.

Variable rank : string -> nat.
Hypothesis Hknown : referencesKnown tags0.
Hypothesis Hrank : ranked rank tags0.

(** An unresolved tag of least rank has all its references resolved. *)
Lemma resolvable_exists (resolved : gset string) (k : nat) :
  forall n t0, (rank n < k)%nat -> tags0 !! n = Some t0 -> n ∉ resolved ->
               exists m tm, tags0 !! m = Some tm /\ (m ∉ resolved)
                            /\ forall r, r ∈ referencedTags tm -> r ∈ resolved.
Proof.
  induction k as [| k IH]; intros n t0 Hk H0 Hun; [lia |].
  destruct (decide (Forall (fun r => r ∈ resolved) (referencedTags t0)))
    as [Hall | Hnot].
  - exists n, t0. split; [exact H0 |]. split; [exact Hun |].
    intros r Hr. rewrite Forall_forall in Hall. apply Hall, Hr.
  - apply not_Forall_Exists in Hnot; [| intros r; apply _].
    apply Exists_exists in Hnot as (r & Hr & Hrun).
    destruct (Hknown n t0 r H0 Hr) as [tr Htr].
    apply (IH r tr); [| exact Htr | exact Hrun].
    pose proof (Hrank n t0 r H0 Hr). lia.
Qed.

Lemma loopInv_dom (resolved : gset string) (cur : gmap string tag) :
  loopInv allS tags0 resolved cur -> dom cur = dom tags0 /\ resolved ⊆ dom tags0.
Proof.
  intros [Ha Hb]. split.
  - apply set_eq. intros n. rewrite !elem_of_dom.
    destruct (decide (n ∈ resolved)) as [Hr | Hr].
    + destruct (Ha n Hr) as (t0 & H0 & Hc & _). rewrite H0, Hc. split; eauto.
    + rewrite (Hb n Hr). reflexivity.
  - intros n Hn. destruct (Ha n Hn) as (t0 & H0 & _).
    apply elem_of_dom. eauto.
Qed.

Lemma inheritLoop_total (orders : list (list string)) :
  forall resolved cur,
    loopInv allS tags0 resolved cur ->
    Forall (visitsAll tags0) orders ->
    (size (dom tags0) - size resolved <= length orders)%nat ->
    exists final,
      inheritLoop allS orders resolved cur = Some final
      /\ loopInv allS tags0 (dom tags0) final.
Proof.
  induction orders as [| order orders IH]; intros resolved cur Hinv Hvis Hlen.
  - destruct (loopInv_dom resolved cur Hinv) as [Hdom Hsub].
    assert (Hsz : size resolved = size (dom tags0)).
    { apply subseteq_size in Hsub. simpl in Hlen. lia. }
    assert (Heq : resolved = dom tags0)
      by (apply set_subseteq_size_eq; [exact Hsub | lia]).
    exists cur. cbn [inheritLoop].
    rewrite <- (size_dom cur), Hdom, Hsz, Nat.eqb_refl.
    split; [reflexivity |]. rewrite <- Heq. exact Hinv.
  - destruct (loopInv_dom resolved cur Hinv) as [Hdom Hsub].
    cbn [inheritLoop]. rewrite <- (size_dom cur), Hdom.
    destruct (size resolved =? size (dom tags0))%nat eqn:E.
    + apply Nat.eqb_eq in E.
      assert (Heq : resolved = dom tags0)
        by (apply set_subseteq_size_eq; [exact Hsub | lia]).
      exists cur. split; [reflexivity |]. rewrite <- Heq. exact Hinv.
    + apply Nat.eqb_neq in E.
      inversion Hvis as [| ? ? Hv Hvs]; subst.
      destruct (inheritPass_inv order resolved cur Hinv) as (Hinv' & Hmono & Hprog).
      set (st := inheritPass allS order resolved cur) in *.
      (* some tag is still unresolved *)
      assert (Hex : exists n, n ∈ dom tags0 /\ n ∉ resolved).
      { destruct (decide (dom tags0 ∖ resolved = ∅)) as [Hall | Hnot].
        - exfalso. apply E. f_equal. apply set_eq. intros x.
          split; [apply Hsub |]. intros Hx.
          destruct (decide (x ∈ resolved)) as [Hr | Hr]; [exact Hr |].
          exfalso. apply (not_elem_of_empty (C := gset string) x).
          rewrite <- Hall. apply elem_of_difference. done.
        - apply set_choose_L in Hnot as [n Hn].
          apply elem_of_difference in Hn. exists n. exact Hn. }
      destruct Hex as (n & Hn & Hun). apply elem_of_dom in Hn as [t0 H0].
      destruct (resolvable_exists resolved (S (rank n)) n t0 (Nat.lt_succ_diag_r _) H0 Hun)
        as (m & tm & Hm & Hmun & Hmrefs).
      assert (Hmres : m ∈ st.1).
      { apply (Hprog m tm); [apply Hv; eauto | exact Hm | exact Hmrefs]. }
      destruct (loopInv_dom st.1 st.2 Hinv') as [_ Hsub'].
      apply (IH st.1 st.2 Hinv' Hvs).
      assert (Hlt : (size resolved < size st.1)%nat).
      { apply subset_size. split; [exact Hmono |].
        intros Hback. apply Hmun, Hback, Hmres. }
      apply subseteq_size in Hsub'. simpl in Hlen. lia.
Qed.

End Loop.

Lemma inheritTagUncertainty_spec (orders : list (list string)) (mgr : Manager)
    (rank : string -> nat) :
  referencesKnown (tags mgr) -> ranked rank (tags mgr) ->
  Forall (visitsAll (tags mgr)) orders ->
  (size (tags mgr) <= length orders)%nat ->
  exists mgr',
    inheritTagUncertainty orders mgr = Some mgr'
    /\ mgr' = set_tags (tags mgr') mgr
    /\ forall n,
         match tags mgr !! n with
         | None => tags mgr' !! n = None
         | Some t =>
             exists t', tags mgr' !! n = Some t'
                        /\ t' = with_Uncertain t (Uncertain t')
                        /\ inheritedUncertain (allStreams mgr) (tags mgr') t
                             (Uncertain t')
         end.
Proof.
  intros Hknown Hrank Hvis Hlen.
  assert (Hinit : loopInv (allStreams mgr) (tags mgr) ∅ (tags mgr)).
  { split; [intros n Hn; exfalso; exact (not_elem_of_empty n Hn) | reflexivity]. }
  destruct (inheritLoop_total (allStreams mgr) (tags mgr) rank Hknown Hrank
              orders ∅ (tags mgr) Hinit Hvis) as (final & Hloop & [Ha Hb]).
  { rewrite size_dom. lia. }
  exists (set_tags final mgr). unfold inheritTagUncertainty. rewrite Hloop.
  split; [reflexivity |]. split; [destruct mgr; reflexivity |].
  intros n. replace (tags (set_tags final mgr)) with final by (destruct mgr; done).
  destruct (tags mgr !! n) as [t |] eqn:E.
  - destruct (Ha n) as (t0 & H0 & Hc & _); [apply elem_of_dom; eauto |].
    assert (t0 = t) by congruence. subst t0.
    exists (finalTag (allStreams mgr) final t). split; [exact Hc |].
    split; [apply finalTag_features | apply finalTag_spec].
  - rewrite Hb; [exact E |]. intros Hn. apply elem_of_dom in Hn as [? ?]. congruence.
Qed.

Lemma invalidateTag_spec (allS updated added : gset N) (t : tag) :
  invalidateTag allS updated added t
  = with_Uncertain t (Uncertain (invalidateTag allS updated added t))
  /\ invalidatedUncertain allS updated added t
       (Uncertain (invalidateTag allS updated added t)).
Proof.
  unfold invalidateTag, invalidatedUncertain.
  destruct (SubQueryFeatures (features t) =? 0) eqn:Es; cbn [negb].
  - apply Z.eqb_eq in Es.
    destruct (andNot (MainFeatures (features t)) FeatureFilterID =? 0) eqn:Em.
    + apply Z.eqb_eq in Em. split; [destruct t; reflexivity |].
      split; [congruence |]. split; [reflexivity |]. congruence.
    + apply Z.eqb_neq in Em. split; [reflexivity |].
      split; [congruence |]. split; [congruence |]. intros _ _.
      destruct (Z.land (MainFeatures (features t)) timeOrData =? 0) eqn:Et;
        cbn [negb Uncertain with_Uncertain].
      * apply Z.eqb_eq in Et. split; [congruence | reflexivity].
      * apply Z.eqb_neq in Et. split; [reflexivity | congruence].
  - apply Z.eqb_neq in Es. split; [reflexivity |].
    split; [reflexivity |]. split; congruence.
Qed.

Lemma invalidateTag_features (allS updated added : gset N) (t : tag) :
  features (invalidateTag allS updated added t) = features t.
Proof.
  destruct (invalidateTag_spec allS updated added t) as [-> _]. reflexivity.
Qed.

(** C1: [invalidateTags] on an acyclic tag map.  Each tag first gets the
    uncertain set its features call for (all streams with subquery
    features, unchanged for id-only features, the added streams and, with a
    data or time filter, the updated ones otherwise); then uncertainty is
    inherited along the referenced tags: unchanged without references, all
    streams when a subquery reference is uncertain, else the union with the
    main references' sets. *)
Theorem invalidateTags_spec (orders : list (list string))
    (updatedStreams addedStreams : gset N) (mgr : Manager)
    (rank : string -> nat) :
  referencesKnown (tags mgr) -> ranked rank (tags mgr) ->
  Forall (visitsAll (tags mgr)) orders ->
  (size (tags mgr) <= length orders)%nat ->
  exists mgr',
    invalidateTags orders updatedStreams addedStreams mgr = Some mgr'
    /\ mgr' = set_tags (tags mgr') mgr
    /\ forall n,
         match tags mgr !! n with
         | None => tags mgr' !! n = None
         | Some t =>
             exists t' u,
               tags mgr' !! n = Some t'
               /\ t' = with_Uncertain t (Uncertain t')
               /\ invalidatedUncertain (allStreams mgr) updatedStreams
                    addedStreams t u
               /\ inheritedUncertain (allStreams mgr) (tags mgr')
                    (with_Uncertain t u) (Uncertain t')
         end.
Proof.
  intros Hknown Hrank Hvis Hlen. unfold invalidateTags.
  set (f := invalidateTag (allStreams mgr) updatedStreams addedStreams).
  set (mgr1 := set_tags (f <$> tags mgr) mgr).
  assert (Htags1 : tags mgr1 = f <$> tags mgr) by (destruct mgr; reflexivity).
  assert (Hall1 : allStreams mgr1 = allStreams mgr) by (destruct mgr; reflexivity).
  assert (Hrefs : forall t, referencedTags (f t) = referencedTags t).
  { intros t. unfold referencedTags, f. rewrite invalidateTag_features. done. }
  destruct (inheritTagUncertainty_spec orders mgr1 rank)
    as (mgr' & Hrun & Hmgr' & Hspec).
  - intros n t1 r H1 Hr. rewrite Htags1, lookup_fmap in H1 |- *.
    destruct (tags mgr !! n) as [t |] eqn:E; [| discriminate].
    inversion H1; subst t1. rewrite Hrefs in Hr.
    destruct (Hknown n t r E Hr) as [tr ->]. simpl. eauto.
  - intros n t1 r H1 Hr. rewrite Htags1, lookup_fmap in H1.
    destruct (tags mgr !! n) as [t |] eqn:E; [| discriminate].
    inversion H1; subst t1. rewrite Hrefs in Hr. exact (Hrank n t r E Hr).
  - eapply Forall_impl; [exact Hvis |]. intros order Hv n Hn. apply Hv.
    rewrite Htags1, lookup_fmap in Hn. destruct (tags mgr !! n); [eauto |].
    destruct Hn; discriminate.
  - rewrite Htags1, map_size_fmap. exact Hlen.
  - exists mgr'. split; [exact Hrun |].
    split; [rewrite Hmgr'; destruct mgr; reflexivity |].
    intros n. specialize (Hspec n). rewrite Htags1, lookup_fmap in Hspec.
    destruct (tags mgr !! n) as [t |] eqn:E; cbn [fmap option_fmap option_map] in Hspec;
      [| exact Hspec].
    destruct Hspec as (t' & Ht' & Hw & Hin).
    destruct (invalidateTag_spec (allStreams mgr) updatedStreams addedStreams t)
      as [Hf Hinv]. fold f in Hf, Hinv.
    exists t', (Uncertain (f t)). split; [exact Ht' |].
    split; [rewrite Hw, Hf; reflexivity |]. split; [exact Hinv |].
    rewrite Hall1, Hf in Hin. exact Hin.
Qed.

End InheritTheory.

Section MarkParts.
Context `{QP : QueryPackage}.

Lemma idOnly_noData (f : FeatureSet) :
  idOnly f ->
  Z.land (MainFeatures f) FeatureFilterData = 0
  /\ Z.land (SubQueryFeatures f) FeatureFilterData = 0.
Proof.
  intros (Hs & Hm & _). split; [| rewrite Hs; reflexivity].
  apply Z.bits_inj'. intros n Hn. rewrite Z.land_spec, Z.bits_0.
  destruct (Z.eq_dec n 1) as [-> | Hne].
  - assert (Hb : Z.testbit (andNot (MainFeatures f) FeatureFilterID) 1 = false)
      by (rewrite Hm; apply Z.bits_0).
    unfold andNot in Hb. rewrite Z.ldiff_spec in Hb.
    change (Z.testbit FeatureFilterID 1) with false in Hb.
    rewrite andb_true_r in Hb. rewrite Hb. reflexivity.
  - replace (Z.testbit FeatureFilterData n) with false; [apply andb_false_r |].
    unfold FeatureFilterData. change 2 with (2 ^ 1).
    symmetry. apply Z.pow2_bits_false. congruence.
Qed.

Lemma idOnly_noRefs (t : tag) : idOnly (features t) -> noRefs t.
Proof. intros (_ & _ & Hm & Hs). split; assumption. Qed.

(** **** The parts of an operation that leave the tags alone *)

Lemma pickTag_lookup (order : list string) (tgs : gmap string tag) (n : string)
    (t : tag) :
  pickTag order tgs = Some (n, t) -> tgs !! n = Some t.
Proof.
  induction order as [| x order IH]; simpl; [discriminate |].
  destruct (tgs !! x) as [tx |] eqn:E; [| exact IH].
  destruct (IsZero (Uncertain tx)); [exact IH |].
  destruct (existsb _ _); [exact IH |].
  intros H. inversion H; subst. exact E.
Qed.

Lemma lock_tags (l : list Reader) (mgr : Manager) :
  tags (lock l mgr).1 = tags mgr /\ started (lock l mgr).1 = started mgr.
Proof. destruct mgr; done. Qed.

Lemma release_inv (r : list Reader) (mgr : Manager) :
  managerInv mgr -> managerInv (release r mgr).
Proof. destruct mgr; done. Qed.

Lemma jobsFromMarks_cons (j : Job) (jobs : list Job) :
  jobsFromMarks jobs ->
  (forall n t d c i r, j = updateTagJob n t d c i r -> isMarkName n = true ->
                       idOnly (features t)) ->
  jobsFromMarks (j :: jobs).
Proof.
  intros Hj Hnew n t d c i r Hin Hm. apply elem_of_cons in Hin as [Heq | Hin].
  - eapply Hnew; [symmetry; exact Heq | exact Hm].
  - eapply Hj; eassumption.
Qed.

Lemma startTaggingJobIfNeeded_inv (order : list string) (mgr : Manager) :
  managerInv mgr -> managerInv (startTaggingJobIfNeeded order mgr).
Proof.
  intros [Hm Hj]. unfold startTaggingJobIfNeeded.
  destruct (taggingJobRunning mgr); [done |].
  destruct (pickTag order (tags mgr)) as [[n t] |] eqn:E; [| done].
  apply pickTag_lookup in E.
  destruct mgr; cbn in *. split; [exact Hm |].
  apply jobsFromMarks_cons; [exact Hj |].
  intros n' t' d c i r Heq Hmark. inversion Heq; subst.
  destruct (Hm n' t' E Hmark) as [_ Hid]. exact Hid.
Qed.

Lemma startMergeJobIfNeeded_inv (mgr : Manager) :
  managerInv mgr -> managerInv (startMergeJobIfNeeded mgr).
Proof.
  intros [Hm Hj]. unfold startMergeJobIfNeeded.
  destruct (mergeJobRunning mgr || taggingJobRunning mgr); [done |].
  destruct (anyUncertain (tags mgr)); [done |].
  destruct (findMerge _ _ _ _); [| done].
  destruct mgr; cbn in *. split; [exact Hm |].
  apply jobsFromMarks_cons; [exact Hj |]. intros; discriminate.
Qed.

Lemma startConverterJobIfNeeded_inv (order : list string) (mgr : Manager) :
  managerInv mgr -> managerInv (startConverterJobIfNeeded order mgr).
Proof.
  intros [Hm Hj]. unfold startConverterJobIfNeeded.
  destruct (converterJobRunning mgr); [done |].
  destruct (pickConverter order mgr); [| done].
  destruct mgr; cbn in *. split; [exact Hm |].
  apply jobsFromMarks_cons; [exact Hj |]. intros; discriminate.
Qed.

(** **** Inheritance leaves tags without references alone *)

Lemma inheritPass_keeps (allS : gset N) (order : list string) :
  forall resolved cur,
    let st := inheritPass allS order resolved cur in
    (forall n t, cur !! n = Some t -> noRefs t -> st.2 !! n = Some t)
    /\ (forall n t', st.2 !! n = Some t' ->
                     exists t, cur !! n = Some t /\ features t' = features t).
Proof.
  induction order as [| tn order IH]; intros resolved cur; cbn [inheritPass].
  - split; [done |]. intros n t' H. exists t'. done.
  - destruct (cur !! tn) as [ti |] eqn:Eti; [| apply IH].
    destruct (bool_decide (tn ∈ resolved)); [apply IH |].
    destruct (forallb _ (referencedTags ti)); [| apply IH].
    destruct (MainTags (features ti)) as [| m ms] eqn:EM,
             (SubQueryTags (features ti)) as [| s ss] eqn:ES; [apply IH | | |];
      (destruct (IH ({[tn]} ∪ resolved) (<[tn := inheritTag allS cur ti]> cur))
         as [H1 H2];
       split;
       [ intros n t Hn Hno; apply H1; [| exact Hno];
         rewrite lookup_insert_ne; [exact Hn |];
         intros ->; rewrite Eti in Hn; inversion Hn; subst;
         destruct Hno as [Hno1 Hno2]; congruence
       | intros n t' Hn; destruct (H2 n t' Hn) as (t & Ht & Hf);
         rewrite lookup_insert in Ht;
         destruct (decide (tn = n)) as [-> | Hne];
         [ inversion Ht; subst; exists ti; split; [exact Eti |];
           rewrite Hf; unfold inheritTag; destruct (existsb _ _); reflexivity
         | exists t; done ] ]).
Qed.

Lemma inheritLoop_keeps (allS : gset N) (orders : list (list string)) :
  forall resolved cur final,
    inheritLoop allS orders resolved cur = Some final ->
    (forall n t, cur !! n = Some t -> noRefs t -> final !! n = Some t)
    /\ (forall n t', final !! n = Some t' ->
                     exists t, cur !! n = Some t /\ features t' = features t).
Proof.
  induction orders as [| order orders IH]; intros resolved cur final H;
    cbn [inheritLoop] in H.
  - destruct (size resolved =? size cur)%nat; [| discriminate].
    inversion H; subst. split; [done |]. intros n t' Hn. exists t'. done.
  - destruct (size resolved =? size cur)%nat.
    + inversion H; subst. split; [done |]. intros n t' Hn. exists t'. done.
    + destruct (inheritPass_keeps allS order resolved cur) as [P1 P2].
      destruct (IH _ _ _ H) as [L1 L2]. split.
      * intros n t Hn Hno. apply L1; [| exact Hno]. apply P1; assumption.
      * intros n t' Hn. destruct (L2 n t' Hn) as (t1 & H1 & Hf1).
        destruct (P2 n t1 H1) as (t & Ht & Hf). exists t. split; [exact Ht |].
        congruence.
Qed.

(** Marks keep their state through [inheritTagUncertainty], whatever the
    other tags are; [except] is a mark that is being edited. *)
Lemma inheritTagUncertainty_marks (orders : list (list string)) (mgr mgr' : Manager)
    (except : string) :
  inheritTagUncertainty orders mgr = Some mgr' ->
  marksCertainBut except (tags mgr) ->
  marksCertainBut except (tags mgr')
  /\ started mgr' = started mgr.
Proof.
  unfold inheritTagUncertainty. intros H Hm.
  destruct (inheritLoop _ orders ∅ (tags mgr)) as [final |] eqn:E; [| discriminate].
  inversion H; subst; clear H.
  destruct (inheritLoop_keeps _ _ _ _ _ E) as [L1 L2].
  split; [| destruct mgr; reflexivity].
  replace (tags (set_tags final mgr)) with final by (destruct mgr; done).
  intros n t' Hn Hmark. destruct (L2 n t' Hn) as (t & Ht & Hf).
  destruct (Hm n t Ht Hmark) as [Hid Hu].
  rewrite (L1 n t Ht (idOnly_noRefs t Hid)) in Hn. inversion Hn; subst t'.
  done.
Qed.

Lemma marksCertain_But (tgs : gmap string tag) (except : string) :
  marksCertain tgs -> marksCertainBut except tgs.
Proof. intros H n t Hn Hm. destruct (H n t Hn Hm). done. Qed.

Lemma marksCertainBut_none (tgs : gmap string tag) (except : string) :
  marksCertainBut except tgs ->
  (forall t, tgs !! except = Some t -> isMarkName except = true -> Uncertain t = ∅) ->
  marksCertain tgs.
Proof.
  intros H He n t Hn Hm. destruct (H n t Hn Hm) as [Hid Hu]. split; [| exact Hid].
  destruct (decide (n = except)) as [-> | Hne]; [eapply He; eassumption | auto].
Qed.

Lemma inheritTagUncertainty_inv (orders : list (list string)) (mgr mgr' : Manager) :
  inheritTagUncertainty orders mgr = Some mgr' ->
  managerInv mgr -> managerInv mgr'.
Proof.
  intros H [Hm Hj].
  destruct (inheritTagUncertainty_marks orders mgr mgr' EmptyString H
              (marksCertain_But _ _ Hm)) as [Hm' Hs].
  split; [| rewrite Hs; exact Hj].
  intros n t Hn Hmark. destruct (Hm' n t Hn Hmark) as [Hid Hu].
  split; [| exact Hid]. apply Hu. intros ->. discriminate Hmark.
Qed.

Lemma invalidateTags_inv (orders : list (list string)) (updated added : gset N)
    (mgr mgr' : Manager) :
  invalidateTags orders updated added mgr = Some mgr' ->
  managerInv mgr -> managerInv mgr'.
Proof.
  unfold invalidateTags. intros H [Hm Hj].
  eapply inheritTagUncertainty_inv; [exact H |].
  split; [| destruct mgr; exact Hj].
  replace (tags (set_tags (invalidateTag (allStreams mgr) updated added <$> tags mgr) mgr))
    with (invalidateTag (allStreams mgr) updated added <$> tags mgr)
    by (destruct mgr; done).
  intros n t1 Hn Hmark. rewrite lookup_fmap in Hn.
  destruct (tags mgr !! n) as [t |] eqn:E; [| discriminate].
  inversion Hn; subst t1; clear Hn.
  destruct (Hm n t E Hmark) as [Hu (Hs & Hmain & HM & HS)].
  unfold invalidateTag. rewrite Hs, Hmain. cbn. done.
Qed.

End MarkParts.

Section MarkInvariant.
Context `{QP : QueryPackage}.

Lemma managerInv_ext (mgr mgr' : Manager) :
  tags mgr' = tags mgr -> started mgr' = started mgr ->
  managerInv mgr -> managerInv mgr'.
Proof. intros Ht Hs [Hm Hj]. split; [rewrite Ht | rewrite Hs]; assumption. Qed.

Lemma set_tag_inv (mgr : Manager) (name : string) (t t' : tag) :
  tags mgr !! name = Some t ->
  Uncertain t' = Uncertain t -> features t' = features t ->
  managerInv mgr -> managerInv (set_tags (<[name := t']> (tags mgr)) mgr).
Proof.
  intros Hn Hu Hf [Hm Hj]. split; [| destruct mgr; exact Hj].
  replace (tags (set_tags (<[name := t']> (tags mgr)) mgr))
    with (<[name := t']> (tags mgr)) by (destruct mgr; done).
  intros n x Hx Hmark. rewrite lookup_insert in Hx.
  destruct (decide (name = n)) as [-> | Hne].
  - inversion Hx; subst x. rewrite Hu, Hf. exact (Hm n t Hn Hmark).
  - exact (Hm n x Hx Hmark).
Qed.

Lemma detachConverterFromTag_inv (tagName converter : string) (mgr : Manager) :
  managerInv mgr -> managerInv (detachConverterFromTag tagName converter mgr).
Proof.
  intros Hinv. unfold detachConverterFromTag.
  destruct (tags mgr !! tagName) as [t |] eqn:E; [| exact Hinv].
  pose proof (set_tag_inv mgr tagName t
                (with_converters t (removeFirst converter (converters_ t)))
                E eq_refl eq_refl Hinv) as H1.
  set (mgr1 := set_tags _ mgr) in *.
  destruct (IsZero _);
    (eapply managerInv_ext; [| | exact H1]; destruct mgr1; reflexivity).
Qed.

Lemma detachLoop_inv (fuel : nat) :
  forall name keep arr len i mgr,
    managerInv mgr -> managerInv (detachLoop fuel name keep arr len i mgr).
Proof.
  induction fuel as [| fuel IH]; intros name keep arr len i mgr Hinv;
    cbn [detachLoop]; [exact Hinv |].
  destruct (arr !! i) as [converter |]; [| exact Hinv].
  destruct (inList converter keep); [apply IH; exact Hinv |].
  apply IH. apply detachConverterFromTag_inv. exact Hinv.
Qed.

Lemma attachConverterToTag_inv (order : list string) (tagName converter : string)
    (mgr : Manager) :
  managerInv mgr ->
  managerInv (attachConverterToTag order tagName converter mgr).1.
Proof.
  intros Hinv. unfold attachConverterToTag.
  destruct (tags mgr !! tagName) as [t |] eqn:E; [| exact Hinv].
  destruct (hasConverter converter t); [exact Hinv |].
  destruct (_ || _); [exact Hinv |]. cbn [fst].
  apply startConverterJobIfNeeded_inv.
  pose proof (set_tag_inv mgr tagName t
                (with_converters t (converters_ t ++ [converter]))
                E eq_refl eq_refl Hinv) as H1.
  set (mgr1 := set_tags _ mgr) in *.
  eapply managerInv_ext; [| | exact H1]; destruct mgr1; reflexivity.
Qed.

Lemma attachLoop_inv (order : list string) (name : string)
    (converterNames setNames : list string) :
  forall mgr,
    managerInv mgr ->
    managerInv (attachLoop order name converterNames setNames mgr).1.
Proof.
  induction setNames as [| c setNames IH]; intros mgr Hinv; cbn [attachLoop];
    [exact Hinv |].
  destruct (inList c converterNames); [apply IH; exact Hinv |].
  destruct (converters mgr !! c); [| exact Hinv].
  pose proof (attachConverterToTag_inv order name c mgr Hinv) as H1.
  destruct (attachConverterToTag order name c mgr) as [mgr1 [e |]];
    [exact H1 | apply IH; exact H1].
Qed.

Lemma foldl_mark_features (f : tag -> N -> tag) (l : list N) :
  (forall t s, features (f t s) = features t) ->
  forall t, features (foldl f t l) = features t.
Proof.
  intros Hf. induction l as [| s l IH]; intros t; simpl; [reflexivity |].
  rewrite IH. apply Hf.
Qed.

Hypothesis StreamIDs_idOnly :
  forall c, (StreamIDs c 0).2 = true -> idOnly (Features c).

Lemma AddTag_inv (order : list string) (name col queryString : string)
    (mgr : Manager) :
  managerInv mgr -> managerInv (AddTag order name col queryString mgr).1.
Proof.
  intros Hinv. unfold AddTag.
  destruct (negb _); [exact Hinv |].
  destruct (String.eqb (afterSlash name) EmptyString); [exact Hinv |].
  destruct (Parse queryString) as [q | e]; [| exact Hinv].
  destruct (negb _); [exact Hinv |].
  destruct (qGrouping q); [exact Hinv |].
  destruct (inList name _); [exact Hinv |].
  destruct (isMarkName name && negb (StreamIDs (qConditions q) 0).2) eqn:Emark;
    [exact Hinv |].
  destruct (tags mgr !! name) eqn:Eold; [exact Hinv |].
  destruct (List.find _ _); [exact Hinv |]. cbn [fst].
  destruct Hinv as [Hm Hj].
  destruct (isMarkName name) eqn:Em.
  - cbn [andb] in Emark. apply negb_false_iff in Emark.
    split; [| destruct mgr; exact Hj].
    match goal with
    | |- marksCertain (tags (set_tags ?m mgr)) =>
        replace (tags (set_tags m mgr)) with m by (destruct mgr; done)
    end.
    intros n x Hx Hmark. rewrite lookup_insert in Hx.
    destruct (decide (name = n)) as [-> | Hne]; [| exact (Hm n x Hx Hmark)].
    inversion Hx; subst x. cbn. split; [reflexivity |].
    apply StreamIDs_idOnly, Emark.
  - apply startTaggingJobIfNeeded_inv.
    split; [| destruct mgr; exact Hj].
    match goal with
    | |- marksCertain (tags (set_tags ?m mgr)) =>
        replace (tags (set_tags m mgr)) with m by (destruct mgr; done)
    end.
    intros n x Hx Hmark. rewrite lookup_insert in Hx.
    destruct (decide (name = n)) as [-> | Hne]; [congruence |].
    exact (Hm n x Hx Hmark).
Qed.

Lemma UpdateTag_inv (passes : list (list string)) (tagOrder convOrder : list string)
    (name : string) (info : updateTagOperationInfo) (mgr : Manager)
    (r : Manager * option error) :
  UpdateTag passes tagOrder convOrder name info mgr = Some r ->
  managerInv mgr -> managerInv r.1.
Proof.
  unfold UpdateTag. intros H Hinv.
  destruct (_ && negb (isMarkName name)); [inversion H; exact Hinv |].
  destruct (_ && (_ =? 0)%N); [inversion H; exact Hinv |].
  destruct (tags mgr !! name) as [t |] eqn:Et; [| inversion H; exact Hinv].
  set (mgr1 := if negb (String.eqb (infoColor info) EmptyString)
               then set_tags (<[name := with_color t (infoColor info)]> (tags mgr)) mgr
               else mgr) in H.
  assert (H1 : managerInv mgr1).
  { unfold mgr1. destruct (negb _); [| exact Hinv].
    apply (set_tag_inv mgr name t); done. }
  clearbody mgr1.
  match type of H with
  | (let '(m, e) := ?x in _) = _ =>
      assert (H2 : managerInv x.1); [| destruct x as [mgr2 err]]
  end.
  { destruct (convertersUpdated info); [| exact H1].
    apply attachLoop_inv, detachLoop_inv, H1. }
  cbn [fst] in H2.
  destruct err as [e |]; [inversion H; exact H2 |].
  destruct (negb _); [| inversion H; exact H2].
  destruct (nextStreamID mgr2 <=? _)%N; [inversion H; exact H2 |].
  destruct (tags mgr2 !! name) as [t2 |] eqn:Et2; [| inversion H; exact H2].
  match type of H with
  | context [inheritTagUncertainty passes ?m] =>
      destruct (inheritTagUncertainty passes m) as [mgr3 |] eqn:Einh;
      [| discriminate];
      destruct (inheritTagUncertainty_marks passes m mgr3 name Einh) as [Hm3 Hs3]
  end.
  { destruct H2 as [Hm2 _].
    match goal with
    | |- marksCertainBut name (tags (set_tags ?m mgr2)) =>
        replace (tags (set_tags m mgr2)) with m by (destruct mgr2; done)
    end.
    intros n x Hx Hmark. rewrite lookup_insert in Hx.
    destruct (decide (name = n)) as [-> | Hne].
    - inversion Hx; subst x. split; [| congruence].
      destruct (Hm2 n t2 Et2 Hmark) as [_ Hid].
      match goal with
      | |- idOnly (features (match ?p with Ok _ => _ | Err _ => _ end)) =>
          destruct p
      end; cbn [features with_definition];
        rewrite !foldl_mark_features by reflexivity; exact Hid.
    - destruct (Hm2 n x Hx Hmark). done. }
  inversion H; subst r; clear H. cbn [fst].
  apply startTaggingJobIfNeeded_inv. split.
  - match goal with
    | |- marksCertain (tags (set_tags ?m mgr3)) =>
        replace (tags (set_tags m mgr3)) with m by (destruct mgr3; done)
    end.
    intros n x Hx Hmark. rewrite lookup_alter in Hx.
    destruct (decide (name = n)) as [-> | Hne].
    + destruct (tags mgr3 !! n) as [y |] eqn:Ey; [| discriminate].
      inversion Hx; subst x. cbn. split; [reflexivity |].
      destruct (Hm3 n y Ey Hmark) as [Hid _]. exact Hid.
    + destruct (Hm3 n x Hx Hmark) as [Hid Hu]. split; [apply Hu; congruence | exact Hid].
  - replace (started (set_tags (alter (fun t => with_Uncertain t ∅) name (tags mgr3)) mgr3))
      with (started mgr3) by (destruct mgr3; done).
    rewrite Hs3.
    match goal with
    | |- jobsFromMarks (started (set_tags ?m mgr2)) =>
        replace (started (set_tags m mgr2)) with (started mgr2)
          by (destruct mgr2; done)
    end.
    apply H2.
Qed.

Lemma mergeIndexesJob_done_inv offset inputs releaser merged failed (mgr : Manager) :
  managerInv mgr ->
  managerInv (mergeIndexesJob_done offset inputs releaser merged failed mgr).
Proof.
  intros Hinv. unfold mergeIndexesJob_done.
  apply release_inv, startMergeJobIfNeeded_inv.
  eapply managerInv_ext; [| | exact Hinv].
  - unfold mergeIndexesJob_apply. destruct (_ || _); destruct mgr; reflexivity.
  - unfold mergeIndexesJob_apply. destruct (_ || _); destruct mgr; reflexivity.
Qed.

Lemma convertStreamJob_done_inv tagOrder convOrder converter streamIDs converted
    releaser (mgr : Manager) :
  managerInv mgr ->
  managerInv (convertStreamJob_done tagOrder convOrder converter streamIDs
                converted releaser mgr).
Proof.
  intros Hinv. unfold convertStreamJob_done.
  assert (H0 : managerInv (set_converterJobRunning false mgr))
    by (eapply managerInv_ext; [| | exact Hinv]; destruct mgr; reflexivity).
  set (mgr0 := set_converterJobRunning false mgr) in *. clearbody mgr0.
  destruct (converters mgr0 !! converter).
  - apply release_inv, startConverterJobIfNeeded_inv, startTaggingJobIfNeeded_inv.
    set (mgr1 := if negb (IsZero streamIDs) then _ else mgr0).
    assert (H1 : managerInv mgr1).
    { unfold mgr1. destruct (negb _); [| exact H0].
      eapply managerInv_ext; [| | exact H0]; destruct mgr0; reflexivity. }
    clearbody mgr1. destruct H1 as [Hm Hj]. split; [| destruct mgr1; exact Hj].
    match goal with
    | |- marksCertain (tags (set_tags ?m mgr1)) =>
        replace (tags (set_tags m mgr1)) with m by (destruct mgr1; done)
    end.
    intros n x Hx Hmark. rewrite lookup_fmap in Hx.
    destruct (tags mgr1 !! n) as [t |] eqn:E; [| discriminate].
    inversion Hx; subst x; clear Hx.
    destruct (Hm n t E Hmark) as [Hu Hid].
    destruct (idOnly_noData _ Hid) as [-> ->]. cbn. done.
  - apply release_inv, startConverterJobIfNeeded_inv.
    eapply managerInv_ext; [| | exact H0]; destruct mgr0; reflexivity.
Qed.

Lemma updateTagJob_done_inv passes tagOrder convOrder name (t0 : tag) d c i releaser
    search (mgr mgr' : Manager) :
  updateTagJob name t0 d c i releaser ∈ started mgr ->
  updateTagJob_done passes tagOrder convOrder name
    (updateTagJob_result t0 search) releaser mgr = Some mgr' ->
  managerInv mgr -> managerInv mgr'.
Proof.
  intros Hjob H Hinv. unfold updateTagJob_done in H.
  set (t := updateTagJob_result t0 search) in *.
  assert (Ht : Uncertain t = ∅ /\ features t = features t0).
  { unfold t, updateTagJob_result. destruct search; done. }
  match type of H with
  | match ?a with Some _ => _ | None => _ end = _ =>
      assert (Ha : forall m, a = Some m -> managerInv m);
      [| destruct a as [mgr1 |]; [| discriminate]]
  end.
  { intros m Hm. destruct (tags mgr !! name) as [ot |] eqn:Eot;
      [| inversion Hm; subst; exact Hinv].
    destruct (String.eqb (definition ot) (definition t));
      [| inversion Hm; subst; exact Hinv].
    match type of Hm with
    | context [set_tags (<[name := t]> (tags ?m0)) ?m0] =>
        assert (H1 : managerInv (set_tags (<[name := t]> (tags m0)) m0))
    end.
    { destruct Hinv as [Hmk Hj]. split; [| destruct mgr; exact Hj].
      match goal with
      | |- marksCertain (tags (set_tags ?x ?y)) =>
          replace (tags (set_tags x y)) with (<[name := t]> (tags mgr))
            by (destruct mgr; done)
      end.
      intros n x Hx Hmark. rewrite lookup_insert in Hx.
      destruct (decide (name = n)) as [-> | Hne]; [| exact (Hmk n x Hx Hmark)].
      inversion Hx; subst x. destruct Ht as [-> ->]. split; [reflexivity |].
      exact (Hj n t0 d c i releaser Hjob Hmark). }
    destruct (negb _); [| inversion Hm; subst; exact H1].
    eapply invalidateTags_inv; [exact Hm | exact H1]. }
  inversion H; subst mgr'; clear H.
  apply release_inv, startConverterJobIfNeeded_inv, startMergeJobIfNeeded_inv,
    startTaggingJobIfNeeded_inv.
  eapply managerInv_ext; [| | exact (Ha mgr1 eq_refl)]; destruct mgr1; reflexivity.
Qed.

Lemma importPcapJob_done_inv passes tagOrder nextStreamID0 releaser processedFiles
    createdIndexes (mgr mgr' : Manager) :
  importPcapJob_done passes tagOrder nextStreamID0 releaser processedFiles
    createdIndexes mgr = Some mgr' ->
  managerInv mgr -> managerInv mgr'.
Proof.
  intros H Hinv. unfold importPcapJob_done in H.
  match type of H with
  | match ?a with Some _ => _ | None => _ end = _ =>
      assert (Ha : forall m, a = Some m -> managerInv m);
      [| destruct a as [mgr1 |]; [| discriminate]]
  end.
  { intros m Hm.
    set (m0 := release releaser _) in Hm.
    assert (H0 : managerInv m0).
    { unfold m0. apply release_inv. eapply managerInv_ext; [| | exact Hinv];
        destruct mgr; reflexivity. }
    clearbody m0.
    destruct (0 <? length createdIndexes)%nat; [| inversion Hm; subst; exact H0].
    eapply invalidateTags_inv; [exact Hm |].
    eapply managerInv_ext; [| | exact H0]; destruct m0; reflexivity. }
  pose proof (Ha mgr1 eq_refl) as H1.
  match type of H with
  | Some (startMergeJobIfNeeded (startTaggingJobIfNeeded _ ?X)) = _ =>
      assert (H3 : managerInv X)
  end.
  { set (mgr2 := set_importJobs (drop processedFiles (importJobs mgr1)) mgr1).
    assert (H2 : managerInv mgr2)
      by (eapply managerInv_ext; [| | exact H1]; destruct mgr1; reflexivity).
    clearbody mgr2.
    destruct (1 <=? length (importJobs mgr2))%nat; [| exact H2].
    destruct H2 as [Hm Hj]. destruct mgr2; cbn in *. split; [exact Hm |].
    apply jobsFromMarks_cons; [exact Hj |]. intros; discriminate. }
  inversion H; subst mgr'; clear H.
  apply startMergeJobIfNeeded_inv, startTaggingJobIfNeeded_inv, H3.
Qed.

Lemma step_inv (mgr mgr' : Manager) :
  step mgr mgr' -> managerInv mgr -> managerInv mgr'.
Proof.
  intros Hstep Hinv. destruct Hstep.
  - apply AddTag_inv, Hinv.
  - eapply UpdateTag_inv; eassumption.
  - eapply invalidateTags_inv; eassumption.
  - eapply inheritTagUncertainty_inv; eassumption.
  - eapply importPcapJob_done_inv; eassumption.
  - eapply updateTagJob_done_inv; eassumption.
  - apply convertStreamJob_done_inv, Hinv.
  - apply mergeIndexesJob_done_inv, Hinv.
Qed.

(** C8: in every state the manager reaches by its operations from a state
    in which the invariant holds, every tag with the mark/ or generated/
    prefix has an empty [Uncertain]. *)
Theorem mark_tags_certain (mgr0 mgr : Manager) :
  managerInv mgr0 -> reachable mgr0 mgr ->
  forall n t, tags mgr !! n = Some t -> isMarkName n = true -> Uncertain t = ∅.
Proof.
  intros H0 Hreach.
  assert (Hinv : managerInv mgr).
  { induction Hreach as [| mgr1 mgr2 _ IH Hstep]; [exact H0 |].
    eapply step_inv; eassumption. }
  intros n t Hn Hmark. destruct Hinv as [Hm _].
  destruct (Hm n t Hn Hmark) as [Hu _]. exact Hu.
Qed.

End MarkInvariant.

Section MarkDefinition.

(** The next set bit at or after [from]. *)
Lemma TrailingZerosFrom_none (m : gset N) (from : N) :
  (forall x, x ∈ m -> (x < from)%N) -> TrailingZerosFrom m from = -1.
Proof.
  intros H. unfold TrailingZerosFrom.
  assert (Hl : forall x, x ∈ elements m -> (x < from)%N)
    by (intros x Hx; apply H, elem_of_elements, Hx).
  induction (elements m) as [| x l IH]; cbn [foldr]; [reflexivity |].
  assert (Hx : (from <=? x)%N = false)
    by (apply N.leb_gt, Hl; left).
  rewrite Hx. apply IH. intros y Hy. apply Hl. right. exact Hy.
Qed.

Lemma TrailingZerosFrom_least (m : gset N) (from x : N) :
  x ∈ m -> (from <= x)%N ->
  (forall y, y ∈ m -> (from <= y)%N -> (x <= y)%N) ->
  TrailingZerosFrom m from = Z.of_N x - Z.of_N from.
Proof.
  intros Hx Hle Hmin. unfold TrailingZerosFrom.
  apply elem_of_elements in Hx.
  assert (Hl : forall y, y ∈ elements m -> (from <= y)%N -> (x <= y)%N)
    by (intros y Hy; apply Hmin, elem_of_elements, Hy).
  clear Hmin.
  assert (H : foldr (fun x acc =>
                       if (from <=? x)%N
                       then Some (match acc with
                                  | Some y => N.min x y
                                  | None => x
                                  end)
                       else acc) None (elements m) = Some x);
    [| rewrite H; reflexivity].
  induction (elements m) as [| y l IH]; [inversion Hx |].
  cbn [foldr].
  assert (Hrest : forall z, z ∈ l -> (from <= z)%N -> (x <= z)%N)
    by (intros z Hz; apply Hl; right; exact Hz).
  destruct (decide (x ∈ l)) as [Hin | Hnin].
  - rewrite (IH Hin Hrest).
    destruct (from <=? y)%N eqn:E; [| reflexivity].
    apply N.leb_le in E. f_equal.
    assert (x <= y)%N by (apply Hl; [left | exact E]). lia.
  - apply elem_of_cons in Hx as [<- | Hx]; [| contradiction].
    assert (E : (from <=? x)%N = true) by (apply N.leb_le; exact Hle).
    rewrite E. f_equal.
    destruct (foldr _ None l) as [z |] eqn:Ez; [| reflexivity].
    assert (Hz : z ∈ l /\ (from <= z)%N).
    { clear -Ez. revert z Ez. induction l as [| a l IH]; intros z Ez;
        cbn [foldr] in Ez; [discriminate |].
      destruct (from <=? a)%N eqn:Ea.
      - apply N.leb_le in Ea.
        destruct (foldr _ None l) as [w |] eqn:Ew.
        + destruct (IH w eq_refl) as [Hw1 Hw2]. inversion Ez; subst z.
          destruct (N.min_spec a w) as [[_ ->] | [_ ->]];
            [split; [left | exact Ea] | split; [right; exact Hw1 | exact Hw2]].
        + inversion Ez; subst z. split; [left | exact Ea].
      - destruct (IH z Ez) as [Hz1 Hz2]. split; [right; exact Hz1 | exact Hz2]. }
    destruct Hz as [Hz1 Hz2]. specialize (Hrest z Hz1 Hz2). lia.
Qed.

Lemma writeIDs_S (fuel : nat) (m : gset N) (last : N) (b : string) :
  writeIDs (S fuel) m last b
  = if TrailingZerosFrom m last <? 0 then b
    else writeIDs fuel m (last + Z.to_N (TrailingZerosFrom m last) + 1)
           ((if (last =? 0)%N then b else b +:+ ",")
            +:+ pretty (last + Z.to_N (TrailingZerosFrom m last))%N).
Proof. reflexivity. Qed.

(** The loop writes the ids at or after [last], in ascending order, each
    behind a comma when [last] is not 0. *)
Lemma writeIDs_spec (m : gset N) (l : list N) :
  forall fuel last b,
    StronglySorted N.lt l ->
    (forall x, x ∈ l <-> x ∈ m /\ (last <= x)%N) ->
    (length l < fuel)%nat -> last <> 0%N ->
    writeIDs fuel m last b
    = foldl (fun b x => (b +:+ ",") +:+ pretty x) b l.
Proof.
  induction l as [| x l IH]; intros fuel last b Hs Hl Hf H0.
  - destruct fuel as [| fuel]; [cbn in Hf; lia |].
    rewrite writeIDs_S. cbn [foldl].
    rewrite TrailingZerosFrom_none; [reflexivity |].
    intros y Hy. destruct (N.lt_ge_cases y last) as [Hlt | Hge]; [exact Hlt |].
    exfalso. assert (Hin : y ∈ @nil N) by (apply Hl; split; assumption).
    inversion Hin.
  - destruct fuel as [| fuel]; [cbn in Hf; lia |].
    rewrite writeIDs_S. cbn [foldl].
    apply StronglySorted_inv in Hs as [Hs Hall].
    assert (Hx : x ∈ m /\ (last <= x)%N) by (apply Hl; left).
    destruct Hx as [Hxm Hxl].
    rewrite (TrailingZerosFrom_least m last x Hxm Hxl).
    2:{ intros y Hym Hyl. assert (Hy : y ∈ x :: l) by (apply Hl; split; assumption).
        apply elem_of_cons in Hy as [-> | Hy]; [lia |].
        rewrite Forall_forall in Hall. specialize (Hall y Hy). lia. }
    destruct (Z.of_N x - Z.of_N last <? 0) eqn:E;
      [apply Z.ltb_lt in E; lia |].
    replace (last + Z.to_N (Z.of_N x - Z.of_N last))%N with x by lia.
    destruct (last =? 0)%N eqn:E0; [apply N.eqb_eq in E0; contradiction |].
    apply IH; [exact Hs | | cbn in Hf; lia | lia].
    intros y. split.
    + intros Hy. rewrite Forall_forall in Hall. specialize (Hall y Hy).
      assert (Hy' : y ∈ x :: l) by (right; exact Hy).
      apply Hl in Hy' as [Hym _]. split; [exact Hym | lia].
    + intros [Hym Hyl]. assert (Hy : y ∈ x :: l) by (apply Hl; split; [exact Hym | lia]).
      apply elem_of_cons in Hy as [-> | Hy]; [lia | exact Hy].
Qed.

(** X13: the definition a mark operation rebuilds: [id:-1] for no match,
    otherwise the ids in ascending order with commas between them. *)
Theorem markDefinition_spec (m : gset N) (l : list N) :
  StronglySorted N.lt l -> (forall x, x ∈ l <-> x ∈ m) ->
  markDefinition m
  = match l with
    | [] => "id:-1"
    | x :: rest =>
        foldl (fun b y => (b +:+ ",") +:+ pretty y) ("id:" +:+ pretty x) rest
    end.
Proof.
  intros Hs Hl. unfold markDefinition, IsZero.
  assert (Hnd : NoDup l).
  { clear Hl. induction Hs as [| x l Hs IH Hall]; constructor; [| exact IH].
    intros Hin. rewrite Forall_forall in Hall. specialize (Hall x Hin). lia. }
  assert (Hlen : length l = size m).
  { unfold size, set_size. cbn. apply Permutation_length.
    apply NoDup_Permutation; [exact Hnd | apply NoDup_elements |].
    intros x. rewrite elem_of_elements. apply Hl. }
  destruct l as [| x rest].
  - assert (Hm : m = ∅).
    { apply set_eq. intros x. rewrite <- Hl. split; intros Hx; inversion Hx. }
    rewrite Hm. reflexivity.
  - assert (Hne : m <> ∅).
    { intros ->. assert (Hx : x ∈ (∅ : gset N)) by (apply Hl; left).
      inversion Hx. }
    rewrite bool_decide_eq_false_2 by exact Hne.
    rewrite <- Hlen. cbn [length]. rewrite writeIDs_S.
    apply StronglySorted_inv in Hs as [Hs Hall].
    assert (Hxm : x ∈ m) by (apply Hl; left).
    rewrite (TrailingZerosFrom_least m 0 x Hxm); [| lia |].
    2:{ intros y Hym _. assert (Hy : y ∈ x :: rest) by (apply Hl; exact Hym).
        apply elem_of_cons in Hy as [-> | Hy]; [lia |].
        rewrite Forall_forall in Hall. specialize (Hall y Hy). lia. }
    destruct (Z.of_N x - Z.of_N 0 <? 0) eqn:E;
      [apply Z.ltb_lt in E; lia |].
    cbn [N.eqb].
    replace (0 + Z.to_N (Z.of_N x - Z.of_N 0))%N with x by lia.
    apply writeIDs_spec; [exact Hs | | lia | lia].
    intros y. split.
    + intros Hy. rewrite Forall_forall in Hall. specialize (Hall y Hy).
      split; [apply Hl; right; exact Hy | lia].
    + intros [Hym Hyl]. assert (Hy : y ∈ x :: rest) by (apply Hl; exact Hym).
      apply elem_of_cons in Hy as [-> | Hy]; [lia | exact Hy].
Qed.

End MarkDefinition.

Section MarkUpdate.
Context `{QP : QueryPackage}.

Lemma bumpMax_max (m s : N) :
  (s + 1 < 2 ^ 64)%N -> bumpMax m s = N.max m (s + 1).
Proof.
  intros H. unfold bumpMax. rewrite N.mod_small by exact H.
  destruct (m <=? s)%N eqn:E.
  - apply N.leb_le in E. lia.
  - apply N.leb_gt in E. lia.
Qed.

Lemma foldl_bumpMax (l : list N) :
  Forall (fun s => (s + 1 < 2 ^ 64)%N) l ->
  forall m, foldl bumpMax m l = N.max m (upperBound l).
Proof.
  induction 1 as [| s l Hs _ IH]; intros m; cbn [foldl upperBound foldr].
  - lia.
  - rewrite IH, (bumpMax_max m s Hs). fold (upperBound l). lia.
Qed.

Lemma upperBound_app (a b : list N) :
  upperBound (a ++ b) = N.max (upperBound a) (upperBound b).
Proof.
  induction a as [| s a IH]; cbn [app upperBound foldr].
  - fold (upperBound b). lia.
  - fold (upperBound (a ++ b)) (upperBound a). rewrite IH. lia.
Qed.

Lemma upperBound_bound (l : list N) (n : N) :
  (upperBound l <= n)%N <-> Forall (fun s => (s < n)%N) l.
Proof.
  induction l as [| s l IH]; cbn [upperBound foldr].
  - split; [constructor | lia].
  - fold (upperBound l). rewrite List.Forall_cons_iff, <- IH. lia.
Qed.

(** The two loops over the ids of a mark operation. *)
Lemma foldl_mark_add (l : list N) :
  forall t,
    foldl (fun nt s => with_Uncertain (with_Matches nt (Matches nt ∪ {[s]}))
                         (Uncertain nt ∪ {[s]})) t l
    = with_Uncertain (with_Matches t (Matches t ∪ list_to_set l))
        (Uncertain t ∪ list_to_set l).
Proof.
  induction l as [| s l IH]; intros t; cbn [foldl list_to_set].
  - destruct t. unfold with_Uncertain, with_Matches. cbn.
    rewrite !union_empty_r_L. reflexivity.
  - rewrite IH. unfold with_Uncertain, with_Matches. cbn.
    rewrite !(assoc_L (∪)). reflexivity.
Qed.

Lemma foldl_mark_del (l : list N) :
  forall t,
    foldl (fun nt s => with_Uncertain (with_Matches nt (Matches nt ∖ {[s]}))
                         (Uncertain nt ∪ {[s]})) t l
    = with_Uncertain (with_Matches t (Matches t ∖ list_to_set l))
        (Uncertain t ∪ list_to_set l).
Proof.
  induction l as [| s l IH]; intros t; cbn [foldl list_to_set].
  - destruct t. unfold with_Uncertain, with_Matches. cbn.
    rewrite difference_empty_L, union_empty_r_L. reflexivity.
  - rewrite IH. unfold with_Uncertain, with_Matches. cbn.
    rewrite difference_difference_l_L, !(assoc_L (∪)). reflexivity.
Qed.

Lemma startTaggingJobIfNeeded_tags (order : list string) (mgr : Manager) :
  tags (startTaggingJobIfNeeded order mgr) = tags mgr.
Proof.
  unfold startTaggingJobIfNeeded.
  destruct (taggingJobRunning mgr); [reflexivity |].
  destruct (pickTag order (tags mgr)) as [[n t] |]; [| reflexivity].
  destruct mgr; reflexivity.
Qed.

(** Replacing a tag by one with the same features keeps the conditions
    under which the inheritance loop ends. *)
Lemma insert_same_features (tgs : gmap string tag) (name : string)
    (t nt : tag) (rank : string -> nat) :
  tgs !! name = Some t -> features nt = features t ->
  (referencesKnown tgs -> referencesKnown (<[name := nt]> tgs))
  /\ (ranked rank tgs -> ranked rank (<[name := nt]> tgs))
  /\ (forall order, visitsAll tgs order -> visitsAll (<[name := nt]> tgs) order)
  /\ size (<[name := nt]> tgs) = size tgs.
Proof.
  intros Ht Hf.
  assert (Hrefs : referencedTags nt = referencedTags t)
    by (unfold referencedTags; rewrite Hf; reflexivity).
  split; [| split; [| split]].
  - intros H n t' r Hn Hr. apply lookup_insert_is_Some.
    destruct (decide (name = r)) as [-> | Hne]; [left; reflexivity |].
    right. split; [exact Hne |].
    destruct (decide (name = n)) as [-> | Hn'].
    + rewrite lookup_insert_eq in Hn. inversion Hn; subst t'.
      rewrite Hrefs in Hr. exact (H n t r Ht Hr).
    + rewrite lookup_insert_ne in Hn by exact Hn'. exact (H n t' r Hn Hr).
  - intros H n t' r Hn Hr.
    destruct (decide (name = n)) as [-> | Hn'].
    + rewrite lookup_insert_eq in Hn. inversion Hn; subst t'.
      rewrite Hrefs in Hr. exact (H n t r Ht Hr).
    + rewrite lookup_insert_ne in Hn by exact Hn'. exact (H n t' r Hn Hr).
  - intros order H n Hn. apply H.
    apply lookup_insert_is_Some in Hn as [<- | [_ Hn]]; [eauto | exact Hn].
  - apply map_size_insert_Some. eauto.
Qed.

(** X12: what a mark operation does when it names a stream other than 0 and
    every stream it names exists: the ids are set and cleared in the
    matches, the definition is rebuilt, uncertainty is inherited with the
    changed ids uncertain on this tag, and the tag is certain at the end. *)
Theorem UpdateTag_mark_spec (passes : list (list string))
    (tagOrder convOrder : list string) (name : string) (adds dels : list N)
    (mgr : Manager) (t : tag) (rank : string -> nat) :
  isMarkName name = true -> tags mgr !! name = Some t -> noRefs t ->
  (nextStreamID mgr < 2 ^ 64)%N ->
  (2 <= upperBound (adds ++ dels))%N ->
  (upperBound (adds ++ dels) <= nextStreamID mgr)%N ->
  referencesKnown (tags mgr) -> ranked rank (tags mgr) ->
  Forall (visitsAll (tags mgr)) passes ->
  (size (tags mgr) <= length passes)%nat ->
  exists mgr2 mgr',
    UpdateTag passes tagOrder convOrder name (markInfo adds dels) mgr
    = Some (mgr', None)
    /\ inheritTagUncertainty passes
         (set_tags
            (<[name := with_Uncertain (markedTag t adds dels)
                         (Uncertain t ∪ list_to_set adds ∪ list_to_set dels)]>
               (tags mgr)) mgr)
       = Some mgr2
    /\ tags mgr' = <[name := markedTag t adds dels]> (tags mgr2)
    /\ tags mgr' !! name = Some (markedTag t adds dels).
Proof.
  intros Hmark Ht Hno Hnext Hlo Hhi Hknown Hrank Hvis Hsize.
  set (U := upperBound (adds ++ dels)) in *.
  assert (Hall : Forall (fun s => (s + 1 < 2 ^ 64)%N) (adds ++ dels)).
  { apply upperBound_bound in Hhi. eapply Forall_impl; [exact Hhi |].
    cbn. intros s Hs. lia. }
  apply Forall_app in Hall as [Ha Hd].
  assert (Hmax : foldl bumpMax (foldl bumpMax 0%N adds) dels = U).
  { rewrite (foldl_bumpMax adds Ha), (foldl_bumpMax dels Hd).
    unfold U. rewrite upperBound_app. lia. }
  assert (Hmarking : negb ((length adds =? 0)%nat && (length dels =? 0)%nat)
                     = true).
  { destruct adds as [| a adds']; [| reflexivity].
    destruct dels as [| d dels']; [| reflexivity].
    exfalso. unfold U in Hlo. cbn in Hlo. lia. }
  set (newTag := with_Uncertain (markedTag t adds dels)
                   (Uncertain t ∪ list_to_set adds ∪ list_to_set dels)).
  set (mgr1 := set_tags (<[name := newTag]> (tags mgr)) mgr).
  assert (Hf : features newTag = features t) by reflexivity.
  assert (Ht1 : tags mgr1 = <[name := newTag]> (tags mgr))
    by (destruct mgr; reflexivity).
  destruct (insert_same_features (tags mgr) name t newTag rank Ht Hf)
    as (I1 & I2 & I3 & I4).
  destruct (inheritTagUncertainty_spec passes mgr1 rank)
    as (mgr2 & Hinh & _ & Hall2).
  { rewrite Ht1. apply I1, Hknown. }
  { rewrite Ht1. apply I2, Hrank. }
  { rewrite Ht1. eapply Forall_impl; [exact Hvis | exact I3]. }
  { rewrite Ht1, I4. exact Hsize. }
  specialize (Hall2 name). rewrite Ht1, lookup_insert_eq in Hall2.
  destruct Hall2 as (t2 & Ht2 & Heq2 & Hu2 & _).
  assert (Hno' : noRefs newTag) by exact Hno.
  specialize (Hu2 Hno').
  assert (Et2 : t2 = newTag).
  { rewrite Heq2, Hu2. destruct newTag; reflexivity. }
  subst t2.
  exists mgr2.
  exists (startTaggingJobIfNeeded tagOrder
            (set_tags (alter (fun t => with_Uncertain t ∅) name (tags mgr2)) mgr2)).
  assert (Halter : alter (fun t => with_Uncertain t ∅) name (tags mgr2)
                   = <[name := markedTag t adds dels]> (tags mgr2)).
  { rewrite (alter_alt_Some _ _ _ _ Ht2). reflexivity. }
  split; [| split; [exact Hinh | split]].
  - unfold UpdateTag, markInfo.
    cbn [markTagAddStreams markTagDelStreams infoColor convertersUpdated
         setConverterNames].
    rewrite Hmarking, Hmax, Hmark. cbn [negb andb].
    destruct (U =? 0)%N eqn:E0; [apply N.eqb_eq in E0; lia |].
    rewrite Ht. cbn [String.eqb negb].
    destruct (U - 1 =? 0)%N eqn:E1; [apply N.eqb_eq in E1; lia |].
    cbn [negb].
    destruct (nextStreamID mgr <=? U - 1)%N eqn:E2;
      [apply N.leb_le in E2; lia |].
    rewrite Ht, foldl_mark_add, foldl_mark_del.
    match goal with
    | |- context [set_tags (<[name := ?x]> (tags mgr)) mgr] =>
        replace x with newTag
    end.
    + fold mgr1. rewrite Hinh. reflexivity.
    + unfold newTag, markedTag, with_definition, with_Uncertain, with_Matches.
      cbn. destruct (Parse _); reflexivity.
  - rewrite startTaggingJobIfNeeded_tags, <- Halter.
    destruct mgr2; reflexivity.
  - rewrite startTaggingJobIfNeeded_tags.
    replace (tags (set_tags (alter (fun t0 => with_Uncertain t0 ∅) name (tags mgr2)) mgr2))
      with (alter (fun t0 => with_Uncertain t0 ∅) name (tags mgr2))
      by (destruct mgr2; reflexivity).
    rewrite Halter, lookup_insert_eq. reflexivity.
Qed.

(** A mark operation on a tag that is no mark fails. *)
Lemma UpdateTag_mark_wrong_prefix (passes : list (list string))
    (tagOrder convOrder : list string) (name : string) (adds dels : list N)
    (mgr : Manager) :
  isMarkName name = false -> adds ++ dels <> [] ->
  UpdateTag passes tagOrder convOrder name (markInfo adds dels) mgr
  = Some (mgr, Some (ErrMsg ("tag " +:+ quoted name
                             +:+ " is not of type 'mark' or 'enerated'"))).
Proof.
  intros Hmark Hne. unfold UpdateTag, markInfo.
  cbn [markTagAddStreams markTagDelStreams]. rewrite Hmark.
  destruct adds as [| a adds']; [| reflexivity].
  destruct dels as [| d dels']; [| reflexivity].
  exfalso. apply Hne. reflexivity.
Qed.

(** X14: a mark operation that names a stream other than 0 fails when the
    largest id it names is not below [nextStreamID]. *)
Lemma UpdateTag_mark_unknown_stream (passes : list (list string))
    (tagOrder convOrder : list string) (name : string) (adds dels : list N)
    (mgr : Manager) (t : tag) :
  isMarkName name = true -> tags mgr !! name = Some t ->
  Forall (fun s => (s + 1 < 2 ^ 64)%N) (adds ++ dels) ->
  (2 <= upperBound (adds ++ dels))%N ->
  (nextStreamID mgr < upperBound (adds ++ dels))%N ->
  UpdateTag passes tagOrder convOrder name (markInfo adds dels) mgr
  = Some (mgr, Some (ErrMsg ("unknown stream id "
                             +:+ pretty (upperBound (adds ++ dels) - 1)%N))).
Proof.
  intros Hmark Ht Hall Hlo Hhi.
  set (U := upperBound (adds ++ dels)) in *.
  apply Forall_app in Hall as [Ha Hd].
  assert (Hmax : foldl bumpMax (foldl bumpMax 0%N adds) dels = U).
  { rewrite (foldl_bumpMax adds Ha), (foldl_bumpMax dels Hd).
    unfold U. rewrite upperBound_app. lia. }
  assert (Hmarking : negb ((length adds =? 0)%nat && (length dels =? 0)%nat)
                     = true).
  { destruct adds as [| a adds']; [| reflexivity].
    destruct dels as [| d dels']; [| reflexivity].
    exfalso. unfold U in Hlo. cbn in Hlo. lia. }
  unfold UpdateTag, markInfo.
  cbn [markTagAddStreams markTagDelStreams infoColor convertersUpdated
       setConverterNames].
  rewrite Hmarking, Hmax, Hmark. cbn [negb andb].
  destruct (U =? 0)%N eqn:E0; [apply N.eqb_eq in E0; lia |].
  rewrite Ht. cbn [String.eqb negb].
  destruct (U - 1 =? 0)%N eqn:E1; [apply N.eqb_eq in E1; lia |].
  cbn [negb].
  destruct (nextStreamID mgr <=? U - 1)%N eqn:E2;
    [reflexivity | apply N.leb_gt in E2; lia].
Qed.

End MarkUpdate.

Section Checks.
Context `{QP : QueryPackage}.

Lemma In_map_to_list (tags : gmap string tag) (n : string) (t : tag) :
  tags !! n = Some t -> In (n, t) (map_to_list tags).
Proof. intros H. apply list_elem_of_In, elem_of_map_to_list, H. Qed.

Lemma referencesKnownb_sound (tags : gmap string tag) :
  referencesKnownb tags = true -> referencesKnown tags.
Proof.
  unfold referencesKnownb. rewrite forallb_forall. intros H n t r Hn Hr.
  specialize (H (n, t) (In_map_to_list tags n t Hn)). simpl in H.
  rewrite forallb_forall in H.
  specialize (H r (proj1 (list_elem_of_In _ _) Hr)).
  apply bool_decide_eq_true in H. exact H.
Qed.

Lemma rankedb_sound (rank : string -> nat) (tags : gmap string tag) :
  rankedb rank tags = true -> ranked rank tags.
Proof.
  unfold rankedb. rewrite forallb_forall. intros H n t r Hn Hr.
  specialize (H (n, t) (In_map_to_list tags n t Hn)). simpl in H.
  rewrite forallb_forall in H.
  specialize (H r (proj1 (list_elem_of_In _ _) Hr)).
  apply Nat.ltb_lt in H. exact H.
Qed.

Lemma visitsAllb_sound (tags : gmap string tag) (order : list string) :
  visitsAllb tags order = true -> visitsAll tags order.
Proof.
  unfold visitsAllb. rewrite forallb_forall. intros H n [t Hn].
  specialize (H (n, t) (In_map_to_list tags n t Hn)). simpl in H.
  apply inList_spec in H. exact H.
Qed.

End Checks.

Import Examples.

(** C5, counterexample: with [nUnmergeableIndexes = 2] a merge of two
    indexes into one leaves the counter at 2, which is not
    [len merged - 1 = 0]. *)
Lemma mergeIndexesJob_done_counterexample :
  let mgr' :=
    mergeIndexesJob_done 2 [rd 2 2; rd 3 1] [rd 2 2; rd 3 1] [rd 4 3] false
      fourIndexes in
  nUnmergeableIndexes mgr' = 2
  /\ nUnmergeableIndexes mgr' <> Z.of_nat (length [rd 4 3]) - 1
  /\ rid <$> indexes mgr' = [0; 1; 4]%N
  /\ removed mgr' = [3; 2]%N.
Proof. vm_compute. repeat split; congruence. Qed.

(** C5, witness: the same merge job increases the counter by
    [len merged - 1 = 0]. *)
Lemma mergeIndexesJob_done_witness :
  nUnmergeableIndexes
    (mergeIndexesJob_apply 2 [rd 2 2; rd 3 1] [rd 4 3] false fourIndexes)
  = nUnmergeableIndexes fourIndexes + (Z.of_nat (length [rd 4 3]) - 1).
Proof.
  destruct (mergeIndexesJob_done_spec 2 [rd 2 2; rd 3 1] [rd 2 2; rd 3 1]
              [rd 4 3] false fourIndexes) as (_ & _ & _ & H).
  destruct H as (_ & H & _); [discriminate | reflexivity | exact H].
Defined.

(** C4, witness: with no job running and one unmergeable index, the merge
    starts at position 2, the first whose stream count is below the total
    of the later ones. *)
Lemma startMergeJobIfNeeded_witness :
  startMergeJobIfNeeded idle
  = spawn (mergeIndexesJob 2 [rd 2 1; rd 3 2] [rd 2 1; rd 3 2])
      (lock [rd 2 1; rd 3 2] (set_mergeJobRunning true idle)).1.
Proof.
  destruct (startMergeJobIfNeeded_spec idle) as [_ H]; [reflexivity |].
  destruct H as [H _]; [reflexivity | reflexivity | |].
  - intros (n & t & Hn & _).
    change (tags idle) with (∅ : gmap string tag) in Hn.
    rewrite lookup_empty in Hn. discriminate Hn.
  - apply (H 2%nat).
    + split; [vm_compute; discriminate |].
      exists (rd 2 1). split; reflexivity.
    + intros j Hj [Hle (idx & Hidx & Hlt)].
      destruct j as [| [| j]]; [vm_compute in Hle; apply Hle; reflexivity | | lia].
      vm_compute in Hidx. inversion Hidx; subst idx.
      vm_compute in Hlt. discriminate Hlt.
Defined.

(** C9, witness: a run of four operations on three readers. *)
Lemma pool_refcount_witness :
  cnt (usedIndexes poolEnd.1) 1 = heldCount 1 poolEnd.2
  /\ cnt (usedIndexes poolEnd.1) 0 = heldCount 0 poolEnd.2.
Proof.
  destruct (pool_refcount poolRun emptyManager poolEnd.1 poolEnd.2) as [H _];
    [reflexivity | reflexivity |].
  split; apply H.
Defined.

(** C10, witness: stream 4 is in the indexes 0 and 1 and is taken from
    index 1, the newer; stream 9 is in none. *)
Lemma View_Stream_witness :
  (View_Stream threeIndexes 4 emptyManager).2
  = ({| ctxStream := Some (streamOf 1 4); ctxView := Some threeIndexes |}, None)
  /\ (View_Stream threeIndexes 9 emptyManager).2 = (zeroContext, None).
Proof.
  split.
  - destruct (View_Stream threeIndexes 4 emptyManager) as [[m v] [ctx err]] eqn:E.
    destruct (View_Stream_newest threeIndexes 4 emptyManager m v ctx err E)
      as [H _].
    assert (Hv : v = threeIndexes).
    { unfold View_Stream in E.
      change (fetch threeIndexes emptyManager)
        with (emptyManager, threeIndexes) in E.
      cbv beta iota in E. congruence. }
    subst v.
    destruct (H [holds 0 [3; 4]%N] (holds 1 [4]%N) [holds 2 []] (streamOf 1 4))
      as [-> ->]; [reflexivity | reflexivity | | reflexivity].
    repeat constructor.
  - destruct (View_Stream threeIndexes 9 emptyManager) as [[m v] [ctx err]] eqn:E.
    destruct (View_Stream_newest threeIndexes 9 emptyManager m v ctx err E)
      as [_ H].
    assert (Hv : v = threeIndexes).
    { unfold View_Stream in E.
      change (fetch threeIndexes emptyManager)
        with (emptyManager, threeIndexes) in E.
      cbv beta iota in E. congruence. }
    subst v.
    destruct H as (-> & -> & _); [repeat constructor | reflexivity].
Defined.


(** The example of the specification: after the mark was added for the
    streams 3 and 7, a mark-add of stream 5 gives the matches 3, 5, 7 and
    the definition [id:3,5,7]. *)
Lemma UpdateTag_mark_add_example :
  (fun r => ((fun t => (Matches t, definition t, Uncertain t))
               <$> tags r.1 !! "mark/favs", r.2))
    <$> UpdateTag [["mark/favs"]] ["mark/favs"] [] "mark/favs"
          (UpdateTagOperationMarkAddStream [5%N]) favs
  = Some (Some ({[3%N; 5%N; 7%N]}, "id:3,5,7", ∅), None).
Proof. reflexivity. Qed.

(** A mark operation that names stream 0 and no other stream is dropped
    before the tag is looked at, whatever the manager. *)
Lemma UpdateTag_only_zero (passes : list (list string))
    (tagOrder convOrder : list string) (name : string) (mgr : Manager) (t : tag) :
  isMarkName name = true -> tags mgr !! name = Some t ->
  UpdateTag passes tagOrder convOrder name
    (UpdateTagOperationMarkAddStream [0%N]) mgr = Some (mgr, None)
  /\ UpdateTag passes tagOrder convOrder name
       (UpdateTagOperationMarkDelStream [0%N]) mgr = Some (mgr, None).
Proof.
  intros Hmark Ht. unfold UpdateTag. cbn. rewrite Hmark, Ht. cbn.
  split; reflexivity.
Qed.

(** C7: a mark-add and a mark-del that name stream 0 alone do nothing and
    report no error, although stream 0 is below [nextStreamID]: the mark
    of the streams 0, 3 and 7 keeps stream 0 after its removal was asked
    for, the mark of the streams 3 and 7 does not get stream 0; and with
    [nextStreamID = 0] the same call succeeds although the id is not below
    [nextStreamID]. *)
Theorem UpdateTag_mark_stream_zero :
  (0 < nextStreamID favs)%N
  /\ (Matches <$> tags favs !! "mark/favs") = Some {[3%N; 7%N]}
  /\ UpdateTag [["mark/favs"]] ["mark/favs"] [] "mark/favs"
       (UpdateTagOperationMarkAddStream [0%N]) favs = Some (favs, None)
  /\ (Matches <$> tags favs0 !! "mark/favs") = Some {[0%N; 3%N; 7%N]}
  /\ UpdateTag [["mark/favs"]] ["mark/favs"] [] "mark/favs"
       (UpdateTagOperationMarkDelStream [0%N]) favs0 = Some (favs0, None)
  /\ nextStreamID noStreams = 0%N
  /\ UpdateTag [["mark/none"]] ["mark/none"] [] "mark/none"
       (UpdateTagOperationMarkAddStream [0%N]) noStreams = Some (noStreams, None).
Proof. repeat (split; [reflexivity |]). reflexivity. Qed.

(** C1, witness: a service, two tags that refer to it and a mark. *)
Lemma invalidateTags_witness :
  is_Some (invalidateTags (replicate 4 tagNames) {[1%N]} {[2%N]} tagged).
Proof.
  destruct (invalidateTags_spec (replicate 4 tagNames) {[1%N]} {[2%N]} tagged
              tagRank) as (mgr' & H & _).
  - apply referencesKnownb_sound. vm_compute. reflexivity.
  - apply rankedb_sound. vm_compute. reflexivity.
  - change (replicate 4 tagNames)
      with [tagNames; tagNames; tagNames; tagNames].
    repeat (constructor; [apply visitsAllb_sound; vm_compute; reflexivity |]).
    constructor.
  - change (size (tags tagged)) with 4%nat. repeat constructor.
  - rewrite H. eexists. reflexivity.
Defined.

(** The query language of the examples gives an id set only to conditions
    whose features are the id filter. *)
Lemma exQuery_idOnly (c : exCond) :
  (exStreamIDs c 0).2 = true -> idOnly (exFeatures c).
Proof. destruct c; simpl; intros H; try discriminate H. repeat split. Qed.

(** C8, witness: the mark of the examples after a mark-add. *)
Lemma mark_tags_certain_witness :
  (Uncertain <$> tags favs5 !! "mark/favs") = Some ∅.
Proof.
  assert (Hinv : managerInv mgr8).
  { split.
    - intros n t0 Hn. change (tags mgr8) with (∅ : gmap string tag) in Hn.
      rewrite lookup_empty in Hn. discriminate Hn.
    - intros n t0 d c i r Hin. change (started mgr8) with (@nil Job) in Hin.
      apply elem_of_nil in Hin. destruct Hin. }
  assert (Hreach : reachable mgr8 favs5).
  { unfold favs5.
    destruct (UpdateTag [["mark/favs"]] ["mark/favs"] [] "mark/favs"
                (UpdateTagOperationMarkAddStream [5%N]) favs) as [r |] eqn:EU.
    - eapply reach_step; [eapply reach_step; [apply reach_here |] |].
      + apply (step_AddTag [] "mark/favs" "#f00" "id:3,7" mgr8).
      + exact (step_UpdateTag _ _ _ _ _ _ _ EU).
    - eapply reach_step; [apply reach_here |].
      apply (step_AddTag [] "mark/favs" "#f00" "id:3,7" mgr8). }
  pose proof (mark_tags_certain (QP := exQuery) exQuery_idOnly mgr8 favs5
                Hinv Hreach "mark/favs") as H.
  assert (Hs : is_Some (tags favs5 !! "mark/favs")) by (eexists; reflexivity).
  destruct (tags favs5 !! "mark/favs") as [t |].
  - simpl. f_equal. apply (H t eq_refl eq_refl).
  - destruct Hs as [t Hs]. discriminate Hs.
Defined.

End ManagerTheory.

(** * More theory of the converter cache *)

Module CacheMore.

Import ConverterCache CacheExamples CacheTheory.

(** ** More of the cache file: sequences of records and reopening *)

Lemma SetData_quiet_eq (cf : cacheFile) (s : N) (P : list IndexData) :
  noCleanup cf s ->
  SetData cf s P
  = (appendRecord (match streamInfos cf !! s with
                   | Some info => freeOlder cf info
                   | None => cf
                   end) s P, None).
Proof.
  unfold noCleanup, SetData. intros H.
  destruct (streamInfos cf !! s) as [info |]; [rewrite H |]; reflexivity.
Qed.

Lemma recordOf_body (s : N) (P : list IndexData) :
  recordOf (s, P) = le64 s ++ bodyOf P.
Proof. reflexivity. Qed.

Lemma length_bodyOf (P : list IndexData) :
  Z.of_nat (length (bodyOf P))
  = Z.of_nat (length (encSizes P DirectionClientToServer)) + 2 + totalBytes P.
Proof.
  unfold bodyOf, totalBytes, totalOf. rewrite !length_app. cbn [length]. lia.
Qed.

(** Decoding a record that lies in the file where the table says. *)
Lemma Data_of_record (cf : cacheFile) (s : N) (info : streamInfo)
    (P : list IndexData) :
  streamInfos cf !! s = Some info ->
  0 <= offset info ->
  sectionReader (file cf) (offset info) (size info) = bodyOf P ->
  nonEmpty P -> totalBytes P < 2 ^ 63 ->
  Data cf s = answerOf (Some P).
Proof.
  intros Hl Hoff Hsec Hne Htot.
  assert (H63 : 2 ^ 63 = 9223372036854775808) by reflexivity.
  assert (H64 : 2 ^ 64 = 18446744073709551616) by reflexivity.
  pose proof (totalOf_nonneg DirectionClientToServer P) as HnC.
  pose proof (totalOf_nonneg DirectionServerToClient P) as HnS.
  unfold Data. rewrite Hl. unfold newSectionReader.
  destruct (offset info <? 0) eqn:E; [apply Z.ltb_lt in E; lia |].
  rewrite Hsec. unfold bodyOf at 2. cbn [app].
  rewrite (readSizes_encSizes P DirectionClientToServer (S (length (bodyOf P))));
    [| done | done
     | unfold bodyOf; rewrite ?length_app; cbn [length]; rewrite ?length_app; lia
     | lia | lia
     | unfold totalBytes in Htot; lia | unfold totalBytes in Htot; lia].
  rewrite !Z.add_0_l. unfold totalOf at 1. rewrite readFull_app.
  unfold totalOf at 1.
  rewrite <- (app_nil_r (bytesOf DirectionServerToClient P)) at 1.
  rewrite readFull_app.
  cbn [app]. rewrite splitChunks_whole by done. reflexivity.
Qed.

(** What [SetData] leaves when no cleanup runs. *)
Lemma SetData_quiet_fields (cf : cacheFile) (s : N) (P : list IndexData) :
  atEnd cf -> noCleanup cf s -> nonEmpty P -> totalBytes P < 2 ^ 63 ->
  let cf' := (SetData cf s P).1 in
  let old := match streamInfos cf !! s with
             | Some info => freeOlder cf info
             | None => cf
             end in
  (SetData cf s P).2 = None
  /\ contents (file cf') = contents (file cf) ++ recordOf (s, P)
  /\ atEnd cf'
  /\ fileSize cf' = fileSize cf + Z.of_nat (length (recordOf (s, P)))
  /\ streamInfos cf'
     = <[s := {| offset := fileSize cf + headerSize;
                 size := Z.of_nat (length (bodyOf P)) |}]> (streamInfos cf)
  /\ freeSize cf' = freeSize old
  /\ freeStart cf' = (if freeStart old =? fileSize cf
                      then fileSize cf' else freeStart old).
Proof.
  intros [Hpos Hsize] Hno Hne Htot. cbv zeta.
  rewrite (SetData_quiet_eq cf s P Hno). cbn [fst snd].
  set (old := match streamInfos cf !! s with
              | Some info => freeOlder cf info
              | None => cf
              end).
  assert (Hf : file old = file cf) by (unfold old; destruct (streamInfos cf !! s); reflexivity).
  assert (Hs : fileSize old = fileSize cf) by (unfold old; destruct (streamInfos cf !! s); reflexivity).
  assert (Hi : streamInfos old = streamInfos cf) by (unfold old; destruct (streamInfos cf !! s); reflexivity).
  pose proof (appendRecord_layout old s P Hne Htot) as HL.
  cbv zeta in HL. fold (bodyOf P) in HL. rewrite HL.
  cbn [file fileSize freeSize freeStart streamInfos].
  rewrite fileWrite_end by (rewrite Hf; congruence).
  cbn [position contents]. rewrite Hf, Hs, Hi, recordOf_body.
  rewrite !length_app, length_le64. unfold headerSize. unfold atEnd.
  cbn [file fileSize position contents]. rewrite !length_app, length_le64.
  repeat split; try lia; try reflexivity.
  destruct (freeStart old =? fileSize cf) eqn:E; [apply Z.eqb_eq in E |]; lia.
Qed.

Lemma sectionReader_append_old (c r : list Z) (p off n : Z) :
  0 <= off -> 0 <= n -> off + n <= Z.of_nat (length c) ->
  sectionReader {| contents := c ++ r; position := p |} off n
  = take (Z.to_nat n) (drop (Z.to_nat off) c).
Proof.
  intros Ho Hn Hle. unfold sectionReader. cbn [contents].
  rewrite drop_app_le by lia.
  rewrite take_app_le by (rewrite length_drop; lia). reflexivity.
Qed.

Lemma sectionReader_append_new (c h b : list Z) (p : Z) :
  sectionReader {| contents := c ++ h ++ b; position := p |}
    (Z.of_nat (length c) + Z.of_nat (length h)) (Z.of_nat (length b))
  = b.
Proof.
  unfold sectionReader. cbn [contents].
  replace (Z.to_nat (Z.of_nat (length c) + Z.of_nat (length h)))
    with (length c + length h)%nat by lia.
  rewrite app_assoc, drop_app_length' by (rewrite length_app; lia).
  rewrite Nat2Z.id. apply firstn_all.
Qed.

Lemma keeps_SetData (cf : cacheFile) (m : gmap N (list IndexData)) (s : N)
    (P : list IndexData) :
  atEnd cf -> keeps cf m ->
  noCleanup cf s -> nonEmpty P -> totalBytes P < 2 ^ 63 ->
  keeps (SetData cf s P).1 (<[s := P]> m).
Proof.
  intros Hend Hk Hno Hne Htot.
  destruct (SetData_quiet_fields cf s P Hend Hno Hne Htot)
    as (_ & Hc & Hend' & Hfs & Hi & _).
  destruct Hend as [Hpos Hsize].
  set (cf' := (SetData cf s P).1) in *.
  assert (Hfile : file cf' = {| contents := contents (file cf) ++ le64 s ++ bodyOf P;
                                position := position (file cf') |}).
  { destruct (file cf') as [c p]. cbn in *. rewrite Hc. reflexivity. }
  intros t. destruct (decide (t = s)) as [-> | Hts].
  - rewrite lookup_insert_eq. split; [done |]. split; [done |].
    eexists. rewrite Hi, lookup_insert_eq. split; [reflexivity |].
    cbn [offset size]. rewrite Hfs, recordOf_body, length_app, length_le64.
    unfold headerSize. repeat split; try lia.
    rewrite Hfile, Hsize.
    change 8 with (Z.of_nat (length (le64 s))).
    apply sectionReader_append_new.
  - rewrite lookup_insert_ne by done. specialize (Hk t).
    destruct (m !! t) as [Q |].
    + destruct Hk as (HneQ & HtotQ & info & Hl & Ho & Hle & Hsz & Hsec).
      split; [done |]. split; [done |].
      exists info. rewrite Hi, lookup_insert_ne by done.
      repeat split; try done; try lia.
      rewrite Hfile, <- Hsec. apply sectionReader_append_old; lia.
    + rewrite Hi, lookup_insert_ne by done. exact Hk.
Qed.

Lemma record_bounds (s : N) (P : list IndexData) :
  Z.of_nat (length (recordOf (s, P))) < 2 ^ 63 -> totalBytes P < 2 ^ 63.
Proof.
  rewrite recordOf_body, length_app, Nat2Z.inj_add, length_bodyOf. lia.
Qed.

Lemma storeAll_keeps (ops : list (N * list IndexData)) :
  forall cf m,
    atEnd cf -> keeps cf m -> quiet cf ops ->
    atEnd (storeAll cf ops)
    /\ keeps (storeAll cf ops) (foldl (fun m op => <[op.1 := op.2]> m) m ops).
Proof.
  induction ops as [| [s P] ops IH]; intros cf m Hend Hk Hq; [done |].
  cbn [quiet fst snd] in Hq. destruct Hq as (_ & Hno & Hne & Hrec & Hq).
  pose proof (record_bounds s P Hrec) as Htot.
  cbn [storeAll foldl fst snd]. apply IH.
  - apply (SetData_quiet_fields cf s P Hend Hno Hne Htot).
  - apply keeps_SetData; done.
  - exact Hq.
Qed.

Lemma keeps_Data (cf : cacheFile) (m : gmap N (list IndexData)) (s : N) :
  keeps cf m -> Data cf s = answerOf (m !! s).
Proof.
  intros Hk. specialize (Hk s). destruct (m !! s) as [P |].
  - destruct Hk as (Hne & Htot & info & Hl & Ho & _ & _ & Hsec).
    apply (Data_of_record cf s info P); done.
  - unfold Data. rewrite Hk. reflexivity.
Qed.

Lemma atEnd_empty : atEnd NewCacheFile_empty.
Proof. split; reflexivity. Qed.

Lemma keeps_empty : keeps NewCacheFile_empty ∅.
Proof. intros s. rewrite lookup_empty. reflexivity. Qed.

(** X2: the cache file as a map: after any sequence of [SetData] calls on a
    new cache file, none of which triggers the cleanup or stores an empty
    packet, [Data] of a stream returns the packets stored for it last, with
    their byte totals, and nil for a stream that was never stored. *)
Theorem Data_storeAll (ops : list (N * list IndexData)) (s : N) :
  quiet NewCacheFile_empty ops ->
  Data (storeAll NewCacheFile_empty ops) s = answerOf (lastStored ops !! s).
Proof.
  intros Hq. apply keeps_Data.
  apply (storeAll_keeps ops NewCacheFile_empty ∅ atEnd_empty keeps_empty Hq).
Qed.

(** *** Reopening *)

Local Ltac eq_fields :=
  rewrite ?length_app; cbn [length];
  repeat first
    [ reflexivity | lia
    | match goal with
      | |- Some _ = Some _ => f_equal
      | |- Ok _ = Ok _ => f_equal
      | |- (_, _) = (_, _) => f_equal
      end ].

Lemma le_bytes_decode (v : Z) (k : nat) :
  forall j,
    0 <= v -> 0 <= j ->
    foldr (fun b acc => Z.lor b (Z.shiftl acc 8)) 0
      (map (fun i => Z.land (Z.shiftr v (8 * Z.of_nat i)) 255)
         (seq (Z.to_nat j) k))
    = Z.land (Z.shiftr v (8 * j)) (Z.ones (8 * Z.of_nat k)).
Proof.
  induction k as [| k IH]; intros j Hv Hj.
  - cbn [seq map foldr]. change (Z.ones (8 * Z.of_nat 0)) with 0.
    rewrite Z.land_0_r. reflexivity.
  - cbn [seq map foldr].
    replace (S (Z.to_nat j)) with (Z.to_nat (j + 1)) by lia.
    rewrite (IH (j + 1)) by lia. rewrite Z2Nat.id by lia.
    apply Z.bits_inj'. intros n Hn.
    rewrite Z.lor_spec, !Z.land_spec.
    change 255 with (Z.ones 8).
    destruct (Z_lt_le_dec n 8) as [Hlt | Hge].
    + rewrite Z.shiftl_spec_low by lia.
      rewrite !Z.ones_spec_low by lia. rewrite orb_false_r. reflexivity.
    + rewrite Z.shiftl_spec by lia. rewrite Z.land_spec.
      rewrite (Z.ones_spec_high 8) by lia. rewrite andb_false_r. cbn [orb].
      rewrite !Z.shiftr_spec by lia.
      replace (n - 8 + 8 * (j + 1)) with (n + 8 * j) by lia. f_equal.
      destruct (Z_lt_le_dec n (8 * Z.of_nat (S k))) as [H1 | H1].
      * rewrite !Z.ones_spec_low by lia. reflexivity.
      * rewrite !Z.ones_spec_high by lia. reflexivity.
Qed.

Lemma readLE64_le64 (s : N) : (s < 2 ^ 64)%N -> readLE64 (le64 s) = s.
Proof.
  intros Hs. unfold readLE64, le64.
  pose proof (le_bytes_decode (Z.of_N s) 8 0) as H.
  change (Z.to_nat 0) with 0%nat in H. rewrite H by lia.
  rewrite Z.mul_0_r, Z.shiftr_0_r, Z.land_ones by lia.
  change (8 * Z.of_nat 8) with 64.
  rewrite Z.mod_small; [apply N2Z.id |].
  split; [lia |]. change (2 ^ 64) with (Z.of_N (2 ^ 64)). lia.
Qed.

Lemma scanSizes_S fuel buffer lengthSize dataSize nZeros :
  (nZeros < 2)%nat ->
  scanSizes (S fuel) buffer lengthSize dataSize nZeros
  = match readVarInt buffer with
    | Err e => Some (Err (ErrWrap "failed to read varint" e))
    | Ok (sz, n, buffer) =>
        scanSizes fuel buffer (wrap64 (lengthSize + n))
          (wrap64 (dataSize + sz)) (if sz =? 0 then S nZeros else O)
    end.
Proof.
  intros H. cbn [scanSizes].
  destruct (2 <=? nZeros)%nat eqn:E; [apply Nat.leb_le in E; lia |].
  reflexivity.
Qed.

Lemma scanSizes_done fuel buffer lengthSize dataSize :
  scanSizes fuel buffer lengthSize dataSize 2
  = Some (Ok (lengthSize, dataSize, buffer)).
Proof. destruct fuel; reflexivity. Qed.

(** The sizes of a record, as [NewCacheFile] adds them up. *)
Lemma scanSizes_encSizes (P : list IndexData) :
  forall wantDir fuel rest ls ds,
    nonEmpty P -> totalBytes P < 2 ^ 63 ->
    (length (encSizes P wantDir) + 2 <= fuel)%nat ->
    0 <= ls -> 0 <= ds ->
    ls + Z.of_nat (length (encSizes P wantDir)) + 2 < 2 ^ 64 ->
    ds + totalBytes P < 2 ^ 64 ->
    scanSizes fuel (encSizes P wantDir ++ 0 :: 0 :: rest) ls ds 0
    = Some (Ok (ls + Z.of_nat (length (encSizes P wantDir)) + 2,
                ds + totalBytes P, rest)).
Proof.
  assert (H64 : 2 ^ 64 = 18446744073709551616) by reflexivity.
  assert (H63 : 2 ^ 63 = 9223372036854775808) by reflexivity.
  induction P as [| p ps IH]; intros wantDir fuel rest ls ds Hne Htot Hfuel Hls Hds Hl Hd.
  - cbn [encSizes app length] in *.
    destruct fuel as [| [| fuel]]; [lia | lia |].
    rewrite scanSizes_S by lia. rewrite readVarInt_zero.
    change (0 =? 0) with true. cbv iota.
    rewrite scanSizes_S by lia. rewrite readVarInt_zero.
    change (0 =? 0) with true. cbv iota.
    rewrite scanSizes_done.
    unfold totalBytes, totalOf in *. cbn [bytesOf length] in *.
    rewrite !wrap64_small by (rewrite ?wrap64_small; lia).
    eq_fields.
  - inversion Hne as [| ? ? Hp Hps]; subst.
    destruct (lenZ_bounds p ps Hp Htot) as (Hlen & Htot' & Heq).
    destruct (encVarInt_spec (lenZ p) 0 ltac:(lia)) as (_ & Hlen1 & Hrd).
    assert (Hps0 : 0 <= totalBytes ps).
    { pose proof (totalOf_nonneg DirectionClientToServer ps).
      pose proof (totalOf_nonneg DirectionServerToClient ps).
      unfold totalBytes. lia. }
    cbn [encSizes] in *. rewrite !length_app in Hfuel, Hl.
    rewrite <- !app_assoc.
    assert (Hstep : forall fuel' ls',
               0 <= ls' ->
               ls' + Z.of_nat (length (encVarInt (lenZ p)))
               + Z.of_nat (length (encSizes ps (Reverse (Dir p)))) + 2 < 2 ^ 64 ->
               (length (encVarInt (lenZ p))
                + length (encSizes ps (Reverse (Dir p))) + 2 <= fuel')%nat ->
               scanSizes fuel'
                 (encVarInt (lenZ p)
                  ++ encSizes ps (Reverse (Dir p)) ++ 0 :: 0 :: rest) ls' ds 0
               = Some (Ok (ls' + Z.of_nat (length (encVarInt (lenZ p)))
                           + Z.of_nat (length (encSizes ps (Reverse (Dir p)))) + 2,
                           ds + totalBytes (p :: ps), rest))).
    { intros fuel' ls' Hls' Hl' Hf'.
      destruct fuel' as [| fuel']; [lia |].
      rewrite scanSizes_S by lia. rewrite Hrd.
      destruct (lenZ p =? 0) eqn:E; [apply Z.eqb_eq in E; lia |].
      rewrite !wrap64_small by lia.
      rewrite IH; [| done | done | lia | lia | lia | lia | lia].
      eq_fields. }
    destruct (decide (Dir p = wantDir)) as [Hd' | Hd'].
    + cbn [app length] in *. rewrite Hstep by lia. eq_fields.
    + cbn [app length] in *.
      destruct fuel as [| fuel]; [lia |].
      rewrite scanSizes_S by lia. rewrite readVarInt_zero.
      change (0 =? 0) with true. cbv iota.
      rewrite !wrap64_small by lia.
      replace (ds + 0) with ds by lia.
      (* one zero seen: the next size is not zero *)
      destruct fuel as [| fuel]; [lia |].
      rewrite scanSizes_S by lia. rewrite Hrd.
      destruct (lenZ p =? 0) eqn:E; [apply Z.eqb_eq in E; lia |].
      rewrite !wrap64_small by lia.
      rewrite IH; [| done | done | lia | lia | lia | lia | lia].
      eq_fields.
Qed.

Lemma scanRecords_S fuel buffer res :
  scanRecords (S fuel) buffer res
  = match readFull buffer headerSize with
    | Err EOF => Some (Ok res)
    | Err e => Some (Err (ErrWrap "failed to read stream header" e))
    | Ok (header, buffer) =>
        let streamID := readLE64 header in
        let res := with_fileSize res (fileSize res + headerSize) in
        match scanSizes (S (S (length buffer))) buffer 0 0 0 with
        | None => Some (Err outOfFuel)
        | Some (Err e) => Some (Err e)
        | Some (Ok (lengthSize, dataSize, buffer)) =>
            let res := noteRecord res streamID lengthSize dataSize in
            match discard buffer (toInt dataSize) with
            | Err e =>
                Some (Err (ErrWrap ("failed to discard " +:+ pretty dataSize
                                    +:+ " bytes") e))
            | Ok buffer =>
                scanRecords fuel buffer
                  (with_fileSize res
                     (fileSize res + toInt (wrap64 (lengthSize + dataSize))))
            end
        end
    end.
Proof. reflexivity. Qed.

(** The table after the record of [op] has been read. *)
Lemma scanRecords_record (fuel : nat) (s : N) (P : list IndexData)
    (rest : list Z) (res : cacheFile) :
  (s < 2 ^ 64)%N -> nonEmpty P ->
  Z.of_nat (length (recordOf (s, P))) < 2 ^ 63 ->
  scanRecords (S fuel) (recordOf (s, P) ++ rest) res
  = scanRecords fuel rest
      (with_fileSize
         (noteRecord (with_fileSize res (fileSize res + headerSize)) s
            (Z.of_nat (length (encSizes P DirectionClientToServer)) + 2)
            (totalBytes P))
         (fileSize res + Z.of_nat (length (recordOf (s, P))))).
Proof.
  intros Hs Hne Hrec.
  assert (H64 : 2 ^ 64 = 18446744073709551616) by reflexivity.
  assert (H63 : 2 ^ 63 = 9223372036854775808) by reflexivity.
  pose proof (record_bounds s P Hrec) as Htot.
  pose proof (totalOf_nonneg DirectionClientToServer P) as HnC.
  pose proof (totalOf_nonneg DirectionServerToClient P) as HnS.
  pose proof Hrec as Hrec'.
  rewrite recordOf_body, length_app, Nat2Z.inj_add, length_bodyOf, length_le64
    in Hrec'.
  assert (Hlen : Z.of_nat (length (recordOf (s, P)))
                 = headerSize
                   + (Z.of_nat (length (encSizes P DirectionClientToServer))
                      + 2 + totalBytes P)).
  { rewrite recordOf_body, length_app, Nat2Z.inj_add, length_bodyOf, length_le64.
    reflexivity. }
  rewrite Hlen.  rewrite scanRecords_S. rewrite recordOf_body, <- app_assoc.
  change headerSize with (Z.of_nat (length (le64 s))) at 1.
  rewrite readFull_app. cbv zeta. rewrite readLE64_le64 by exact Hs.
  unfold bodyOf. rewrite <- !app_assoc. cbn [app].
  rewrite (scanSizes_encSizes P DirectionClientToServer);
    [| done | done
     | rewrite !length_app; cbn [length]; lia
     | lia | lia | unfold totalBytes in *; lia | unfold totalBytes in *; lia].
  rewrite !Z.add_0_l.
  rewrite toInt_small by (unfold totalBytes in *; lia).
  rewrite app_assoc.
  replace (totalBytes P)
    with (Z.of_nat (length (bytesOf DirectionClientToServer P
                            ++ bytesOf DirectionServerToClient P))) at 1
    by (rewrite length_app; unfold totalBytes, totalOf; lia).
  rewrite discard_app.
  rewrite wrap64_small by (unfold totalBytes in *; lia).
  rewrite toInt_small by (unfold totalBytes in *; lia).
  f_equal. unfold with_fileSize, noteRecord.
  cbn [file fileSize freeSize freeStart streamInfos].
  destruct (streamInfos res !! s);
    unfold with_infos, with_free; cbn [file fileSize freeSize freeStart streamInfos];
    f_equal; lia.
Qed.

Lemma inStep_record (res cf : cacheFile) (s : N) (P : list IndexData) :
  atEnd cf -> inStep res cf ->
  noCleanup cf s -> nonEmpty P ->
  Z.of_nat (length (recordOf (s, P))) < 2 ^ 63 ->
  inStep
    (with_fileSize
       (noteRecord (with_fileSize res (fileSize res + headerSize)) s
          (Z.of_nat (length (encSizes P DirectionClientToServer)) + 2)
          (totalBytes P))
       (fileSize res + Z.of_nat (length (recordOf (s, P)))))
    (SetData cf s P).1.
Proof.
  intros Hend (Hfs & Hfr & Hin & Hfr0 & Hz & Hnz & Hwf) Hno Hne Hrec.
  assert (H64 : 2 ^ 64 = 18446744073709551616) by reflexivity.
  assert (H63 : 2 ^ 63 = 9223372036854775808) by reflexivity.
  pose proof (record_bounds s P Hrec) as Htot.
  pose proof (totalOf_nonneg DirectionClientToServer P) as HnC.
  pose proof (totalOf_nonneg DirectionServerToClient P) as HnS.
  destruct (SetData_quiet_fields cf s P Hend Hno Hne Htot)
    as (_ & _ & _ & Hfs' & Hi' & Hfree' & Hstart').
  set (cf' := (SetData cf s P).1) in *.
  assert (Hlen : Z.of_nat (length (recordOf (s, P)))
                 = headerSize + Z.of_nat (length (bodyOf P))).
  { rewrite recordOf_body, length_app, Nat2Z.inj_add, length_le64. reflexivity. }
  pose proof (length_bodyOf P) as Hbody.
  assert (Hsize0 : 0 <= fileSize cf).
  { destruct Hend as [_ ->]. lia. }
  unfold headerSize in *.
  unfold inStep, noteRecord, with_fileSize.
  cbn [file fileSize freeSize freeStart streamInfos].
  rewrite Hin, Hfs, Hfr.
  destruct (streamInfos cf !! s) as [info |] eqn:El;
    unfold with_infos, with_free;
    cbn [file fileSize freeSize freeStart streamInfos];
    rewrite Hfs', Hi', Hfree', Hstart'.
  - destruct (Hwf s info El) as (Ho & Hsz & Hle).
    unfold freeOlder, with_free. cbn [file fileSize freeSize freeStart streamInfos].
    rewrite toInt_small by lia.
    rewrite wrap64_small by (unfold totalBytes in *; lia).
    unfold headerSize.
    assert (Hmin : (if offset info - 8 <? freeStart cf
                    then offset info - 8 else freeStart cf) <> fileSize cf).
    { destruct (offset info - 8 <? freeStart cf) eqn:E; [lia |].
      apply Z.ltb_ge in E. destruct (decide (freeSize cf = 0)) as [F | F].
      - rewrite (Hz F) in E. lia.
      - destruct (Hnz F). lia. }
    apply Z.eqb_neq in Hmin. rewrite Hmin.
    split; [lia |]. split; [lia |].
    split; [f_equal; f_equal; lia |].
    split; [lia |]. split; [lia |].
    split.
    + intros _. split.
      * destruct (decide (freeSize cf = 0)) as [F | F].
        -- rewrite F. change (0 =? 0) with true. cbn [orb].
           rewrite (Hz F).
           destruct (offset info - 8 <? fileSize cf) eqn:E; [reflexivity |].
           apply Z.ltb_ge in E. lia.
        -- apply Z.eqb_neq in F as F'. rewrite F'. cbn [orb].
           destruct (Hnz F) as [-> _]. reflexivity.
      * destruct (offset info - 8 <? freeStart cf) eqn:E; [lia |].
        apply Z.ltb_ge in E. destruct (decide (freeSize cf = 0)) as [F | F].
        -- rewrite (Hz F) in E. lia.
        -- destruct (Hnz F). lia.
    + intros t it. destruct (decide (t = s)) as [-> | Hts].
      * rewrite lookup_insert_eq. intros [= <-]. cbn [offset size]. lia.
      * rewrite lookup_insert_ne by done. intros Ht.
        destruct (Hwf t it Ht). lia.
  - rewrite wrap64_small by (unfold totalBytes in *; lia).
    unfold headerSize.
    split; [lia |]. split; [lia |].
    split; [f_equal; f_equal; lia |].
    split; [lia |].
    split.
    { intros F. rewrite (Hz F), Z.eqb_refl. exact Hfs'. }
    split.
    { intros F. destruct (Hnz F) as [Hr Hlt].
      destruct (freeStart cf =? fileSize cf) eqn:E;
        [apply Z.eqb_eq in E; lia |]. lia. }
    intros t it. destruct (decide (t = s)) as [-> | Hts].
    + rewrite lookup_insert_eq. intros [= <-]. cbn [offset size]. lia.
    + rewrite lookup_insert_ne by done. intros Ht.
      destruct (Hwf t it Ht). lia.
Qed.

Lemma scanRecords_all (ops : list (N * list IndexData)) :
  forall res cf fuel,
    atEnd cf -> inStep res cf -> quiet cf ops ->
    (length ops < fuel)%nat ->
    exists res',
      scanRecords fuel (concat (map recordOf ops)) res = Some (Ok res')
      /\ inStep res' (storeAll cf ops).
Proof.
  induction ops as [| [s P] ops IH]; intros res cf fuel Hend Hin Hq Hfuel.
  - destruct fuel as [| fuel]; [cbn in Hfuel; lia |].
    exists res. split; [reflexivity | exact Hin].
  - cbn [quiet fst snd] in Hq. destruct Hq as (Hs & Hno & Hne & Hrec & Hq).
    destruct fuel as [| fuel]; [cbn in Hfuel; lia |].
    cbn [map concat]. rewrite scanRecords_record by done.
    cbn [storeAll foldl fst snd]. apply IH.
    + apply (SetData_quiet_fields cf s P Hend Hno Hne (record_bounds s P Hrec)).
    + apply inStep_record; done.
    + exact Hq.
    + cbn [length] in Hfuel. lia.
Qed.

Lemma storeAll_contents (ops : list (N * list IndexData)) :
  forall cf,
    atEnd cf -> quiet cf ops ->
    atEnd (storeAll cf ops)
    /\ contents (file (storeAll cf ops))
       = contents (file cf) ++ concat (map recordOf ops).
Proof.
  induction ops as [| [s P] ops IH]; intros cf Hend Hq.
  - cbn [storeAll foldl map concat]. rewrite app_nil_r. done.
  - cbn [quiet fst snd] in Hq. destruct Hq as (Hs & Hno & Hne & Hrec & Hq).
    destruct (SetData_quiet_fields cf s P Hend Hno Hne (record_bounds s P Hrec))
      as (_ & Hc & Hend' & _).
    cbn [storeAll foldl fst snd map concat].
    destruct (IH _ Hend' Hq) as [He Hcc]. split; [exact He |].
    unfold storeAll in Hcc. rewrite Hcc, Hc, <- app_assoc. reflexivity.
Qed.

Lemma length_records (ops : list (N * list IndexData)) :
  (length ops <= length (concat (map recordOf ops)))%nat.
Proof.
  induction ops as [| [s P] ops IH]; [done |].
  cbn [map concat length]. rewrite length_app, recordOf_body, length_app, length_le64.
  lia.
Qed.

Lemma inStep_empty (f : osFile) :
  inStep (with_file NewCacheFile_empty f) NewCacheFile_empty.
Proof.
  unfold inStep. cbn. repeat split; try done; try lia.
  all: intros s info; rewrite lookup_empty; done.
Qed.

(** X3: reopening the cache file: after any sequence of [SetData] calls on a
    new cache file, none of which triggers the cleanup or stores an empty
    packet, [NewCacheFile] on the bytes of the file succeeds and rebuilds
    the very state the writer holds: the same table of streams, file size,
    free size and free start, with the descriptor at the end. *)
Theorem NewCacheFile_storeAll (ops : list (N * list IndexData)) :
  quiet NewCacheFile_empty ops ->
  NewCacheFile (contents (file (storeAll NewCacheFile_empty ops)))
  = Ok (storeAll NewCacheFile_empty ops).
Proof.
  intros Hq.
  destruct (storeAll_contents ops _ atEnd_empty Hq) as [[Hpos Hlen] Hc].
  cbn [NewCacheFile_empty file contents app] in Hc.
  unfold NewCacheFile. rewrite Hc.
  change (mkCache (mkFile (concat (map recordOf ops)) 0) 0 0 0 ∅)
    with (with_file NewCacheFile_empty (mkFile (concat (map recordOf ops)) 0)).
  destruct (scanRecords_all ops
              (with_file NewCacheFile_empty (mkFile (concat (map recordOf ops)) 0))
              NewCacheFile_empty
              (S (length (concat (map recordOf ops)))) atEnd_empty
              (inStep_empty _) Hq)
    as (res' & -> & Hin).
  { pose proof (length_records ops). lia. }
  destruct Hin as (Hfs & Hfr & Hi & Hfr0 & Hz & Hnz & _).
  rewrite Hc in Hlen.
  destruct (storeAll NewCacheFile_empty ops) as [[c p] fs fr st infos].
  destruct res' as [f' fs' fr' st' infos'].
  cbn [file fileSize freeSize freeStart streamInfos contents position] in *.
  subst. f_equal.
  destruct (decide (fr = 0)) as [F | F].
  - rewrite F. change (0 =? 0) with true. cbv iota.
    unfold with_file, with_free. cbn. rewrite (Hz F). reflexivity.
  - apply Z.eqb_neq in F as F'. rewrite F'.
    destruct (Hnz F) as [-> _]. reflexivity.
Qed.

(** *** Reset *)

Lemma Reset_fields (cf : cacheFile) :
  Reset cf
  = ({| file := {| contents := []; position := position (file cf) |};
        fileSize := 0; freeSize := 0; freeStart := 0; streamInfos := ∅ |},
     None).
Proof.
  unfold Reset, fileTruncate. change (0 <? 0) with false. cbv iota.
  change (Z.to_nat 0) with 0%nat. rewrite take_0.
  unfold zeros. replace (Z.to_nat (0 - Z.of_nat (length (contents (file cf)))))
    with 0%nat by lia.
  reflexivity.
Qed.

Lemma fileWrite_gap (p : Z) (out : list Z) :
  0 <= p ->
  fileWrite {| contents := []; position := p |} out
  = {| contents := zeros p ++ out; position := p + Z.of_nat (length out) |}.
Proof.
  intros Hp. unfold fileWrite. cbn [contents position length].
  rewrite take_nil, drop_nil, app_nil_r, Z.sub_0_r. reflexivity.
Qed.

(** X4: [Reset] does not rewind the descriptor: a cache file whose descriptor
    stands at byte 10 or later (one stored record is enough) is emptied,
    but the record of the next [SetData] lands at the old position, behind
    a gap of zero bytes, while the table points to byte 8.  [SetData]
    reports no error and [Contains] holds, yet [Data] returns no packets
    at all, whatever was stored. *)
Theorem Reset_then_SetData (cf : cacheFile) (s : N) (P : list IndexData) :
  10 <= position (file cf) ->
  nonEmpty P -> totalBytes P < 2 ^ 63 ->
  (Reset cf).2 = None
  /\ (SetData (Reset cf).1 s P).2 = None
  /\ Contains (SetData (Reset cf).1 s P).1 s = true
  /\ Data (SetData (Reset cf).1 s P).1 s = Ok (Some [], 0, 0).
Proof.
  intros Hp Hne Htot. rewrite Reset_fields. cbn [fst snd].
  split; [reflexivity |].
  set (cf1 := {| file := {| contents := []; position := position (file cf) |};
                 fileSize := 0; freeSize := 0; freeStart := 0;
                 streamInfos := ∅ |}).
  assert (Hno : noCleanup cf1 s).
  { unfold noCleanup, cf1. cbn [streamInfos]. rewrite lookup_empty. exact I. }
  rewrite (SetData_quiet_eq cf1 s P Hno).
  replace (match streamInfos cf1 !! s with
           | Some info => freeOlder cf1 info
           | None => cf1
           end) with cf1 by (unfold cf1; cbn [streamInfos]; rewrite lookup_empty; reflexivity).
  cbn [fst snd]. split; [reflexivity |].
  pose proof (appendRecord_layout cf1 s P Hne Htot) as HL. cbv zeta in HL.
  fold (bodyOf P) in HL. rewrite HL. clear HL.
  unfold Contains, Data. cbn [streamInfos file]. rewrite lookup_insert_eq.
  split; [apply bool_decide_eq_true_2; eexists; reflexivity |].
  cbn [offset size]. unfold cf1. cbn [file fileSize].
  rewrite fileWrite_gap by lia.
  unfold newSectionReader. change (0 + headerSize <? 0) with false. cbv iota.
  unfold sectionReader. cbn [contents].
  change (Z.to_nat (0 + headerSize)) with 8%nat.
  assert (Hz : exists k, zeros (position (file cf)) = repeat 0 8 ++ 0 :: 0 :: repeat 0 k).
  { exists (Z.to_nat (position (file cf)) - 10)%nat. unfold zeros.
    replace (Z.to_nat (position (file cf)))
      with (8 + (2 + (Z.to_nat (position (file cf)) - 10)))%nat at 1 by lia.
    rewrite repeat_app. reflexivity. }
  destruct Hz as [k ->].
  rewrite <- app_assoc, drop_app_length' by reflexivity.
  assert (Hn : exists m, Z.to_nat (Z.of_nat (length (bodyOf P))) = S (S m)).
  { exists (length (bodyOf P) - 2)%nat. unfold bodyOf.
    rewrite !length_app. cbn [length]. lia. }
  destruct Hn as [m ->].
  cbn [app firstn length].
  rewrite readSizes_S, readVarInt_zero.
  change ((0 =? 0) && false) with false. cbv iota.
  rewrite readSizes_S, readVarInt_zero.
  change ((0 =? 0) && (0 =? 0)) with true. cbv iota.
  unfold readFull. change (0 <=? 0) with true. cbv iota.
  reflexivity.
Qed.

(** *** CachedConverter *)

Lemma Data_after_SetData (cf : cacheFile) (s : N) (P : list IndexData) :
  atEnd cf -> noCleanup cf s -> nonEmpty P -> totalBytes P < 2 ^ 63 ->
  Data (SetData cf s P).1 s = answerOf (Some P).
Proof.
  intros Hend Hno Hne Htot.
  destruct (SetData_quiet_fields cf s P Hend Hno Hne Htot)
    as (_ & Hc & _ & _ & Hi & _).
  destruct Hend as [Hpos Hsize].
  set (cf' := (SetData cf s P).1) in *.
  apply (Data_of_record cf' s
           {| offset := fileSize cf + headerSize;
              size := Z.of_nat (length (bodyOf P)) |}); try done.
  - rewrite Hi. apply lookup_insert_eq.
  - cbn [offset]. unfold headerSize. lia.
  - cbn [offset size]. destruct (file cf') as [c p]. cbn [contents] in Hc.
    rewrite Hc, Hsize, recordOf_body.
    change headerSize with (Z.of_nat (length (le64 s))).
    apply sectionReader_append_new.
Qed.

(** X5: [CachedConverter.Data] converts once.  For a stream that is not yet
    in the cache, the call returns what the converter answers and stores
    the packets; a second call returns the same packets from the cache
    file, with the byte totals of the packets, leaves the cache as it is
    and does not depend on the converter any more. *)
Theorem CachedConverter_Data_twice (convert convert' : converterData)
    (cf : cacheFile) (s : N) (P : list IndexData) (clientBytes serverBytes : Z) :
  atEnd cf ->
  streamInfos cf !! s = None ->
  convert s = Ok (P, clientBytes, serverBytes) ->
  nonEmpty P -> totalBytes P < 2 ^ 63 ->
  (CachedConverter_Data convert cf s).2 = Ok (P, clientBytes, serverBytes)
  /\ CachedConverter_Data convert' (CachedConverter_Data convert cf s).1 s
     = ((CachedConverter_Data convert cf s).1,
        Ok (P, totalOf DirectionClientToServer P,
            totalOf DirectionServerToClient P)).
Proof.
  intros Hend Hl Hconv Hne Htot.
  assert (Hno : noCleanup cf s) by (unfold noCleanup; rewrite Hl; exact I).
  pose proof (Data_after_SetData cf s P Hend Hno Hne Htot) as HD.
  assert (H1 : CachedConverter_Data convert cf s
               = ((SetData cf s P).1, Ok (P, clientBytes, serverBytes))).
  { unfold CachedConverter_Data at 1. unfold Data. rewrite Hl, Hconv.
    rewrite (SetData_quiet_eq cf s P Hno). reflexivity. }
  rewrite H1. cbn [fst snd]. split; [reflexivity |].
  unfold CachedConverter_Data. rewrite HD. reflexivity.
Qed.

(** *** The chunk sizes *)

(** X1: the size encoding of [SetData] and [readVarInt] are inverse to each
    other: the bytes written for a size below 2^63 are between one and
    ten, and [readVarInt] reads the size back from them, consumes exactly
    these bytes and leaves what follows. *)
Theorem varint_roundtrip (sz : Z) (rest : list Z) :
  0 <= sz < 2 ^ 63 ->
  let '(buf, n) := putVarInt_loop 10 sz 0 [] 0 in
  readVarInt (buf ++ rest) = Ok (sz, n, rest)
  /\ n = Z.of_nat (length buf) /\ 1 <= n <= 10.
Proof.
  intros Hsz.
  destruct (putVarInt_readVarInt sz 0 Hsz) as (enc & Hput & Hlen & Hrd).
  pose proof (putVarInt_loop_decodes 10 sz [] 0 0 0) as Hd.
  rewrite Hput. rewrite Z.add_0_l. split; [apply Hrd |]. split; [reflexivity |].
  split; [lia |].
  assert (Hroom : forall room sz flag buf n,
             (length (putVarInt_loop room sz flag buf n).1
              <= room + length buf)%nat).
  { clear. induction room as [| room IH]; intros sz flag buf n; [cbn; lia |].
    rewrite putVarInt_loop_S. destruct (Z.shiftr sz 7 =? 0).
    - cbn [fst length]. lia.
    - specialize (IH (Z.shiftr sz 7) 128 (Z.lor (Z.land sz 127) flag :: buf) (n + 1)).
      cbn [length] in IH. lia. }
  specialize (Hroom 10%nat sz 0 [] 0). rewrite Hput in Hroom.
  cbn [fst length] in Hroom. lia.
Qed.

(** *** SetData with the cleanup *)

(** X6: what [SetData] leaves whenever it runs the cleanup and reports no
    error.  No record is moved and the file is not cut: the file is the old
    one with the new record written over it at the start of the free space,
    where the cleanup has left the descriptor.  The table nevertheless
    counts the record at the old end of the file, and the free space as
    gone. *)
Theorem SetData_cleanup_state (cf : cacheFile) (s : N) (info : streamInfo)
    (P : list IndexData) :
  fileSize cf = Z.of_nat (length (contents (file cf))) ->
  streamInfos cf !! s = Some info ->
  cleanupNeeded (freeOlder cf info) = true ->
  (SetData cf s P).2 = None ->
  nonEmpty P -> totalBytes P < 2 ^ 63 ->
  let start := freeStart (freeOlder cf info) in
  (SetData cf s P).1
  = {| file := fileWrite {| contents := contents (file cf); position := start |}
                 (recordOf (s, P));
       fileSize := fileSize cf + Z.of_nat (length (recordOf (s, P)));
       freeSize := 0;
       freeStart := if start =? fileSize cf
                    then start + Z.of_nat (length (recordOf (s, P)))
                    else start;
       streamInfos := <[s := {| offset := fileSize cf + headerSize;
                               size := Z.of_nat (length (bodyOf P)) |}]>
                        (streamInfos cf) |}.
Proof.
  intros Hsize Hl Hneed Hok Hne Htot. cbv zeta.
  unfold SetData in *. rewrite Hl, Hneed in *.
  destruct (cleanupFile (freeOlder cf info) s) as [cf1 [e |]] eqn:Ec;
    [discriminate |].
  apply cleanupFile_result in Ec; [| exact Hsize].
  cbn [fst]. pose proof (appendRecord_layout cf1 s P Hne Htot) as HL.
  cbv zeta in HL. fold (bodyOf P) in HL. rewrite HL. clear HL.
  subst cf1. cbn [file fileSize freeSize freeStart streamInfos].
  unfold freeOlder, with_free.
  cbn [file fileSize freeSize freeStart streamInfos].
  rewrite insert_delete_eq, recordOf_body, length_app, length_le64.
  unfold headerSize. f_equal.
  - lia.
  - destruct (_ =? fileSize cf); lia.
Qed.

(** ** Scenarios *)

Import MoreExamples.

Lemma quiet_threeStores : quiet NewCacheFile_empty threeStores.
Proof.
  unfold threeStores. cbn [quiet fst snd].
  repeat (split; [first [ reflexivity | exact I
                        | repeat constructor; discriminate ] |]).
  exact I.
Qed.

(** The size 300 takes the two bytes 0x82 0x2c. *)
Lemma varint_roundtrip_witness :
  readVarInt ([130; 44] ++ [7]) = Ok (300, 2, [7]).
Proof.
  assert (H : 0 <= 300 < 2 ^ 63) by (split; [discriminate | reflexivity]).
  exact (proj1 (varint_roundtrip 300 [7] H)).
Defined.

(** Stream 1 was stored twice: the second packets are returned. *)
Lemma Data_storeAll_witness :
  Data (storeAll NewCacheFile_empty threeStores) 1
  = Ok (Some [mkData c2s [97]], 1, 0).
Proof. exact (Data_storeAll threeStores 1 quiet_threeStores). Defined.

Lemma NewCacheFile_storeAll_witness :
  NewCacheFile (contents (file (storeAll NewCacheFile_empty threeStores)))
  = Ok (storeAll NewCacheFile_empty threeStores).
Proof. exact (NewCacheFile_storeAll threeStores quiet_threeStores). Defined.

(** The cache of the three small records is reset and stream 7 stored. *)
Lemma Reset_then_SetData_witness :
  Data (SetData (Reset smallRecords).1 7 scenarioS1).1 7 = Ok (Some [], 0, 0).
Proof.
  assert (Hp : 10 <= position (file smallRecords)) by discriminate.
  assert (Hne : nonEmpty scenarioS1) by (repeat constructor; discriminate).
  assert (Htot : totalBytes scenarioS1 < 2 ^ 63) by reflexivity.
  exact (proj2 (proj2 (proj2 (Reset_then_SetData smallRecords 7 scenarioS1
                                Hp Hne Htot)))).
Defined.

Lemma CachedConverter_Data_twice_witness :
  (CachedConverter_Data cannedConverter NewCacheFile_empty 42).2
  = Ok (scenarioS1, 4, 2)
  /\ (CachedConverter_Data brokenConverter
        (CachedConverter_Data cannedConverter NewCacheFile_empty 42).1 42).2
     = Ok (scenarioS1, 4, 2).
Proof.
  assert (Hne : nonEmpty scenarioS1) by (repeat constructor; discriminate).
  assert (Htot : totalBytes scenarioS1 < 2 ^ 63) by reflexivity.
  destruct (CachedConverter_Data_twice cannedConverter brokenConverter
              NewCacheFile_empty 42 scenarioS1 4 2 atEnd_empty eq_refl eq_refl
              Hne Htot) as [H1 H2].
  split; [exact H1 |]. rewrite H2. reflexivity.
Defined.

(** The scenario of the cleanup: the record of stream 3 goes to byte 0. *)
Lemma SetData_cleanup_state_witness :
  position (file (SetData (beforeCleanup bigContent) 3 afterCleanupPackets).1)
  = 23
  /\ streamInfos (SetData (beforeCleanup bigContent) 3 afterCleanupPackets).1
     !! 3%N = Some {| offset := 16777278; size := 15 |}.
Proof.
  assert (Hbig : Z.of_nat (length bigContent) = cleanupMinFreeSize).
  { unfold bigContent. rewrite repeat_length. apply N_nat_Z. }
  pose proof (beforeCleanup_eq bigContent Hbig) as Heq.
  assert (Hlen : fileSize (beforeCleanup bigContent)
                 = Z.of_nat (length (contents (file (beforeCleanup bigContent))))).
  { rewrite Heq. cbn [fileSize file contents].
    rewrite smallRecords_contents, !length_app, !Nat2Z.inj_add, Hbig.
    reflexivity. }
  assert (Hl : streamInfos (beforeCleanup bigContent) !! 3%N
               = Some {| offset := 48; size := 16777222 |}).
  { rewrite Heq. cbn [streamInfos]. apply lookup_insert_eq. }
  assert (Hneed : cleanupNeeded (freeOlder (beforeCleanup bigContent)
                                   {| offset := 48; size := 16777222 |}) = true).
  { rewrite Heq. reflexivity. }
  assert (Hok : (SetData (beforeCleanup bigContent) 3 afterCleanupPackets).2
                = None).
  { rewrite (SetData_scenario bigContent Hbig). reflexivity. }
  assert (Hne : nonEmpty afterCleanupPackets)
    by (repeat constructor; discriminate).
  assert (Htot : totalBytes afterCleanupPackets < 2 ^ 63) by reflexivity.
  pose proof (SetData_cleanup_state (beforeCleanup bigContent) 3
                {| offset := 48; size := 16777222 |} afterCleanupPackets
                Hlen Hl Hneed Hok Hne Htot) as H.
  cbv zeta in H. rewrite H. cbn [file streamInfos].
  split.
  - unfold fileWrite. cbn [position]. rewrite Heq. reflexivity.
  - rewrite lookup_insert_eq, Heq. reflexivity.
Defined.

End CacheMore.

(** * Theory of the filter cache file *)

Module FiltersTheory.

Import ConverterCache CacheExamples CacheTheory CacheMore Filters.

Lemma segmentationOf_spec (P : list IndexData) :
  forall wantDir out, segmentationOf P wantDir out = out ++ encSizes P wantDir.
Proof.
  induction P as [| p ps IH]; intros wantDir out.
  - cbn. rewrite app_nil_r. reflexivity.
  - cbn [segmentationOf encSizes].
    destruct (decide (Dir p = wantDir)) as [Hd | Hd].
    + rewrite IH. subst wantDir. cbn [app]. rewrite <- app_assoc. reflexivity.
    + rewrite IH. rewrite (Reverse_neq (Dir p) wantDir Hd).
      rewrite <- !app_assoc. reflexivity.
Qed.

Lemma writeDirection_spec (d : Direction) (P : list IndexData) :
  writeDirection d P = bytesOf d P.
Proof. induction P as [| p ps IH]; cbn; [| rewrite IH]; reflexivity. Qed.

Lemma dataSize_spec (P : list IndexData) :
  forall acc,
    0 <= acc -> acc + totalBytes P < 2 ^ 64 ->
    foldl (fun dataSize p => wrap64 (dataSize + Z.of_nat (length (Content p))))
      acc P
    = acc + totalBytes P.
Proof.
  induction P as [| p ps IH]; intros acc Ha Hb.
  - cbn. unfold totalBytes, totalOf. cbn. lia.
  - cbn [foldl].
    assert (Heq : totalBytes (p :: ps) = lenZ p + totalBytes ps).
    { unfold totalBytes. rewrite !totalOf_cons.
      destruct (Dir p); repeat case_decide; try congruence; lia. }
    assert (H0 : 0 <= totalBytes ps).
    { pose proof (totalOf_nonneg DirectionClientToServer ps).
      pose proof (totalOf_nonneg DirectionServerToClient ps).
      unfold totalBytes. lia. }
    unfold lenZ in Heq.
    rewrite wrap64_small by lia. rewrite IH by lia. lia.
Qed.

(** The record of a stream: the two header words and the body that the
    converter cache writes as well. *)
Lemma AppendStream_layout (s : N) (P : list IndexData) :
  Z.of_nat (length (bodyOf P)) < 2 ^ 64 ->
  AppendStream s P
  = le64 s ++ le64 (Z.to_N (Z.of_nat (length (bodyOf P)))) ++ bodyOf P.
Proof.
  intros Hlen. pose proof (length_bodyOf P) as Hb.
  assert (H0 : 0 <= totalBytes P).
  { pose proof (totalOf_nonneg DirectionClientToServer P).
    pose proof (totalOf_nonneg DirectionServerToClient P).
    unfold totalBytes. lia. }
  unfold AppendStream.
  rewrite segmentationOf_spec, (writeDirection_spec DirectionClientToServer),
    (writeDirection_spec DirectionServerToClient).
  cbn [app]. rewrite dataSize_spec by lia. rewrite Z.add_0_l.
  rewrite length_app. cbn [length].
  rewrite wrap64_small by lia.
  replace (totalBytes P
           + Z.of_nat (length (encSizes P DirectionClientToServer) + 2))
    with (Z.of_nat (length (bodyOf P))) by lia.
  unfold bodyOf. rewrite <- !app_assoc. reflexivity.
Qed.

Lemma readSections_S fuel buffer pos ids :
  readSections (S fuel) buffer pos ids
  = match readFull buffer sectionSize with
    | Err EOF => Some (Ok ids)
    | Err e => Some (Err e)
    | Ok (header, buffer) =>
        let StreamID := readLE64 (take 8 header) in
        let DataSize := Z.of_N (readLE64 (drop 8 header)) in
        let pos := wrap64 (pos + sectionSize) in
        let ids := if decide (StreamID = InvalidStreamID) then ids
                   else <[StreamID := pos]> ids in
        match discard buffer (toInt DataSize) with
        | Err e => Some (Err e)
        | Ok buffer => readSections fuel buffer (wrap64 (pos + DataSize)) ids
        end
    end.
Proof. reflexivity. Qed.

(** One section, as [NewReader] sees it. *)
Lemma readSections_record (fuel : nat) (s : N) (P : list IndexData)
    (rest : list Z) (pos : Z) (ids : gmap N Z) :
  (s < 2 ^ 64)%N ->
  0 <= pos ->
  pos + sectionSize + Z.of_nat (length (bodyOf P)) < 2 ^ 63 ->
  readSections (S fuel) (AppendStream s P ++ rest) pos ids
  = readSections fuel rest (pos + Z.of_nat (length (AppendStream s P)))
      (if decide (s = InvalidStreamID) then ids
       else <[s := pos + sectionSize]> ids).
Proof.
  intros Hs Hpos Hlen.
  assert (H64 : 2 ^ 64 = 18446744073709551616) by reflexivity.
  assert (H63 : 2 ^ 63 = 9223372036854775808) by reflexivity.
  unfold sectionSize in *.
  rewrite AppendStream_layout by lia.
  set (n := Z.of_nat (length (bodyOf P))) in *.
  rewrite readSections_S.
  replace ((le64 s ++ le64 (Z.to_N n) ++ bodyOf P) ++ rest)
    with ((le64 s ++ le64 (Z.to_N n)) ++ bodyOf P ++ rest)
    by (rewrite <- !app_assoc; reflexivity).
  change sectionSize with (Z.of_nat (length (le64 s ++ le64 (Z.to_N n)))).
  rewrite readFull_app. cbv zeta.
  rewrite take_app_length' by (rewrite length_le64; reflexivity).
  rewrite drop_app_length' by (rewrite length_le64; reflexivity).
  rewrite !readLE64_le64 by lia.
  rewrite Z2N.id by lia.
  rewrite toInt_small by lia. unfold n at 1. rewrite discard_app.
  change (Z.of_nat (length (le64 s ++ le64 (Z.to_N n)))) with 16.
  rewrite !wrap64_small by (rewrite ?wrap64_small; lia).
  rewrite !length_app, !length_le64. fold n.
  f_equal. lia.
Qed.

Lemma length_AppendStream (s : N) (P : list IndexData) :
  Z.of_nat (length (bodyOf P)) < 2 ^ 64 ->
  Z.of_nat (length (AppendStream s P))
  = sectionSize + Z.of_nat (length (bodyOf P)).
Proof.
  intros H. rewrite AppendStream_layout by exact H.
  rewrite !length_app, !length_le64. unfold sectionSize. lia.
Qed.

Lemma AppendStream_longer (s : N) (P : list IndexData) :
  (16 + length (bodyOf P) <= length (AppendStream s P))%nat.
Proof.
  unfold AppendStream.
  rewrite segmentationOf_spec, (writeDirection_spec DirectionClientToServer),
    (writeDirection_spec DirectionServerToClient).
  rewrite !length_app, !length_le64. unfold bodyOf. rewrite !length_app.
  cbn [length app]. lia.
Qed.

Lemma indexed_record (pre : list Z) (ids : gmap N Z)
    (m : gmap N (list IndexData)) (s : N) (P : list IndexData) :
  Z.of_nat (length (bodyOf P)) < 2 ^ 64 ->
  nonEmpty P ->
  indexed pre ids m ->
  indexed (pre ++ AppendStream s P)
    (<[s := Z.of_nat (length pre) + sectionSize]> ids) (<[s := P]> m).
Proof.
  intros Hlen Hne Hin t. destruct (decide (t = s)) as [-> | Hts].
  - rewrite !lookup_insert_eq. split; [exact Hne |].
    exists (Z.of_nat (length pre) + sectionSize), [].
    split; [reflexivity |].
    rewrite length_app, Nat2Z.inj_add, length_AppendStream by exact Hlen.
    unfold sectionSize. split; [lia |].
    rewrite AppendStream_layout by exact Hlen.
    replace (pre ++ le64 s ++ le64 (Z.to_N (Z.of_nat (length (bodyOf P)))) ++ bodyOf P)
      with ((pre ++ le64 s ++ le64 (Z.to_N (Z.of_nat (length (bodyOf P)))))
            ++ bodyOf P)
      by (rewrite <- !app_assoc; reflexivity).
    rewrite drop_app_length' by (rewrite !length_app, !length_le64; lia).
    rewrite app_nil_r. reflexivity.
  - rewrite !lookup_insert_ne by done. specialize (Hin t).
    destruct (m !! t) as [Q |]; [| exact Hin].
    destruct Hin as (HneQ & p & tail & Hl & Hp & Hd).
    split; [exact HneQ |]. exists p, (tail ++ AppendStream s P).
    split; [exact Hl |]. split; [rewrite length_app; lia |].
    rewrite drop_app_le by lia. rewrite Hd, <- app_assoc. reflexivity.
Qed.

Lemma indexed_skip (pre more : list Z) (ids : gmap N Z)
    (m : gmap N (list IndexData)) :
  indexed pre ids m -> indexed (pre ++ more) ids m.
Proof.
  intros Hin t. specialize (Hin t).
  destruct (m !! t) as [Q |]; [| exact Hin].
  destruct Hin as (HneQ & p & tail & Hl & Hp & Hd).
  split; [exact HneQ |]. exists p, (tail ++ more).
  split; [exact Hl |]. split; [rewrite length_app; lia |].
  rewrite drop_app_le by lia. rewrite Hd, <- app_assoc. reflexivity.
Qed.

Lemma readSections_all (ops : list (N * list IndexData)) :
  forall pre ids m fuel,
    plain ops -> indexed pre ids m ->
    Z.of_nat (length (pre ++ records ops)) < 2 ^ 63 ->
    (length ops < fuel)%nat ->
    exists ids',
      readSections fuel (records ops) (Z.of_nat (length pre)) ids
      = Some (Ok ids')
      /\ indexed (pre ++ records ops) ids' (readable m ops).
Proof.
  induction ops as [| [s P] ops IH]; intros pre ids m fuel Hpl Hin Hlen Hfuel.
  - destruct fuel as [| fuel]; [cbn in Hfuel; lia |].
    exists ids. split; [reflexivity |].
    unfold records. cbn [map concat]. rewrite app_nil_r. exact Hin.
  - destruct fuel as [| fuel]; [cbn in Hfuel; lia |].
    inversion Hpl as [| ? ? [Hs Hne] Hpl']; subst. cbn [fst snd] in *.
    unfold records in *. cbn [map concat fst snd] in *.
    pose proof (AppendStream_longer s P) as Hlong.
    rewrite !length_app in Hlen.
    rewrite readSections_record; [| exact Hs | lia | unfold sectionSize; lia].
    rewrite <- Nat2Z.inj_add, <- length_app.
    unfold readable. cbn [foldl fst snd]. fold (readable).
    destruct (IH (pre ++ AppendStream s P)
                (if decide (s = InvalidStreamID) then ids
                 else <[s := Z.of_nat (length pre) + sectionSize]> ids)
                (if decide (s = InvalidStreamID) then m else <[s := P]> m)
                fuel) as (ids' & Hrd & Hin').
    + exact Hpl'.
    + destruct (decide (s = InvalidStreamID)).
      * apply indexed_skip, Hin.
      * apply indexed_record; [lia | exact Hne | exact Hin].
    + rewrite !length_app. lia.
    + cbn [length] in Hfuel. lia.
    + exists ids'. rewrite <- app_assoc in Hin'. split; [exact Hrd | exact Hin'].
Qed.

(** Reading a stream through an index that points to its packets. *)
Lemma ReadStream_indexed (r : Reader) (m : gmap N (list IndexData)) (s : N) :
  indexed (rfile r) (containedStreamIds r) m ->
  Z.of_nat (length (rfile r)) < 2 ^ 63 ->
  ReadStream r s
  = match m !! s with
    | Some P => Ok P
    | None => Err (notFound s (filename r))
    end.
Proof.
  intros Hin Hlen. specialize (Hin s). unfold ReadStream.
  assert (H64 : 2 ^ 64 = 18446744073709551616) by reflexivity.
  assert (H63 : 2 ^ 63 = 9223372036854775808) by reflexivity.
  destruct (m !! s) as [P |]; [| rewrite Hin; reflexivity].
  destruct Hin as (Hne & p & tail & -> & Hp & Hd).
  rewrite toInt_small by lia.
  destruct (p <? 0) eqn:E; [apply Z.ltb_lt in E; lia |].
  rewrite Hd.
  assert (Hbody : Z.of_nat (length (bodyOf P)) < 2 ^ 63).
  { assert (length (drop (Z.to_nat p) (rfile r)) <= length (rfile r))%nat
      by (rewrite length_drop; lia).
    rewrite Hd, length_app in H. lia. }
  pose proof (length_bodyOf P) as Hb.
  pose proof (totalOf_nonneg DirectionClientToServer P) as HnC.
  pose proof (totalOf_nonneg DirectionServerToClient P) as HnS.
  assert (Htot : totalBytes P < 2 ^ 63) by lia.
  unfold bodyOf at 2. rewrite <- !app_assoc. cbn [app].
  rewrite (readSizes_encSizes P DirectionClientToServer);
    [| exact Hne | exact Htot
     | unfold bodyOf; rewrite ?length_app; cbn [length]; rewrite ?length_app; lia
     | lia | lia
     | unfold totalBytes in Htot; lia | unfold totalBytes in Htot; lia].
  rewrite !Z.add_0_l. unfold totalOf at 1. rewrite readFull_app.
  unfold totalOf at 1. rewrite readFull_app.
  cbn [app]. rewrite splitChunks_whole by exact Hne. reflexivity.
Qed.

Lemma appendAll_snoc (filter : Filter) (ops : list (N * list IndexData))
    (op : N * list IndexData) :
  appendAll filter (ops ++ [op]) = appendStream (appendAll filter ops) op.1 op.2.
Proof. unfold appendAll. rewrite foldl_app. reflexivity. Qed.

Lemma appendAll_fields (ops : list (N * list IndexData)) (filter : Filter) :
  CachePath (appendAll filter ops) = CachePath filter
  /\ availableStreams (appendAll filter ops)
     = availableStreams filter ∪ list_to_set ops.*1
  /\ fidx (appendAll filter ops)
     = match ops with
       | [] => fidx filter
       | _ => Some (default [] (fidx filter) ++ records ops)
       end.
Proof.
  induction ops as [| op ops IH] using rev_ind.
  - cbn. split; [reflexivity |]. split; [| reflexivity].
    rewrite union_empty_r_L. reflexivity.
  - destruct IH as (Hp & Ha & Hf). rewrite appendAll_snoc.
    cbn [appendStream CachePath availableStreams fidx].
    split; [exact Hp |]. split.
    + rewrite Ha, fmap_app, list_to_set_app_L. cbn.
      rewrite union_empty_r_L, (assoc_L (∪)). reflexivity.
    + rewrite Hf. unfold records. rewrite map_app, concat_app. cbn [map concat].
      rewrite app_nil_r.
      destruct ops as [| o ops'].
      * reflexivity.
      * change ((o :: ops') ++ [op]) with (o :: (ops' ++ [op])). cbv iota.
        change (default [] (Some ?x)) with x.
        rewrite <- app_assoc. reflexivity.
Qed.

Lemma indexed_empty : indexed [] ∅ ∅.
Proof. intros s. rewrite lookup_empty. apply lookup_empty. Qed.

(** The index [NewReader] builds over a file of appended records. *)
Lemma NewReader_records (name : string) (ops : list (N * list IndexData)) :
  plain ops -> Z.of_nat (length (records ops)) < 2 ^ 63 ->
  exists r,
    NewReader name (records ops) = Ok r
    /\ filename r = name /\ rfile r = records ops
    /\ indexed (records ops) (containedStreamIds r) (readable ∅ ops).
Proof.
  intros Hpl Hlen.
  destruct (readSections_all ops [] ∅ ∅ (S (length (records ops))) Hpl
              indexed_empty Hlen) as (ids & Hrd & Hin).
  { assert (length ops <= length (records ops))%nat; [| lia].
    clear. induction ops as [| [s P] ops IH]; [cbn; lia |].
    unfold records in *. cbn [map concat length fst snd]. rewrite length_app.
    pose proof (AppendStream_longer s P). lia. }
  cbn [length app] in Hrd, Hin. unfold NewReader.
  change (Z.of_nat 0) with 0 in Hrd. rewrite Hrd.
  eexists. split; [reflexivity |]. cbn. done.
Qed.

(** X7: the filter cache as a map.  After any sequence of [appendStream] calls
    on a filter without a cache file, with packets that are not empty and a
    file shorter than 2^63 bytes, [HasStream] holds exactly for the streams
    that were appended, and [Data] returns the packets appended last for
    the stream.  The stream id [InvalidStreamID] is the exception: it is
    appended and reported by [HasStream], but [Data] does not find it. *)
Theorem Filter_Data_appendAll (path : string)
    (ops : list (N * list IndexData)) (s : N) :
  plain ops -> Z.of_nat (length (records ops)) < 2 ^ 63 ->
  let filter := appendAll (newFilter path) ops in
  HasStream filter s = bool_decide (s ∈ ops.*1)
  /\ Filter_Data filter s
     = match ops, readable ∅ ops !! s with
       | [], _ => Err errNotExist
       | _, Some P => Ok P
       | _, None => Err (notFound s path)
       end.
Proof.
  intros Hpl Hlen. cbv zeta.
  destruct (appendAll_fields ops (newFilter path)) as (Hp & Ha & Hf).
  cbn [newFilter CachePath availableStreams fidx default app] in Hp, Ha, Hf.
  split.
  - unfold HasStream. rewrite Ha, union_empty_l_L. apply bool_decide_ext.
    apply elem_of_list_to_set.
  - unfold Filter_Data. rewrite Hf, Hp.
    destruct ops as [| op ops']; [reflexivity |].
    destruct (NewReader_records path (op :: ops') Hpl Hlen)
      as (r & -> & Hn & Hfile & Hin).
    rewrite <- Hfile in Hin, Hlen.
    rewrite (ReadStream_indexed r _ s Hin Hlen), Hn. reflexivity.
Qed.

(** *** Streams *)

Lemma Streams_loop (order : list N) :
  forall keys : list N,
    foldl (fun keys k => <[0%nat := k]> keys) keys order
    = match last order with
      | None => keys
      | Some k => <[0%nat := k]> keys
      end.
Proof.
  induction order as [| k order IH] using rev_ind; intros keys; [reflexivity |].
  rewrite foldl_app, last_snoc. cbn [foldl]. rewrite IH.
  destruct (last order); [| reflexivity].
  destruct keys; reflexivity.
Qed.

Lemma Streams_spec (r : Reader) (order : list N) :
  order ≡ₚ (map_to_list (containedStreamIds r)).*1 ->
  Streams r order
  = match last order with
    | None => []
    | Some k => k :: replicate (length order - 1) 0%N
    end.
Proof.
  intros Hperm. unfold Streams. rewrite Streams_loop.
  assert (Hlen : base.size (containedStreamIds r) = length order).
  { rewrite (Permutation_length Hperm), length_fmap.
    symmetry. apply length_map_to_list. }
  rewrite Hlen.
  destruct order as [| k order] using rev_ind; [reflexivity |].
  rewrite last_snoc, length_app. cbn [length].
  replace (length order + 1)%nat with (S (length order)) by lia.
  cbn [replicate]. replace (S (length order) - 1)%nat with (length order) by lia.
  reflexivity.
Qed.

Lemma available_loop (l : list N) :
  forall bm : gset N,
    foldl (fun bm streamID => bm ∪ {[streamID]}) bm l = bm ∪ list_to_set l.
Proof.
  induction l as [| x l IH]; intros bm; cbn [foldl list_to_set].
  - rewrite union_empty_r_L. reflexivity.
  - rewrite IH, (assoc_L (∪)). reflexivity.
Qed.

(** X8: a filter that starts on an existing cache file learns of one stream
    only.  [Reader.Streams] stores every key at index 0 of its result, so
    of the streams in the file [NewFilter] marks as available the one the
    map iteration visits last and, when the file holds two streams or
    more, stream 0, whether it is in the file or not. *)
Theorem NewFilter_available (path : string) (bytes : list Z) (r : Reader)
    (order : list N) (s : N) :
  NewReader path bytes = Ok r ->
  order ≡ₚ (map_to_list (containedStreamIds r)).*1 ->
  exists filter,
    NewFilter path (Some bytes) order = Ok filter
    /\ (HasStream filter s = true
        <-> last order = Some s \/ ((2 <= length order)%nat /\ s = 0%N)).
Proof.
  intros Hr Hperm. unfold NewFilter. rewrite Hr. eexists. split; [reflexivity |].
  unfold HasStream. cbn [availableStreams].
  rewrite bool_decide_eq_true, available_loop, union_empty_l_L.
  rewrite (Streams_spec r order Hperm), elem_of_list_to_set.
  destruct (last order) as [k |] eqn:El.
  - rewrite elem_of_cons, elem_of_replicate. split.
    + intros [-> | [-> Hn]]; [left; reflexivity | right; split; [lia | reflexivity]].
    + intros [[= ->] | [Hn ->]]; [left; reflexivity | right; split; [reflexivity | lia]].
  - apply last_None in El. subst order. cbn. split.
    + intros H. inversion H.
    + intros [H | [H _]]; [discriminate | lia].
Qed.

(** ** Scenarios *)

Import MoreExamples FilterExamples.

Lemma plain_threeStores : plain threeStores.
Proof.
  unfold threeStores, plain.
  repeat (constructor;
          [split; [reflexivity | repeat constructor; discriminate] |]).
  constructor.
Qed.

(** Stream 1 was appended twice: the second packets are returned. *)
Lemma Filter_Data_appendAll_witness :
  HasStream (appendAll (newFilter "f.fidx") threeStores) 1 = true
  /\ Filter_Data (appendAll (newFilter "f.fidx") threeStores) 1
     = Ok [mkData c2s [97]].
Proof.
  assert (Hlen : Z.of_nat (length (records threeStores)) < 2 ^ 63)
    by reflexivity.
  exact (Filter_Data_appendAll "f.fidx" threeStores 1 plain_threeStores Hlen).
Defined.

(** The file holds the streams 1 and 2; visited in this order, stream 2
    and stream 0 become available, stream 1 does not. *)
Lemma NewFilter_available_witness :
  exists filter,
    NewFilter "f.fidx" (Some twoStreams) [1%N; 2%N] = Ok filter
    /\ HasStream filter 1 = false
    /\ HasStream filter 2 = true
    /\ HasStream filter 0 = true.
Proof.
  assert (Hr : NewReader "f.fidx" twoStreams = Ok twoStreamsReader)
    by reflexivity.
  assert (Hperm : [1%N; 2%N]
                  ≡ₚ (map_to_list (containedStreamIds twoStreamsReader)).*1).
  { vm_compute. first [reflexivity | apply perm_swap]. }
  destruct (NewFilter_available "f.fidx" twoStreams twoStreamsReader
              [1%N; 2%N] 1 Hr Hperm) as (filter & Hf & H1).
  exists filter. split; [exact Hf |].
  assert (Hv : Ok filter = NewFilter "f.fidx" (Some twoStreams) [1%N; 2%N])
    by (symmetry; exact Hf).
  vm_compute in Hv. inversion Hv; subst filter.
  repeat split; reflexivity.
Defined.

End FiltersTheory.

(** * More theory of the manager *)

Module ManagerMore.

Import Manager ManagerTheory.

Section DelTagTheory.
Context `{QP : QueryPackage}.

Lemma detachConverterFromTag_others (tagName converter : string) (mgr : Manager) :
  delete tagName (tags (detachConverterFromTag tagName converter mgr))
  = delete tagName (tags mgr)
  /\ (is_Some (tags (detachConverterFromTag tagName converter mgr) !! tagName)
      <-> is_Some (tags mgr !! tagName)).
Proof.
  unfold detachConverterFromTag.
  destruct (tags mgr !! tagName) as [t |] eqn:E; [| rewrite E; done].
  match goal with
  | |- context [if ?c then _ else _] => destruct c
  end; destruct mgr; cbn in *;
    (split; [apply delete_insert_eq | rewrite lookup_insert_eq; split; eauto]).
Qed.

Lemma detachLoop_others (fuel : nat) (name : string) (keep : list string) :
  forall arr len i mgr,
    delete name (tags (detachLoop fuel name keep arr len i mgr))
    = delete name (tags mgr).
Proof.
  induction fuel as [| fuel IH]; intros arr len i mgr; cbn [detachLoop];
    [reflexivity |].
  destruct (arr !! i) as [converter |]; [| reflexivity].
  destruct (inList converter keep); [apply IH |].
  rewrite IH. apply detachConverterFromTag_others.
Qed.

Lemma find_reference_spec (tgs : gmap string tag) (name : string)
    (order : list string) :
  visitsAll tgs order ->
  List.find (fun t2name =>
               match tgs !! t2name with
               | Some t2 => inList name (referencedTags t2)
               | None => false
               end) order = None
  <-> forall n t, tgs !! n = Some t -> name ∉ referencedTags t.
Proof.
  intros Hvis. split.
  - intros Hf n t Hn Hin.
    assert (Ho : n ∈ order) by (apply Hvis; eauto).
    apply list_elem_of_In in Ho.
    pose proof (find_none _ _ Hf n Ho) as Hb. cbn in Hb. rewrite Hn in Hb.
    apply inList_spec in Hin. congruence.
  - intros H. destruct (List.find _ order) as [x |] eqn:E; [| reflexivity].
    apply find_some in E as [_ Hb].
    destruct (tgs !! x) as [t |] eqn:Ex; [| discriminate].
    apply inList_spec in Hb. exfalso. exact (H x t Ex Hb).
Qed.

Lemma DelTag_cases (order : list string) (name : string) (mgr : Manager) :
  visitsAll (tags mgr) order ->
  ((DelTag order name mgr).2 = None
   <-> is_Some (tags mgr !! name)
       /\ forall n t, tags mgr !! n = Some t -> name ∉ referencedTags t)
  /\ ((DelTag order name mgr).2 <> None -> (DelTag order name mgr).1 = mgr)
  /\ ((DelTag order name mgr).2 = None ->
      tags (DelTag order name mgr).1 = delete name (tags mgr)).
Proof.
  intros Hvis. pose proof (find_reference_spec (tags mgr) name order Hvis) as Hf.
  unfold DelTag.
  destruct (tags mgr !! name) as [t |] eqn:Et.
  - destruct (List.find _ order) as [x |] eqn:E; cbn [fst snd].
    + split; [| split; [reflexivity | discriminate]].
      split; [discriminate |]. intros [_ H]. apply Hf in H. discriminate.
    + split; [| split; [congruence |]].
      * split; [| reflexivity]. intros _. split; [eauto |]. apply Hf. reflexivity.
      * intros _.
        match goal with
        | |- tags (set_tags ?m ?g) = _ =>
            replace (tags (set_tags m g)) with m by (destruct g; reflexivity)
        end.
        apply detachLoop_others.
  - cbn [fst snd]. split; [| split; [reflexivity | discriminate]].
    split; [discriminate |]. intros [[? H] _]. discriminate.
Qed.

(** X9: [DelTag] deletes a tag exactly when it exists and no tag refers to it.
    A refused call leaves the manager as it was; a successful one removes
    the tag from the map and leaves every other tag as it was. *)
Theorem DelTag_spec (order : list string) (name : string) (mgr : Manager) :
  visitsAll (tags mgr) order ->
  ((DelTag order name mgr).2 = None
   <-> is_Some (tags mgr !! name)
       /\ forall n t, tags mgr !! n = Some t -> name ∉ referencedTags t)
  /\ ((DelTag order name mgr).2 <> None -> (DelTag order name mgr).1 = mgr)
  /\ ((DelTag order name mgr).2 = None ->
      tags (DelTag order name mgr).1 = delete name (tags mgr)).
Proof. apply DelTag_cases. Qed.

End DelTagTheory.

Section ViewPool.
Context `{QP : QueryPackage}.

Lemma noZero_eq (m1 m2 : gmap N Z) :
  noZero m1 -> noZero m2 -> (forall i, cnt m1 i = cnt m2 i) -> m1 = m2.
Proof.
  intros H1 H2 Hc. apply map_eq. intros i. specialize (Hc i).
  unfold cnt in Hc. specialize (H1 i). specialize (H2 i).
  destruct (m1 !! i) as [a |], (m2 !! i) as [b |]; cbn in Hc; congruence.
Qed.

Lemma occ_pos_elem (i : N) (l : list Reader) :
  0 < occ i l -> exists r, r ∈ l /\ rid r = i.
Proof.
  induction l as [| r l IH]; cbn [occ]; [lia |].
  destruct (decide (rid r = i)) as [E | E].
  - intros _. exists r. split; [left | exact E].
  - intros H. destruct IH as (r' & Hr & Hi); [lia |].
    exists r'. split; [right; exact Hr | exact Hi].
Qed.

(** Locking a list of readers and releasing it again. *)
Lemma release_lock (l : list Reader) (mgr : Manager) :
  noZero (usedIndexes mgr) ->
  (forall i, 0 <= cnt (usedIndexes mgr) i) ->
  (forall i, cnt (usedIndexes mgr) i + occ i l < 2 ^ 64) ->
  (forall idx, idx ∈ l -> 1 <= cnt (usedIndexes mgr) (rid idx)) ->
  release l (lock l mgr).1 = mgr.
Proof.
  intros Hz Hpos Hb Hown.
  destruct (lock_counts l (usedIndexes mgr) Hz Hpos Hb) as [Hz1 Hc1].
  destruct (release_counts l (foldl lock1 (usedIndexes mgr) l) (removed mgr) Hz1)
    as (newly & Hrm & _ & Hnew & Hz2 & Hc2).
  { intros i. rewrite Hc1. specialize (Hpos i). specialize (Hb i). lia. }
  assert (Hnil : newly = []).
  { destruct newly as [| i newly']; [reflexivity |]. exfalso.
    assert (Hi : i ∈ i :: newly') by left.
    apply Hnew in Hi as [Ho Hc]. rewrite Hc1 in Hc.
    destruct (occ_pos_elem i l Ho) as (r & Hr & <-).
    specialize (Hown r Hr). lia. }
  subst newly. cbn [app] in Hrm.
  assert (Hmap : (foldl release1 (foldl lock1 (usedIndexes mgr) l, removed mgr) l).1
                 = usedIndexes mgr).
  { apply noZero_eq; [exact Hz2 | exact Hz |].
    intros i. rewrite Hc2, Hc1. lia. }
  unfold release, lock. cbn [fst snd].
  replace (usedIndexes (set_usedIndexes (foldl lock1 (usedIndexes mgr) l) mgr))
    with (foldl lock1 (usedIndexes mgr) l) by (destruct mgr; reflexivity).
  replace (removed (set_usedIndexes (foldl lock1 (usedIndexes mgr) l) mgr))
    with (removed mgr) by (destruct mgr; reflexivity).
  rewrite Hrm, Hmap. destruct mgr; reflexivity.
Qed.

(** X11: a view that is fetched and released leaves the manager as it found
    it.  When the manager holds a lock of its own on each of its indexes
    and no counter overflows, [fetch] on a new view takes all indexes and
    counts one more lock on each, and [Release] gives the manager back
    unchanged: the counters are as before and no index file is removed. *)
Theorem fetch_Release (mgr : Manager) :
  noZero (usedIndexes mgr) ->
  (forall i, 0 <= cnt (usedIndexes mgr) i) ->
  (forall i, cnt (usedIndexes mgr) i + occ i (indexes mgr) < 2 ^ 64) ->
  (forall idx, idx ∈ indexes mgr -> 1 <= cnt (usedIndexes mgr) (rid idx)) ->
  vIndexes (fetch GetView mgr).2 = indexes mgr
  /\ (forall i, cnt (usedIndexes (fetch GetView mgr).1) i
                = cnt (usedIndexes mgr) i + occ i (indexes mgr))
  /\ View_Release (fetch GetView mgr).2 (fetch GetView mgr).1 = mgr.
Proof.
  intros Hz Hpos Hb Hown.
  destruct (lock_counts (indexes mgr) (usedIndexes mgr) Hz Hpos Hb) as [_ Hc1].
  assert (Hf : fetch GetView mgr
               = ((lock (indexes mgr) mgr).1,
                  {| vIndexes := indexes mgr; vReleaser := indexes mgr;
                     vTagDetails := detailsOf <$> tags mgr;
                     vConverters := converters mgr |})).
  { unfold fetch, GetView, getIndexesCopy. cbn [vIndexes length Nat.eqb negb].
    change (Z.to_nat 0) with 0%nat. rewrite drop_0. unfold lock.
    destruct mgr; reflexivity. }
  rewrite Hf. cbn [fst snd vIndexes]. split; [reflexivity |]. split.
  - intros i. rewrite <- Hc1. destruct mgr; reflexivity.
  - unfold View_Release. cbn [vReleaser].
    destruct (indexes mgr) as [| idx idxs] eqn:Ei.
    + cbn [length Nat.eqb negb]. unfold lock. cbn [foldl fst].
      destruct mgr; reflexivity.
    + cbn [length Nat.eqb negb]. rewrite <- Ei in *.
      apply release_lock; assumption.
Qed.

End ViewPool.

Section GraphInvariant.
Context `{QP : QueryPackage}.

Lemma sameShape_refl (tgs : gmap string tag) : sameShape tgs tgs.
Proof. intros n. destruct (tgs !! n); done. Qed.

Lemma sameShape_trans (a b c : gmap string tag) :
  sameShape a b -> sameShape b c -> sameShape a c.
Proof.
  intros H1 H2 n. specialize (H1 n). specialize (H2 n).
  destruct (a !! n), (b !! n), (c !! n); try done.
  destruct H1 as [R1 M1], H2 as [R2 M2]. split; [congruence |].
  intros Hm. destruct (M1 Hm), (M2 Hm). split; congruence.
Qed.

Lemma sameShape_insert (tgs : gmap string tag) (name : string) (t t' : tag) :
  tgs !! name = Some t ->
  referencedTags t' = referencedTags t ->
  (isMarkName name = false ->
   definition t' = definition t /\ features t' = features t) ->
  sameShape tgs (<[name := t']> tgs).
Proof.
  intros Hn Hr Hm n. rewrite lookup_insert.
  destruct (decide (name = n)) as [<- | Hne].
  - rewrite Hn. done.
  - destruct (tgs !! n); done.
Qed.

Lemma sameShape_fmap (f : tag -> tag) (tgs : gmap string tag) :
  (forall t, features (f t) = features t /\ definition (f t) = definition t) ->
  sameShape tgs (f <$> tgs).
Proof.
  intros Hf n. rewrite lookup_fmap. destruct (tgs !! n) as [t |]; cbn; [| done].
  destruct (Hf t) as [H1 H2]. unfold referencedTags. rewrite H1. done.
Qed.

Lemma sameShape_known (a b : gmap string tag) :
  sameShape a b -> referencesKnown a -> referencesKnown b.
Proof.
  intros Hs Hk n t r Hn Hr. pose proof (Hs n) as H1. rewrite Hn in H1.
  destruct (a !! n) as [t0 |] eqn:E; [| done]. destruct H1 as [Hrefs _].
  rewrite Hrefs in Hr. destruct (Hk n t0 r E Hr) as [x Hx].
  pose proof (Hs r) as H2. rewrite Hx in H2.
  destruct (b !! r); [eauto | done].
Qed.

Lemma sameShape_ranked (rank : string -> nat) (a b : gmap string tag) :
  sameShape a b -> ranked rank a -> ranked rank b.
Proof.
  intros Hs Hk n t r Hn Hr. pose proof (Hs n) as H1. rewrite Hn in H1.
  destruct (a !! n) as [t0 |] eqn:E; [| done]. destruct H1 as [Hrefs _].
  rewrite Hrefs in Hr. exact (Hk n t0 r E Hr).
Qed.

Lemma sameShape_parsed (a b : gmap string tag) :
  sameShape a b -> tagsParsed a -> tagsParsed b.
Proof.
  intros Hs Hp n t Hn Hm. pose proof (Hs n) as H1. rewrite Hn in H1.
  destruct (a !! n) as [t0 |] eqn:E; [| done]. destruct H1 as [_ H1].
  destruct (H1 Hm) as [Hd Hf]. destruct (Hp n t0 E Hm) as (q & Hq & Hfq).
  exists q. split; congruence.
Qed.

Lemma calm_refl (mgr : Manager) : calm mgr mgr.
Proof. split; [apply sameShape_refl | done]. Qed.

Lemma calm_trans (a b c : Manager) : calm a b -> calm b c -> calm a c.
Proof.
  intros [S1 J1] [S2 J2]. split; [eapply sameShape_trans; eassumption |].
  intros Hp Hj. apply J2; [eapply sameShape_parsed; eassumption | auto].
Qed.

Lemma calm_ext (mgr mgr' : Manager) :
  tags mgr' = tags mgr -> started mgr' = started mgr -> calm mgr mgr'.
Proof.
  intros Ht Hs. split; [rewrite Ht; apply sameShape_refl |].
  rewrite Hs. done.
Qed.

Lemma calm_set_tags (mgr : Manager) (tgs : gmap string tag) :
  sameShape (tags mgr) tgs -> calm mgr (set_tags tgs mgr).
Proof.
  intros Hs. split; [destruct mgr; exact Hs |]. destruct mgr; done.
Qed.

Lemma jobsParsed_cons (j : Job) (jobs : list Job) :
  jobsParsed jobs ->
  (forall n t d c i r, j = updateTagJob n t d c i r -> parsedTag n t) ->
  jobsParsed (j :: jobs).
Proof.
  intros Hj Hnew n t d c i r Hin. apply elem_of_cons in Hin as [Heq | Hin].
  - eapply Hnew. symmetry. exact Heq.
  - eapply Hj. exact Hin.
Qed.

Lemma calm_startTagging (order : list string) (mgr : Manager) :
  calm mgr (startTaggingJobIfNeeded order mgr).
Proof.
  unfold startTaggingJobIfNeeded.
  destruct (taggingJobRunning mgr); [apply calm_refl |].
  destruct (pickTag order (tags mgr)) as [[n t] |] eqn:E; [| apply calm_refl].
  apply pickTag_lookup in E.
  split; [destruct mgr; apply sameShape_refl |].
  intros Hp Hj. destruct mgr; cbn in *.
  apply jobsParsed_cons; [exact Hj |].
  intros n' t' d c i r Heq. inversion Heq; subst. exact (Hp n' t' E).
Qed.

Lemma calm_startMerge (mgr : Manager) : calm mgr (startMergeJobIfNeeded mgr).
Proof.
  unfold startMergeJobIfNeeded.
  destruct (mergeJobRunning mgr || taggingJobRunning mgr); [apply calm_refl |].
  destruct (anyUncertain (tags mgr)); [apply calm_refl |].
  destruct (findMerge _ _ _ _); [| apply calm_refl].
  split; [destruct mgr; apply sameShape_refl |].
  intros Hp Hj. destruct mgr; cbn in *.
  apply jobsParsed_cons; [exact Hj |]. intros; discriminate.
Qed.

Lemma calm_startConverter (order : list string) (mgr : Manager) :
  calm mgr (startConverterJobIfNeeded order mgr).
Proof.
  unfold startConverterJobIfNeeded.
  destruct (converterJobRunning mgr); [apply calm_refl |].
  destruct (pickConverter order mgr); [| apply calm_refl].
  split; [destruct mgr; apply sameShape_refl |].
  intros Hp Hj. destruct mgr; cbn in *.
  apply jobsParsed_cons; [exact Hj |]. intros; discriminate.
Qed.

Lemma calm_release (r : list Reader) (mgr : Manager) : calm mgr (release r mgr).
Proof. apply calm_ext; destruct mgr; reflexivity. Qed.

Lemma calm_detach (tagName converter : string) (mgr : Manager) :
  calm mgr (detachConverterFromTag tagName converter mgr).
Proof.
  unfold detachConverterFromTag.
  destruct (tags mgr !! tagName) as [t |] eqn:E; [| apply calm_refl].
  eapply calm_trans.
  - apply (calm_set_tags mgr
             (<[tagName := with_converters t
                             (removeFirst converter (converters_ t))]> (tags mgr))).
    apply (sameShape_insert _ _ t); done.
  - destruct (IsZero _); apply calm_ext; destruct mgr; reflexivity.
Qed.

Lemma calm_detachLoop (fuel : nat) :
  forall name keep arr len i mgr,
    calm mgr (detachLoop fuel name keep arr len i mgr).
Proof.
  induction fuel as [| fuel IH]; intros name keep arr len i mgr;
    cbn [detachLoop]; [apply calm_refl |].
  destruct (arr !! i) as [converter |]; [| apply calm_refl].
  destruct (inList converter keep); [apply IH |].
  eapply calm_trans; [apply calm_detach | apply IH].
Qed.

Lemma calm_attach (order : list string) (tagName converter : string)
    (mgr : Manager) :
  calm mgr (attachConverterToTag order tagName converter mgr).1.
Proof.
  unfold attachConverterToTag.
  destruct (tags mgr !! tagName) as [t |] eqn:E; [| apply calm_refl].
  destruct (hasConverter converter t); [apply calm_refl |].
  destruct (_ || _); [apply calm_refl |]. cbn [fst].
  eapply calm_trans; [| apply calm_startConverter].
  eapply calm_trans.
  - apply (calm_set_tags mgr
             (<[tagName := with_converters t (converters_ t ++ [converter])]>
                (tags mgr))).
    apply (sameShape_insert _ _ t); done.
  - apply calm_ext; destruct mgr; reflexivity.
Qed.

Lemma calm_attachLoop (order : list string) (name : string)
    (converterNames setNames : list string) :
  forall mgr, calm mgr (attachLoop order name converterNames setNames mgr).1.
Proof.
  induction setNames as [| c setNames IH]; intros mgr; cbn [attachLoop];
    [apply calm_refl |].
  destruct (inList c converterNames); [apply IH |].
  destruct (converters mgr !! c); [| apply calm_refl].
  pose proof (calm_attach order name c mgr) as H1.
  destruct (attachConverterToTag order name c mgr) as [mgr1 [e |]];
    [exact H1 |]. eapply calm_trans; [exact H1 | apply IH].
Qed.

Lemma inheritTag_shape (allS : gset N) (cur : gmap string tag) (ti : tag) :
  features (inheritTag allS cur ti) = features ti
  /\ definition (inheritTag allS cur ti) = definition ti.
Proof. unfold inheritTag. destruct (existsb _ _); done. Qed.

Lemma inheritPass_shape (allS : gset N) (order : list string) :
  forall resolved cur,
    sameShape cur (inheritPass allS order resolved cur).2.
Proof.
  induction order as [| tn order IH]; intros resolved cur; cbn [inheritPass];
    [apply sameShape_refl |].
  destruct (cur !! tn) as [ti |] eqn:Eti; [| apply IH].
  destruct (bool_decide (tn ∈ resolved)); [apply IH |].
  destruct (forallb _ (referencedTags ti)); [| apply IH].
  destruct (MainTags (features ti)) as [| m ms] eqn:EM,
           (SubQueryTags (features ti)) as [| s ss] eqn:ES; [apply IH | | |];
    (eapply sameShape_trans; [| apply IH];
     destruct (inheritTag_shape allS cur ti) as [Hf Hd];
     apply (sameShape_insert _ _ ti);
     [exact Eti | unfold referencedTags; rewrite Hf; reflexivity | done]).
Qed.

Lemma inheritLoop_shape (allS : gset N) (orders : list (list string)) :
  forall resolved cur final,
    inheritLoop allS orders resolved cur = Some final -> sameShape cur final.
Proof.
  induction orders as [| order orders IH]; intros resolved cur final H;
    cbn [inheritLoop] in H.
  - destruct (size resolved =? size cur)%nat; [| discriminate].
    inversion H; subst. apply sameShape_refl.
  - destruct (size resolved =? size cur)%nat.
    + inversion H; subst. apply sameShape_refl.
    + eapply sameShape_trans; [apply inheritPass_shape | eapply IH, H].
Qed.

Lemma calm_inherit (orders : list (list string)) (mgr mgr' : Manager) :
  inheritTagUncertainty orders mgr = Some mgr' -> calm mgr mgr'.
Proof.
  unfold inheritTagUncertainty. intros H.
  destruct (inheritLoop _ orders ∅ (tags mgr)) as [final |] eqn:E;
    [| discriminate].
  inversion H; subst. apply calm_set_tags. eapply inheritLoop_shape, E.
Qed.

Lemma invalidateTag_shape (allS updated added : gset N) (t : tag) :
  features (invalidateTag allS updated added t) = features t
  /\ definition (invalidateTag allS updated added t) = definition t.
Proof.
  unfold invalidateTag. destruct (negb _); [done |].
  destruct (_ =? 0); done.
Qed.

Lemma calm_invalidate (orders : list (list string)) (updated added : gset N)
    (mgr mgr' : Manager) :
  invalidateTags orders updated added mgr = Some mgr' -> calm mgr mgr'.
Proof.
  unfold invalidateTags. intros H.
  eapply calm_trans; [| eapply calm_inherit, H].
  apply calm_set_tags, sameShape_fmap. intros t. apply invalidateTag_shape.
Qed.

Lemma foldl_mark_shape (f : tag -> N -> tag) (l : list N) :
  (forall t s, features (f t s) = features t) ->
  forall t, referencedTags (foldl f t l) = referencedTags t.
Proof.
  intros Hf t. unfold referencedTags.
  rewrite (foldl_mark_features f l Hf). reflexivity.
Qed.

Lemma calm_UpdateTag (passes : list (list string))
    (tagOrder convOrder : list string) (name : string)
    (info : updateTagOperationInfo) (mgr : Manager)
    (r : Manager * option error) :
  UpdateTag passes tagOrder convOrder name info mgr = Some r -> calm mgr r.1.
Proof.
  unfold UpdateTag. intros H.
  set (marking := negb _) in H. clearbody marking.
  destruct (marking && negb (isMarkName name)) eqn:Emn;
    [inversion H; apply calm_refl |].
  destruct (marking && (_ =? 0)%N); [inversion H; apply calm_refl |].
  destruct (tags mgr !! name) as [t |] eqn:Et; [| inversion H; apply calm_refl].
  set (mgr1 := if negb (String.eqb (infoColor info) EmptyString)
               then set_tags (<[name := with_color t (infoColor info)]> (tags mgr)) mgr
               else mgr) in H.
  assert (H1 : calm mgr mgr1).
  { unfold mgr1.
    destruct (negb (String.eqb (infoColor info) EmptyString)); [| apply calm_refl].
    apply calm_set_tags, (sameShape_insert _ _ t); done. }
  clearbody mgr1.
  match type of H with
  | (let '(m, e) := ?x in _) = _ =>
      assert (H2 : calm mgr1 x.1); [| destruct x as [mgr2 err]]
  end.
  { destruct (convertersUpdated info); [| apply calm_refl].
    eapply calm_trans; [apply calm_detachLoop | apply calm_attachLoop]. }
  cbn [fst] in H2.
  assert (H12 : calm mgr mgr2) by (eapply calm_trans; eassumption).
  clear H1 H2.
  destruct err as [e |]; [inversion H; exact H12 |].
  destruct (negb (_ =? 0)%N) eqn:Emax; [| inversion H; exact H12].
  assert (Hmark : isMarkName name = true).
  { destruct marking; [| discriminate Emax].
    cbn [andb] in Emn. apply negb_false_iff in Emn. exact Emn. }
  destruct (nextStreamID mgr2 <=? _)%N; [inversion H; exact H12 |].
  destruct (tags mgr2 !! name) as [t2 |] eqn:Et2; [| inversion H; exact H12].
  match type of H with
  | context [inheritTagUncertainty passes ?m] =>
      destruct (inheritTagUncertainty passes m) as [mgr3 |] eqn:Einh;
      [| discriminate];
      pose proof (calm_inherit passes m mgr3 Einh) as H3
  end.
  inversion H; subst r; clear H. cbn [fst].
  eapply calm_trans; [exact H12 |].
  eapply calm_trans; [| apply calm_startTagging].
  eapply calm_trans; [| eapply calm_trans; [exact H3 |]].
  - apply calm_set_tags, (sameShape_insert _ _ t2); [exact Et2 | | congruence].
    match goal with
    | |- referencedTags (match ?p with Ok _ => _ | Err _ => _ end) = _ =>
        destruct p
    end; unfold referencedTags; cbn [features with_definition];
      rewrite !foldl_mark_features by reflexivity; reflexivity.
  - apply calm_set_tags. intros n. rewrite lookup_alter.
    destruct (decide (name = n)) as [<- | Hne].
    + destruct (tags mgr3 !! name); cbn; done.
    + destruct (tags mgr3 !! n); done.
Qed.

Lemma calm_mergeDone offset inputs releaser merged failed (mgr : Manager) :
  calm mgr (mergeIndexesJob_done offset inputs releaser merged failed mgr).
Proof.
  unfold mergeIndexesJob_done.
  eapply calm_trans; [| apply calm_release].
  eapply calm_trans; [| apply calm_startMerge].
  apply calm_ext; unfold mergeIndexesJob_apply; destruct (_ || _);
    destruct mgr; reflexivity.
Qed.

Lemma calm_convertDone tagOrder convOrder converter streamIDs converted
    releaser (mgr : Manager) :
  calm mgr (convertStreamJob_done tagOrder convOrder converter streamIDs
              converted releaser mgr).
Proof.
  unfold convertStreamJob_done.
  assert (H0 : calm mgr (set_converterJobRunning false mgr))
    by (apply calm_ext; destruct mgr; reflexivity).
  set (mgr0 := set_converterJobRunning false mgr) in *. clearbody mgr0.
  eapply calm_trans; [exact H0 |].
  destruct (converters mgr0 !! converter).
  - eapply calm_trans; [| apply calm_release].
    eapply calm_trans; [| apply calm_startConverter].
    eapply calm_trans; [| apply calm_startTagging].
    set (mgr1 := if negb (IsZero streamIDs) then _ else mgr0).
    assert (H1 : calm mgr0 mgr1).
    { unfold mgr1. destruct (negb _); [| apply calm_refl].
      apply calm_ext; destruct mgr0; reflexivity. }
    clearbody mgr1. eapply calm_trans; [exact H1 |].
    apply calm_set_tags, sameShape_fmap. intros t.
    destruct (_ && _); done.
  - eapply calm_trans; [| apply calm_release].
    eapply calm_trans; [| apply calm_startConverter].
    apply calm_ext; destruct mgr0; reflexivity.
Qed.

Lemma calm_importDone passes tagOrder nextStreamID0 releaser processedFiles
    createdIndexes (mgr mgr' : Manager) :
  importPcapJob_done passes tagOrder nextStreamID0 releaser processedFiles
    createdIndexes mgr = Some mgr' ->
  calm mgr mgr'.
Proof.
  intros H. unfold importPcapJob_done in H.
  match type of H with
  | match ?a with Some _ => _ | None => _ end = _ =>
      assert (Ha : forall m, a = Some m -> calm mgr m);
      [| destruct a as [mgr1 |]; [| discriminate]]
  end.
  { intros m Hm.
    set (m0 := release releaser _) in Hm.
    assert (H0 : calm mgr m0).
    { unfold m0. eapply calm_trans; [| apply calm_release].
      apply calm_ext; destruct mgr; reflexivity. }
    clearbody m0. eapply calm_trans; [exact H0 |].
    destruct (0 <? length createdIndexes)%nat; [| inversion Hm; apply calm_refl].
    eapply calm_trans; [| eapply calm_invalidate, Hm].
    apply calm_ext; destruct m0; reflexivity. }
  pose proof (Ha mgr1 eq_refl) as H1.
  match type of H with
  | Some (startMergeJobIfNeeded (startTaggingJobIfNeeded _ ?X)) = _ =>
      assert (H3 : calm mgr1 X)
  end.
  { set (mgr2 := set_importJobs (drop processedFiles (importJobs mgr1)) mgr1).
    assert (H2 : calm mgr1 mgr2) by (apply calm_ext; destruct mgr1; reflexivity).
    clearbody mgr2. eapply calm_trans; [exact H2 |].
    destruct (1 <=? length (importJobs mgr2))%nat; [| apply calm_refl].
    split; [destruct mgr2; apply sameShape_refl |].
    intros Hp Hj. destruct mgr2; cbn in *.
    apply jobsParsed_cons; [exact Hj |]. intros; discriminate. }
  inversion H; subst mgr'; clear H.
  eapply calm_trans; [exact H1 |]. eapply calm_trans; [exact H3 |].
  eapply calm_trans; [apply calm_startTagging | apply calm_startMerge].
Qed.

(** A calm step keeps the references known and free of cycles. *)
Lemma calm_graph (mgr mgr' : Manager) :
  calm mgr mgr' ->
  referencesKnown (tags mgr) /\ acyclic (tags mgr)
  /\ tagsParsed (tags mgr) /\ jobsParsed (started mgr) ->
  referencesKnown (tags mgr') /\ acyclic (tags mgr')
  /\ tagsParsed (tags mgr') /\ jobsParsed (started mgr').
Proof.
  intros [Hs Hj] (Hk & [rank Hr] & Hp & Hjp).
  split; [eapply sameShape_known; eassumption |].
  split; [exists rank; eapply sameShape_ranked; eassumption |].
  split; [eapply sameShape_parsed; eassumption | auto].
Qed.

Lemma maxRank_ge (rank : string -> nat) (refs : list string) (r : string) :
  r ∈ refs -> (rank r <= maxRank rank refs)%nat.
Proof.
  induction refs as [| x refs IH]; intros Hin; [inversion Hin |].
  cbn [maxRank foldr]. fold (maxRank rank refs).
  apply elem_of_cons in Hin as [-> | Hin]; [lia |].
  specialize (IH Hin). lia.
Qed.

(** A new tag whose references are known, and which nothing refers to
    yet, extends the graph. *)
Lemma insert_graph (tgs : gmap string tag) (name : string) (nt : tag) :
  tgs !! name = None ->
  (forall r, r ∈ referencedTags nt -> is_Some (tgs !! r)) ->
  parsedTag name nt ->
  referencesKnown tgs /\ acyclic tgs /\ tagsParsed tgs ->
  referencesKnown (<[name := nt]> tgs) /\ acyclic (<[name := nt]> tgs)
  /\ tagsParsed (<[name := nt]> tgs).
Proof.
  intros Hnew Hrefs Hparsed (Hk & [rank Hr] & Hp).
  assert (Hne : forall r, is_Some (tgs !! r) -> r <> name).
  { intros r [x Hx] ->. congruence. }
  split; [| split].
  - intros n t r Hn Hin. rewrite lookup_insert_is_Some'. right.
    rewrite lookup_insert in Hn. destruct (decide (name = n)) as [<- | Hnn].
    + inversion Hn; subst t. apply Hrefs, Hin.
    + eapply Hk; eassumption.
  - exists (fun n => if String.eqb n name
                     then S (maxRank rank (referencedTags nt)) else rank n).
    intros n t r Hn Hin. rewrite lookup_insert in Hn.
    destruct (decide (name = n)) as [<- | Hnn].
    + inversion Hn; subst t.
      pose proof (Hne r (Hrefs r Hin)) as Hrn.
      apply String.eqb_neq in Hrn. rewrite Hrn, String.eqb_refl.
      pose proof (maxRank_ge rank _ r Hin). lia.
    + pose proof (Hne r (Hk n t r Hn Hin)) as Hrn.
      apply String.eqb_neq in Hrn. rewrite Hrn.
      assert (Hn' : String.eqb n name = false)
        by (apply String.eqb_neq; congruence).
      rewrite Hn'. eapply Hr; eassumption.
  - intros n t Hn. rewrite lookup_insert in Hn.
    destruct (decide (name = n)) as [<- | Hnn].
    + inversion Hn; subst t. exact Hparsed.
    + eapply Hp; eassumption.
Qed.

(** Removing a tag that nothing refers to keeps the graph. *)
Lemma delete_graph (tgs : gmap string tag) (name : string) :
  (forall n t, tgs !! n = Some t -> name ∉ referencedTags t) ->
  referencesKnown tgs /\ acyclic tgs /\ tagsParsed tgs ->
  referencesKnown (delete name tgs) /\ acyclic (delete name tgs)
  /\ tagsParsed (delete name tgs).
Proof.
  intros Hfree (Hk & [rank Hr] & Hp). split; [| split].
  - intros n t r Hn Hin. apply lookup_delete_Some in Hn as [Hnn Hn].
    rewrite lookup_delete_is_Some. split; [| eapply Hk; eassumption].
    intros <-. exact (Hfree n t Hn Hin).
  - exists rank. intros n t r Hn Hin. apply lookup_delete_Some in Hn as [_ Hn].
    eapply Hr; eassumption.
  - intros n t Hn. apply lookup_delete_Some in Hn as [_ Hn].
    eapply Hp; eassumption.
Qed.

Lemma AddTag_graph (order : list string) (name col queryString : string)
    (mgr : Manager) :
  referencesKnown (tags mgr) /\ acyclic (tags mgr)
  /\ tagsParsed (tags mgr) /\ jobsParsed (started mgr) ->
  let mgr' := (AddTag order name col queryString mgr).1 in
  referencesKnown (tags mgr') /\ acyclic (tags mgr')
  /\ tagsParsed (tags mgr') /\ jobsParsed (started mgr').
Proof.
  intros Hinv. cbv zeta. unfold AddTag.
  destruct (negb (_ || _ || _)); [exact Hinv |].
  destruct (String.eqb (afterSlash name) EmptyString); [exact Hinv |].
  destruct (Parse queryString) as [q | e] eqn:Eq; [| exact Hinv].
  destruct (negb (_ =? 0)); [exact Hinv |].
  destruct (qGrouping q); [exact Hinv |].
  destruct (inList name _); [exact Hinv |].
  destruct (isMarkName name && negb (StreamIDs (qConditions q) 0).2);
    [exact Hinv |].
  destruct (tags mgr !! name) eqn:Eold; [exact Hinv |].
  pose proof (find_unknown_spec (tags mgr)
                (referencedTags
                   {| Matches := ∅; Uncertain := ∅;
                      tagConditions := qConditions q;
                      definition := queryString;
                      features := Features (qConditions q);
                      color := col; converters_ := [] |})) as Hfind.
  destruct (List.find _ _); [exact Hinv |]. cbn [fst].
  destruct Hinv as (Hk & Ha & Hp & Hj).
  match goal with
  | |- context [set_tags (<[name := ?nt]> (tags mgr)) mgr] =>
      destruct (insert_graph (tags mgr) name nt Eold) as (Hk' & Ha' & Hp')
  end.
  { intros r Hr. apply Hfind. destruct (isMarkName name); exact Hr. }
  { intros _. exists q. destruct (isMarkName name); cbn; done. }
  { done. }
  match goal with
  | |- context [set_tags ?m mgr] => set (mgrA := set_tags m mgr) in *
  end.
  assert (HA : referencesKnown (tags mgrA) /\ acyclic (tags mgrA)
               /\ tagsParsed (tags mgrA) /\ jobsParsed (started mgrA)).
  { unfold mgrA. destruct mgr; cbn in *. done. }
  clearbody mgrA.
  destruct (isMarkName name); [exact HA |].
  eapply calm_graph; [apply calm_startTagging | exact HA].
Qed.

Lemma detachConverterFromTag_started (tagName converter : string)
    (mgr : Manager) :
  started (detachConverterFromTag tagName converter mgr) = started mgr.
Proof.
  unfold detachConverterFromTag. destruct (tags mgr !! tagName); [| reflexivity].
  destruct (IsZero _); destruct mgr; reflexivity.
Qed.

Lemma detachLoop_started (fuel : nat) :
  forall name keep arr len i mgr,
    started (detachLoop fuel name keep arr len i mgr) = started mgr.
Proof.
  induction fuel as [| fuel IH]; intros name keep arr len i mgr;
    cbn [detachLoop]; [reflexivity |].
  destruct (arr !! i) as [converter |]; [| reflexivity].
  destruct (inList converter keep); [apply IH |].
  rewrite IH. apply detachConverterFromTag_started.
Qed.

Lemma DelTag_started (order : list string) (name : string) (mgr : Manager) :
  started (DelTag order name mgr).1 = started mgr.
Proof.
  unfold DelTag. destruct (tags mgr !! name) as [t |]; [| reflexivity].
  destruct (List.find _ order); [reflexivity |]. cbn [fst].
  match goal with
  | |- started (set_tags ?m ?g) = _ =>
      replace (started (set_tags m g)) with (started g)
        by (destruct g; reflexivity)
  end.
  apply detachLoop_started.
Qed.

Lemma DelTag_graph (order : list string) (name : string) (mgr : Manager) :
  visitsAll (tags mgr) order ->
  referencesKnown (tags mgr) /\ acyclic (tags mgr)
  /\ tagsParsed (tags mgr) /\ jobsParsed (started mgr) ->
  let mgr' := (DelTag order name mgr).1 in
  referencesKnown (tags mgr') /\ acyclic (tags mgr')
  /\ tagsParsed (tags mgr') /\ jobsParsed (started mgr').
Proof.
  intros Hvis Hinv. cbv zeta.
  destruct (DelTag_cases order name mgr Hvis) as (Hiff & Herr & Hok).
  destruct ((DelTag order name mgr).2) as [e |] eqn:E.
  - rewrite Herr by discriminate. exact Hinv.
  - destruct Hiff as [Hiff _]. destruct (Hiff eq_refl) as [_ Hfree].
    rewrite (Hok eq_refl), DelTag_started.
    destruct Hinv as (Hk & Ha & Hp & Hj).
    destruct (delete_graph (tags mgr) name Hfree) as (Hk' & Ha' & Hp'); done.
Qed.

Hypothesis StreamIDs_idOnly :
  forall c, (StreamIDs c 0).2 = true -> idOnly (Features c).

Lemma calm_updateTagJob_done passes tagOrder convOrder name (t0 : tag) d c i
    releaser search (mgr mgr' : Manager) :
  updateTagJob name t0 d c i releaser ∈ started mgr ->
  updateTagJob_done passes tagOrder convOrder name
    (updateTagJob_result t0 search) releaser mgr = Some mgr' ->
  managerInv mgr -> tagsParsed (tags mgr) -> jobsParsed (started mgr) ->
  calm mgr mgr'.
Proof.
  intros Hjob H [Hmk Hjm] Hp Hjp. unfold updateTagJob_done in H.
  set (t := updateTagJob_result t0 search) in *.
  assert (Ht : features t = features t0 /\ definition t = definition t0).
  { unfold t, updateTagJob_result. destruct search; done. }
  destruct Ht as [Htf Htd].
  match type of H with
  | match ?a with Some _ => _ | None => _ end = _ =>
      assert (Ha : forall m, a = Some m -> calm mgr m);
      [| destruct a as [mgr1 |]; [| discriminate]]
  end.
  { intros m Hm. destruct (tags mgr !! name) as [ot |] eqn:Eot;
      [| inversion Hm; subst; apply calm_refl].
    destruct (String.eqb (definition ot) (definition t)) eqn:Edef;
      [| inversion Hm; subst; apply calm_refl].
    apply String.eqb_eq in Edef.
    assert (Hshape : sameShape (tags mgr) (<[name := t]> (tags mgr))).
    { apply (sameShape_insert _ _ ot); [exact Eot | |].
      - destruct (isMarkName name) eqn:Em.
        + destruct (Hmk name ot Eot Em) as [_ (_ & _ & M1 & S1)].
          pose proof (Hjm name t0 d c i releaser Hjob Em) as (_ & _ & M2 & S2).
          unfold referencedTags. rewrite Htf, M1, S1, M2, S2. reflexivity.
        + destruct (Hp name ot Eot Em) as (q1 & Hq1 & Hf1).
          destruct (Hjp name t0 d c i releaser Hjob Em) as (q2 & Hq2 & Hf2).
          unfold referencedTags. rewrite Htf, Hf1, Hf2.
          rewrite Edef, Htd, Hq2 in Hq1. inversion Hq1; subst. reflexivity.
      - intros Em. split; [congruence |].
        destruct (Hp name ot Eot Em) as (q1 & Hq1 & Hf1).
        destruct (Hjp name t0 d c i releaser Hjob Em) as (q2 & Hq2 & Hf2).
        rewrite Htf, Hf1, Hf2.
        rewrite Edef, Htd, Hq2 in Hq1. inversion Hq1; subst. reflexivity. }
    match type of Hm with
    | context [set_tags (<[name := t]> (tags ?m0)) ?m0] =>
        assert (H1 : calm mgr (set_tags (<[name := t]> (tags m0)) m0))
    end.
    { split; [destruct mgr; exact Hshape | destruct mgr; done]. }
    destruct (negb (_ && _)); [| inversion Hm; subst; exact H1].
    eapply calm_trans; [exact H1 | eapply calm_invalidate, Hm]. }
  inversion H; subst mgr'; clear H.
  eapply calm_trans; [exact (Ha mgr1 eq_refl) |].
  eapply calm_trans; [| apply calm_release].
  eapply calm_trans; [| apply calm_startConverter].
  eapply calm_trans; [| apply calm_startMerge].
  eapply calm_trans; [| apply calm_startTagging].
  apply calm_ext; destruct mgr1; reflexivity.
Qed.

Lemma apiStep_graphInv (mgr mgr' : Manager) :
  apiStep mgr mgr' -> graphInv mgr -> graphInv mgr'.
Proof.
  intros Hstep (Hm & Hg). destruct Hstep as [mgr mgr' Hstep | order name mgr Hvis].
  - split; [eapply (step_inv StreamIDs_idOnly); eassumption |].
    destruct Hstep.
    + apply AddTag_graph, Hg.
    + eapply calm_graph; [eapply calm_UpdateTag; eassumption | exact Hg].
    + eapply calm_graph; [eapply calm_invalidate; eassumption | exact Hg].
    + eapply calm_graph; [eapply calm_inherit; eassumption | exact Hg].
    + eapply calm_graph; [eapply calm_importDone; eassumption | exact Hg].
    + eapply calm_graph; [| exact Hg].
      destruct Hg as (_ & _ & Hp & Hj).
      eapply calm_updateTagJob_done; eassumption.
    + eapply calm_graph; [apply calm_convertDone | exact Hg].
    + eapply calm_graph; [apply calm_mergeDone | exact Hg].
  - split; [| apply DelTag_graph; assumption].
    destruct Hm as [Hmk Hj]. split.
    + destruct (DelTag_cases order name mgr Hvis) as (_ & Herr & Hok).
      destruct ((DelTag order name mgr).2) as [e |] eqn:E.
      * rewrite Herr by discriminate. exact Hmk.
      * rewrite (Hok eq_refl). intros n t Hn Hmark.
        apply lookup_delete_Some in Hn as [_ Hn]. exact (Hmk n t Hn Hmark).
    + rewrite DelTag_started. exact Hj.
Qed.

(** X10: the references between tags stay closed and free of cycles.  In every
    state the manager reaches from one in which the invariant holds, by
    [AddTag], [DelTag], [UpdateTag], the invalidation and inheritance of
    uncertainty and the completions of the four kinds of jobs, every tag a
    tag refers to is in the map and no chain of references leads back to
    its start.  So the loop of [inheritTagUncertainty], which goes on
    until every tag is resolved, ends there: as many passes as there are
    tags, each visiting every tag, are enough. *)
Theorem reference_graph_kept (mgr0 mgr : Manager) :
  graphInv mgr0 -> apiReachable mgr0 mgr ->
  referencesKnown (tags mgr) /\ acyclic (tags mgr)
  /\ forall orders,
       Forall (visitsAll (tags mgr)) orders ->
       (size (tags mgr) <= length orders)%nat ->
       is_Some (inheritTagUncertainty orders mgr).
Proof.
  intros H0 Hreach.
  assert (Hinv : graphInv mgr).
  { induction Hreach as [| mgr1 mgr2 _ IH Hstep]; [exact H0 |].
    eapply apiStep_graphInv; eassumption. }
  destruct Hinv as (_ & Hk & Ha & _). split; [exact Hk |]. split; [exact Ha |].
  intros orders Hvis Hlen. destruct Ha as [rank Hr].
  destruct (inheritTagUncertainty_spec orders mgr rank Hk Hr Hvis Hlen)
    as (mgr' & -> & _).
  eexists. reflexivity.
Qed.

End GraphInvariant.

(** ** Scenarios *)

Import Examples ManagerExamples.

(** [tag/web] refers to the service and nothing refers to it: it can be
    deleted; the service cannot. *)
Lemma DelTag_spec_witness :
  (DelTag tagNames "tag/web" tagged).2 = None
  /\ tags (DelTag tagNames "tag/web" tagged).1 !! "tag/web" = None
  /\ (DelTag tagNames "service/http" tagged).1 = tagged.
Proof.
  assert (Hvis : visitsAll (tags tagged) tagNames)
    by (apply visitsAllb_sound; vm_compute; reflexivity).
  destruct (DelTag_spec tagNames "tag/web" tagged Hvis) as (_ & _ & Hok).
  destruct (DelTag_spec tagNames "service/http" tagged Hvis) as (_ & Herr & _).
  split; [reflexivity |]. split.
  - rewrite (Hok eq_refl). apply lookup_delete_eq.
  - apply Herr. discriminate.
Defined.

Lemma graphInv_mgr8 : graphInv mgr8.
Proof.
  change (graphInv (set_allStreams (allBelow 8) (set_nextStreamID 8 emptyManager))).
  unfold graphInv, managerInv, marksCertain, jobsFromMarks, referencesKnown,
    acyclic, ranked, tagsParsed, jobsParsed.
  cbn [tags started set_allStreams set_nextStreamID emptyManager].
  repeat split; try (exists (fun _ => 0%nat)); intros;
    repeat match goal with
           | H : ∅ !! _ = Some _ |- _ => rewrite lookup_empty in H; discriminate H
           | H : _ ∈ [] |- _ => apply elem_of_nil in H; destruct H
           end.
Qed.

Lemma reachable_untagged : apiReachable mgr8 untagged.
Proof.
  unfold untagged, tagged.
  eapply api_next;
    [eapply api_next;
       [eapply api_next;
          [eapply api_next;
             [eapply api_next; [apply api_here |] |] |] |] |].
  - apply api_step. apply (step_AddTag [] "mark/favs" "#f00" "id:3,7" mgr8).
  - apply api_step.
    apply (step_AddTag tagNames "service/http" "#0f0" "service:http").
  - apply api_step. apply (step_AddTag tagNames "tag/web" "#00f" "tag:http").
  - apply api_step.
    apply (step_AddTag tagNames "tag/slow" "#ff0" "@sub:tag:http").
  - apply (api_DelTag tagNames "tag/web").
    apply visitsAllb_sound. vm_compute. reflexivity.
Qed.

(** After the tags of the examples were added and [tag/web] deleted, the
    three tags left can be resolved in three passes. *)
Lemma reference_graph_kept_witness :
  referencesKnown (tags untagged)
  /\ is_Some (inheritTagUncertainty (replicate 3 tagNames) untagged).
Proof.
  destruct (reference_graph_kept (QP := exQuery) exQuery_idOnly mgr8 untagged
              graphInv_mgr8 reachable_untagged) as (Hk & _ & Hloop).
  split; [exact Hk |]. apply Hloop.
  - change (replicate 3 tagNames) with [tagNames; tagNames; tagNames].
    repeat (constructor; [apply visitsAllb_sound; vm_compute; reflexivity |]).
    constructor.
  - change (size (tags untagged)) with 3%nat. repeat constructor.
Defined.

Lemma noZero_empty : noZero (∅ : gmap N Z).
Proof. intros i. rewrite lookup_empty. discriminate. Qed.

(** A view on the two indexes is fetched and released. *)
Lemma fetch_Release_witness :
  View_Release (fetch GetView owned).2 (fetch GetView owned).1 = owned.
Proof.
  assert (Hb : forall i, cnt (∅ : gmap N Z) i + occ i [rd 0 40; rd 1 30] < 2 ^ 64).
  { intros i. unfold cnt. rewrite lookup_empty. cbn.
    repeat case_decide; reflexivity. }
  destruct (lock_counts [rd 0 40; rd 1 30] ∅ noZero_empty
              ltac:(intros i; unfold cnt; rewrite lookup_empty; cbn; lia) Hb)
    as [Hz Hc].
  assert (Hcnt : forall i, cnt (usedIndexes owned) i = occ i [rd 0 40; rd 1 30]).
  { intros i. change (usedIndexes owned)
      with (foldl lock1 (∅ : gmap N Z) [rd 0 40; rd 1 30]).
    rewrite Hc. unfold cnt. rewrite lookup_empty. reflexivity. }
  apply fetch_Release.
  - exact Hz.
  - intros i. rewrite Hcnt. apply occ_nonneg.
  - intros i. rewrite Hcnt. change (indexes owned) with [rd 0 40; rd 1 30].
    cbn. repeat case_decide; reflexivity.
  - intros idx Hin. rewrite Hcnt. change (indexes owned) with [rd 0 40; rd 1 30] in Hin.
    apply elem_of_cons in Hin as [-> | Hin];
      [| apply elem_of_cons in Hin as [-> | Hin];
         [| apply elem_of_nil in Hin; destruct Hin]];
      cbn; repeat case_decide; try congruence; lia.
Defined.

(** Stream 5 is added to the mark of the streams 3 and 7. *)
Lemma UpdateTag_mark_spec_witness :
  exists mgr',
    UpdateTag [["mark/favs"]] ["mark/favs"] [] "mark/favs"
      (markInfo [5%N] []) favs = Some (mgr', None)
    /\ (Matches <$> tags mgr' !! "mark/favs") = Some {[3%N; 5%N; 7%N]}
    /\ (Uncertain <$> tags mgr' !! "mark/favs") = Some ∅.
Proof.
  destruct (UpdateTag_mark_spec (QP := exQuery) [["mark/favs"]] ["mark/favs"] []
              "mark/favs" [5%N] [] favs favsTag (fun _ => 0%nat))
    as (mgr2 & mgr' & HU & _ & _ & Ht).
  - reflexivity.
  - reflexivity.
  - split; reflexivity.
  - reflexivity.
  - discriminate.
  - discriminate.
  - apply referencesKnownb_sound. vm_compute. reflexivity.
  - apply rankedb_sound. vm_compute. reflexivity.
  - constructor; [| constructor]. apply visitsAllb_sound. vm_compute. reflexivity.
  - change (size (tags favs)) with 1%nat. repeat constructor.
  - exists mgr'. split; [exact HU |]. rewrite Ht. split; reflexivity.
Defined.

Lemma markDefinition_spec_witness : markDefinition {[3%N; 7%N]} = "id:3,7".
Proof.
  apply (markDefinition_spec {[3%N; 7%N]} [3%N; 7%N]).
  - repeat constructor.
  - intros x. rewrite elem_of_union, !elem_of_singleton, elem_of_cons,
      elem_of_cons, elem_of_nil. tauto.
Defined.

(** Stream 9 does not exist: the manager knows the streams below 8. *)
Lemma UpdateTag_mark_unknown_stream_witness :
  UpdateTag [["mark/favs"]] ["mark/favs"] [] "mark/favs"
    (markInfo [9%N] []) favs
  = Some (favs, Some (ErrMsg "unknown stream id 9")).
Proof.
  apply (UpdateTag_mark_unknown_stream (QP := exQuery) [["mark/favs"]]
           ["mark/favs"] [] "mark/favs" [9%N] [] favs favsTag).
  - reflexivity.
  - reflexivity.
  - repeat constructor.
  - discriminate.
  - reflexivity.
Defined.

End ManagerMore.
